(** * CGType: the math2 expression editor (math2.h / math2.c)

    A shallow embedding of the pooled expression tree, its cursor, the
    structural insertions, the draw traversal and the LaTeX serializer,
    followed by the properties checked against the code.

    Conventions of the embedding.
    - A pointer [expr_node_t *] into the pool [expr->nodes] is the index of
      the slot it points to; [None] is [NULL].
    - Every function that goes through pointers runs in the monad [M]:
      a state transformer on [math_expr2_t] that can fail.  Failure stands
      for the C program dereferencing [NULL] (or an address outside the
      pool): the function has no defined result there.
    - The [data] union of a node is a tagged value.  [math2_alloc_node]
      zeroes the slot and sets [type], every later access is made under the
      [type] it was allocated with, so the tag always agrees with [type]
      while the slot is live; reading a member of another variant gives
      the zero value, as reading the freshly zeroed union does. *)

From Stdlib Require Import ZArith String Ascii.
From stdpp Require Import base decidable option numbers list sets strings pretty.

Local Open Scope nat_scope.

(** ** math2.h: constants and types *)

Definition MAX_NODES : nat := 256.
Definition MAX_LATEX : nat := 1024.

Inductive node_type_t : Set :=
  | NODE_EMPTY | NODE_SEQUENCE | NODE_TEXT | NODE_FRACTION | NODE_EXPONENT
  | NODE_SUBSCRIPT | NODE_ROOT | NODE_NTHROOT | NODE_ABS | NODE_PAREN
  | NODE_FUNCTION | NODE_MIXED_FRAC.

Inductive text_type_t : Set :=
  | TEXT_NUMBER | TEXT_VARIABLE | TEXT_OPERATOR | TEXT_PI
  | TEXT_PAREN_OPEN | TEXT_PAREN_CLOSE.

#[global] Instance node_type_eq_dec : EqDecision node_type_t.
Proof. solve_decision. Defined.

#[global] Instance text_type_eq_dec : EqDecision text_type_t.
Proof. solve_decision. Defined.

(** [expr_node_t *]: a slot of the pool, or [NULL]. *)
Definition ptr : Set := option nat.

Definition NULL : ptr := None.

(** The [data] union of [struct expr_node]. [DZero] is the zeroed union of
    a slot that was never given a type. *)
Inductive node_data : Set :=
  | DZero
  | DSeq (first last : ptr)
  | DText (subtype : text_type_t) (text : string)
  | DFrac (numer denom : ptr)
  | DExp (base power : ptr)
  | DSubscript (base sub : ptr)
  | DRoot (index : Z) (content : ptr)
  | DNthroot (index content : ptr)
  | DMixed (whole numer denom : ptr)
  | DAbs (content : ptr)
  | DParen (content : ptr)
  | DFunc (name : string) (arg : ptr).

Record expr_node : Set := mk_node {
  type : node_type_t;
  parent : ptr;
  next : ptr;
  prev : ptr;
  data : node_data
}.

Record metrics_t : Set := mk_metrics {
  width : Z;
  height : Z;
  baseline : Z
}.

Record cursor_t : Set := mk_cursor {
  sequence : ptr;
  after : ptr
}.

(** [math_expr2_t]. [nodes] is the array [nodes[MAX_NODES]]; [next_free] is
    the C [int] of the same name, which [math2_init] sets to 0 and
    [math2_alloc_node] to a residue modulo [MAX_NODES], so it is never
    negative. [latex] holds the bytes of the C string kept in
    [latex[MAX_LATEX]], without its terminating zero. *)
Record math_expr2_t : Set := mk_expr {
  nodes : list expr_node;
  next_free : nat;
  root : ptr;
  cursor : cursor_t;
  latex : string;
  shift_mode : bool;
  alpha_mode : bool
}.

(** *** Members of the union, read and written *)

Definition seq_first (n : expr_node) : ptr :=
  match data n with DSeq f _ => f | _ => NULL end.
Definition seq_last (n : expr_node) : ptr :=
  match data n with DSeq _ l => l | _ => NULL end.
Definition text_subtype (n : expr_node) : text_type_t :=
  match data n with DText s _ => s | _ => TEXT_NUMBER end.
Definition text_text (n : expr_node) : string :=
  match data n with DText _ t => t | _ => EmptyString end.
Definition frac_numer (n : expr_node) : ptr :=
  match data n with DFrac a _ => a | _ => NULL end.
Definition frac_denom (n : expr_node) : ptr :=
  match data n with DFrac _ b => b | _ => NULL end.
Definition exp_base (n : expr_node) : ptr :=
  match data n with DExp a _ => a | _ => NULL end.
Definition exp_power (n : expr_node) : ptr :=
  match data n with DExp _ b => b | _ => NULL end.
Definition subscript_base (n : expr_node) : ptr :=
  match data n with DSubscript a _ => a | _ => NULL end.
Definition subscript_sub (n : expr_node) : ptr :=
  match data n with DSubscript _ b => b | _ => NULL end.
Definition root_index (n : expr_node) : Z :=
  match data n with DRoot i _ => i | _ => 0%Z end.
Definition root_content (n : expr_node) : ptr :=
  match data n with DRoot _ c => c | _ => NULL end.
Definition nthroot_index (n : expr_node) : ptr :=
  match data n with DNthroot i _ => i | _ => NULL end.
Definition nthroot_content (n : expr_node) : ptr :=
  match data n with DNthroot _ c => c | _ => NULL end.
Definition mixed_whole (n : expr_node) : ptr :=
  match data n with DMixed w _ _ => w | _ => NULL end.
Definition mixed_numer (n : expr_node) : ptr :=
  match data n with DMixed _ a _ => a | _ => NULL end.
Definition mixed_denom (n : expr_node) : ptr :=
  match data n with DMixed _ _ b => b | _ => NULL end.
Definition abs_content (n : expr_node) : ptr :=
  match data n with DAbs c => c | _ => NULL end.
Definition paren_content (n : expr_node) : ptr :=
  match data n with DParen c => c | _ => NULL end.
Definition func_name (n : expr_node) : string :=
  match data n with DFunc s _ => s | _ => EmptyString end.
Definition func_arg (n : expr_node) : ptr :=
  match data n with DFunc _ a => a | _ => NULL end.

Definition set_type (t : node_type_t) (n : expr_node) : expr_node :=
  mk_node t (parent n) (next n) (prev n) (data n).
Definition set_parent (p : ptr) (n : expr_node) : expr_node :=
  mk_node (type n) p (next n) (prev n) (data n).
Definition set_next (p : ptr) (n : expr_node) : expr_node :=
  mk_node (type n) (parent n) p (prev n) (data n).
Definition set_prev (p : ptr) (n : expr_node) : expr_node :=
  mk_node (type n) (parent n) (next n) p (data n).
Definition set_data (d : node_data) (n : expr_node) : expr_node :=
  mk_node (type n) (parent n) (next n) (prev n) d.

Definition set_seq_first (p : ptr) (n : expr_node) : expr_node :=
  set_data (DSeq p (seq_last n)) n.
Definition set_seq_last (p : ptr) (n : expr_node) : expr_node :=
  set_data (DSeq (seq_first n) p) n.
Definition set_text_subtype (s : text_type_t) (n : expr_node) : expr_node :=
  set_data (DText s (text_text n)) n.
Definition set_text_text (t : string) (n : expr_node) : expr_node :=
  set_data (DText (text_subtype n) t) n.
Definition set_frac_numer (p : ptr) (n : expr_node) : expr_node :=
  set_data (DFrac p (frac_denom n)) n.
Definition set_frac_denom (p : ptr) (n : expr_node) : expr_node :=
  set_data (DFrac (frac_numer n) p) n.
Definition set_exp_base (p : ptr) (n : expr_node) : expr_node :=
  set_data (DExp p (exp_power n)) n.
Definition set_exp_power (p : ptr) (n : expr_node) : expr_node :=
  set_data (DExp (exp_base n) p) n.
Definition set_subscript_base (p : ptr) (n : expr_node) : expr_node :=
  set_data (DSubscript p (subscript_sub n)) n.
Definition set_subscript_sub (p : ptr) (n : expr_node) : expr_node :=
  set_data (DSubscript (subscript_base n) p) n.
Definition set_root_index (i : Z) (n : expr_node) : expr_node :=
  set_data (DRoot i (root_content n)) n.
Definition set_root_content (p : ptr) (n : expr_node) : expr_node :=
  set_data (DRoot (root_index n) p) n.
Definition set_nthroot_index (p : ptr) (n : expr_node) : expr_node :=
  set_data (DNthroot p (nthroot_content n)) n.
Definition set_nthroot_content (p : ptr) (n : expr_node) : expr_node :=
  set_data (DNthroot (nthroot_index n) p) n.
Definition set_mixed_whole (p : ptr) (n : expr_node) : expr_node :=
  set_data (DMixed p (mixed_numer n) (mixed_denom n)) n.
Definition set_mixed_numer (p : ptr) (n : expr_node) : expr_node :=
  set_data (DMixed (mixed_whole n) p (mixed_denom n)) n.
Definition set_mixed_denom (p : ptr) (n : expr_node) : expr_node :=
  set_data (DMixed (mixed_whole n) (mixed_numer n) p) n.
Definition set_abs_content (p : ptr) (n : expr_node) : expr_node :=
  set_data (DAbs p) n.
Definition set_paren_content (p : ptr) (n : expr_node) : expr_node :=
  set_data (DParen p) n.
Definition set_func_name (s : string) (n : expr_node) : expr_node :=
  set_data (DFunc s (func_arg n)) n.
Definition set_func_arg (p : ptr) (n : expr_node) : expr_node :=
  set_data (DFunc (func_name n) p) n.

(** The slot after [memset(node, 0, sizeof( *node))]; [node->type = type]. *)
Definition zero_data (t : node_type_t) : node_data :=
  match t with
  | NODE_EMPTY => DZero
  | NODE_SEQUENCE => DSeq NULL NULL
  | NODE_TEXT => DText TEXT_NUMBER EmptyString
  | NODE_FRACTION => DFrac NULL NULL
  | NODE_EXPONENT => DExp NULL NULL
  | NODE_SUBSCRIPT => DSubscript NULL NULL
  | NODE_ROOT => DRoot 0 NULL
  | NODE_NTHROOT => DNthroot NULL NULL
  | NODE_ABS => DAbs NULL
  | NODE_PAREN => DParen NULL
  | NODE_FUNCTION => DFunc EmptyString NULL
  | NODE_MIXED_FRAC => DMixed NULL NULL NULL
  end.

Definition fresh_node (t : node_type_t) : expr_node :=
  mk_node t NULL NULL NULL (zero_data t).

(** *** The editor state, field by field *)

Definition with_nodes (ns : list expr_node) (e : math_expr2_t) : math_expr2_t :=
  mk_expr ns (next_free e) (root e) (cursor e) (latex e) (shift_mode e) (alpha_mode e).
Definition with_next_free (k : nat) (e : math_expr2_t) : math_expr2_t :=
  mk_expr (nodes e) k (root e) (cursor e) (latex e) (shift_mode e) (alpha_mode e).
Definition with_root (r : ptr) (e : math_expr2_t) : math_expr2_t :=
  mk_expr (nodes e) (next_free e) r (cursor e) (latex e) (shift_mode e) (alpha_mode e).
Definition with_cursor (c : cursor_t) (e : math_expr2_t) : math_expr2_t :=
  mk_expr (nodes e) (next_free e) (root e) c (latex e) (shift_mode e) (alpha_mode e).
Definition with_latex (s : string) (e : math_expr2_t) : math_expr2_t :=
  mk_expr (nodes e) (next_free e) (root e) (cursor e) s (shift_mode e) (alpha_mode e).
Definition with_shift_mode (b : bool) (e : math_expr2_t) : math_expr2_t :=
  mk_expr (nodes e) (next_free e) (root e) (cursor e) (latex e) b (alpha_mode e).
Definition with_alpha_mode (b : bool) (e : math_expr2_t) : math_expr2_t :=
  mk_expr (nodes e) (next_free e) (root e) (cursor e) (latex e) (shift_mode e) b.

Definition with_cursor_sequence (p : ptr) (e : math_expr2_t) : math_expr2_t :=
  with_cursor (mk_cursor p (after (cursor e))) e.
Definition with_cursor_after (p : ptr) (e : math_expr2_t) : math_expr2_t :=
  with_cursor (mk_cursor (sequence (cursor e)) p) e.

(** ** The monad of the embedding *)

Definition M (A : Type) : Type := math_expr2_t → option (A * math_expr2_t).

#[global] Instance M_ret : MRet M := λ A x e, Some (x, e).
#[global] Instance M_bind : MBind M := λ A B f m e,
  match m e with
  | Some (x, e') => f x e'
  | None => None
  end.

(** Reading a field of [*expr]. *)
Definition gets {A : Type} (f : math_expr2_t → A) : M A := λ e, Some (f e, e).
(** Writing a field of [*expr]. *)
Definition modify (f : math_expr2_t → math_expr2_t) : M unit := λ e, Some ((), f e).
(** The undefined behaviour of a bad dereference. *)
Definition undefined {A : Type} : M A := λ _, None.

(** [*p] for a pointer known not to be [NULL]. *)
Definition load (i : nat) : M expr_node := λ e,
  match nodes e !! i with
  | Some n => Some (n, e)
  | None => None
  end.

(** [*p], [p] possibly [NULL]. *)
Definition deref (p : ptr) : M expr_node :=
  match p with
  | Some i => load i
  | None => undefined
  end.

(** [p->field = v]: the slot [i] rewritten by [f]. *)
Definition store (i : nat) (f : expr_node → expr_node) : M unit := λ e,
  match nodes e !! i with
  | Some _ => Some ((), with_nodes (alter f i (nodes e)) e)
  | None => None
  end.

(** [if(p) body(p)]. *)
Definition when_ptr (p : ptr) (body : nat → M unit) : M unit :=
  match p with
  | Some i => body i
  | None => mret ()
  end.

(** The state a [void] function leaves, if it is defined. *)
Definition exec {A : Type} (m : M A) (e : math_expr2_t) : option math_expr2_t :=
  snd <$> m e.

(** ** Node pool management *)

Definition math2_clear_modes : M unit :=
  modify (with_shift_mode false);;
  modify (with_alpha_mode false).

(** The loop of [math2_alloc_node]: [k] iterations are left and the loop
    counter is [i]; the result is the first [idx] found [NODE_EMPTY]. *)
Fixpoint alloc_scan (ns : list expr_node) (nf : nat) (k i : nat) : option nat :=
  match k with
  | 0 => None
  | S k' =>
      let idx := (nf + i) mod MAX_NODES in
      match ns !! idx with
      | Some n =>
          if decide (type n = NODE_EMPTY) then Some idx
          else alloc_scan ns nf k' (S i)
      | None => alloc_scan ns nf k' (S i)
      end
  end.

Definition math2_alloc_node (t : node_type_t) : M ptr := λ e,
  match alloc_scan (nodes e) (next_free e) MAX_NODES 0 with
  | Some idx =>
      Some (Some idx,
            with_next_free ((idx + 1) mod MAX_NODES)
              (with_nodes (<[idx := fresh_node t]> (nodes e)) e))
  | None => Some (NULL, e)
  end.

Definition math2_new_sequence : M ptr :=
  seq ← math2_alloc_node NODE_SEQUENCE;
  when_ptr seq (λ s,
    store s (set_seq_first NULL);;
    store s (set_seq_last NULL));;
  mret seq.

(** [math2_free_node] recurses through the tree and loops over the children
    of a sequence; [fuel] bounds the depth of both, and running out of it
    gives no result. *)
Fixpoint math2_free_node (fuel : nat) (node : ptr) : M unit :=
  match fuel with
  | 0 => undefined
  | S fuel' =>
      match node with
      | None => mret ()
      | Some i =>
          n ← load i;
          if decide (type n = NODE_EMPTY) then mret ()
          else
            match type n with
            | NODE_SEQUENCE => free_children fuel' (seq_first n)
            | NODE_FRACTION =>
                math2_free_node fuel' (frac_numer n);;
                n ← load i; math2_free_node fuel' (frac_denom n)
            | NODE_EXPONENT =>
                math2_free_node fuel' (exp_base n);;
                n ← load i; math2_free_node fuel' (exp_power n)
            | NODE_SUBSCRIPT =>
                math2_free_node fuel' (subscript_base n);;
                n ← load i; math2_free_node fuel' (subscript_sub n)
            | NODE_ROOT => math2_free_node fuel' (root_content n)
            | NODE_NTHROOT =>
                math2_free_node fuel' (nthroot_index n);;
                n ← load i; math2_free_node fuel' (nthroot_content n)
            | NODE_ABS => math2_free_node fuel' (abs_content n)
            | NODE_PAREN => math2_free_node fuel' (paren_content n)
            | NODE_FUNCTION => math2_free_node fuel' (func_arg n)
            | NODE_MIXED_FRAC =>
                math2_free_node fuel' (mixed_whole n);;
                n ← load i; math2_free_node fuel' (mixed_numer n);;
                n ← load i; math2_free_node fuel' (mixed_denom n)
            | _ => mret ()
            end;;
            store i (set_type NODE_EMPTY)
      end
  end
with free_children (fuel : nat) (child : ptr) : M unit :=
  match fuel with
  | 0 => undefined
  | S fuel' =>
      match child with
      | None => mret ()
      | Some c =>
          n ← load c;
          math2_free_node fuel' (Some c);;
          free_children fuel' (next n)
      end
  end.

Definition math2_init : math_expr2_t :=
  let e0 := mk_expr (replicate MAX_NODES (fresh_node NODE_EMPTY)) 0 NULL
                    (mk_cursor NULL NULL) EmptyString false false in
  match math2_new_sequence e0 with
  | Some (r, e1) =>
      with_alpha_mode false (with_shift_mode false
        (with_cursor (mk_cursor r NULL) (with_root r e1)))
  | None => e0
  end.

(** ** Sequence operations *)

Definition seq_insert_after (seq after node : ptr) : M unit :=
  match seq, node with
  | Some s, Some n =>
      sn ← load s;
      if decide (type sn = NODE_SEQUENCE) then
        store n (set_parent (Some s));;
        match after with
        | None =>
            (* insert at beginning *)
            store n (set_prev NULL);;
            sn ← load s;
            store n (set_next (seq_first sn));;
            sn ← load s;
            when_ptr (seq_first sn) (λ f, store f (set_prev (Some n)));;
            store s (set_seq_first (Some n));;
            sn ← load s;
            match seq_last sn with
            | None => store s (set_seq_last (Some n))
            | Some _ => mret ()
            end
        | Some a =>
            (* insert after given node *)
            store n (set_prev (Some a));;
            an ← load a;
            store n (set_next (next an));;
            an ← load a;
            when_ptr (next an) (λ x, store x (set_prev (Some n)));;
            store a (set_next (Some n));;
            sn ← load s;
            if decide (seq_last sn = Some a) then store s (set_seq_last (Some n))
            else mret ()
        end
      else mret ()
  | _, _ => mret ()
  end.

Definition seq_remove (node : ptr) : M unit :=
  match node with
  | None => mret ()
  | Some n =>
      nn ← load n;
      match parent nn with
      | None => mret ()
      | Some s =>
          sn ← load s;
          if decide (type sn = NODE_SEQUENCE) then
            nn ← load n;
            match prev nn with
            | Some p => store p (set_next (next nn))
            | None => store s (set_seq_first (next nn))
            end;;
            nn ← load n;
            match next nn with
            | Some x => store x (set_prev (prev nn))
            | None => store s (set_seq_last (prev nn))
            end;;
            store n (set_parent NULL);;
            store n (set_prev NULL);;
            store n (set_next NULL)
          else mret ()
      end
  end.

Definition seq_is_empty (seq : ptr) : M bool :=
  match seq with
  | None => mret false
  | Some s =>
      sn ← load s;
      mret (bool_decide (type sn = NODE_SEQUENCE) && bool_decide (seq_first sn = NULL))
  end.

(** ** Cursor operations *)

Definition cursor_left : M bool :=
  c ← gets cursor;
  match after c with
  | Some a =>
      an ← load a;
      modify (with_cursor_after (prev an));;
      mret true
  | None => mret false
  end.

(** The node just right of the cursor: [cursor.after->next], or the first
    child of [cursor.sequence] when the cursor is at the start. *)
Definition node_ahead : M ptr :=
  c ← gets cursor;
  match after c with
  | Some a => an ← load a; mret (next an)
  | None => sn ← deref (sequence c); mret (seq_first sn)
  end.

Definition cursor_right : M bool :=
  nxt ← node_ahead;
  match nxt with
  | Some _ => modify (with_cursor_after nxt);; mret true
  | None => mret false
  end.

Definition get_last_slot (node : expr_node) : ptr :=
  match type node with
  | NODE_FRACTION => frac_denom node
  | NODE_EXPONENT => exp_power node
  | NODE_SUBSCRIPT => subscript_sub node
  | NODE_ROOT => root_content node
  | NODE_NTHROOT => nthroot_content node
  | NODE_ABS => abs_content node
  | NODE_PAREN => paren_content node
  | NODE_FUNCTION => func_arg node
  | NODE_MIXED_FRAC => mixed_denom node
  | _ => NULL
  end.

Definition get_first_slot (node : expr_node) : ptr :=
  match type node with
  | NODE_FRACTION => frac_numer node
  | NODE_EXPONENT => exp_base node
  | NODE_SUBSCRIPT => subscript_base node
  | NODE_ROOT => root_content node
  | NODE_NTHROOT => nthroot_index node
  | NODE_ABS => abs_content node
  | NODE_PAREN => paren_content node
  | NODE_FUNCTION => func_arg node
  | NODE_MIXED_FRAC => mixed_whole node
  | _ => NULL
  end.

(** The tail shared by the three enter functions:
    [if(slot && slot->type == NODE_SEQUENCE) { cursor = ...; return true; }
     return false;] with [at_end] telling whether [cursor.after] becomes
    [slot->data.seq.last] or [NULL]. *)
Definition enter_slot (slot : ptr) (at_end : bool) : M bool :=
  match slot with
  | None => mret false
  | Some s =>
      sn ← load s;
      if decide (type sn = NODE_SEQUENCE) then
        modify (with_cursor_sequence (Some s));;
        modify (with_cursor_after (if at_end then seq_last sn else NULL));;
        mret true
      else mret false
  end.

Definition cursor_enter_right : M bool :=
  target ← node_ahead;
  match target with
  | None => mret false
  | Some t => tn ← load t; enter_slot (get_first_slot tn) false
  end.

Definition cursor_enter_left : M bool :=
  target ← node_ahead;
  match target with
  | None => mret false
  | Some t => tn ← load t; enter_slot (get_last_slot tn) true
  end.

Definition cursor_enter : M bool :=
  c ← gets cursor;
  target ← match after c with
           | Some a => mret (Some a)
           | None => sn ← deref (sequence c); mret (seq_first sn)
           end;
  match target with
  | None => mret false
  | Some t => tn ← load t; enter_slot (get_first_slot tn) true
  end.

(** The body shared by [cursor_exit], [cursor_exit_right] (the same text)
    and [cursor_exit_left]: [to_left] tells whether [cursor.after] becomes
    [container->prev] or [container]. *)
Definition exit_container (to_left : bool) : M bool :=
  c ← gets cursor;
  sn ← deref (sequence c);
  match parent sn with
  | None => mret false
  | Some container =>
      cn ← load container;
      match parent cn with
      | None => mret false
      | Some cp =>
          cpn ← load cp;
          if decide (type cpn = NODE_SEQUENCE) then
            modify (with_cursor_sequence (Some cp));;
            modify (with_cursor_after (if to_left then prev cn else Some container));;
            mret true
          else mret false
      end
  end.

Definition cursor_exit_right : M bool := exit_container false.
Definition cursor_exit_left : M bool := exit_container true.
Definition cursor_exit : M bool := exit_container false.

Definition get_next_slot (container : expr_node) (current_slot : ptr) : ptr :=
  match type container with
  | NODE_FRACTION =>
      if decide (current_slot = frac_numer container) then frac_denom container
      else NULL
  | NODE_EXPONENT =>
      if decide (current_slot = exp_base container) then exp_power container
      else NULL
  | NODE_SUBSCRIPT =>
      if decide (current_slot = subscript_base container) then subscript_sub container
      else NULL
  | NODE_NTHROOT =>
      if decide (current_slot = nthroot_index container) then nthroot_content container
      else NULL
  | NODE_MIXED_FRAC =>
      if decide (current_slot = mixed_whole container) then mixed_numer container
      else if decide (current_slot = mixed_numer container) then mixed_denom container
      else NULL
  | _ => NULL
  end.

Definition get_prev_slot (container : expr_node) (current_slot : ptr) : ptr :=
  match type container with
  | NODE_FRACTION =>
      if decide (current_slot = frac_denom container) then frac_numer container
      else NULL
  | NODE_EXPONENT =>
      if decide (current_slot = exp_power container) then exp_base container
      else NULL
  | NODE_SUBSCRIPT =>
      if decide (current_slot = subscript_sub container) then subscript_base container
      else NULL
  | NODE_NTHROOT =>
      if decide (current_slot = nthroot_content container) then nthroot_index container
      else NULL
  | NODE_MIXED_FRAC =>
      if decide (current_slot = mixed_denom container) then mixed_numer container
      else if decide (current_slot = mixed_numer container) then mixed_whole container
      else NULL
  | _ => NULL
  end.

Definition cursor_next_slot : M bool :=
  c ← gets cursor;
  sn ← deref (sequence c);
  match parent sn with
  | None => mret false
  | Some container =>
      cn ← load container;
      enter_slot (get_next_slot cn (sequence c)) false
  end.

Definition cursor_prev_slot : M bool :=
  c ← gets cursor;
  sn ← deref (sequence c);
  match parent sn with
  | None => mret false
  | Some container =>
      cn ← load container;
      enter_slot (get_prev_slot cn (sequence c)) true
  end.

(** ** Editing operations *)

(** [strncpy(dst, src, n)] into a zeroed buffer of [n + 1] bytes: the
    first [n] bytes of [src]. *)
Definition strncpy (n : nat) (src : string) : string := substring 0 n src.

(** Loops over sibling chains visit every slot of the pool at most once
    before they repeat, so [loop_fuel] iterations cover every run that
    ends; a run that exhausts them has no result. *)
Definition loop_fuel : nat := S MAX_NODES.

Definition math2_insert_text (subtype : text_type_t) (text : string) : M unit :=
  node ← math2_alloc_node NODE_TEXT;
  match node with
  | None => mret ()
  | Some n =>
      store n (set_text_subtype subtype);;
      store n (set_text_text (strncpy 15 text));;
      c ← gets cursor;
      seq_insert_after (sequence c) (after c) node;;
      modify (with_cursor_after node);;
      math2_clear_modes
  end.

(** [IS_OPERATOR(n)] *)
Definition IS_OPERATOR (n : expr_node) : bool :=
  bool_decide (type n = NODE_TEXT) && bool_decide (text_subtype n = TEXT_OPERATOR).

(** The kinds the backward walk of [math2_insert_fraction] steps over. *)
Definition fraction_collects (t : node_type_t) : bool :=
  match t with
  | NODE_TEXT | NODE_EXPONENT | NODE_SUBSCRIPT | NODE_PAREN
  | NODE_FRACTION | NODE_ROOT | NODE_ABS => true
  | _ => false
  end.

(** [while(collect_start) { ... }]: the value of [collect_start] when the
    loop is left. *)
Fixpoint collect_walk (fuel : nat) (collect_start : ptr) : M ptr :=
  match fuel with
  | 0 => undefined
  | S fuel' =>
      match collect_start with
      | None => mret NULL
      | Some cs =>
          csn ← load cs;
          if IS_OPERATOR csn then mret (next csn)
          else
            match prev csn with
            | None => mret collect_start
            | Some p =>
                pn ← load p;
                if IS_OPERATOR pn then mret collect_start
                else if fraction_collects (type pn) then collect_walk fuel' (Some p)
                else mret collect_start
            end
      end
  end.

(** [while(node) { ... }]: the collected nodes moved one by one into
    [frac->data.frac.numer]. *)
Fixpoint collect_move (fuel : nat) (frac : nat) (node collect_end last_inserted : ptr)
    : M unit :=
  match fuel with
  | 0 => undefined
  | S fuel' =>
      match node with
      | None => mret ()
      | Some nd =>
          ndn ← load nd;
          let nxt := next ndn in
          let is_last := bool_decide (node = collect_end) in
          seq_remove node;;
          fn ← load frac;
          seq_insert_after (frac_numer fn) last_inserted node;;
          if is_last then mret ()
          else collect_move fuel' frac nxt collect_end node
      end
  end.

Definition math2_insert_fraction : M unit :=
  frac ← math2_alloc_node NODE_FRACTION;
  match frac with
  | None => mret ()
  | Some f =>
      numer ← math2_new_sequence;
      store f (set_frac_numer numer);;
      denom ← math2_new_sequence;
      store f (set_frac_denom denom);;
      match numer, denom with
      | Some nu, Some de =>
          store nu (set_parent frac);;
          store de (set_parent frac);;
          c ← gets cursor;
          let collect_end := after c in
          collect_start ← collect_walk loop_fuel collect_end;
          match collect_start, collect_end with
          | Some cs, Some _ =>
              csn ← load cs;
              modify (with_cursor_after (prev csn));;
              collect_move loop_fuel f collect_start collect_end NULL
          | _, _ => mret ()
          end;;
          c ← gets cursor;
          seq_insert_after (sequence c) (after c) frac;;
          fn ← load f;
          no_numer ← seq_is_empty (frac_numer fn);
          (if no_numer : bool then modify (with_cursor_sequence (frac_numer fn))
           else modify (with_cursor_sequence (frac_denom fn)));;
          modify (with_cursor_after NULL);;
          math2_clear_modes
      | _, _ => mret ()
      end
  end.

(** The kinds [math2_insert_exponent] takes as base. *)
Definition exponent_collects (t : node_type_t) : bool :=
  match t with
  | NODE_TEXT | NODE_FRACTION | NODE_PAREN | NODE_EXPONENT | NODE_ROOT => true
  | _ => false
  end.

(** [prev = cursor.after; cursor.after = prev->prev; seq_remove(prev);
    seq_insert_after(slot, NULL, prev);], shared by exponent and subscript. *)
Definition collect_previous (a : nat) (slot : ptr) : M unit :=
  an ← load a;
  modify (with_cursor_after (prev an));;
  seq_remove (Some a);;
  seq_insert_after slot NULL (Some a).

Definition math2_insert_exponent : M unit :=
  exp ← math2_alloc_node NODE_EXPONENT;
  match exp with
  | None => mret ()
  | Some x =>
      base ← math2_new_sequence;
      store x (set_exp_base base);;
      power ← math2_new_sequence;
      store x (set_exp_power power);;
      match base, power with
      | Some b, Some p =>
          store b (set_parent exp);;
          store p (set_parent exp);;
          c ← gets cursor;
          match after c with
          | Some a =>
              an ← load a;
              if exponent_collects (type an) then
                xn ← load x; collect_previous a (exp_base xn)
              else mret ()
          | None => mret ()
          end;;
          c ← gets cursor;
          seq_insert_after (sequence c) (after c) exp;;
          xn ← load x;
          modify (with_cursor_sequence (exp_power xn));;
          modify (with_cursor_after NULL);;
          math2_clear_modes
      | _, _ => mret ()
      end
  end.

Definition math2_insert_subscript : M unit :=
  sub ← math2_alloc_node NODE_SUBSCRIPT;
  match sub with
  | None => mret ()
  | Some x =>
      base ← math2_new_sequence;
      store x (set_subscript_base base);;
      s ← math2_new_sequence;
      store x (set_subscript_sub s);;
      match base, s with
      | Some b, Some p =>
          store b (set_parent sub);;
          store p (set_parent sub);;
          c ← gets cursor;
          match after c with
          | Some a =>
              an ← load a;
              if decide (type an = NODE_TEXT) then
                xn ← load x; collect_previous a (subscript_base xn)
              else mret ()
          | None => mret ()
          end;;
          c ← gets cursor;
          seq_insert_after (sequence c) (after c) sub;;
          xn ← load x;
          modify (with_cursor_sequence (subscript_sub xn));;
          modify (with_cursor_after NULL);;
          math2_clear_modes
      | _, _ => mret ()
      end
  end.

Definition math2_insert_nthroot (n : Z) : M unit :=
  root ← math2_alloc_node NODE_ROOT;
  match root with
  | None => mret ()
  | Some r =>
      store r (set_root_index n);;
      content ← math2_new_sequence;
      store r (set_root_content content);;
      match content with
      | Some ct =>
          store ct (set_parent root);;
          c ← gets cursor;
          seq_insert_after (sequence c) (after c) root;;
          rn ← load r;
          modify (with_cursor_sequence (root_content rn));;
          modify (with_cursor_after NULL);;
          math2_clear_modes
      | None => mret ()
      end
  end.

Definition math2_insert_sqrt : M unit := math2_insert_nthroot 2.

Definition math2_insert_xthroot : M unit :=
  root ← math2_alloc_node NODE_NTHROOT;
  match root with
  | None => mret ()
  | Some r =>
      index ← math2_new_sequence;
      store r (set_nthroot_index index);;
      content ← math2_new_sequence;
      store r (set_nthroot_content content);;
      match index, content with
      | Some ix, Some ct =>
          store ix (set_parent root);;
          store ct (set_parent root);;
          c ← gets cursor;
          seq_insert_after (sequence c) (after c) root;;
          rn ← load r;
          modify (with_cursor_sequence (nthroot_index rn));;
          modify (with_cursor_after NULL);;
          math2_clear_modes
      | _, _ => mret ()
      end
  end.

Definition math2_insert_mixed_frac : M unit :=
  mf ← math2_alloc_node NODE_MIXED_FRAC;
  match mf with
  | None => mret ()
  | Some m =>
      whole ← math2_new_sequence;
      store m (set_mixed_whole whole);;
      numer ← math2_new_sequence;
      store m (set_mixed_numer numer);;
      denom ← math2_new_sequence;
      store m (set_mixed_denom denom);;
      match whole, numer, denom with
      | Some w, Some nu, Some de =>
          store w (set_parent mf);;
          store nu (set_parent mf);;
          store de (set_parent mf);;
          c ← gets cursor;
          seq_insert_after (sequence c) (after c) mf;;
          mn ← load m;
          modify (with_cursor_sequence (mixed_whole mn));;
          modify (with_cursor_after NULL);;
          math2_clear_modes
      | _, _, _ => mret ()
      end
  end.

Definition math2_insert_abs : M unit :=
  abs ← math2_alloc_node NODE_ABS;
  match abs with
  | None => mret ()
  | Some a =>
      content ← math2_new_sequence;
      store a (set_abs_content content);;
      match content with
      | Some ct =>
          store ct (set_parent abs);;
          c ← gets cursor;
          seq_insert_after (sequence c) (after c) abs;;
          an ← load a;
          modify (with_cursor_sequence (abs_content an));;
          modify (with_cursor_after NULL);;
          math2_clear_modes
      | None => mret ()
      end
  end.

Definition math2_insert_paren : M unit :=
  paren ← math2_alloc_node NODE_PAREN;
  match paren with
  | None => mret ()
  | Some p =>
      content ← math2_new_sequence;
      store p (set_paren_content content);;
      match content with
      | Some ct =>
          store ct (set_parent paren);;
          c ← gets cursor;
          seq_insert_after (sequence c) (after c) paren;;
          pn ← load p;
          modify (with_cursor_sequence (paren_content pn));;
          modify (with_cursor_after NULL);;
          math2_clear_modes
      | None => mret ()
      end
  end.

Definition math2_insert_function (name : string) : M unit :=
  func ← math2_alloc_node NODE_FUNCTION;
  match func with
  | None => mret ()
  | Some f =>
      store f (set_func_name (strncpy 7 name));;
      arg ← math2_new_sequence;
      store f (set_func_arg arg);;
      match arg with
      | Some ag =>
          store ag (set_parent func);;
          c ← gets cursor;
          seq_insert_after (sequence c) (after c) func;;
          fn ← load f;
          modify (with_cursor_sequence (func_arg fn));;
          modify (with_cursor_after NULL);;
          math2_clear_modes
      | None => mret ()
      end
  end.

(** The recursion of [math2_free_node] follows child pointers and sibling
    chains through slots that are still live, each of them once. *)
Definition free_fuel : nat := 2 * MAX_NODES + 2.

Definition math2_delete : M unit :=
  c ← gets cursor;
  match after c with
  | None => cursor_exit;; mret ()
  | Some to_delete =>
      dn ← load to_delete;
      modify (with_cursor_after (prev dn));;
      seq_remove (Some to_delete);;
      math2_free_node free_fuel (Some to_delete)
  end.

Definition math2_clear : M unit :=
  r ← gets root;
  rn ← deref r;
  free_children free_fuel (seq_first rn);;
  when_ptr r (λ i, store i (set_seq_first NULL);; store i (set_seq_last NULL));;
  r ← gets root;
  modify (with_cursor_sequence r);;
  modify (with_cursor_after NULL);;
  math2_clear_modes.

(** ** Mode management *)

Definition math2_toggle_shift : M unit :=
  s ← gets shift_mode;
  modify (with_shift_mode (negb s));;
  modify (with_alpha_mode false).

Definition math2_toggle_alpha : M unit :=
  a ← gets alpha_mode;
  modify (with_alpha_mode (negb a));;
  modify (with_shift_mode false).

(** ** LaTeX generation *)

Local Open Scope string_scope.

(** The two operator glyphs the serializer and the draw pass rewrite, as the
    UTF-8 bytes of the C string literals. *)
Definition MULT_SIGN : string :=
  String (ascii_of_nat 195) (String (ascii_of_nat 151) EmptyString).
Definition DIV_SIGN : string :=
  String (ascii_of_nat 195) (String (ascii_of_nat 183) EmptyString).

(** [strlen(buf) + 1] bytes are stored from [buf] on: the string and its
    terminating zero. *)
Definition bytes_stored (buf : string) : nat := String.length buf + 1.

(** [strcat(buf, s)]: [s] appended at the end of the string in [buf]. The C
    function checks no capacity, and [buf] is [expr->latex] in every call of
    the serializer: an array of [MAX_LATEX] bytes, with [shift_mode] and
    [alpha_mode] right behind it. When the string and its terminating zero do
    not fit the array the call writes past its end; such a call has no
    defined result. *)
Definition strcat (buf s : string) : option string :=
  if decide (bytes_stored (buf ++ s) ≤ MAX_LATEX)%nat then Some (buf ++ s) else None.

(** [snprintf(tmp, size, fmt, ...)] keeps the first [size - 1] bytes. *)
Definition snprintf (size : nat) (formatted : string) : string :=
  substring 0 (size - 1) formatted.

(** ["%d"] *)
Definition format_d (i : Z) : string := pretty.pretty i.

Fixpoint latex_node (fuel : nat) (ns : list expr_node) (node : ptr) (buf : string)
    : option string :=
  match fuel with
  | 0 => None
  | S fuel' =>
      match node with
      | None => Some buf
      | Some i =>
          n ← ns !! i;
          match type n with
          | NODE_SEQUENCE => latex_sequence fuel' ns node buf
          | NODE_TEXT =>
              match text_subtype n with
              | TEXT_PI => strcat buf "\pi "
              | TEXT_OPERATOR =>
                  if decide (text_text n = MULT_SIGN) then strcat buf "*"
                  else if decide (text_text n = DIV_SIGN) then strcat buf "/"
                  else strcat buf (text_text n)
              | _ => strcat buf (text_text n)
              end
          | NODE_FRACTION =>
              buf ← strcat buf "\frac{";
              buf ← latex_sequence fuel' ns (frac_numer n) buf;
              buf ← strcat buf "}{";
              buf ← latex_sequence fuel' ns (frac_denom n) buf;
              strcat buf "}"
          | NODE_EXPONENT =>
              buf ← strcat buf "{";
              buf ← latex_sequence fuel' ns (exp_base n) buf;
              buf ← strcat buf "}^{";
              buf ← latex_sequence fuel' ns (exp_power n) buf;
              strcat buf "}"
          | NODE_SUBSCRIPT =>
              buf ← strcat buf "{";
              buf ← latex_sequence fuel' ns (subscript_base n) buf;
              buf ← strcat buf "}_{";
              buf ← latex_sequence fuel' ns (subscript_sub n) buf;
              strcat buf "}"
          | NODE_ROOT =>
              buf ←
                (if decide (root_index n = 2%Z) then strcat buf "\sqrt{"
                 else strcat buf (snprintf 16 ("\sqrt[" ++ format_d (root_index n) ++ "]{")));
              buf ← latex_sequence fuel' ns (root_content n) buf;
              strcat buf "}"
          | NODE_ABS =>
              buf ← strcat buf "\left|";
              buf ← latex_sequence fuel' ns (abs_content n) buf;
              strcat buf "\right|"
          | NODE_PAREN =>
              buf ← strcat buf "\left(";
              buf ← latex_sequence fuel' ns (paren_content n) buf;
              strcat buf "\right)"
          | NODE_FUNCTION =>
              buf ← strcat buf "\";
              buf ← strcat buf (func_name n);
              buf ← strcat buf "\left(";
              buf ← latex_sequence fuel' ns (func_arg n) buf;
              strcat buf "\right)"
          | NODE_NTHROOT =>
              buf ← strcat buf "\sqrt[";
              buf ← latex_sequence fuel' ns (nthroot_index n) buf;
              buf ← strcat buf "]{";
              buf ← latex_sequence fuel' ns (nthroot_content n) buf;
              strcat buf "}"
          | NODE_MIXED_FRAC =>
              buf ← latex_sequence fuel' ns (mixed_whole n) buf;
              buf ← strcat buf "\frac{";
              buf ← latex_sequence fuel' ns (mixed_numer n) buf;
              buf ← strcat buf "}{";
              buf ← latex_sequence fuel' ns (mixed_denom n) buf;
              strcat buf "}"
          | NODE_EMPTY => Some buf
          end
      end
  end
with latex_sequence (fuel : nat) (ns : list expr_node) (seq : ptr) (buf : string)
    : option string :=
  match fuel with
  | 0 => None
  | S fuel' =>
      match seq with
      | None => Some buf
      | Some s =>
          sn ← ns !! s;
          if decide (type sn = NODE_SEQUENCE) then latex_children fuel' ns (seq_first sn) buf
          else Some buf
      end
  end
with latex_children (fuel : nat) (ns : list expr_node) (child : ptr) (buf : string)
    : option string :=
  match fuel with
  | 0 => None
  | S fuel' =>
      match child with
      | None => Some buf
      | Some c =>
          buf ← latex_node fuel' ns child buf;
          cn ← ns !! c;
          latex_children fuel' ns (next cn) buf
      end
  end.

(** The serializer goes down one call per level of nesting and one loop
    turn per sibling. *)
Definition render_fuel : nat := 3 * MAX_NODES + 3.

(** [expr->latex[0] = '\0'; latex_sequence(expr->root, expr->latex);]: the
    text is built from the empty string, and there is a result when every
    [strcat] stayed within the array. *)
Definition math2_to_latex : M unit := λ e,
  match latex_sequence render_fuel (nodes e) (root e) EmptyString with
  | Some s => Some ((), with_latex s e)
  | None => None
  end.

(** ** Rendering: the measure pass *)

(** C [int] arithmetic is taken in [Z]: [/] truncates ([Z.quot]), and no
    wrap-around is modelled. The definitions are those of the code where no
    [int] overflows: at the font scales from 0 to 100, which are the ones
    the editor measures and draws with, the sizes of an expression of the
    pool stay far below the range of [int]. *)

Local Open Scope Z_scope.

Definition CHAR_W : Z := 9.
Definition CHAR_H : Z := 14.
Definition FRAC_PAD : Z := 4.
Definition FRAC_BAR_H : Z := 2.
Definition EXP_SCALE : Z := 70.
Definition ROOT_PAD : Z := 4.

(** [(val * percent) / 100]. The product is the one of the integers; it is
    the one of the C [int]s as long as it lies in their range, as it does
    for the sizes of the editor at a scale of at most 100. *)
Definition scale (val percent : Z) : Z := (val * percent) ÷ 100.

Definition strlen (s : string) : Z := Z.of_nat (String.length s).

Definition text_width (text : string) (font_scale : Z) : Z :=
  scale (CHAR_W * strlen text) font_scale.

Definition text_height (font_scale : Z) : Z := scale CHAR_H font_scale.

(** [if(m.field < lo) m.field = lo;] *)
Definition at_least (lo v : Z) : Z := if decide (v < lo) then lo else v.

(** [a > b ? a : b] *)
Definition larger (a b : Z) : Z := if decide (a > b) then a else b.

Definition min_size (w h : Z) (m : metrics_t) : metrics_t :=
  mk_metrics (at_least w (width m)) (at_least h (height m)) (baseline m).

Fixpoint math2_measure (fuel : nat) (ns : list expr_node) (node : ptr) (font_scale : Z)
    : option metrics_t :=
  match fuel with
  | 0%nat => None
  | S fuel' =>
      match node with
      | None => Some (mk_metrics 0 0 0)
      | Some i =>
          n ← ns !! i;
          match type n with
          | NODE_SEQUENCE => measure_sequence fuel' ns node font_scale
          | NODE_TEXT =>
              let h := text_height font_scale in
              if decide (text_subtype n = TEXT_PI) then Some (mk_metrics 10 h (h ÷ 2))
              else Some (mk_metrics (text_width (text_text n) font_scale) h (h ÷ 2))
          | NODE_FRACTION =>
              num ← math2_measure fuel' ns (frac_numer n) font_scale;
              den ← math2_measure fuel' ns (frac_denom n) font_scale;
              let num := min_size 12 10 num in
              let den := min_size 12 10 den in
              Some (mk_metrics
                      (larger (width num) (width den) + 4)
                      (height num + FRAC_PAD + FRAC_BAR_H + FRAC_PAD + height den)
                      (height num + FRAC_PAD))
          | NODE_EXPONENT =>
              base ← math2_measure fuel' ns (exp_base n) font_scale;
              let exp_scale := at_least 60 (scale font_scale EXP_SCALE) in
              power ← math2_measure fuel' ns (exp_power n) exp_scale;
              let power := min_size 8 10 power in
              Some (mk_metrics
                      (width base + width power + 4)
                      (height base + height power - 4)
                      (baseline base + height power - 4))
          | NODE_SUBSCRIPT =>
              base ← math2_measure fuel' ns (subscript_base n) font_scale;
              let sub_scale := scale font_scale EXP_SCALE in
              sub ← math2_measure fuel' ns (subscript_sub n) sub_scale;
              let sub := min_size 8 8 sub in
              Some (mk_metrics
                      (width base + width sub)
                      (height base + height sub ÷ 2)
                      (baseline base))
          | NODE_ROOT =>
              content ← math2_measure fuel' ns (root_content n) font_scale;
              let content := min_size 12 10 content in
              let root_w := scale 10 font_scale in
              let index_w := if decide (root_index n ≠ 2) then 8 else 0 in
              let index_h := if decide (root_index n ≠ 2) then 8 else 0 in
              Some (mk_metrics
                      (index_w + root_w + width content + 2)
                      (height content + 4 + index_h ÷ 2)
                      (baseline content + 2 + index_h ÷ 2))
          | NODE_NTHROOT =>
              let idx_scale := scale font_scale 60 in
              idx ← math2_measure fuel' ns (nthroot_index n) idx_scale;
              content ← math2_measure fuel' ns (nthroot_content n) font_scale;
              let idx := min_size 8 8 idx in
              let content := min_size 12 10 content in
              let root_w := scale 10 font_scale in
              Some (mk_metrics
                      (width idx + root_w + width content + 2)
                      (height content + 4 + height idx ÷ 2)
                      (baseline content + 2 + height idx ÷ 2))
          | NODE_MIXED_FRAC =>
              whole ← math2_measure fuel' ns (mixed_whole n) font_scale;
              num ← math2_measure fuel' ns (mixed_numer n) font_scale;
              den ← math2_measure fuel' ns (mixed_denom n) font_scale;
              let whole := min_size 8 10 whole in
              let num := min_size 10 8 num in
              let den := min_size 10 8 den in
              let frac_w := larger (width num) (width den) + 4 in
              let frac_h := height num + FRAC_PAD + FRAC_BAR_H + FRAC_PAD + height den in
              Some (mk_metrics
                      (width whole + 4 + frac_w)
                      (larger frac_h (height whole))
                      (height num + FRAC_PAD))
          | NODE_ABS =>
              content ← math2_measure fuel' ns (abs_content n) font_scale;
              let content := min_size 8 10 content in
              Some (mk_metrics (width content + 8) (height content + 4)
                               (baseline content + 2))
          | NODE_PAREN =>
              content ← math2_measure fuel' ns (paren_content n) font_scale;
              let content := min_size 8 10 content in
              let paren_w := 6 + (if decide (height content > 20) then 2 else 0) in
              Some (mk_metrics (width content + paren_w * 2 + 4) (height content + 4)
                               (baseline content + 2))
          | NODE_FUNCTION =>
              let name_w := text_width (func_name n) font_scale in
              arg ← math2_measure fuel' ns (func_arg n) font_scale;
              let arg := min_size 8 10 arg in
              let h := larger (height arg) (text_height font_scale) in
              Some (mk_metrics (name_w + 6 + width arg + 6) h (h ÷ 2))
          | NODE_EMPTY => Some (mk_metrics 8 10 5)
          end
      end
  end
with measure_sequence (fuel : nat) (ns : list expr_node) (seq : ptr) (font_scale : Z)
    : option metrics_t :=
  match fuel with
  | 0%nat => None
  | S fuel' =>
      match seq with
      | None => Some (mk_metrics 0 0 0)
      | Some s =>
          sn ← ns !! s;
          if decide (type sn = NODE_SEQUENCE) then
            '(w, max_above, max_below) ←
              measure_children fuel' ns (seq_first sn) font_scale (0, 0, 0);
            let h := max_above + max_below in
            let w := if decide (w = 0) then 8 else w in
            if decide (h = 0) then
              let h := text_height font_scale in Some (mk_metrics w h (h ÷ 2))
            else Some (mk_metrics w h max_above)
          else Some (mk_metrics 0 0 0)
      end
  end
with measure_children (fuel : nat) (ns : list expr_node) (child : ptr) (font_scale : Z)
    (acc : Z * Z * Z) : option (Z * Z * Z) :=
  match fuel with
  | 0%nat => None
  | S fuel' =>
      match child with
      | None => Some acc
      | Some c =>
          let '(w, max_above, max_below) := acc in
          cm ← math2_measure fuel' ns child font_scale;
          let above := baseline cm in
          let below := height cm - baseline cm in
          cn ← ns !! c;
          measure_children fuel' ns (next cn) font_scale
            (w + width cm, larger above max_above, larger below max_below)
      end
  end.

(** ** Rendering: the draw pass *)

(** Colors of gint's display interface. *)
Inductive color_t : Set :=
  | C_RGB (r g b : Z)
  | C_BLACK
  | C_WHITE.

#[global] Instance color_eq_dec : EqDecision color_t.
Proof. solve_decision. Defined.

Definition COL_TEXT : color_t := C_BLACK.
Definition COL_CURSOR : color_t := C_RGB 0 0 31.
Definition COL_PLACEHOLDER : color_t := C_RGB 20 20 20.
Definition COL_FRAC_BAR : color_t := C_BLACK.

Definition PAREN_COLORS : list color_t :=
  [ C_RGB 0 0 31;    (* Blue *)
    C_RGB 31 0 0;    (* Red *)
    C_RGB 0 20 0;    (* Green *)
    C_RGB 20 0 20;   (* Purple *)
    C_RGB 20 15 0 ]. (* Orange *)
Definition NUM_PAREN_COLORS : Z := 5.

(** The calls made to gint's drawing primitives, with their arguments. *)
Inductive draw_call : Set :=
  | drect (x1 y1 x2 y2 : Z) (color : color_t)
  | drect_border (x1 y1 x2 y2 : Z) (fill : color_t) (border_width : Z) (border : color_t)
  | dline (x1 y1 x2 y2 : Z) (color : color_t)
  | dpixel (x y : Z) (color : color_t)
  | dtext (x y : Z) (fg : color_t) (str : string).

(** What the draw pass writes: the static counter [g_paren_depth] and the
    display, as the list of drawing calls in the order they are made. *)
Record draw_state : Set := mk_draw_state {
  g_paren_depth : Z;
  display : list draw_call
}.

(** The globals the draw pass only reads. *)
Record draw_settings : Set := mk_draw_settings {
  g_color_brackets : bool;
  g_cursor_visible : bool
}.

Definition D (A : Type) : Type := draw_state → option (A * draw_state).

#[global] Instance D_ret : MRet D := λ A x s, Some (x, s).
#[global] Instance D_bind : MBind D := λ A B f m s,
  match m s with
  | Some (x, s') => f x s'
  | None => None
  end.

(** A result read from the tree; no result stops the draw pass. *)
Definition lift {A : Type} (o : option A) : D A := λ s,
  match o with
  | Some x => Some (x, s)
  | None => None
  end.

Definition call (c : draw_call) : D unit := λ s,
  Some ((), mk_draw_state (g_paren_depth s) (display s ++ [c])).

Definition calls (cs : list draw_call) : D unit := λ s,
  Some ((), mk_draw_state (g_paren_depth s) (display s ++ cs)).

Definition get_paren_depth : D Z := λ s, Some (g_paren_depth s, s).
Definition set_paren_depth (d : Z) : D unit := λ s,
  Some ((), mk_draw_state d (display s)).

(** [a[i]] for a C array held as a list: defined inside its bounds only. *)
Definition array_get {A : Type} (a : list A) (i : Z) : option A :=
  if decide (0 ≤ i) then a !! Z.to_nat i else None.

Section Draw.

Context (expr : math_expr2_t) (settings : draw_settings).

Definition draw_placeholder (x y w h : Z) (is_cursor_here : bool) : D unit :=
  if is_cursor_here && g_cursor_visible settings
  then call (drect x y (x + w - 1) (y + h - 1) COL_CURSOR)
  else call (drect_border x y (x + w - 1) (y + h - 1) C_WHITE 1 COL_PLACEHOLDER).

Definition cursor_in_seq (seq : ptr) : bool :=
  bool_decide (sequence (cursor expr) = seq).

Definition draw_cursor_line (x y h : Z) : D unit :=
  if g_cursor_visible settings then
    call (dline x y x (y + h - 1) COL_CURSOR);;
    call (dline (x + 1) y (x + 1) (y + h - 1) COL_CURSOR)
  else mret ().

(** [seq_is_empty], read off the tree during the draw pass. *)
Definition slot_is_empty (slot : ptr) : D bool :=
  lift (fst <$> seq_is_empty slot expr).

(** The text every container repeats for each of its slots:
    [if(seq_is_empty(slot)) draw_placeholder(px, py, pw, ph, cursor_in_seq(expr, slot));
     else draw_sequence(slot, sx, sy, slot_scale, expr);] *)
Definition draw_slot (draw_sequence : ptr → Z → Z → Z → D unit) (slot : ptr)
    (px py pw ph : Z) (sx sy slot_scale : Z) : D unit :=
  is_empty ← slot_is_empty slot;
  if is_empty : bool then draw_placeholder px py pw ph (cursor_in_seq slot)
  else draw_sequence slot sx sy slot_scale.

(** [NODE_TEXT] *)
Definition draw_text (n : expr_node) (x y_top : Z) : D unit :=
  if decide (text_subtype n = TEXT_PI) then
    call (drect x y_top (x + 7) (y_top + 1) COL_TEXT);;
    call (drect (x + 1) (y_top + 1) (x + 2) (y_top + 9) COL_TEXT);;
    call (drect (x + 5) (y_top + 1) (x + 6) (y_top + 9) COL_TEXT)
  else if decide (text_subtype n = TEXT_OPERATOR) then
    if decide (text_text n = MULT_SIGN) then call (dtext x y_top COL_TEXT "*")
    else if decide (text_text n = DIV_SIGN) then call (dtext x y_top COL_TEXT "/")
    else call (dtext x y_top COL_TEXT (text_text n))
  else call (dtext x y_top COL_TEXT (text_text n)).

(** The three strokes of the radical sign. *)
Definition draw_root_symbol (x y_baseline rx ry rh root_w m_width : Z) : D unit :=
  call (dline rx y_baseline (rx + 3) (ry + rh - 1) COL_TEXT);;
  call (dline (rx + 3) (ry + rh - 1) (rx + root_w - 2) ry COL_TEXT);;
  call (dline (rx + root_w - 2) ry (x + m_width - 1) ry COL_TEXT).

(** One turn of the loops that plot a tall paren: [dir] is [-1] for the
    left paren and [1] for the right one. *)
Definition paren_curve_pixels (h curve base_x top_y dir : Z) (paren_color : color_t) (i : Z)
    : list draw_call :=
  let dist_from_mid := i - h ÷ 2 in
  let offset := curve - (curve * dist_from_mid * dist_from_mid * 4) ÷ (h * h) in
  dpixel (base_x + dir * offset) (top_y + i) paren_color ::
  (if decide (h > 30)
   then [dpixel (base_x + dir * offset + dir) (top_y + i) paren_color]
   else []).

(** [for(int i = 0; i <= h; i++) { ... }] *)
Definition paren_curve (h curve base_x top_y dir : Z) (paren_color : color_t)
    : list draw_call :=
  flat_map (paren_curve_pixels h curve base_x top_y dir paren_color) (seqZ 0 (h + 1)).

(** The two parens of a [NODE_PAREN], as glyphs or as plotted curves. *)
Definition draw_parens (m : metrics_t) (x y_top paren_w : Z) (paren_color : color_t)
    : D unit :=
  if decide (height m ≤ 20) then
    call (dtext (x + 2) (y_top + (height m - 14) ÷ 2) paren_color "(");;
    call (dtext (x + width m - paren_w - 2) (y_top + (height m - 14) ÷ 2) paren_color ")")
  else
    let h := height m - 4 in
    let left_x := x + 5 in
    let right_x := x + width m - 6 in
    let top_y := y_top + 2 in
    let curve := if decide (h > 40) then 4 else 3 in
    calls (paren_curve h curve left_x top_y (-1) paren_color);;
    calls (paren_curve h curve right_x top_y 1 paren_color).

Definition measure (node : ptr) (font_scale : Z) : D metrics_t :=
  lift (math2_measure render_fuel (nodes expr) node font_scale).

Definition min_width (w : Z) (m : metrics_t) : metrics_t :=
  mk_metrics (at_least w (width m)) (height m) (baseline m).

(** [g_color_brackets ? PAREN_COLORS[depth % NUM_PAREN_COLORS] : COL_TEXT] *)
Definition paren_color_at (depth : Z) : D color_t :=
  if g_color_brackets settings
  then lift (array_get PAREN_COLORS (Z.rem depth NUM_PAREN_COLORS))
  else mret COL_TEXT.

(** The part of a container's case that does not depend on the container
    being a paren: each takes the function drawing a child sequence. *)
Definition draw_container (draw_sequence : ptr → Z → Z → Z → D unit)
    (n : expr_node) (m : metrics_t) (x y_baseline font_scale : Z) : D unit :=
  let y_top := y_baseline - baseline m in
  match type n with
  | NODE_TEXT => draw_text n x y_top
  | NODE_FRACTION =>
      num ← measure (frac_numer n) font_scale;
      den ← measure (frac_denom n) font_scale;
      let bar_y := y_baseline in
      let num_y := bar_y - FRAC_PAD - height num + baseline num in
      let den_y := bar_y + FRAC_PAD + FRAC_BAR_H + baseline den in
      let num_x := x + (width m - width num) ÷ 2 in
      let den_x := x + (width m - width den) ÷ 2 in
      draw_slot draw_sequence (frac_numer n)
        num_x (bar_y - FRAC_PAD - 10) (width num) 10  num_x num_y font_scale;;
      call (drect (x + 1) bar_y (x + width m - 2) (bar_y + FRAC_BAR_H - 1) COL_FRAC_BAR);;
      draw_slot draw_sequence (frac_denom n)
        den_x (bar_y + FRAC_PAD + FRAC_BAR_H) (width den) 10  den_x den_y font_scale
  | NODE_EXPONENT =>
      base ← measure (exp_base n) font_scale;
      let exp_scale := at_least 60 (scale font_scale EXP_SCALE) in
      power ← measure (exp_power n) exp_scale;
      draw_slot draw_sequence (exp_base n)
        x y_top 8 (height m)  x y_baseline font_scale;;
      let power_x := x + width base + 3 in
      let power_y := y_top + baseline power in
      draw_slot draw_sequence (exp_power n)
        power_x y_top (width power) (height power)  power_x power_y exp_scale
  | NODE_SUBSCRIPT =>
      base ← measure (subscript_base n) font_scale;
      let sub_scale := scale font_scale EXP_SCALE in
      sub ← measure (subscript_sub n) sub_scale;
      draw_slot draw_sequence (subscript_base n)
        x y_top 8 (height base)  x y_baseline font_scale;;
      let sub_x := x + width base in
      let sub_y := y_baseline + baseline sub in
      draw_slot draw_sequence (subscript_sub n)
        sub_x y_baseline (width sub) (height sub)  sub_x sub_y sub_scale
  | NODE_ROOT =>
      content ← measure (root_content n) font_scale;
      let root_w := scale 10 font_scale in
      let index_w := if decide (root_index n ≠ 2) then 8 else 0 in
      let index_h := if decide (root_index n ≠ 2) then 8 else 0 in
      (if decide (root_index n ≠ 2)
       then call (dtext x y_top COL_TEXT (snprintf 4 (format_d (root_index n))))
       else mret ());;
      let rx := x + index_w in
      let ry := y_top + index_h ÷ 2 in
      let rh := height m - index_h ÷ 2 in
      draw_root_symbol x y_baseline rx ry rh root_w (width m);;
      let cx := rx + root_w in
      draw_slot draw_sequence (root_content n)
        cx (ry + 2) (width content) (height content)  cx y_baseline font_scale
  | NODE_NTHROOT =>
      let idx_scale := scale font_scale 60 in
      idx ← measure (nthroot_index n) idx_scale;
      content ← measure (nthroot_content n) font_scale;
      let root_w := scale 10 font_scale in
      let idx := min_size 8 8 idx in
      draw_slot draw_sequence (nthroot_index n)
        x y_top (width idx) (height idx)  x (y_top + baseline idx) idx_scale;;
      let rx := x + width idx in
      let ry := y_top + height idx ÷ 2 in
      let rh := height m - height idx ÷ 2 in
      draw_root_symbol x y_baseline rx ry rh root_w (width m);;
      let cx := rx + root_w in
      draw_slot draw_sequence (nthroot_content n)
        cx (ry + 2) (width content) (height content)  cx y_baseline font_scale
  | NODE_MIXED_FRAC =>
      whole ← measure (mixed_whole n) font_scale;
      num ← measure (mixed_numer n) font_scale;
      den ← measure (mixed_denom n) font_scale;
      let whole := min_width 8 whole in
      let num := min_width 10 num in
      let den := min_width 10 den in
      let frac_w := larger (width num) (width den) + 4 in
      draw_slot draw_sequence (mixed_whole n)
        x (y_top + (height m - height whole) ÷ 2) (width whole) (height whole)
        x y_baseline font_scale;;
      let fx := x + width whole + 4 in
      let bar_y := y_baseline - FRAC_BAR_H ÷ 2 in
      let num_x := fx + (frac_w - width num) ÷ 2 in
      let num_y := bar_y - FRAC_PAD - height num + baseline num in
      draw_slot draw_sequence (mixed_numer n)
        num_x (bar_y - FRAC_PAD - height num) (width num) (height num)
        num_x num_y font_scale;;
      call (drect fx bar_y (fx + frac_w - 1) (bar_y + FRAC_BAR_H - 1) COL_FRAC_BAR);;
      let den_x := fx + (frac_w - width den) ÷ 2 in
      let den_y := bar_y + FRAC_BAR_H + FRAC_PAD + baseline den in
      draw_slot draw_sequence (mixed_denom n)
        den_x (bar_y + FRAC_BAR_H + FRAC_PAD) (width den) (height den)
        den_x den_y font_scale
  | NODE_ABS =>
      content ← measure (abs_content n) font_scale;
      call (dline (x + 2) y_top (x + 2) (y_top + height m - 1) COL_TEXT);;
      call (dline (x + width m - 3) y_top (x + width m - 3) (y_top + height m - 1) COL_TEXT);;
      let cx := x + 4 in
      draw_slot draw_sequence (abs_content n)
        cx (y_top + 2) (width content) (height content)  cx y_baseline font_scale
  | NODE_FUNCTION =>
      let name_w := text_width (func_name n) font_scale in
      call (dtext x y_top COL_TEXT (func_name n));;
      call (dtext (x + name_w) y_top COL_TEXT "(");;
      let ax := x + name_w + 6 in
      draw_slot draw_sequence (func_arg n)
        ax y_top 8 (height m)  ax y_baseline font_scale;;
      call (dtext (x + width m - 6) y_top COL_TEXT ")")
  | _ => mret ()
  end.

(** [NODE_PAREN], between the choice of [paren_color] and the end of the
    case, the two writes of [g_paren_depth] left out. *)
Definition draw_paren_body (draw_sequence : ptr → Z → Z → Z → D unit)
    (n : expr_node) (m content : metrics_t) (paren_color : color_t)
    (x y_baseline font_scale : Z) : D unit :=
  let y_top := y_baseline - baseline m in
  let paren_w := 6 + (if decide (height m > 24) then 2 else 0) in
  draw_parens m x y_top paren_w paren_color;;
  let cx := x + paren_w + 2 in
  draw_slot draw_sequence (paren_content n)
    cx (y_top + 2) (width content) (height content)  cx y_baseline font_scale.

(** [draw_cursor_line] at [cx] when the cursor stands there; the result is
    the new [cx]. *)
Definition cursor_mark (here : bool) (cx y_baseline font_scale : Z) : D Z :=
  let cursor_h := (CHAR_H * font_scale) ÷ 100 + 4 in
  let cursor_offset := cursor_h ÷ 2 in
  if here then
    draw_cursor_line cx (y_baseline - cursor_offset) cursor_h;;
    mret (cx + 3)
  else mret cx.

Fixpoint math2_draw_node (fuel : nat) (node : ptr) (x y_baseline font_scale : Z)
    : D unit :=
  match fuel with
  | 0%nat => lift None
  | S fuel' =>
      match node with
      | None => mret ()
      | Some i =>
          m ← measure node font_scale;
          n ← lift (nodes expr !! i);
          match type n with
          | NODE_SEQUENCE => draw_sequence fuel' node x y_baseline font_scale
          | NODE_PAREN =>
              content ← measure (paren_content n) font_scale;
              depth ← get_paren_depth;
              paren_color ← paren_color_at depth;
              depth ← get_paren_depth;
              set_paren_depth (depth + 1);;
              draw_paren_body (draw_sequence fuel') n m content paren_color
                x y_baseline font_scale;;
              depth ← get_paren_depth;
              set_paren_depth (depth - 1)
          | _ => draw_container (draw_sequence fuel') n m x y_baseline font_scale
          end
      end
  end
with draw_sequence (fuel : nat) (seq : ptr) (x y_baseline font_scale : Z) : D unit :=
  match fuel with
  | 0%nat => lift None
  | S fuel' =>
      match seq with
      | None => mret ()
      | Some s =>
          sn ← lift (nodes expr !! s);
          if decide (type sn = NODE_SEQUENCE) then
            let cursor_here := cursor_in_seq seq in
            cx ← cursor_mark (cursor_here && bool_decide (after (cursor expr) = NULL))
                   x y_baseline font_scale;
            draw_children fuel' (seq_first sn) cursor_here cx y_baseline font_scale
          else mret ()
      end
  end
with draw_children (fuel : nat) (child : ptr) (cursor_here : bool)
    (cx y_baseline font_scale : Z) : D unit :=
  match fuel with
  | 0%nat => lift None
  | S fuel' =>
      match child with
      | None => mret ()
      | Some c =>
          cm ← measure child font_scale;
          math2_draw_node fuel' child cx y_baseline font_scale;;
          let cx := cx + width cm in
          cx ← cursor_mark (cursor_here && bool_decide (after (cursor expr) = child))
                 cx y_baseline font_scale;
          cn ← lift (nodes expr !! c);
          draw_children fuel' (next cn) cursor_here cx y_baseline font_scale
      end
  end.

Definition math2_draw (x y : Z) : D unit :=
  m ← measure (root expr) 100;
  let y_baseline := y + baseline m in
  draw_sequence render_fuel (root expr) x y_baseline 100.

(** *** The coloring by nesting depth

    The same traversal with the nesting depth of the node handed down as an
    argument instead of kept in [g_paren_depth]: a paren met at depth
    [depth] takes [PAREN_COLORS[depth % 5]] and its content is drawn at
    depth [depth + 1]; the counter is neither read nor written. *)
Fixpoint draw_node_nested (fuel : nat) (depth : Z) (node : ptr)
    (x y_baseline font_scale : Z) : D unit :=
  match fuel with
  | 0%nat => lift None
  | S fuel' =>
      match node with
      | None => mret ()
      | Some i =>
          m ← measure node font_scale;
          n ← lift (nodes expr !! i);
          match type n with
          | NODE_SEQUENCE => draw_sequence_nested fuel' depth node x y_baseline font_scale
          | NODE_PAREN =>
              content ← measure (paren_content n) font_scale;
              paren_color ← paren_color_at depth;
              draw_paren_body (draw_sequence_nested fuel' (depth + 1)) n m content
                paren_color x y_baseline font_scale
          | _ => draw_container (draw_sequence_nested fuel' depth) n m
                   x y_baseline font_scale
          end
      end
  end
with draw_sequence_nested (fuel : nat) (depth : Z) (seq : ptr)
    (x y_baseline font_scale : Z) : D unit :=
  match fuel with
  | 0%nat => lift None
  | S fuel' =>
      match seq with
      | None => mret ()
      | Some s =>
          sn ← lift (nodes expr !! s);
          if decide (type sn = NODE_SEQUENCE) then
            let cursor_here := cursor_in_seq seq in
            cx ← cursor_mark (cursor_here && bool_decide (after (cursor expr) = NULL))
                   x y_baseline font_scale;
            draw_children_nested fuel' depth (seq_first sn) cursor_here cx
              y_baseline font_scale
          else mret ()
      end
  end
with draw_children_nested (fuel : nat) (depth : Z) (child : ptr) (cursor_here : bool)
    (cx y_baseline font_scale : Z) : D unit :=
  match fuel with
  | 0%nat => lift None
  | S fuel' =>
      match child with
      | None => mret ()
      | Some c =>
          cm ← measure child font_scale;
          draw_node_nested fuel' depth child cx y_baseline font_scale;;
          let cx := cx + width cm in
          cx ← cursor_mark (cursor_here && bool_decide (after (cursor expr) = child))
                 cx y_baseline font_scale;
          cn ← lift (nodes expr !! c);
          draw_children_nested fuel' depth (next cn) cursor_here cx y_baseline font_scale
      end
  end.


End Draw.

Local Close Scope Z_scope.
Local Close Scope string_scope.

(** ** Predicates on the pool *)

(** Slot [i] of the pool is free. *)
Definition slot_empty (ns : list expr_node) (i : nat) : Prop :=
  ∃ n, ns !! i = Some n ∧ type n = NODE_EMPTY.

(** [node] is [NULL] or points to a slot that is already [NODE_EMPTY]. *)
Definition released (e : math_expr2_t) (node : ptr) : Prop :=
  match node with
  | None => True
  | Some i => slot_empty (nodes e) i
  end.

(** ** The cursor operations as one family *)

Inductive cursor_op : Set :=
  | CursorLeft | CursorRight | CursorEnter | CursorEnterLeft | CursorEnterRight
  | CursorExit | CursorExitRight | CursorExitLeft | CursorNextSlot | CursorPrevSlot.

Definition run_cursor_op (op : cursor_op) : M bool :=
  match op with
  | CursorLeft => cursor_left
  | CursorRight => cursor_right
  | CursorEnter => cursor_enter
  | CursorEnterLeft => cursor_enter_left
  | CursorEnterRight => cursor_enter_right
  | CursorExit => cursor_exit
  | CursorExitRight => cursor_exit_right
  | CursorExitLeft => cursor_exit_left
  | CursorNextSlot => cursor_next_slot
  | CursorPrevSlot => cursor_prev_slot
  end.

(** *** Pointers that stay inside the pool *)

Definition ptr_in_pool (len : nat) (p : ptr) : bool :=
  match p with
  | None => true
  | Some i => bool_decide (i < len)
  end.

(** The pointer members of the union. *)
Definition data_ptrs (d : node_data) : list ptr :=
  match d with
  | DZero | DText _ _ => []
  | DSeq a b | DFrac a b | DExp a b | DSubscript a b | DNthroot a b => [a; b]
  | DRoot _ a | DAbs a | DParen a | DFunc _ a => [a]
  | DMixed a b c => [a; b; c]
  end.

Definition node_in_pool (len : nat) (n : expr_node) : bool :=
  ptr_in_pool len (parent n) && ptr_in_pool len (next n) && ptr_in_pool len (prev n)
  && forallb (ptr_in_pool len) (data_ptrs (data n)).

(** Every pointer kept in the pool or in the cursor is [NULL] or the
    address of a slot of the pool, and [cursor.sequence] is not [NULL]. *)
Definition pointers_in_pool (e : math_expr2_t) : bool :=
  forallb (node_in_pool (length (nodes e))) (nodes e)
  && ptr_in_pool (length (nodes e)) (after (cursor e))
  && match sequence (cursor e) with
     | Some s => bool_decide (s < length (nodes e))
     | None => false
     end.

(** *** Total correctness in [M]

    [wp m Q e]: run from [e], the function [m] is defined, and its result
    and final state satisfy [Q]. *)
Definition wp {A : Type} (m : M A) (Q : A → math_expr2_t → Prop) (e : math_expr2_t)
    : Prop :=
  ∃ a e', m e = Some (a, e') ∧ Q a e'.

(** A pointer that is [NULL] or the address of a slot. *)
Definition valid_ptr (ns : list expr_node) (p : ptr) : Prop :=
  match p with
  | None => True
  | Some j => is_Some (ns !! j)
  end.

(** The pointer fields of a node. *)
Definition node_ptrs (n : expr_node) : list ptr :=
  parent n :: next n :: prev n :: data_ptrs (data n).

(** The cursor stands at the end of its sequence: nothing follows
    [cursor.after], or the sequence is empty. *)
Definition at_sequence_end (e : math_expr2_t) : Prop :=
  match after (cursor e) with
  | Some a => ∃ an, nodes e !! a = Some an ∧ next an = NULL
  | None =>
      ∃ s sn, sequence (cursor e) = Some s ∧ nodes e !! s = Some sn ∧
              seq_first sn = NULL
  end.

(** The cursor is in the root sequence, the one sequence without a
    parent. *)
Definition at_root (e : math_expr2_t) : Prop :=
  ∃ r rn, sequence (cursor e) = Some r ∧ root e = Some r ∧
          nodes e !! r = Some rn ∧ parent rn = NULL.

(** ** The expression as a term

    What the pool holds below a node, read through the child pointers and
    the sibling chains: the view used to state what an edit did to the
    expression. A slot that is [NULL] or not a sequence has no view. *)

#[warnings="-register-all"]
Inductive tree : Set :=
  | TText (subtype : text_type_t) (text : string)
  | TFraction (numer denom : list tree)
  | TExponent (base power : list tree)
  | TSubscript (base sub : list tree)
  | TRoot (index : Z) (content : list tree)
  | TNthroot (index content : list tree)
  | TAbs (content : list tree)
  | TParen (content : list tree)
  | TFunction (name : string) (arg : list tree)
  | TMixed (whole numer denom : list tree).

Fixpoint tree_of (fuel : nat) (ns : list expr_node) (i : nat) : option tree :=
  match fuel with
  | 0 => None
  | S fuel' =>
      n ← ns !! i;
      match type n with
      | NODE_TEXT => Some (TText (text_subtype n) (text_text n))
      | NODE_FRACTION =>
          a ← slot_of fuel' ns (frac_numer n);
          b ← slot_of fuel' ns (frac_denom n);
          Some (TFraction a b)
      | NODE_EXPONENT =>
          a ← slot_of fuel' ns (exp_base n);
          b ← slot_of fuel' ns (exp_power n);
          Some (TExponent a b)
      | NODE_SUBSCRIPT =>
          a ← slot_of fuel' ns (subscript_base n);
          b ← slot_of fuel' ns (subscript_sub n);
          Some (TSubscript a b)
      | NODE_ROOT =>
          a ← slot_of fuel' ns (root_content n);
          Some (TRoot (root_index n) a)
      | NODE_NTHROOT =>
          a ← slot_of fuel' ns (nthroot_index n);
          b ← slot_of fuel' ns (nthroot_content n);
          Some (TNthroot a b)
      | NODE_ABS => a ← slot_of fuel' ns (abs_content n); Some (TAbs a)
      | NODE_PAREN => a ← slot_of fuel' ns (paren_content n); Some (TParen a)
      | NODE_FUNCTION =>
          a ← slot_of fuel' ns (func_arg n);
          Some (TFunction (func_name n) a)
      | NODE_MIXED_FRAC =>
          a ← slot_of fuel' ns (mixed_whole n);
          b ← slot_of fuel' ns (mixed_numer n);
          c ← slot_of fuel' ns (mixed_denom n);
          Some (TMixed a b c)
      | NODE_SEQUENCE | NODE_EMPTY => None
      end
  end
with slot_of (fuel : nat) (ns : list expr_node) (seq : ptr) : option (list tree) :=
  match fuel with
  | 0 => None
  | S fuel' =>
      s ← seq;
      sn ← ns !! s;
      if decide (type sn = NODE_SEQUENCE) then chain_of fuel' ns (seq_first sn)
      else None
  end
with chain_of (fuel : nat) (ns : list expr_node) (child : ptr) : option (list tree) :=
  match fuel with
  | 0 => None
  | S fuel' =>
      match child with
      | None => Some []
      | Some c =>
          t ← tree_of fuel' ns c;
          cn ← ns !! c;
          ts ← chain_of fuel' ns (next cn);
          Some (t :: ts)
      end
  end.

(** The expression below the root. *)
Definition expression (e : math_expr2_t) : option (list tree) :=
  slot_of render_fuel (nodes e) (root e).

(** The content of the sequence the cursor is in. *)
Definition cursor_slot (e : math_expr2_t) : option (list tree) :=
  slot_of render_fuel (nodes e) (sequence (cursor e)).

(** ** Sessions: calls made one after the other *)

Fixpoint session (calls : list (M unit)) : M unit :=
  match calls with
  | [] => mret ()
  | c :: rest => c;; session rest
  end.

(** A call whose result the caller drops. *)
Definition ignore {A : Type} (m : M A) : M unit := m;; mret ().

Definition digit (d : string) : M unit := math2_insert_text TEXT_NUMBER d.
Definition operator (o : string) : M unit := math2_insert_text TEXT_OPERATOR o.

(** ** Observations used by the scenarios *)

(** [seq_is_empty(p)], read off a pool. *)
Definition is_empty_sequence (ns : list expr_node) (p : ptr) : bool :=
  match p with
  | None => false
  | Some s =>
      match ns !! s with
      | Some sn => bool_decide (type sn = NODE_SEQUENCE) && bool_decide (seq_first sn = NULL)
      | None => false
      end
  end.

(** [fn] is a fraction whose two slots are empty sequences, with the cursor
    in its numerator. *)
Definition empty_fraction_cursor_in_numerator (e : math_expr2_t) (fn : expr_node)
    : bool :=
  bool_decide (type fn = NODE_FRACTION)
  && is_empty_sequence (nodes e) (frac_numer fn)
  && is_empty_sequence (nodes e) (frac_denom fn)
  && bool_decide (sequence (cursor e) = frac_numer fn).

(** The first child of the root sequence. *)
Definition first_of_root (e : math_expr2_t) : ptr :=
  match root e with
  | Some r => match nodes e !! r with Some rn => seq_first rn | None => NULL end
  | None => NULL
  end.

(** The node at the end of the sibling chain that starts at [p]. *)
Fixpoint last_sibling (fuel : nat) (ns : list expr_node) (p : nat) : option nat :=
  match fuel with
  | 0 => None
  | S fuel' =>
      n ← ns !! p;
      match next n with
      | None => Some p
      | Some q => last_sibling fuel' ns q
      end
  end.

(** The last child of the root sequence, found along the chain. *)
Definition last_of_root (e : math_expr2_t) : option nat :=
  f ← first_of_root e; last_sibling loop_fuel (nodes e) f.

(** [n] parens, each typed inside the one before. *)
Definition nested_parens (n : nat) : M unit :=
  session (replicate n math2_insert_paren).

(** [n] copies of [s], one after the other. *)
Fixpoint repeat_string (n : nat) (s : string) : string :=
  match n with
  | 0 => EmptyString
  | S n' => s ++ repeat_string n' s
  end.

(** ** Reasoning about the draw pass *)

(** A result of the draw pass with the counter set to [a]. *)
Definition redepth {A : Type} (a : Z) (r : option (A * draw_state))
    : option (A * draw_state) :=
  match r with
  | Some (x, st) => Some (x, mk_draw_state a (display st))
  | None => None
  end.

(** [m] neither reads nor writes [g_paren_depth]. *)
Definition depth_blind {A : Type} (m : D A) : Prop :=
  ∀ a b disp, m (mk_draw_state a disp) = redepth a (m (mk_draw_state b disp)).

(** [m1] and [m2] do the same when started with the counter at [d]. *)
Definition same_at (d : Z) {A : Type} (m1 m2 : D A) : Prop :=
  ∀ disp, m1 (mk_draw_state d disp) = m2 (mk_draw_state d disp).




(** ** The insertions as one family *)

Inductive insert_op : Set :=
  | InsertText (subtype : text_type_t) (text : string)
  | InsertFraction
  | InsertExponent
  | InsertSubscript
  | InsertSqrt
  | InsertNthroot (n : Z)
  | InsertXthroot
  | InsertMixedFrac
  | InsertAbs
  | InsertParen
  | InsertFunction (name : string).

Definition run_insert (op : insert_op) : M unit :=
  match op with
  | InsertText subtype text => math2_insert_text subtype text
  | InsertFraction => math2_insert_fraction
  | InsertExponent => math2_insert_exponent
  | InsertSubscript => math2_insert_subscript
  | InsertSqrt => math2_insert_sqrt
  | InsertNthroot n => math2_insert_nthroot n
  | InsertXthroot => math2_insert_xthroot
  | InsertMixedFrac => math2_insert_mixed_frac
  | InsertAbs => math2_insert_abs
  | InsertParen => math2_insert_paren
  | InsertFunction name => math2_insert_function name
  end.

(** How many nodes an insertion takes from the pool: the new node and one
    sequence for each of its slots. *)
Definition allocations (op : insert_op) : nat :=
  match op with
  | InsertText _ _ => 1
  | InsertSqrt | InsertNthroot _ | InsertAbs | InsertParen | InsertFunction _ => 2
  | InsertFraction | InsertExponent | InsertSubscript | InsertXthroot => 3
  | InsertMixedFrac => 4
  end.

(** The number of [NODE_EMPTY] slots of a pool. *)
Definition free_slots (ns : list expr_node) : nat :=
  length (filter (λ n, type n = NODE_EMPTY) ns).

(** [e'] is [e] but for slots that were [NODE_EMPTY] in [e] and for
    [next_free]: cursor, root, buffer and modes are those of [e], and every
    live slot of [e] holds in [e'] what it held in [e]. *)
Definition same_tree (e e' : math_expr2_t) : Prop :=
  cursor e' = cursor e ∧ root e' = root e ∧ latex e' = latex e ∧
  shift_mode e' = shift_mode e ∧ alpha_mode e' = alpha_mode e ∧
  length (nodes e') = length (nodes e) ∧
  ∀ i n, nodes e !! i = Some n → type n ≠ NODE_EMPTY → nodes e' !! i = Some n.

(** [e] is [e0] after [j] allocations that succeeded, and writes to the
    slots they returned. *)
Definition grown (e0 : math_expr2_t) (j : nat) (e : math_expr2_t) : Prop :=
  same_tree e0 e ∧ free_slots (nodes e) + j = free_slots (nodes e0).

(** ** Sequences as lists of slots

    [linked ns s l]: in the pool [ns], the slot [s] is a sequence whose
    children are the slots of [l], in that order: [first] and [last] are
    the two ends of [l], and each child is live, has [s] as parent, the
    child before it as [prev] and the child after it as [next]. *)
Definition linked (ns : list expr_node) (s : nat) (l : list nat) : Prop :=
  ∃ sn,
    ns !! s = Some sn ∧ type sn = NODE_SEQUENCE ∧
    seq_first sn = head l ∧ seq_last sn = last l ∧
    NoDup (s :: l) ∧
    ∀ l1 i l2, l = l1 ++ i :: l2 →
      ∃ n, ns !! i = Some n ∧ type n ≠ NODE_EMPTY ∧ parent n = Some s ∧
           prev n = last l1 ∧ next n = head l2.

(** What [seq_remove] leaves of a node, by the place the node had: the
    node [a] taken out of the sequence [s], the sibling [pv] before it, the
    sibling [nx] after it, the sequence itself, or any other node. *)
Definition after_remove (s a : nat) (pv nx : ptr) (i : nat) (n : expr_node)
    : expr_node :=
  if decide (i = a) then set_next NULL (set_prev NULL (set_parent NULL n))
  else if decide (pv = Some i) then set_next nx n
  else if decide (nx = Some i) then set_prev pv n
  else if decide (i = s) then
    (if decide (nx = NULL) then set_seq_last pv else id)
      ((if decide (pv = NULL) then set_seq_first nx else id) n)
  else n.

(** What [seq_insert_after] leaves of a node: the node [x] put into the
    sequence [s] between the siblings [pv] and [nx], those two, the sequence
    itself, or any other node. *)
Definition after_insert (s x : nat) (pv nx : ptr) (i : nat) (n : expr_node)
    : expr_node :=
  if decide (i = x) then set_next nx (set_prev pv (set_parent (Some s) n))
  else if decide (pv = Some i) then set_next (Some x) n
  else if decide (nx = Some i) then set_prev (Some x) n
  else if decide (i = s) then
    (if decide (nx = NULL) then set_seq_last (Some x) else id)
      ((if decide (pv = NULL) then set_seq_first (Some x) else id) n)
  else n.

(** The pool [ns'] holds in every slot what [f] makes of the slot of
    [ns]. *)
Definition rewritten (f : nat → expr_node → expr_node) (ns ns' : list expr_node)
    : Prop :=
  ∀ i, ns' !! i = f i <$> ns !! i.

(** The siblings [math2_insert_exponent] moves into the base, given the
    children [l1] that stand before the cursor: the last of them if its kind
    is one the function collects, and nothing otherwise. *)
Definition exponent_base (ns : list expr_node) (l1 : list nat) : list nat :=
  match last l1 with
  | Some a =>
      match ns !! a with
      | Some an => if exponent_collects (type an) then [a] else []
      | None => []
      end
  | None => []
  end.

(** The kinds of node the text of the specification lets
    [math2_insert_exponent] take as base. *)
Definition exponent_base_kinds : list node_type_t :=
  [NODE_TEXT; NODE_FRACTION; NODE_PAREN; NODE_EXPONENT; NODE_ROOT].

(** ** Checking a sequence against a list of slots

    [linkedb ns s l] computes whether [linked ns s l] holds: it walks the
    children of [l] once, carrying the child it has just left. *)
Fixpoint children_ok (ns : list expr_node) (s : nat) (pv : ptr) (l : list nat)
    : bool :=
  match l with
  | [] => true
  | i :: r =>
      match ns !! i with
      | Some n =>
          bool_decide (type n ≠ NODE_EMPTY) && bool_decide (parent n = Some s) &&
          bool_decide (prev n = pv) && bool_decide (next n = head r) &&
          children_ok ns s (Some i) r
      | None => false
      end
  end.

Definition linkedb (ns : list expr_node) (s : nat) (l : list nat) : bool :=
  match ns !! s with
  | Some sn =>
      bool_decide (type sn = NODE_SEQUENCE) &&
      bool_decide (seq_first sn = head l) && bool_decide (seq_last sn = last l) &&
      bool_decide (NoDup (s :: l)) && children_ok ns s NULL l
  | None => false
  end.

(** The state after the digits 1 and 2 have been typed into an empty
    expression. *)
Definition typed_12 : math_expr2_t :=
  Eval vm_compute in
    default math2_init (exec (session [digit "1"; digit "2"]) math2_init).

(** ** The keys of the editor *)

(** The key [KEY_LEFT] of [run_latex_mode]: step left in the sequence and
    enter the node just passed from its right; at the start of a sequence,
    leave the container to its left. *)
Definition key_left : M unit :=
  moved ← cursor_left;
  if moved : bool then ignore cursor_enter_left else ignore cursor_exit_left.

(** The key [KEY_RIGHT] of [run_latex_mode]: enter the node ahead from its
    left; else step right over it; at the end of a sequence, leave the
    container to its right. *)
Definition key_right : M unit :=
  entered ← cursor_enter_right;
  if entered : bool then mret ()
  else
    moved ← cursor_right;
    if moved : bool then mret () else ignore cursor_exit_right.

(** The union of a node holds the [seq] member: the two pointers of a
    sequence. [math2_new_sequence] makes every sequence so. *)
Definition seq_member (n : expr_node) : Prop :=
  data n = DSeq (seq_first n) (seq_last n).

(** The kind of node an insertion makes. *)
Definition node_kind (op : insert_op) : node_type_t :=
  match op with
  | InsertText _ _ => NODE_TEXT
  | InsertFraction => NODE_FRACTION
  | InsertExponent => NODE_EXPONENT
  | InsertSubscript => NODE_SUBSCRIPT
  | InsertSqrt | InsertNthroot _ => NODE_ROOT
  | InsertXthroot => NODE_NTHROOT
  | InsertMixedFrac => NODE_MIXED_FRAC
  | InsertAbs => NODE_ABS
  | InsertParen => NODE_PAREN
  | InsertFunction _ => NODE_FUNCTION
  end.

(** The insertions that move nothing into the node they make. *)
Definition plain_container (op : insert_op) : bool :=
  match op with
  | InsertSqrt | InsertNthroot _ | InsertXthroot | InsertMixedFrac
  | InsertAbs | InsertParen | InsertFunction _ => true
  | _ => false
  end.

(** What an insertion has built when it comes to link its node: [em] is
    [e] but for the slot [x], which holds the new node [Xn], and the slots
    [cs], each an empty sequence whose parent is [x]; all of them were free
    in [e]. *)
Definition built (e : math_expr2_t) (x : nat) (Xn : expr_node) (cs : list nat)
    (em : math_expr2_t) : Prop :=
  cursor em = cursor e ∧ root em = root e ∧
  NoDup (x :: cs) ∧ (∀ i, i ∈ x :: cs → slot_empty (nodes e) i) ∧
  nodes em !! x = Some Xn ∧ type Xn ≠ NODE_EMPTY ∧
  (∀ c, c ∈ cs →
        nodes em !! c = Some (mk_node NODE_SEQUENCE (Some x) NULL NULL (DSeq NULL NULL))) ∧
  (∀ i, i ∉ x :: cs → nodes em !! i = nodes e !! i) ∧
  free_slots (nodes em) + S (length cs) = free_slots (nodes e).

(** What is particular to an insertion: the index of a root, the name of
    a function. *)
Definition insertion_detail (op : insert_op) (xn : expr_node) : Prop :=
  match op with
  | InsertSqrt => root_index xn = 2%Z
  | InsertNthroot n => root_index xn = n
  | InsertFunction name => func_name xn = strncpy 7 name
  | _ => True
  end.

(** The state [e'] is [e] after the insertion [op] has put a new node into
    the sequence [s], between the children [l1] and the children [l2]. *)
Definition inserted (op : insert_op) (e : math_expr2_t) (s : nat)
    (l1 l2 : list nat) (e' : math_expr2_t) : Prop :=
  ∃ (x : nat) (xn : expr_node) (cs : list nat),
    slot_empty (nodes e) x ∧
    nodes e' !! x = Some xn ∧ type xn = node_kind op ∧ insertion_detail op xn ∧
    data_ptrs (data xn) = map Some cs ∧ S (length cs) = allocations op ∧
    NoDup (x :: cs) ∧
    (∀ c, c ∈ cs →
          slot_empty (nodes e) c ∧ linked (nodes e') c [] ∧
          ∃ cn, nodes e' !! c = Some cn ∧ parent cn = Some x) ∧
    linked (nodes e') s (l1 ++ x :: l2) ∧
    get_first_slot xn = head cs ∧
    cursor e' = mk_cursor (get_first_slot xn) NULL ∧
    shift_mode e' = false ∧ alpha_mode e' = false ∧ root e' = root e ∧
    free_slots (nodes e') + allocations op = free_slots (nodes e) ∧
    (∀ i n, nodes e !! i = Some n → type n ≠ NODE_EMPTY →
       ∃ n', nodes e' !! i = Some n' ∧ type n' = type n ∧
             (i ≠ s → data n' = data n)).

(** The keys [KEY_UP] and [KEY_DOWN] of [run_latex_mode]. *)
Definition key_up : M unit := ignore cursor_prev_slot.
Definition key_down : M unit := ignore cursor_next_slot.

(** ** The LaTeX text of an expression *)

Local Open Scope string_scope.

(** The LaTeX text of an expression, by the shape of the expression. *)
Fixpoint latex_tree (t : tree) : string :=
  let latex_trees :=
    fix go (ts : list tree) : string :=
      match ts with
      | [] => EmptyString
      | t :: rest => latex_tree t ++ go rest
      end in
  match t with
  | TText subtype text =>
      match subtype with
      | TEXT_PI => "\pi "
      | TEXT_OPERATOR =>
          if decide (text = MULT_SIGN) then "*"
          else if decide (text = DIV_SIGN) then "/"
          else text
      | _ => text
      end
  | TFraction a b => "\frac{" ++ latex_trees a ++ "}{" ++ latex_trees b ++ "}"
  | TExponent a b => "{" ++ latex_trees a ++ "}^{" ++ latex_trees b ++ "}"
  | TSubscript a b => "{" ++ latex_trees a ++ "}_{" ++ latex_trees b ++ "}"
  | TRoot i a =>
      (if decide (i = 2%Z) then "\sqrt{"
       else snprintf 16 ("\sqrt[" ++ format_d i ++ "]{"))
      ++ latex_trees a ++ "}"
  | TNthroot a b => "\sqrt[" ++ latex_trees a ++ "]{" ++ latex_trees b ++ "}"
  | TAbs a => "\left|" ++ latex_trees a ++ "\right|"
  | TParen a => "\left(" ++ latex_trees a ++ "\right)"
  | TFunction name a => "\" ++ name ++ "\left(" ++ latex_trees a ++ "\right)"
  | TMixed w a b =>
      latex_trees w ++ "\frac{" ++ latex_trees a ++ "}{" ++ latex_trees b ++ "}"
  end.

(** The LaTeX text of the children of a sequence, one after the other. *)
Definition latex_trees (ts : list tree) : string :=
  foldr (λ t acc, latex_tree t ++ acc) EmptyString ts.

Local Close Scope string_scope.

(** ** The size of an expression *)

Local Open Scope Z_scope.

(** [math2_get_width] and [math2_get_height] *)
Definition math2_get_width (e : math_expr2_t) : option Z :=
  m ← math2_measure render_fuel (nodes e) (root e) 100; Some (width m).
Definition math2_get_height (e : math_expr2_t) : option Z :=
  m ← math2_measure render_fuel (nodes e) (root e) 100; Some (height m).

(** A box with its baseline inside it. *)
Definition box (m : metrics_t) : Prop :=
  0 ≤ width m ∧ 0 ≤ baseline m ≤ height m.

(** The end of [measure_sequence]: the metrics of a sequence from the sums
    its loop has made. *)
Definition sequence_metrics (font_scale : Z) (acc : Z * Z * Z) : metrics_t :=
  let '(w, max_above, max_below) := acc in
  let h := max_above + max_below in
  let w := if decide (w = 0) then 8 else w in
  if decide (h = 0) then
    let h := text_height font_scale in mk_metrics w h (h ÷ 2)
  else mk_metrics w h max_above.

(** One turn of the loop of [measure_sequence]. *)
Definition add_child (cm : metrics_t) (acc : Z * Z * Z) : Z * Z * Z :=
  let '(w, max_above, max_below) := acc in
  (w + width cm, larger (baseline cm) max_above,
   larger (height cm - baseline cm) max_below).

(** The metrics of an expression, by the shape of the expression. *)
Fixpoint measure_tree (t : tree) (font_scale : Z) : metrics_t :=
  let children :=
    fix go (ts : list tree) (fs : Z) (acc : Z * Z * Z) : Z * Z * Z :=
      match ts with
      | [] => acc
      | t :: rest => go rest fs (add_child (measure_tree t fs) acc)
      end in
  let slot := λ ts fs, sequence_metrics fs (children ts fs (0, 0, 0)) in
  match t with
  | TText subtype text =>
      let h := text_height font_scale in
      if decide (subtype = TEXT_PI) then mk_metrics 10 h (h ÷ 2)
      else mk_metrics (text_width text font_scale) h (h ÷ 2)
  | TFraction a b =>
      let num := min_size 12 10 (slot a font_scale) in
      let den := min_size 12 10 (slot b font_scale) in
      mk_metrics (larger (width num) (width den) + 4)
                 (height num + FRAC_PAD + FRAC_BAR_H + FRAC_PAD + height den)
                 (height num + FRAC_PAD)
  | TExponent a b =>
      let base := slot a font_scale in
      let power := min_size 8 10 (slot b (at_least 60 (scale font_scale EXP_SCALE))) in
      mk_metrics (width base + width power + 4)
                 (height base + height power - 4)
                 (baseline base + height power - 4)
  | TSubscript a b =>
      let base := slot a font_scale in
      let sub := min_size 8 8 (slot b (scale font_scale EXP_SCALE)) in
      mk_metrics (width base + width sub) (height base + height sub ÷ 2)
                 (baseline base)
  | TRoot i a =>
      let content := min_size 12 10 (slot a font_scale) in
      let root_w := scale 10 font_scale in
      let index_w := if decide (i ≠ 2) then 8 else 0 in
      let index_h := if decide (i ≠ 2) then 8 else 0 in
      mk_metrics (index_w + root_w + width content + 2)
                 (height content + 4 + index_h ÷ 2)
                 (baseline content + 2 + index_h ÷ 2)
  | TNthroot a b =>
      let idx := min_size 8 8 (slot a (scale font_scale 60)) in
      let content := min_size 12 10 (slot b font_scale) in
      let root_w := scale 10 font_scale in
      mk_metrics (width idx + root_w + width content + 2)
                 (height content + 4 + height idx ÷ 2)
                 (baseline content + 2 + height idx ÷ 2)
  | TAbs a =>
      let content := min_size 8 10 (slot a font_scale) in
      mk_metrics (width content + 8) (height content + 4) (baseline content + 2)
  | TParen a =>
      let content := min_size 8 10 (slot a font_scale) in
      let paren_w := 6 + (if decide (height content > 20) then 2 else 0) in
      mk_metrics (width content + paren_w * 2 + 4) (height content + 4)
                 (baseline content + 2)
  | TFunction name a =>
      let name_w := text_width name font_scale in
      let arg := min_size 8 10 (slot a font_scale) in
      let h := larger (height arg) (text_height font_scale) in
      mk_metrics (name_w + 6 + width arg + 6) h (h ÷ 2)
  | TMixed w a b =>
      let whole := min_size 8 10 (slot w font_scale) in
      let num := min_size 10 8 (slot a font_scale) in
      let den := min_size 10 8 (slot b font_scale) in
      let frac_w := larger (width num) (width den) + 4 in
      let frac_h := height num + FRAC_PAD + FRAC_BAR_H + FRAC_PAD + height den in
      mk_metrics (width whole + 4 + frac_w) (larger frac_h (height whole))
                 (height num + FRAC_PAD)
  end.

(** The loop of [measure_sequence] over the children of a sequence. *)
Definition measure_children_of (ts : list tree) (fs : Z) (acc : Z * Z * Z)
    : Z * Z * Z :=
  foldl (λ acc t, add_child (measure_tree t fs) acc) acc ts.

(** The metrics of a sequence, by the shapes of its children. *)
Definition measure_slot (ts : list tree) (fs : Z) : metrics_t :=
  sequence_metrics fs (measure_children_of ts fs (0, 0, 0)).

(** The size of an expression: the number of its nodes, each slot of a
    container counted as one more, and the number of bytes of its texts and
    function names. *)
Fixpoint tree_nodes (t : tree) : Z :=
  let trees :=
    fix go (ts : list tree) : Z :=
      match ts with
      | [] => 0
      | t :: rest => tree_nodes t + go rest
      end in
  match t with
  | TText _ _ => 1
  | TFraction a b | TExponent a b | TSubscript a b | TNthroot a b =>
      3 + trees a + trees b
  | TRoot _ a | TAbs a | TParen a | TFunction _ a => 2 + trees a
  | TMixed w a b => 4 + trees w + trees a + trees b
  end.

Definition trees_nodes (ts : list tree) : Z :=
  foldr (λ t acc, tree_nodes t + acc) 0 ts.

Fixpoint tree_bytes (t : tree) : Z :=
  let trees :=
    fix go (ts : list tree) : Z :=
      match ts with
      | [] => 0
      | t :: rest => tree_bytes t + go rest
      end in
  match t with
  | TText _ text => strlen text
  | TFraction a b | TExponent a b | TSubscript a b | TNthroot a b =>
      trees a + trees b
  | TRoot _ a | TAbs a | TParen a => trees a
  | TFunction name a => strlen name + trees a
  | TMixed w a b => trees w + trees a + trees b
  end.

Definition trees_bytes (ts : list tree) : Z :=
  foldr (λ t acc, tree_bytes t + acc) 0 ts.

(** A box of metrics within the bounds that [nodes] nodes with [bytes]
    bytes of text allow. *)
Definition bounded_box (m : metrics_t) (bytes nodes : Z) : Prop :=
  0 ≤ bytes ∧ 0 ≤ nodes ∧
  0 ≤ width m ≤ CHAR_W * bytes + 40 * nodes ∧
  0 ≤ baseline m ≤ height m ∧ height m ≤ 40 * nodes.

Local Close Scope Z_scope.

(** ** The slots of a subtree *)

(** The slots [math2_free_node] goes through from a node: the node, the
    sequences in its slots and the slots of their children, in the order
    of the calls. A slot that is [NULL] or no sequence, or a child that is
    [NODE_EMPTY], has no footprint. *)
Fixpoint footprint_of (fuel : nat) (ns : list expr_node) (i : nat)
    : option (list nat) :=
  match fuel with
  | 0 => None
  | S fuel' =>
      n ← ns !! i;
      match type n with
      | NODE_TEXT => Some [i]
      | NODE_FRACTION =>
          a ← slot_footprint fuel' ns (frac_numer n);
          b ← slot_footprint fuel' ns (frac_denom n);
          Some (i :: a ++ b)
      | NODE_EXPONENT =>
          a ← slot_footprint fuel' ns (exp_base n);
          b ← slot_footprint fuel' ns (exp_power n);
          Some (i :: a ++ b)
      | NODE_SUBSCRIPT =>
          a ← slot_footprint fuel' ns (subscript_base n);
          b ← slot_footprint fuel' ns (subscript_sub n);
          Some (i :: a ++ b)
      | NODE_ROOT =>
          a ← slot_footprint fuel' ns (root_content n);
          Some (i :: a)
      | NODE_NTHROOT =>
          a ← slot_footprint fuel' ns (nthroot_index n);
          b ← slot_footprint fuel' ns (nthroot_content n);
          Some (i :: a ++ b)
      | NODE_ABS => a ← slot_footprint fuel' ns (abs_content n); Some (i :: a)
      | NODE_PAREN => a ← slot_footprint fuel' ns (paren_content n); Some (i :: a)
      | NODE_FUNCTION => a ← slot_footprint fuel' ns (func_arg n); Some (i :: a)
      | NODE_MIXED_FRAC =>
          a ← slot_footprint fuel' ns (mixed_whole n);
          b ← slot_footprint fuel' ns (mixed_numer n);
          c ← slot_footprint fuel' ns (mixed_denom n);
          Some (i :: a ++ b ++ c)
      | NODE_SEQUENCE | NODE_EMPTY => None
      end
  end
with slot_footprint (fuel : nat) (ns : list expr_node) (seq : ptr)
    : option (list nat) :=
  match fuel with
  | 0 => None
  | S fuel' =>
      s ← seq;
      sn ← ns !! s;
      if decide (type sn = NODE_SEQUENCE) then
        cs ← chain_footprint fuel' ns (seq_first sn);
        Some (s :: cs)
      else None
  end
with chain_footprint (fuel : nat) (ns : list expr_node) (child : ptr)
    : option (list nat) :=
  match fuel with
  | 0 => None
  | S fuel' =>
      match child with
      | None => Some []
      | Some c =>
          a ← footprint_of fuel' ns c;
          cn ← ns !! c;
          r ← chain_footprint fuel' ns (next cn);
          Some (a ++ r)
      end
  end.

(** The pool with the slots of [fp] released: their type is
    [NODE_EMPTY], and nothing else of them changes. *)
Definition release (fp : list nat) (ns : list expr_node) : list expr_node :=
  imap (λ j n, if bool_decide (j ∈ fp) then set_type NODE_EMPTY n else n) ns.

(** ** The display under the draw pass *)

(** A result of the draw pass with the calls [before] put in front of the
    display. *)
Definition onto {A : Type} (before : list draw_call) (r : option (A * draw_state))
    : option (A * draw_state) :=
  match r with
  | Some (x, st) => Some (x, mk_draw_state (g_paren_depth st) (before ++ display st))
  | None => None
  end.

(** [m] reads nothing of the display and only adds calls at its end. *)
Definition display_blind {A : Type} (m : D A) : Prop :=
  ∀ d before disp,
    m (mk_draw_state d (before ++ disp)) = onto before (m (mk_draw_state d disp)).

(** ** States to run the code on *)

(** [typed_12] with one more text node taken from the pool and linked
    nowhere. *)
Definition typed_12_spare : math_expr2_t :=
  Eval vm_compute in default typed_12 (exec (math2_alloc_node NODE_TEXT) typed_12).

(** The state after the digit 1, an opening parenthesis, the digit 2 within
    it, and the key right: the cursor stands behind the parenthesis. *)
Definition typed_paren : math_expr2_t :=
  Eval vm_compute in
    default math2_init
      (exec (session [digit "1"; math2_insert_paren; digit "2"; key_right])
            math2_init).

(** [typed_paren] with the cursor before the parenthesis. *)
Definition before_paren : math_expr2_t :=
  with_cursor (mk_cursor (Some 0) (Some 1)) typed_paren.

(** The state after the digit 1, a fraction, which takes the digit as its
    numerator, and the digit 2 typed into the denominator. *)
Definition typed_frac : math_expr2_t :=
  Eval vm_compute in
    default math2_init
      (exec (session [digit "1"; math2_insert_fraction; digit "2"]) math2_init).

(** The state after the digit 1 and the operator +. *)
Definition typed_1_plus : math_expr2_t :=
  Eval vm_compute in
    default math2_init (exec (session [digit "1"; operator "+"]) math2_init).

(** A pool with one slot left: 127 parens nested in one another take 254
    slots, and the root is one more. *)
Definition pool_nearly_full : math_expr2_t :=
  Eval vm_compute in default math2_init (exec (nested_parens 127) math2_init).

(** * Properties of the code *)

(** ** Reasoning in the monad *)

Lemma M_bind_Some {A B : Type} (m : M A) (f : A → M B) e b e' :
  (m ≫= f) e = Some (b, e') ↔ ∃ a e1, m e = Some (a, e1) ∧ f a e1 = Some (b, e').
Proof.
  unfold mbind, M_bind. split.
  - destruct (m e) as [[a e1]|]; [|done]. intros H. by exists a, e1.
  - intros (a & e1 & -> & H). done.
Qed.

Lemma load_Some i e n e' :
  load i e = Some (n, e') ↔ nodes e !! i = Some n ∧ e' = e.
Proof.
  unfold load. destruct (nodes e !! i); split; intros H; try done.
  - by inversion H.
  - destruct H as [[= ->] ->]. done.
  - by destruct H.
Qed.

Lemma store_Some i f e u e' :
  store i f e = Some (u, e') ↔
  is_Some (nodes e !! i) ∧ e' = with_nodes (alter f i (nodes e)) e.
Proof.
  unfold store. destruct u. destruct (nodes e !! i); split; intros H.
  - inversion H. eauto.
  - by destruct H as [_ ->].
  - done.
  - destruct H as [[? ?] _]. done.
Qed.

(** ** The node pool *)

Lemma alloc_scan_Some ns nf k i idx :
  alloc_scan ns nf k i = Some idx →
  ∃ j, i ≤ j < i + k ∧ idx = (nf + j) mod MAX_NODES ∧ slot_empty ns idx ∧
       ∀ j', i ≤ j' < j → ¬ slot_empty ns ((nf + j') mod MAX_NODES).
Proof.
  revert i. induction k as [|k IH]; intros i; cbn [alloc_scan]; [done|].
  destruct (ns !! ((nf + i) mod MAX_NODES)) as [n|] eqn:Hn.
  - destruct (decide (type n = NODE_EMPTY)) as [He|He].
    + intros [= ?]; subst idx. exists i. split; [lia|]. split; [done|].
      split; [by exists n|]. intros j' ?. lia.
    + intros H. destruct (IH _ H) as (j & Hj & -> & Hemp & Hmin).
      exists j. split; [lia|]. split; [done|]. split; [done|].
      intros j' Hj'. destruct (decide (j' = i)) as [->|].
      * intros (n' & Hn' & He'). congruence.
      * apply Hmin. lia.
  - intros H. destruct (IH _ H) as (j & Hj & -> & Hemp & Hmin).
    exists j. split; [lia|]. split; [done|]. split; [done|].
    intros j' Hj'. destruct (decide (j' = i)) as [->|].
    + intros (n' & Hn' & He'). congruence.
    + apply Hmin. lia.
Qed.

Lemma alloc_scan_None ns nf k i :
  alloc_scan ns nf k i = None →
  ∀ j, i ≤ j < i + k → ¬ slot_empty ns ((nf + j) mod MAX_NODES).
Proof.
  revert i. induction k as [|k IH]; intros i; cbn [alloc_scan]; [intros; lia|].
  destruct (ns !! ((nf + i) mod MAX_NODES)) as [n|] eqn:Hn.
  - destruct (decide (type n = NODE_EMPTY)) as [He|He]; [done|].
    intros H j Hj. destruct (decide (j = i)) as [->|].
    + intros (n' & Hn' & He'). congruence.
    + apply (IH _ H). lia.
  - intros H j Hj. destruct (decide (j = i)) as [->|].
    + intros (n' & Hn' & He'). congruence.
    + apply (IH _ H). lia.
Qed.

(** The scan [(next_free + j) % MAX_NODES], [j] from 0 to [MAX_NODES - 1],
    meets every slot. *)
Lemma cyclic_offset nf idx :
  idx < MAX_NODES → ∃ j, j < MAX_NODES ∧ (nf + j) mod MAX_NODES = idx.
Proof.
  unfold MAX_NODES. intros H.
  exists ((idx + 256 - nf mod 256) mod 256). split.
  - apply Nat.mod_upper_bound. lia.
  - pose proof (Nat.mod_upper_bound nf 256).
    rewrite Nat.Div0.add_mod_idemp_r.
    rewrite (Nat.div_mod_eq nf 256) at 1.
    replace (256 * (nf / 256) + nf mod 256 + (idx + 256 - nf mod 256))
      with (idx + (1 + nf / 256) * 256) by lia.
    rewrite Nat.Div0.mod_add. apply Nat.mod_small. lia.
Qed.

(** The two ways [math2_alloc_node] returns: with the first free slot at or
    after [next_free], in cyclic order, or with [NULL] from a full pool. *)
Lemma alloc_outcome (t : node_type_t) (e : math_expr2_t) :
  (∃ i idx,
      i < MAX_NODES ∧ idx = (next_free e + i) mod MAX_NODES ∧
      slot_empty (nodes e) idx ∧
      (∀ j, j < i → ¬ slot_empty (nodes e) ((next_free e + j) mod MAX_NODES)) ∧
      type (fresh_node t) = t ∧
      math2_alloc_node t e =
        Some (Some idx,
              with_next_free ((idx + 1) mod MAX_NODES)
                (with_nodes (<[idx := fresh_node t]> (nodes e)) e)))
  ∨ ((∀ idx, idx < MAX_NODES → ¬ slot_empty (nodes e) idx) ∧
     math2_alloc_node t e = Some (NULL, e)).
Proof.
  unfold math2_alloc_node.
  destruct (alloc_scan (nodes e) (next_free e) MAX_NODES 0) as [idx|] eqn:Hscan.
  - left. apply alloc_scan_Some in Hscan as (j & Hj & -> & Hemp & Hmin).
    exists j, ((next_free e + j) mod MAX_NODES).
    split; [lia|]. split; [done|]. split; [done|].
    split; [intros j' ?; apply Hmin; lia|]. done.
  - right. split; [|done]. intros idx Hidx.
    destruct (cyclic_offset (next_free e) idx Hidx) as (j & Hj & <-).
    eapply alloc_scan_None; [done|lia].
Qed.

(** C6. [math2_alloc_node] scans the pool cyclically from [next_free]: either
    it returns the first [NODE_EMPTY] slot met in that order, zeroed and given
    the requested type, and moves [next_free] just past it (modulo
    [MAX_NODES]); or no slot of the pool is [NODE_EMPTY], and it returns
    [NULL] and leaves the whole state as it was. *)
Theorem math2_alloc_node_round_robin (t : node_type_t) (e : math_expr2_t) :
  (∃ i idx,
      i < MAX_NODES ∧ idx = (next_free e + i) mod MAX_NODES ∧
      slot_empty (nodes e) idx ∧
      (∀ j, j < i → ¬ slot_empty (nodes e) ((next_free e + j) mod MAX_NODES)) ∧
      type (fresh_node t) = t ∧
      math2_alloc_node t e =
        Some (Some idx,
              with_next_free ((idx + 1) mod MAX_NODES)
                (with_nodes (<[idx := fresh_node t]> (nodes e)) e)))
  ∨ ((∀ idx, idx < MAX_NODES → ¬ slot_empty (nodes e) idx) ∧
     math2_alloc_node t e = Some (NULL, e)).
Proof.
  unfold math2_alloc_node.
  destruct (alloc_scan (nodes e) (next_free e) MAX_NODES 0) as [idx|] eqn:Hscan.
  - left. apply alloc_scan_Some in Hscan as (j & Hj & -> & Hemp & Hmin).
    exists j, ((next_free e + j) mod MAX_NODES).
    split; [lia|]. split; [done|]. split; [done|].
    split; [intros j' ?; apply Hmin; lia|]. done.
  - right. split; [|done]. intros idx Hidx.
    destruct (cyclic_offset (next_free e) idx Hidx) as (j & Hj & <-).
    eapply alloc_scan_None; [done|lia].
Qed.

Lemma math2_free_node_released fuel node e :
  released e node → math2_free_node (S fuel) node e = Some ((), e).
Proof.
  destruct node as [i|]; [|done].
  intros (n & Hn & He). cbn [math2_free_node].
  unfold mbind, M_bind, load. rewrite Hn.
  destruct (decide (type n = NODE_EMPTY)); done.
Qed.

Lemma math2_free_node_releases fuel node e e' :
  math2_free_node fuel node e = Some ((), e') → released e' node.
Proof.
  destruct fuel as [|fuel]; [done|]. destruct node as [i|]; [|done].
  cbn [math2_free_node]. intros H.
  apply M_bind_Some in H as (n & e1 & Hload & H).
  apply load_Some in Hload as [Hn ->].
  destruct (decide (type n = NODE_EMPTY)) as [He|He].
  - inversion H; subst. by exists n.
  - apply M_bind_Some in H as (u & e2 & _ & Hstore).
    apply store_Some in Hstore as [[n2 Hn2] ->].
    exists (set_type NODE_EMPTY n2). split; [|done].
    cbn. by rewrite list_lookup_alter_eq, Hn2.
Qed.

(** C7. Releasing [NULL] or a node that is already [NODE_EMPTY] does
    nothing: the state it returns is the state it was given, pool and
    [next_free] included. Hence, once a release of [node] has led to the
    state [e], releasing [node] again leaves [e]. *)
Theorem math2_free_node_idempotent (fuel : nat) (node : ptr) (e : math_expr2_t) :
  (released e node → math2_free_node (S fuel) node e = Some ((), e)) ∧
  (∀ fuel0 e0, math2_free_node fuel0 node e0 = Some ((), e) →
               math2_free_node (S fuel) node e = Some ((), e)).
Proof.
  split.
  - apply math2_free_node_released.
  - intros fuel0 e0 H. apply math2_free_node_released.
    by eapply math2_free_node_releases.
Qed.

(** ** Weakest preconditions *)

Lemma wp_ret {A : Type} (a : A) Q e : Q a e → wp (mret a) Q e.
Proof. intros H. by exists a, e. Qed.

Lemma wp_bind {A B : Type} (m : M A) (f : A → M B) Q e :
  wp m (λ a e1, wp (f a) Q e1) e → wp (m ≫= f) Q e.
Proof.
  intros (a & e1 & Hm & b & e2 & Hf & HQ). exists b, e2. split; [|done].
  apply M_bind_Some. eauto.
Qed.

Lemma wp_mono {A : Type} (m : M A) (Q Q' : A → math_expr2_t → Prop) e :
  wp m Q e → (∀ a e', Q a e' → Q' a e') → wp m Q' e.
Proof. intros (a & e' & Hm & HQ) H. exists a, e'. auto. Qed.

Lemma wp_gets {A : Type} (f : math_expr2_t → A) Q e : Q (f e) e → wp (gets f) Q e.
Proof. intros H. by exists (f e), e. Qed.

Lemma wp_modify f Q e : Q () (f e) → wp (modify f) Q e.
Proof. intros H. by exists (), (f e). Qed.

Lemma wp_load i n Q e : nodes e !! i = Some n → Q n e → wp (load i) Q e.
Proof. intros Hn H. exists n, e. split; [|done]. by apply load_Some. Qed.

Lemma wp_deref i n Q e : nodes e !! i = Some n → Q n e → wp (deref (Some i)) Q e.
Proof. apply wp_load. Qed.

Lemma wp_store i f n Q e :
  nodes e !! i = Some n →
  Q () (with_nodes (alter f i (nodes e)) e) → wp (store i f) Q e.
Proof.
  intros Hn H. exists (), (with_nodes (alter f i (nodes e)) e). split; [|done].
  apply store_Some. eauto.
Qed.

Lemma wp_run {A : Type} (m : M A) Q e a e' : m e = Some (a, e') → Q a e' → wp m Q e.
Proof. intros. by exists a, e'. Qed.

(** One step of a computation in [M]: binds, returns, field reads and
    writes. Loads and stores are left to the caller, who knows the slot. *)
Ltac wp_step :=
  lazymatch goal with
  | |- wp (mbind _ _) _ _ => apply wp_bind
  | |- wp (mret _) _ _ => apply wp_ret
  | |- wp (gets _) _ _ => apply wp_gets
  | |- wp (modify _) _ _ => apply wp_modify
  end.

Ltac wp_load_with H := eapply wp_load; [exact H|]; cbn beta.

(** ** The cursor *)

Ltac munfold :=
  unfold mbind, M_bind, mret, M_ret, gets, modify, deref, when_ptr, load, store,
    undefined in *.

Ltac cursor_unfold :=
  unfold cursor_left, cursor_right, cursor_enter, cursor_enter_left, cursor_enter_right,
    cursor_exit, cursor_exit_right, cursor_exit_left, cursor_next_slot, cursor_prev_slot,
    node_ahead, enter_slot, exit_container in *.

Lemma cursor_op_frame op e b e' :
  run_cursor_op op e = Some (b, e') → e' = with_cursor (cursor e') e.
Proof.
  destruct e as [ns nf r [cs ca] lx sm am].
  destruct op; cbn [run_cursor_op]; cursor_unfold; munfold; cbn;
  intros H; repeat (case_match; simplify_eq/=); done.
Qed.

Lemma ptr_in_pool_valid ns p : ptr_in_pool (length ns) p = true → valid_ptr ns p.
Proof.
  destruct p as [j|]; [|done]. cbn. intros H%bool_decide_eq_true.
  by apply lookup_lt_is_Some.
Qed.

Lemma node_in_pool_valid ns n p :
  node_in_pool (length ns) n = true → p ∈ node_ptrs n → valid_ptr ns p.
Proof.
  unfold node_in_pool, node_ptrs. rewrite !andb_true_iff, forallb_forall.
  intros [[[H1 H2] H3] H4] Hp. apply ptr_in_pool_valid.
  rewrite !elem_of_cons in Hp. destruct Hp as [->|[->|[->|Hp]]]; try done.
  apply H4. by apply list_elem_of_In.
Qed.

Lemma pool_valid e i n p :
  pointers_in_pool e = true → nodes e !! i = Some n → p ∈ node_ptrs n →
  valid_ptr (nodes e) p.
Proof.
  unfold pointers_in_pool. rewrite !andb_true_iff, forallb_forall.
  intros [[H _] _] Hn Hp. eapply node_in_pool_valid; [|done].
  apply H. apply list_elem_of_In. by eapply list_elem_of_lookup_2.
Qed.

Lemma slot_in_node_ptrs (n : expr_node) (c p : ptr) :
  p ∈ [seq_first n; seq_last n; get_first_slot n; get_last_slot n;
       get_next_slot n c; get_prev_slot n c] →
  p = NULL ∨ p ∈ node_ptrs n.
Proof.
  unfold node_ptrs, seq_first, seq_last, get_first_slot, get_last_slot,
    get_next_slot, get_prev_slot,
    frac_numer, frac_denom, exp_base, exp_power, subscript_base, subscript_sub,
    root_content, nthroot_index, nthroot_content, abs_content, paren_content, func_arg,
    mixed_whole, mixed_numer, mixed_denom.
  rewrite !elem_of_cons, elem_of_nil.
  destruct (type n), (data n); cbn; intros [->|[->|[->|[->|[->|[->|[]]]]]]];
    repeat case_decide; rewrite ?elem_of_cons; auto 10.
Qed.

(** In a pool whose pointers stay inside it, whatever a cursor operation
    reads off a node is [NULL] or a slot. *)
Lemma field_valid e i n p :
  pointers_in_pool e = true → nodes e !! i = Some n →
  p ∈ [parent n; next n; prev n; seq_first n; seq_last n;
       get_first_slot n; get_last_slot n] ∨
  (∃ c, p = get_next_slot n c ∨ p = get_prev_slot n c) →
  valid_ptr (nodes e) p.
Proof.
  intros He Hn Hp.
  assert (p = NULL ∨ p ∈ node_ptrs n) as [->|H]; [|done|by eapply pool_valid].
  destruct Hp as [Hp|[c Hp]].
  - rewrite !elem_of_cons in Hp.
    destruct Hp as [->|[->|[->|Hp]]];
      [right; unfold node_ptrs; rewrite !elem_of_cons; auto..|].
    apply (slot_in_node_ptrs n NULL). rewrite !elem_of_cons. tauto.
  - apply (slot_in_node_ptrs n c). rewrite !elem_of_cons. tauto.
Qed.

Ltac find_slot e He Ha j :=
  first
    [ exact Ha
    | eexists; eassumption
    | match goal with
      | Hf : get_next_slot ?m ?c = Some j, Hm : nodes e !! _ = Some ?m |- _ =>
          apply (field_valid e _ m (Some j) He Hm); right; exists c; rewrite <- Hf; tauto
      | Hf : get_prev_slot ?m ?c = Some j, Hm : nodes e !! _ = Some ?m |- _ =>
          apply (field_valid e _ m (Some j) He Hm); right; exists c; rewrite <- Hf; tauto
      end
    | match goal with
      | Hf : _ ?m = Some j, Hm : nodes e !! _ = Some ?m |- _ =>
          apply (field_valid e _ m (Some j) He Hm); left; rewrite <- Hf;
          rewrite !elem_of_cons; tauto
      end ].

Ltac cursor_steps e He Ha Hs :=
  repeat first
    [ wp_step; cbn beta
    | lazymatch goal with
      | |- wp (deref (sequence (cursor e))) _ _ => rewrite Hs; unfold deref
      | |- wp (load ?j) _ _ =>
          let n := fresh "n" in let Hn := fresh "Hn" in
          assert (is_Some (nodes e !! j)) as [n Hn];
          [ find_slot e He Ha j | eapply wp_load; [exact Hn|]; cbn beta ]
      | |- wp (match ?x with _ => _ end) _ _ => destruct x eqn:?
      end ].

Lemma cursor_op_defined op e :
  pointers_in_pool e = true →
  wp (run_cursor_op op) (λ _ e', ∃ c, e' = with_cursor c e) e.
Proof.
  intros He.
  assert (∃ s sn, sequence (cursor e) = Some s ∧ nodes e !! s = Some sn)
    as (s & sn & Hs & Hsn).
  { unfold pointers_in_pool in He. rewrite !andb_true_iff in He. destruct He as [_ H].
    destruct (sequence (cursor e)) as [s|]; [|done]. apply bool_decide_eq_true in H.
    apply lookup_lt_is_Some in H as [sn ?]. eauto. }
  assert (valid_ptr (nodes e) (after (cursor e))) as Ha.
  { unfold pointers_in_pool in He. rewrite !andb_true_iff in He.
    destruct He as [[_ H] _]. by apply ptr_in_pool_valid. }
  destruct op; cbn [run_cursor_op]; cursor_unfold; cursor_steps e He Ha Hs.
  all: destruct e as [ns nf r [cs ca] lx sm am]; cbn; eexists (mk_cursor _ _);
    reflexivity.
Qed.

(** C10. A cursor operation writes nothing but the cursor. Whatever it
    returns, the pool, [next_free], the root, the LaTeX buffer and the two
    mode flags are those it was given; and in a pool whose pointers stay
    inside it, with the cursor in some sequence, every cursor operation is
    defined and gives back the same state with another cursor. *)
Theorem cursor_ops_only_move_cursor (op : cursor_op) (e : math_expr2_t) :
  (∀ b e', run_cursor_op op e = Some (b, e') →
     nodes e' = nodes e ∧ next_free e' = next_free e ∧ root e' = root e ∧
     latex e' = latex e ∧
     shift_mode e' = shift_mode e ∧ alpha_mode e' = alpha_mode e) ∧
  (pointers_in_pool e = true →
     ∃ b c, run_cursor_op op e = Some (b, with_cursor c e)).
Proof.
  split.
  - intros b e' H. apply cursor_op_frame in H. rewrite H. done.
  - intros He. destruct (cursor_op_defined op e He) as (b & e' & Hrun & c & ->).
    eauto.
Qed.

(** C8. At the start of its sequence [cursor_left] returns false and at
    the end of it [cursor_right] returns false, each leaving the state, and
    so the cursor, as it was; in the root sequence [cursor_exit_right]
    returns false; and both moves fail on the empty expression that
    [math2_init] builds. *)
Theorem cursor_boundaries (e : math_expr2_t) :
  (after (cursor e) = NULL → cursor_left e = Some (false, e)) ∧
  (at_sequence_end e → cursor_right e = Some (false, e)) ∧
  (at_root e → cursor_exit_right e = Some (false, e)) ∧
  cursor_left math2_init = Some (false, math2_init) ∧
  cursor_right math2_init = Some (false, math2_init).
Proof.
  split; [|split; [|split; [|split]]].
  - intros H. unfold cursor_left. munfold. by rewrite H.
  - unfold at_sequence_end, cursor_right, node_ahead. munfold.
    destruct (after (cursor e)) as [a|].
    + intros (an & -> & ->). done.
    + intros (s & sn & -> & -> & ->). done.
  - intros (r & rn & Hs & _ & Hn & Hp).
    unfold cursor_exit_right, exit_container. munfold.
    by rewrite Hs, Hn, Hp.
  - vm_compute. reflexivity.
  - vm_compute. reflexivity.
Qed.

(** ** Fractions *)

Local Open Scope string_scope.

(** C2. Three digits typed into the empty expression and then a fraction:
    the walk back from the cursor meets only text nodes, so the three digits
    become the numerator. The expression is the single fraction 123 over an
    empty denominator, and the cursor stands at the start of the
    denominator. *)
Theorem digits_then_fraction :
  ∃ e' f fn,
    exec (session [digit "1"; digit "2"; digit "3"; math2_insert_fraction]) math2_init
      = Some e' ∧
    expression e' =
      Some [TFraction [TText TEXT_NUMBER "1"; TText TEXT_NUMBER "2";
                       TText TEXT_NUMBER "3"] []] ∧
    (rn ← deref (root e'); mret (seq_first rn)) e' = Some (Some f, e') ∧
    nodes e' !! f = Some fn ∧
    type fn = NODE_FRACTION ∧
    cursor e' = mk_cursor (frac_denom fn) NULL ∧
    frac_denom fn ≠ frac_numer fn ∧
    seq_is_empty (frac_numer fn) e' = Some (false, e') ∧
    seq_is_empty (frac_denom fn) e' = Some (true, e').
Proof.
  eexists _, 4, _. split; [vm_compute; reflexivity|].
  split; [vm_compute; reflexivity|].
  split; [vm_compute; reflexivity|].
  split; [vm_compute; reflexivity|].
  repeat split; try (vm_compute; reflexivity).
  vm_compute. discriminate.
Qed.

(** Closed goals about concrete sessions: each conjunct by evaluation. *)
Ltac vm_conj :=
  repeat (lazymatch goal with |- _ ∧ _ => split end; [vm_compute; reflexivity|]);
  vm_compute; reflexivity.

(** C2, as the claim has it, fails: after the same four calls no fraction
    of the pool has an empty numerator, an empty denominator and the cursor
    in its numerator. *)
Lemma digits_then_fraction_not_empty :
  ∃ e',
    exec (session [digit "1"; digit "2"; digit "3"; math2_insert_fraction]) math2_init
      = Some e' ∧
    existsb (empty_fraction_cursor_in_numerator e') (nodes e') = false.
Proof. eexists. vm_conj. Qed.

(** The example of C1: with "1", "+", "2" typed and the cursor at the end,
    the fraction takes "2" alone; "1" and "+" stay in front of it and the
    cursor starts in the denominator. *)
Lemma fraction_stops_at_operator :
  ∃ e' f fn,
    exec (session [digit "1"; operator "+"; digit "2"; math2_insert_fraction]) math2_init
      = Some e' ∧
    expression e' =
      Some [TText TEXT_NUMBER "1"; TText TEXT_OPERATOR "+";
            TFraction [TText TEXT_NUMBER "2"] []] ∧
    last_of_root e' = Some f ∧ nodes e' !! f = Some fn ∧
    cursor e' = mk_cursor (frac_denom fn) NULL.
Proof. eexists _, _, _. vm_conj. Qed.

(** C1, the code where the claim fails. "1", "+", "2" are typed and the
    cursor is moved left once: it stands right after the operator, with "2"
    behind it. The claim has nothing to collect there, and leaves an empty
    fraction between "+" and "2". The walk of [math2_insert_fraction] steps
    from the operator to [collect_start->next], which is the sibling after
    the cursor, and the loop that moves the nodes then runs to the end of
    the sequence: "2" becomes the numerator and the cursor goes to the
    denominator. *)
Theorem fraction_takes_siblings_after_cursor :
  ∃ e0 a an e' f fn,
    exec (session [digit "1"; operator "+"; digit "2"; ignore cursor_left]) math2_init
      = Some e0 ∧
    expression e0 =
      Some [TText TEXT_NUMBER "1"; TText TEXT_OPERATOR "+"; TText TEXT_NUMBER "2"] ∧
    sequence (cursor e0) = root e0 ∧
    after (cursor e0) = Some a ∧ nodes e0 !! a = Some an ∧
    IS_OPERATOR an = true ∧ is_Some (next an) ∧
    exec math2_insert_fraction e0 = Some e' ∧
    expression e' =
      Some [TText TEXT_NUMBER "1"; TText TEXT_OPERATOR "+";
            TFraction [TText TEXT_NUMBER "2"] []] ∧
    last_of_root e' = Some f ∧ nodes e' !! f = Some fn ∧
    cursor e' = mk_cursor (frac_denom fn) NULL.
Proof.
  eexists _, _, _, _, _, _.
  split; [vm_compute; reflexivity|].
  split; [vm_compute; reflexivity|].
  split; [vm_compute; reflexivity|].
  split; [vm_compute; reflexivity|].
  split; [vm_compute; reflexivity|].
  split; [vm_compute; reflexivity|].
  split; [vm_compute; eauto|].
  vm_conj.
Qed.

(** The node right before the cursor is taken whatever its kind, unless it
    is an operator: a function node, which the walk does not step over, is
    collected when the cursor stands right after it. *)
Lemma fraction_takes_function_before_cursor :
  ∃ e',
    exec (session [digit "1"; math2_insert_function "sin"; digit "x";
                   ignore cursor_exit; math2_insert_fraction]) math2_init
      = Some e' ∧
    expression e' =
      Some [TFraction [TText TEXT_NUMBER "1";
                       TFunction "sin" [TText TEXT_NUMBER "x"]] []].
Proof. eexists. vm_conj. Qed.

(** ** The LaTeX buffer *)

(** C5, the code where the claim fails. Eighty nested parens fit the pool
    (161 of its 256 slots) and are an expression like any other. Their text
    is 1040 bytes long: with the terminating zero the serializer has 1041
    bytes to store in the [MAX_LATEX] = 1024 bytes of [latex]. The code
    neither cuts the text nor reports anything: its calls of [strcat] go on
    past the end of the array, and [math2_to_latex] has no defined result.
    Seventy-eight nested parens, 1014 bytes, are stored in full. *)
Theorem latex_overflows_buffer :
  ∃ e ts e78 s78,
    exec (nested_parens 80) math2_init = Some e ∧
    next_free e = 161 ∧
    expression e = Some ts ∧
    latex_trees ts = repeat_string 80 "\left(" ++ repeat_string 80 "\right)" ∧
    bytes_stored (latex_trees ts) = 1041 ∧
    MAX_LATEX < bytes_stored (latex_trees ts) ∧
    math2_to_latex e = None ∧
    exec (nested_parens 78) math2_init = Some e78 ∧
    math2_to_latex e78 = Some ((), with_latex s78 e78) ∧
    s78 = repeat_string 78 "\left(" ++ repeat_string 78 "\right)" ∧
    bytes_stored s78 = 1015.
Proof.
  eexists _, _, _, _.
  split; [vm_compute; reflexivity|].
  split; [vm_compute; reflexivity|].
  split; [vm_compute; reflexivity|].
  split; [vm_compute; reflexivity|].
  split; [vm_compute; reflexivity|].
  split; [vm_compute; lia|].
  split; [vm_compute; reflexivity|].
  split; [vm_compute; reflexivity|].
  split; [vm_compute; reflexivity|].
  split; [vm_compute; reflexivity|].
  vm_compute. reflexivity.
Qed.

Local Close Scope string_scope.

(** ** The draw pass *)

Section DrawProps.
Context (e : math_expr2_t) (s : draw_settings).

Lemma blind_ret {A} (x : A) : depth_blind (mret x : D A).
Proof. by intros a b disp. Qed.

Lemma blind_lift {A} (o : option A) : depth_blind (lift o).
Proof. intros a b disp. by destruct o. Qed.

Lemma blind_call c : depth_blind (call c).
Proof. by intros a b disp. Qed.

Lemma blind_calls cs : depth_blind (calls cs).
Proof. by intros a b disp. Qed.

Lemma blind_bind {A B} (m : D A) (f : A → D B) :
  depth_blind m → (∀ x, depth_blind (f x)) → depth_blind (m ≫= f).
Proof.
  intros Hm Hf a b disp. unfold mbind, D_bind.
  rewrite (Hm a b disp). destruct (m (mk_draw_state b disp)) as [[x [d' disp']]|]; [|done].
  cbn. apply Hf.
Qed.

Lemma blind_depth {A} (m : D A) d disp x st :
  depth_blind m → m (mk_draw_state d disp) = Some (x, st) → g_paren_depth st = d.
Proof.
  intros Hm H. pose proof (Hm d d disp) as E. rewrite H in E. cbn in E.
  injection E as E. by rewrite E.
Qed.

Lemma same_at_refl {A} d (m : D A) : same_at d m m.
Proof. by intros disp. Qed.

Lemma same_at_bind {A B} d (m1 m2 : D A) (f1 f2 : A → D B) :
  same_at d m1 m2 → depth_blind m2 → (∀ x, same_at d (f1 x) (f2 x)) →
  same_at d (m1 ≫= f1) (m2 ≫= f2).
Proof.
  intros Hm Hb Hf disp. unfold mbind, D_bind. rewrite (Hm disp).
  destruct (m2 (mk_draw_state d disp)) as [[x [d' disp']]|] eqn:E; [|done].
  apply blind_depth in E; [|done]. cbn in E. subst d'. apply Hf.
Qed.

Create HintDb blind discriminated.
Hint Resolve blind_ret blind_lift blind_call blind_calls : blind.

Ltac blind_tac :=
  repeat first
    [ progress eauto with blind
    | apply blind_bind; [|intros ?]
    | match goal with
      | |- depth_blind (match ?x with _ => _ end) => destruct x
      | |- depth_blind (let _ := _ in _) => cbv zeta
      end ].

Lemma blind_draw_placeholder x y w h b : depth_blind (draw_placeholder s x y w h b).
Proof. unfold draw_placeholder. blind_tac. Qed.

Lemma blind_draw_cursor_line x y h : depth_blind (draw_cursor_line s x y h).
Proof. unfold draw_cursor_line. blind_tac. Qed.

Lemma blind_slot_is_empty p : depth_blind (slot_is_empty e p).
Proof. unfold slot_is_empty. blind_tac. Qed.

Lemma blind_draw_text n x y : depth_blind (draw_text n x y).
Proof. unfold draw_text. blind_tac. Qed.

Lemma blind_draw_root_symbol x yb rx ry rh rw mw : depth_blind (draw_root_symbol x yb rx ry rh rw mw).
Proof. unfold draw_root_symbol. blind_tac. Qed.

Lemma blind_draw_parens m x y w c : depth_blind (draw_parens m x y w c).
Proof. unfold draw_parens. blind_tac. Qed.

Lemma blind_measure p fs : depth_blind (measure e p fs).
Proof. unfold measure. blind_tac. Qed.

Lemma blind_paren_color_at d : depth_blind (paren_color_at s d).
Proof. unfold paren_color_at. blind_tac. Qed.

Lemma blind_cursor_mark b cx yb fs : depth_blind (cursor_mark s b cx yb fs).
Proof. unfold cursor_mark. cbv zeta. destruct b; blind_tac. apply blind_draw_cursor_line. Qed.

Hint Resolve blind_draw_placeholder blind_draw_cursor_line blind_slot_is_empty blind_draw_text
  blind_draw_root_symbol blind_draw_parens blind_measure blind_paren_color_at blind_cursor_mark : blind.

Lemma blind_draw_slot ds slot px py pw ph sx sy sc :
  (∀ p x y f, depth_blind (ds p x y f)) →
  depth_blind (draw_slot e s ds slot px py pw ph sx sy sc).
Proof. intros H. unfold draw_slot. blind_tac. Qed.

Hint Resolve blind_draw_slot : blind.

Lemma blind_draw_container ds n m x yb fs :
  (∀ p x y f, depth_blind (ds p x y f)) →
  depth_blind (draw_container e s ds n m x yb fs).
Proof. intros H. unfold draw_container. cbv zeta. destruct (type n); blind_tac. Qed.

Lemma blind_draw_paren_body ds n m c pc x yb fs :
  (∀ p x y f, depth_blind (ds p x y f)) →
  depth_blind (draw_paren_body e s ds n m c pc x yb fs).
Proof. intros H. unfold draw_paren_body. cbv zeta. blind_tac. Qed.

Hint Resolve blind_draw_container blind_draw_paren_body : blind.

Lemma blind_nested fuel :
  (∀ d node x y fs, depth_blind (draw_node_nested e s fuel d node x y fs)) ∧
  (∀ d seq x y fs, depth_blind (draw_sequence_nested e s fuel d seq x y fs)) ∧
  (∀ d child here cx y fs, depth_blind (draw_children_nested e s fuel d child here cx y fs)).
Proof.
  induction fuel as [|fuel (IHn & IHs & IHc)].
  - repeat split; intros; cbn; blind_tac.
  - repeat split; intros; cbn [draw_node_nested draw_sequence_nested draw_children_nested].
    + destruct node; [|blind_tac]. blind_tac.
    + destruct seq; [|blind_tac]. blind_tac.
    + destruct child; [|blind_tac]. blind_tac.
Qed.

Ltac same_tac :=
  repeat first
    [ apply same_at_refl
    | apply same_at_bind; [|solve [blind_tac]|intros ?]
    | match goal with
      | |- same_at _ (match ?x with _ => _ end) (match ?x with _ => _ end) => destruct x
      | |- same_at _ (let _ := _ in _) _ => cbv zeta
      end ].

Lemma same_draw_slot d ds1 ds2 slot px py pw ph sx sy sc :
  (∀ p x y f, same_at d (ds1 p x y f) (ds2 p x y f)) →
  same_at d (draw_slot e s ds1 slot px py pw ph sx sy sc)
            (draw_slot e s ds2 slot px py pw ph sx sy sc).
Proof. intros H. unfold draw_slot. same_tac. apply H. Qed.

Ltac same_slots H Hb :=
  repeat first
    [ apply same_at_refl
    | apply same_draw_slot; exact H
    | apply same_at_bind; [|solve [pose proof Hb; blind_tac]|intros ?]
    | match goal with
      | |- same_at _ (match ?x with _ => _ end) (match ?x with _ => _ end) => destruct x
      end ].

Lemma same_draw_container d ds1 ds2 n m x yb fs :
  (∀ p x y f, same_at d (ds1 p x y f) (ds2 p x y f)) →
  (∀ p x y f, depth_blind (ds2 p x y f)) →
  same_at d (draw_container e s ds1 n m x yb fs) (draw_container e s ds2 n m x yb fs).
Proof.
  intros H Hb. unfold draw_container. cbv zeta. destruct (type n); same_slots H Hb.
Qed.

Lemma same_draw_paren_body d ds1 ds2 n m c pc x yb fs :
  (∀ p x y f, same_at d (ds1 p x y f) (ds2 p x y f)) →
  (∀ p x y f, depth_blind (ds2 p x y f)) →
  same_at d (draw_paren_body e s ds1 n m c pc x yb fs)
            (draw_paren_body e s ds2 n m c pc x yb fs).
Proof. intros H Hb. unfold draw_paren_body. cbv zeta. same_slots H Hb. Qed.

Lemma draw_follows_nesting fuel :
  (∀ d node x y fs,
     same_at d (math2_draw_node e s fuel node x y fs)
               (draw_node_nested e s fuel d node x y fs)) ∧
  (∀ d seq x y fs,
     same_at d (draw_sequence e s fuel seq x y fs)
               (draw_sequence_nested e s fuel d seq x y fs)) ∧
  (∀ d child here cx y fs,
     same_at d (draw_children e s fuel child here cx y fs)
               (draw_children_nested e s fuel d child here cx y fs)).
Proof.
  induction fuel as [|fuel (IHn & IHs & IHc)].
  - repeat split; intros; apply same_at_refl.
  - destruct (blind_nested fuel) as (Bn & Bs & Bc).
    repeat split; intros; simpl.
    + destruct node as [i|]; [|apply same_at_refl].
      apply same_at_bind; [apply same_at_refl|blind_tac|intros m].
      apply same_at_bind; [apply same_at_refl|blind_tac|intros n].
      destruct (type n); try (apply same_draw_container; [apply IHs|apply Bs]).
      * apply IHs.
      * (* NODE_PAREN *)
        apply same_at_bind; [apply same_at_refl|blind_tac|intros content].
        intros disp. unfold mbind, D_bind, get_paren_depth, set_paren_depth.
        cbn [g_paren_depth display].
        destruct (paren_color_at s d (mk_draw_state d disp)) as [[pc [d' disp']]|] eqn:Epc;
          [|done].
        pose proof (blind_depth _ _ _ _ _ (blind_paren_color_at d) Epc) as Hd'. cbn in Hd'.
        subst d'. cbn [g_paren_depth display].
        rewrite (same_draw_paren_body (d + 1) _ _ n m content pc x y fs
                   (IHs (d + 1)%Z) (Bs (d + 1)%Z) disp').
        pose proof (blind_draw_paren_body (draw_sequence_nested e s fuel (d + 1)) n m
                      content pc x y fs (Bs (d + 1)%Z)) as Hb.
        rewrite (Hb (d + 1)%Z d disp').
        destruct (draw_paren_body e s _ n m content pc x y fs (mk_draw_state d disp'))
          as [[[] [d2 disp2]]|] eqn:Eb; [|done].
        cbn [redepth g_paren_depth display]. apply blind_depth in Eb; [|done].
        cbn [g_paren_depth] in Eb. subst d2.
        do 3 f_equal. lia.
    + destruct seq as [i|]; [|apply same_at_refl].
      apply same_at_bind; [apply same_at_refl|blind_tac|intros sn].
      destruct (decide _); [|apply same_at_refl].
      apply same_at_bind; [apply same_at_refl|blind_tac|intros cx]. apply IHc.
    + destruct child as [c|]; [|apply same_at_refl].
      apply same_at_bind; [apply same_at_refl|blind_tac|intros cm].
      apply same_at_bind; [apply IHn|apply Bn|intros []].
      apply same_at_bind; [apply same_at_refl|blind_tac|intros cx'].
      apply same_at_bind; [apply same_at_refl|blind_tac|intros cn]. apply IHc.
Qed.


End DrawProps.

(** ** Insertions that find the pool exhausted *)

Lemma free_slots_insert ns i n0 x :
  ns !! i = Some n0 → type n0 = NODE_EMPTY → type x ≠ NODE_EMPTY →
  S (free_slots (<[i := x]> ns)) = free_slots ns.
Proof.
  unfold free_slots. revert i. induction ns as [|n ns IH]; intros i Hn H0 Hx; [done|].
  destruct i as [|i]; cbn -[filter] in *.
  - simplify_eq. rewrite (filter_cons_True _ n0) by done.
    rewrite filter_cons_False by done. done.
  - rewrite !filter_cons. destruct (decide (type n = NODE_EMPTY)); cbn -[filter];
      rewrite <- (IH i); done.
Qed.

Lemma free_slots_alter ns i f :
  (∀ n, type (f n) = type n) → free_slots (alter f i ns) = free_slots ns.
Proof.
  intros Hf. unfold free_slots. revert i. induction ns as [|n ns IH]; intros i; [done|].
  destruct i as [|i]; cbn -[filter].
  - rewrite !filter_cons, Hf. by destruct (decide _).
  - rewrite !filter_cons. destruct (decide _); cbn -[filter]; by rewrite IH.
Qed.

Lemma same_tree_refl e : same_tree e e.
Proof. repeat split; auto. Qed.

Lemma grown_refl e : grown e 0 e.
Proof. split; [apply same_tree_refl|lia]. Qed.

Lemma grown_empty e0 j e x :
  grown e0 j e → slot_empty (nodes e) x → slot_empty (nodes e0) x.
Proof.
  intros [(_ & _ & _ & _ & _ & Hlen & Hlive) _] (n & Hn & He).
  assert (x < length (nodes e0)) as Hx.
  { rewrite <- Hlen. by eapply lookup_lt_Some. }
  apply lookup_lt_is_Some in Hx as [n0 Hn0]. exists n0. split; [done|].
  destruct (decide (type n0 = NODE_EMPTY)) as [|Hne]; [done|].
  specialize (Hlive _ _ Hn0 Hne). congruence.
Qed.

Lemma grown_alloc e0 j t Q e :
  t ≠ NODE_EMPTY → grown e0 j e →
  (∀ x e1, grown e0 (S j) e1 → slot_empty (nodes e0) x → Q (Some x) e1) →
  Q NULL e →
  wp (math2_alloc_node t) Q e.
Proof.
  intros Ht Hg Hsome Hnone.
  destruct (alloc_outcome t e)
    as [(i & idx & _ & _ & Hemp & _ & _ & Hrun)|[_ Hrun]].
  - eapply wp_run; [exact Hrun|]. apply Hsome; [|by eapply grown_empty].
    destruct Hemp as (n0 & Hn0 & He0).
    destruct Hg as [(Hc & Hr & Hl & Hs & Ha & Hlen & Hlive) Hfree].
    split; [repeat split; try done|]; cbn [nodes with_next_free with_nodes].
    + by rewrite length_insert.
    + intros k n Hk Hne. rewrite list_lookup_insert_ne; [by apply Hlive|].
      intros ->. specialize (Hlive _ _ Hk Hne). congruence.
    + pose proof (free_slots_insert (nodes e) idx n0 (fresh_node t) Hn0 He0 Ht). lia.
  - eapply wp_run; [exact Hrun|]. done.
Qed.

Lemma grown_store e0 j x f Q e :
  (∀ n, type (f n) = type n) → grown e0 j e → slot_empty (nodes e0) x →
  (∀ e1, grown e0 j e1 → Q () e1) →
  wp (store x f) Q e.
Proof.
  intros Hf [(Hc & Hr & Hl & Hs & Ha & Hlen & Hlive) Hfree] (n0 & Hn0 & He0) HQ.
  assert (x < length (nodes e)) as Hx.
  { rewrite Hlen. by eapply lookup_lt_Some. }
  apply lookup_lt_is_Some in Hx as [n Hn].
  eapply wp_store; [exact Hn|]. apply HQ.
  split; [repeat split; try done|]; cbn [nodes with_next_free with_nodes].
  - by rewrite length_alter.
  - intros k m Hk Hne. rewrite list_lookup_alter_ne; [by apply Hlive|].
    intros ->. congruence.
  - by rewrite free_slots_alter.
Qed.

Lemma grown_new_sequence e0 j Q e :
  grown e0 j e →
  (∀ x e1, grown e0 (S j) e1 → slot_empty (nodes e0) x → Q (Some x) e1) →
  Q NULL e →
  wp math2_new_sequence Q e.
Proof.
  intros Hg Hsome Hnone. unfold math2_new_sequence.
  apply wp_bind. eapply grown_alloc; [done|exact Hg| |].
  - intros x e1 Hg1 Hx. apply wp_bind. cbn [when_ptr]. apply wp_bind.
    eapply grown_store; [done|exact Hg1|exact Hx|]. intros e2 Hg2.
    eapply grown_store; [done|exact Hg2|exact Hx|]. intros e3 Hg3.
    apply wp_ret. by apply Hsome.
  - apply wp_bind. cbn [when_ptr]. apply wp_ret. apply wp_ret. done.
Qed.

Ltac grown_steps e0 :=
  repeat first
    [ match goal with
      | Hg : grown e0 _ _, Hlt : free_slots (nodes e0) < _ |- _ =>
          solve [exfalso; destruct Hg as [_ Hg]; lia]
      end
    | wp_step; cbn beta
    | progress cbv beta iota delta [NULL]
    | lazymatch goal with
      | |- wp (math2_alloc_node _) _ ?e =>
          match goal with
          | Hg : grown e0 _ e |- _ =>
              eapply grown_alloc; [done|exact Hg|intros ? ? ? ?|]
          end
      | |- wp math2_new_sequence _ ?e =>
          match goal with
          | Hg : grown e0 _ e |- _ =>
              eapply grown_new_sequence; [exact Hg|intros ? ? ? ?|]
          end
      | |- wp (store _ _) _ ?e =>
          match goal with
          | Hg : grown e0 _ e |- _ =>
              eapply grown_store; [done|exact Hg|eassumption|intros ? ?]
          end
      | |- wp (match ?x with _ => _ end) _ _ => is_var x; destruct x
      | |- same_tree e0 ?e =>
          match goal with Hg : grown e0 _ e |- _ => exact (proj1 Hg) end
      end ].

Lemma insert_without_room op e :
  free_slots (nodes e) < allocations op →
  wp (run_insert op) (λ _ e', same_tree e e') e.
Proof.
  intros Hlt. pose proof (grown_refl e) as Hg0.
  destruct op; cbn [run_insert allocations] in *;
    unfold math2_insert_text, math2_insert_fraction, math2_insert_exponent,
      math2_insert_subscript, math2_insert_sqrt, math2_insert_nthroot,
      math2_insert_xthroot, math2_insert_mixed_frac, math2_insert_abs,
      math2_insert_paren, math2_insert_function;
    grown_steps e.
Qed.

Lemma tree_of_live fuel ns c t :
  tree_of fuel ns c = Some t → ∃ n, ns !! c = Some n ∧ type n ≠ NODE_EMPTY.
Proof.
  destruct fuel as [|fuel]; [done|]. cbn [tree_of].
  destruct (ns !! c) as [n|]; [|done]. cbn.
  intros H. exists n. split; [done|]. intros Hn. by rewrite Hn in H.
Qed.

Lemma view_kept ns ns' :
  (∀ i n, ns !! i = Some n → type n ≠ NODE_EMPTY → ns' !! i = Some n) →
  ∀ fuel,
    (∀ i t, tree_of fuel ns i = Some t → tree_of fuel ns' i = Some t) ∧
    (∀ p ts, slot_of fuel ns p = Some ts → slot_of fuel ns' p = Some ts) ∧
    (∀ c ts, chain_of fuel ns c = Some ts → chain_of fuel ns' c = Some ts).
Proof.
  intros Hlive. induction fuel as [|fuel (IHt & IHs & IHc)]; [done|].
  repeat split.
  - intros i t H. pose proof (tree_of_live _ _ _ _ H) as (n & Hn & Hne).
    cbn [tree_of] in *. rewrite Hn in H. rewrite (Hlive _ _ Hn Hne). cbn in *.
    destruct (type n); try done;
      repeat match goal with
      | H : (slot_of fuel ns ?p ≫= _) = Some _ |- _ =>
          let E := fresh "E" in
          destruct (slot_of fuel ns p) eqn:E; [|done];
          rewrite (IHs _ _ E); cbn in *
      end; done.
  - intros p ts H. cbn [slot_of] in *. destruct p as [s|]; [|done]. cbn in *.
    destruct (ns !! s) as [sn|] eqn:Hs; [|done]. cbn in *.
    destruct (decide (type sn = NODE_SEQUENCE)) as [Ht|]; [|done].
    rewrite (Hlive _ _ Hs) by congruence. cbn.
    rewrite decide_True by done. by apply IHc.
  - intros c ts H. cbn [chain_of] in *. destruct c as [c|]; [|done].
    destruct (tree_of fuel ns c) as [t|] eqn:Et; [|done].
    pose proof (tree_of_live _ _ _ _ Et) as (n & Hn & Hne).
    rewrite (IHt _ _ Et). cbn in *. rewrite Hn in H. rewrite (Hlive _ _ Hn Hne).
    cbn in *. destruct (chain_of fuel ns (next n)) as [ts'|] eqn:Ec; [|done].
    by rewrite (IHc _ _ Ec).
Qed.

Lemma same_tree_expression e e' t :
  same_tree e e' → expression e = Some t → expression e' = Some t.
Proof.
  intros (_ & Hr & _ & _ & _ & _ & Hlive). unfold expression. rewrite Hr.
  apply (view_kept _ _ Hlive).
Qed.

Lemma free_slots_positive ns i : slot_empty ns i → 0 < free_slots ns.
Proof.
  intros (n & Hn & He). unfold free_slots.
  assert (n ∈ filter (λ n, type n = NODE_EMPTY) ns) as Hin.
  { apply list_elem_of_filter. split; [done|]. by eapply list_elem_of_lookup_2. }
  destruct (filter _ ns); [by apply elem_of_nil in Hin|cbn; lia].
Qed.

Lemma free_slots_none ns :
  (∀ i, ¬ slot_empty ns i) → free_slots ns = 0.
Proof.
  intros H. unfold free_slots.
  destruct (filter (λ n, type n = NODE_EMPTY) ns) as [|n l] eqn:E; [done|].
  assert (n ∈ filter (λ n, type n = NODE_EMPTY) ns) as Hin by (rewrite E; left).
  apply list_elem_of_filter in Hin as [He Hin].
  apply list_elem_of_lookup_1 in Hin as [i Hi]. destruct (H i). by exists n.
Qed.

(** An allocation fails exactly when no slot of the pool is free; one that
    succeeds takes one free slot. So some allocation of an insertion fails
    exactly when the pool has fewer free slots than the insertion takes. *)
Lemma alloc_fails_iff_no_room t e :
  length (nodes e) ≤ MAX_NODES →
  (∃ e', math2_alloc_node t e = Some (NULL, e')) ↔ free_slots (nodes e) = 0.
Proof.
  intros Hlen.
  destruct (alloc_outcome t e)
    as [(i & idx & _ & _ & Hemp & _ & _ & Hrun)|[Hnone Hrun]]; rewrite Hrun.
  - apply free_slots_positive in Hemp. split; [intros [e' [=]]|lia].
  - split; [|eauto]. intros _. apply free_slots_none. intros i Hi.
    apply (Hnone i); [|done]. destruct Hi as (n & Hn & _).
    apply lookup_lt_Some in Hn. lia.
Qed.

(** C4. An insertion that finds fewer free slots in the pool than it takes
    (so that one of its allocations fails) returns with the cursor, the
    root and the mode flags as they were and with every live slot of the
    pool holding what it held: the expression read from the root is the
    same expression. Slots that were free may have been taken by the
    allocations made before the one that failed. *)
Theorem insertion_without_room_is_noop (op : insert_op) (e : math_expr2_t) :
  free_slots (nodes e) < allocations op →
  ∃ e',
    exec (run_insert op) e = Some e' ∧
    cursor e' = cursor e ∧ root e' = root e ∧
    shift_mode e' = shift_mode e ∧ alpha_mode e' = alpha_mode e ∧
    (∀ i n, nodes e !! i = Some n → type n ≠ NODE_EMPTY → nodes e' !! i = Some n) ∧
    (∀ t, expression e = Some t → expression e' = Some t).
Proof.
  intros Hlt.
  destruct (insert_without_room op e Hlt) as ([] & e' & Hrun & Hsame).
  exists e'. split; [unfold exec; by rewrite Hrun|].
  pose proof Hsame as (Hc & Hr & _ & Hs & Ha & _ & Hlive).
  repeat split; try done.
  intros t. by apply same_tree_expression.
Qed.

Lemma insertion_without_room_is_noop_witness :
  ∃ e',
    exec (run_insert InsertFraction) pool_nearly_full = Some e' ∧
    cursor e' = cursor pool_nearly_full ∧
    (∀ t, expression pool_nearly_full = Some t → expression e' = Some t).
Proof.
  destruct (insertion_without_room_is_noop InsertFraction pool_nearly_full)
    as (e' & H1 & H2 & _ & _ & _ & _ & H3).
  - vm_compute. lia.
  - exists e'. exact (conj H1 (conj H2 H3)).
Defined.

(** ** Splicing sequences *)

(** Two facts on lists: where an element without duplicate sits, and how a
    split of [l1 ++ l2] at an element falls in [l1] or in [l2]. *)
Lemma split_unique {A} (l1 l2 m1 m2 : list A) (i : A) :
  NoDup (l1 ++ i :: l2) → l1 ++ i :: l2 = m1 ++ i :: m2 → l1 = m1 ∧ l2 = m2.
Proof.
  revert m1. induction l1 as [|x l1 IH]; intros m1 Hnd Heq.
  - destruct m1 as [|y m1]; cbn in *.
    + by simplify_eq.
    + simplify_eq. apply NoDup_cons in Hnd as [Hni _]. exfalso. apply Hni.
      rewrite elem_of_app, elem_of_cons. auto.
  - destruct m1 as [|y m1]; cbn in *.
    + simplify_eq. apply NoDup_cons in Hnd as [Hni _]. exfalso. apply Hni.
      rewrite elem_of_app, elem_of_cons. auto.
    + simplify_eq. apply NoDup_cons in Hnd as [_ Hnd].
      destruct (IH m1 Hnd) as [-> ->]; done.
Qed.

Lemma split_app {A} (l1 l2 m1 m2 : list A) (i : A) :
  l1 ++ l2 = m1 ++ i :: m2 →
  (∃ r, l1 = m1 ++ i :: r ∧ m2 = r ++ l2) ∨ (∃ r, l2 = r ++ i :: m2 ∧ m1 = l1 ++ r).
Proof.
  revert m1. induction l1 as [|x l1 IH]; intros m1 Heq; cbn in *.
  - right. exists m1. done.
  - destruct m1 as [|y m1]; cbn in *; simplify_eq.
    + left. by exists l1.
    + destruct (IH m1) as [(r & -> & ->)|(r & -> & ->)]; [done| |].
      * left. by exists r.
      * right. by exists r.
Qed.


Lemma rewritten_frame f ns ns' t lt :
  linked ns t lt → rewritten f ns ns' →
  (∀ i n, i ∈ t :: lt → ns !! i = Some n → f i n = n) →
  linked ns' t lt.
Proof.
  intros (sn & Hs & Ht & Hf & Hl & Hnd & Hch) Hrw Hid.
  exists sn. split.
  { rewrite Hrw, Hs. cbn. f_equal. apply Hid; [left|done]. }
  repeat split; try done.
  intros l1 i l2 ->. destruct (Hch l1 i l2 eq_refl) as (n & Hn & Hrest).
  exists n. split; [|done]. rewrite Hrw, Hn. cbn. f_equal. apply Hid; [|done].
  right. rewrite elem_of_app, elem_of_cons. auto.
Qed.

Lemma alter_is_Some (f : expr_node → expr_node) i (l : list expr_node) j :
  is_Some (l !! j) → is_Some (alter f i l !! j).
Proof.
  intros H. apply lookup_lt_is_Some. rewrite length_alter. by apply lookup_lt_is_Some.
Qed.

Lemma wp_seq_remove e s a an sn :
  nodes e !! a = Some an → parent an = Some s →
  nodes e !! s = Some sn → type sn = NODE_SEQUENCE →
  valid_ptr (nodes e) (prev an) → valid_ptr (nodes e) (next an) →
  a ≠ s → prev an ≠ Some a → next an ≠ Some a →
  prev an ≠ Some s → next an ≠ Some s →
  (prev an = next an → prev an = NULL) →
  wp (seq_remove (Some a))
     (λ _ e', e' = with_nodes (nodes e') e ∧
              rewritten (after_remove s a (prev an) (next an)) (nodes e) (nodes e')) e.
Proof.
  intros Ha Hp Hs Ht Hvp Hvn Has Hpa Hna Hps Hns Hpn.
  unfold seq_remove. apply wp_bind. eapply wp_load; [exact Ha|]. cbn beta.
  rewrite Hp. apply wp_bind. eapply wp_load; [exact Hs|]. cbn beta.
  rewrite decide_True by done.
  apply wp_bind. eapply wp_load; [exact Ha|]. cbn beta.
  destruct (prev an) as [p|] eqn:Epv, (next an) as [x|] eqn:Enx;
  cbn [valid_ptr] in Hvp, Hvn;
  repeat match goal with H : is_Some (_ !! _) |- _ => destruct H as [? ?] end;
  repeat first
    [ wp_step; cbn beta
    | lazymatch goal with
      | |- wp (load ?j) _ ?e1 =>
          eapply wp_load;
          [cbn [nodes with_nodes]; rewrite ?list_lookup_alter_ne by congruence; eassumption|];
          cbn beta; rewrite ?Epv, ?Enx
      | |- wp (store ?j _) _ ?e1 =>
          let Hx := fresh in
          assert (is_Some (nodes e1 !! j)) as [? Hx]
            by (cbn [nodes with_nodes]; repeat apply alter_is_Some; eauto);
          eapply wp_store; [exact Hx|]; clear Hx
      end ];
  (split; [destruct e; reflexivity|]);
  cbn [nodes with_nodes];
  intros ?; rewrite !list_lookup_alter; unfold after_remove;
  repeat case_decide; simplify_eq; try done;
  match goal with |- context [nodes e !! ?i] => destruct (nodes e !! i) as [[]|] end;
  try done; try (by specialize (Hpn eq_refl)).
Qed.

Lemma with_nodes_with_nodes a b e : with_nodes a (with_nodes b e) = with_nodes a e.
Proof. reflexivity. Qed.

Ltac norm_state :=
  cbn [nodes with_nodes]; rewrite ?with_nodes_with_nodes.

Ltac read_slot e :=
  norm_state; rewrite ?list_lookup_alter; repeat case_decide; try congruence;
  match goal with
  | H : nodes e !! ?j = Some _ |- context [nodes e !! ?j] => rewrite H
  end;
  reflexivity.

Lemma wp_seq_insert_after e s x pv nx sn xn :
  nodes e !! s = Some sn → type sn = NODE_SEQUENCE →
  nodes e !! x = Some xn → x ≠ s →
  match pv with
  | Some p => ∃ pn, nodes e !! p = Some pn ∧ next pn = nx
  | None => seq_first sn = nx
  end →
  valid_ptr (nodes e) nx →
  pv ≠ Some x → nx ≠ Some x → pv ≠ Some s → nx ≠ Some s →
  (pv = nx → pv = NULL) →
  (nx = NULL ↔ seq_last sn = pv) →
  wp (seq_insert_after (Some s) pv (Some x))
     (λ _ e', e' = with_nodes (nodes e') e ∧
              rewritten (after_insert s x pv nx) (nodes e) (nodes e')) e.
Proof.
  intros Hs Ht Hx Hxs Hpv Hvn Hpx Hnx Hps Hns Hpn Hlast.
  unfold seq_insert_after. apply wp_bind. eapply wp_load; [exact Hs|]. cbn beta.
  rewrite decide_True by done.
  destruct pv as [p|]; [destruct Hpv as (pn & Hp & Hpnx)|];
  destruct nx as [y|];
  cbn [valid_ptr] in Hvn;
  repeat match goal with H : is_Some (_ !! _) |- _ => destruct H as [? ?] end;
  repeat first
    [ wp_step; cbn beta
    | progress cbn [when_ptr]
    | lazymatch goal with
      | |- wp (load ?j) _ ?e1 =>
          eapply wp_load; [read_slot e|];
          cbn beta; cbn [seq_first seq_last set_seq_first set_seq_last set_data data next
                         set_next set_prev set_parent];
          rewrite ?Hpv, ?Hpnx; cbn [when_ptr]
      | |- wp (store ?j _) _ ?e1 =>
          let Hx := fresh in
          assert (is_Some (nodes e1 !! j)) as [? Hx]
            by (norm_state; repeat apply alter_is_Some; eauto);
          eapply wp_store; [exact Hx|]; clear Hx; norm_state
      | |- wp (if decide ?P then _ else _) _ _ => destruct (decide P)
      | |- wp (match seq_last ?n with _ => _ end) _ _ => destruct (seq_last n) eqn:?
      end ];
  try solve [exfalso; unfold NULL in *; intuition congruence];
  (split; [reflexivity|]); cbn [nodes with_nodes];
  intros ?; rewrite !list_lookup_alter; unfold after_insert;
  repeat case_decide; simplify_eq; try done;
  match goal with |- context [nodes e !! ?i] => destruct (nodes e !! i) as [[]|] end;
  try done; try (by specialize (Hpn eq_refl)).
Qed.

Lemma linked_child ns s l1 i l2 :
  linked ns s (l1 ++ i :: l2) →
  ∃ n, ns !! i = Some n ∧ type n ≠ NODE_EMPTY ∧ parent n = Some s ∧
       prev n = last l1 ∧ next n = head l2.
Proof. intros (sn & _ & _ & _ & _ & _ & H). by apply H. Qed.

Lemma last_cons_ne {A} (i : A) (r : list A) :
  i ∉ r → last (i :: r) = Some i → r = [].
Proof.
  intros Hi H. destruct r as [|y r]; [done|]. rewrite last_cons_cons in H.
  apply last_Some_elem_of in H. done.
Qed.

Lemma linked_after_remove ns ns' s l1 a l2 :
  linked ns s (l1 ++ a :: l2) →
  rewritten (after_remove s a (last l1) (head l2)) ns ns' →
  linked ns' s (l1 ++ l2).
Proof.
  intros Hl Hrw. pose proof Hl as (sn & Hs & Ht & Hf & Hla & Hnd & Hch).
  apply NoDup_cons in Hnd as [Hsl Hnd].
  pose proof Hnd as Hnd'. apply NoDup_app in Hnd' as (Hnd1 & Hdisj & Hnd2).
  apply NoDup_cons in Hnd2 as [Hal2 Hnd2].
  assert (a ∉ l1) as Hal1.
  { intros Hin. apply (Hdisj _ Hin). left. }
  assert (∀ i, i ∈ l1 → i ∉ l2) as Hd12.
  { intros i Hi1 Hi2. apply (Hdisj _ Hi1). by right. }
  assert ((s ∉ l1) ∧ (s ≠ a) ∧ (s ∉ l2)) as (Hs1 & Hsa & Hs2).
  { rewrite elem_of_app, elem_of_cons in Hsl. naive_solver. }
  assert (last l1 ≠ Some s) as Hps.
  { intros H%last_Some_elem_of. done. }
  assert (head l2 ≠ Some s) as Hns.
  { intros H%head_Some_elem_of. done. }
  assert (after_remove s a (last l1) (head l2) s sn =
          (if decide (head l2 = NULL) then set_seq_last (last l1) else id)
            ((if decide (last l1 = NULL) then set_seq_first (head l2) else id) sn))
    as Hsn'.
  { unfold after_remove. rewrite (decide_False (P := ((s = a)))) by done.
    rewrite (decide_False (P := ((last l1 = Some s)))) by done.
    rewrite (decide_False (P := ((head l2 = Some s)))) by done.
    by rewrite (decide_True (P := ((s = s)))) by done. }
  exists (after_remove s a (last l1) (head l2) s sn).
  split; [by rewrite Hrw, Hs|]. rewrite Hsn'. clear Hsn'.
  split; [by repeat case_decide|].
  split.
  { destruct (last l1) as [p|] eqn:Epv.
    - assert (head (l1 ++ l2) = head (l1 ++ a :: l2)) as ->.
      { destruct l1; [done|reflexivity]. }
      rewrite <- Hf. rewrite (decide_False (P := (Some p = NULL))) by done.
      by destruct (decide (head l2 = NULL)).
    - apply last_None in Epv as ->. rewrite (decide_True (P := (None = NULL))) by done.
      by destruct (decide (head l2 = NULL)). }
  split.
  { destruct (head l2) as [x|] eqn:Enx.
    - assert (last (l1 ++ l2) = last (l1 ++ a :: l2)) as ->.
      { destruct l2 as [|y l2]; [done|]. by rewrite !last_app_cons, last_cons_cons. }
      rewrite <- Hla. rewrite (decide_False (P := (Some x = NULL))) by done.
      by destruct (decide (last l1 = NULL)).
    - apply head_None in Enx as ->. rewrite (decide_True (P := (None = NULL))) by done.
      rewrite app_nil_r. by destruct (decide (last l1 = NULL)). }
  split.
  { apply NoDup_cons. split.
    - rewrite elem_of_app. naive_solver.
    - apply NoDup_app. naive_solver. }
  intros m1 i m2 Heq.
  destruct (split_app _ _ _ _ _ Heq) as [(r & -> & ->)|(r & -> & ->)].
  - destruct (Hch m1 i (r ++ a :: l2)) as (n & Hn & Hlive & Hpar & Hpv & Hnx).
    { by rewrite <- app_assoc. }
    exists (after_remove s a (last (m1 ++ i :: r)) (head l2) i n).
    split; [by rewrite Hrw, Hn|].
    assert (i ≠ a) as Hia.
    { intros ->. apply Hal1. rewrite elem_of_app, elem_of_cons. auto. }
    assert ((i ∉ r) ∧ (i ∉ l2) ∧ (i ≠ s)) as (Hir & Hil2 & His).
    { apply NoDup_app in Hnd1 as (_ & _ & Hnd1). apply NoDup_cons in Hnd1 as [? _].
      split; [done|]. split.
      - apply Hd12. rewrite elem_of_app, elem_of_cons. auto.
      - intros ->. apply Hs1. rewrite elem_of_app, elem_of_cons. auto. }
    unfold after_remove. rewrite (decide_False (P := (i = a))) by done.
    rewrite last_app_cons.
    destruct r as [|y r].
    + rewrite decide_True by done. cbn. repeat split; try done.
    + rewrite (decide_False (P := (last (i :: y :: r) = Some i))).
      2:{ intros H%last_cons_ne; done. }
      rewrite (decide_False (P := (head l2 = Some i))).
      2:{ intros H%head_Some_elem_of. done. }
      rewrite (decide_False (P := (i = s))) by done.
      repeat split; try done.
  - destruct (Hch (l1 ++ a :: r) i m2) as (n & Hn & Hlive & Hpar & Hpv & Hnx).
    { by rewrite <- app_assoc. }
    exists (after_remove s a (last l1) (head (r ++ i :: m2)) i n).
    split; [by rewrite Hrw, Hn|].
    assert (i ≠ a) as Hia.
    { intros ->. apply Hal2. rewrite elem_of_app, elem_of_cons. auto. }
    assert ((i ∉ l1) ∧ (i ∉ r) ∧ (i ≠ s)) as (Hil1 & Hir & His).
    { split; [|split].
      - intros Hi. apply (Hd12 _ Hi). rewrite elem_of_app, elem_of_cons. auto.
      - apply NoDup_app in Hnd2 as (_ & Hd & _). intros Hi. apply (Hd _ Hi). left.
      - intros ->. apply Hs2. rewrite elem_of_app, elem_of_cons. auto. }
    unfold after_remove. rewrite (decide_False (P := (i = a))) by done.
    rewrite (decide_False (P := (last l1 = Some i))).
    2:{ intros H%last_Some_elem_of. done. }
    destruct r as [|y r]; cbn [app head].
    + rewrite decide_True by done. rewrite app_nil_r. cbn. repeat split; try done.
    + rewrite (decide_False (P := (Some y = Some i))).
      2:{ intros [= ->]. apply Hir. left. }
      rewrite (decide_False (P := (i = s))) by done.
      repeat split; try done.
      rewrite Hpv. rewrite !last_app_cons. by rewrite last_cons_cons.
Qed.

Lemma linked_after_insert ns ns' s l1 x l2 xn :
  linked ns s (l1 ++ l2) →
  x ∉ s :: l1 ++ l2 → ns !! x = Some xn → type xn ≠ NODE_EMPTY →
  rewritten (after_insert s x (last l1) (head l2)) ns ns' →
  linked ns' s (l1 ++ x :: l2).
Proof.
  intros Hl Hx Hxn Hxlive Hrw. pose proof Hl as (sn & Hs & Ht & Hf & Hla & Hnd & Hch).
  apply NoDup_cons in Hnd as [Hsl Hnd].
  pose proof Hnd as Hnd'. apply NoDup_app in Hnd' as (Hnd1 & Hd12 & Hnd2).
  assert ((x ≠ s) ∧ (x ∉ l1) ∧ (x ∉ l2)) as (Hxs & Hx1 & Hx2).
  { rewrite elem_of_cons, elem_of_app in Hx. naive_solver. }
  assert ((s ∉ l1) ∧ (s ∉ l2)) as (Hs1 & Hs2).
  { rewrite elem_of_app in Hsl. naive_solver. }
  assert (last l1 ≠ Some s) as Hps.
  { intros H%last_Some_elem_of. done. }
  assert (head l2 ≠ Some s) as Hns.
  { intros H%head_Some_elem_of. done. }
  assert (last l1 ≠ Some x) as Hpx.
  { intros H%last_Some_elem_of. done. }
  assert (head l2 ≠ Some x) as Hnx.
  { intros H%head_Some_elem_of. done. }
  assert (NoDup (l1 ++ x :: l2)) as Hndx.
  { apply NoDup_app. split; [done|]. split.
    - intros i Hi1 [->|Hi2]%elem_of_cons; [done|]. by apply (Hd12 i).
    - by apply NoDup_cons. }
  assert (after_insert s x (last l1) (head l2) s sn =
          (if decide (head l2 = NULL) then set_seq_last (Some x) else id)
            ((if decide (last l1 = NULL) then set_seq_first (Some x) else id) sn))
    as Hsn'.
  { unfold after_insert. rewrite (decide_False (P := (s = x))) by done.
    rewrite (decide_False (P := (last l1 = Some s))) by done.
    rewrite (decide_False (P := (head l2 = Some s))) by done.
    by rewrite (decide_True (P := (s = s))) by done. }
  exists (after_insert s x (last l1) (head l2) s sn).
  split; [by rewrite Hrw, Hs|]. rewrite Hsn'. clear Hsn'.
  split; [by repeat case_decide|].
  split.
  { destruct (last l1) as [p|] eqn:Epv.
    - assert (head (l1 ++ x :: l2) = head (l1 ++ l2)) as ->.
      { destruct l1; [done|reflexivity]. }
      rewrite <- Hf. rewrite (decide_False (P := (Some p = NULL))) by done.
      by destruct (decide (head l2 = NULL)).
    - apply last_None in Epv as ->. rewrite (decide_True (P := (None = NULL))) by done.
      by destruct (decide (head l2 = NULL)). }
  split.
  { destruct (head l2) as [y|] eqn:Enx.
    - assert (last (l1 ++ x :: l2) = last (l1 ++ l2)) as ->.
      { destruct l2 as [|z l2]; [done|]. by rewrite !last_app_cons, last_cons_cons. }
      rewrite <- Hla. rewrite (decide_False (P := (Some y = NULL))) by done.
      by destruct (decide (last l1 = NULL)).
    - apply head_None in Enx as ->. rewrite (decide_True (P := (None = NULL))) by done.
      rewrite last_snoc. by destruct (decide (last l1 = NULL)). }
  split.
  { apply NoDup_cons. split; [|done].
    rewrite elem_of_app, elem_of_cons. naive_solver. }
  intros m1 i m2 Heq.
  destruct (decide (i = x)) as [->|Hix].
  - apply split_unique in Heq as [<- <-]; [|done].
    exists (after_insert s x (last l1) (head l2) x xn).
    split; [by rewrite Hrw, Hxn|].
    unfold after_insert. rewrite decide_True by done. done.
  - destruct (split_app _ _ _ _ _ Heq) as [(r & -> & ->)|(r & Hr & ->)].
    + destruct (Hch m1 i (r ++ l2)) as (n & Hn & Hlive & Hpar & Hpv & Hnxt).
      { by rewrite <- app_assoc. }
      exists (after_insert s x (last (m1 ++ i :: r)) (head l2) i n).
      split; [by rewrite Hrw, Hn|].
      assert ((i ∉ r) ∧ (i ∉ l2) ∧ (i ≠ s)) as (Hir & Hil2 & His).
      { apply NoDup_app in Hnd1 as (_ & _ & Hnd1). apply NoDup_cons in Hnd1 as [? _].
        split; [done|]. split.
        - apply Hd12. rewrite elem_of_app, elem_of_cons. auto.
        - intros ->. apply Hs1. rewrite elem_of_app, elem_of_cons. auto. }
      unfold after_insert. rewrite (decide_False (P := (i = x))) by done.
      rewrite last_app_cons.
      destruct r as [|y r].
      * rewrite decide_True by done. cbn. repeat split; try done.
      * rewrite (decide_False (P := (last (i :: y :: r) = Some i))).
        2:{ intros H%last_cons_ne; done. }
        rewrite (decide_False (P := (head l2 = Some i))).
        2:{ intros H%head_Some_elem_of. done. }
        rewrite (decide_False (P := (i = s))) by done.
        repeat split; try done.
    + destruct r as [|z r]; cbn in Hr; [injection Hr as ? ?; congruence|].
      injection Hr as <- ->.
      destruct (Hch (l1 ++ r) i m2) as (n & Hn & Hlive & Hpar & Hpv & Hnxt).
      { by rewrite <- app_assoc. }
      exists (after_insert s x (last l1) (head (r ++ i :: m2)) i n).
      split; [by rewrite Hrw, Hn|].
      assert ((i ∉ l1) ∧ (i ∉ r) ∧ (i ≠ s)) as (Hil1 & Hir & His).
      { split; [|split].
        - intros Hi. apply (Hd12 _ Hi). rewrite elem_of_app, elem_of_cons. auto.
        - apply NoDup_app in Hnd2 as (_ & Hd & _). intros Hi. apply (Hd _ Hi). left.
        - intros ->. apply Hs2. rewrite elem_of_app, elem_of_cons. auto. }
      unfold after_insert. rewrite (decide_False (P := (i = x))) by done.
      rewrite (decide_False (P := (last l1 = Some i))).
      2:{ intros H%last_Some_elem_of. done. }
      destruct r as [|y r]; cbn [app head].
      * rewrite decide_True by done. cbn. repeat split; try done.
        by rewrite last_snoc.
      * rewrite (decide_False (P := (Some y = Some i))).
        2:{ intros [= ->]. apply Hir. left. }
        rewrite (decide_False (P := (i = s))) by done.
        repeat split; try done.
        rewrite Hpv. rewrite !last_app_cons. by rewrite !last_cons_cons.
Qed.

Lemma linked_elem_node ns s l i :
  linked ns s l → i ∈ l →
  ∃ n, ns !! i = Some n ∧ type n ≠ NODE_EMPTY ∧ parent n = Some s.
Proof.
  intros Hl Hi. apply list_elem_of_split in Hi as (l1 & l2 & ->).
  destruct (linked_child _ _ _ _ _ Hl) as (n & ? & ? & ? & _). eauto.
Qed.

Lemma linked_same ns ns' t lt :
  linked ns t lt → (∀ i, i ∈ t :: lt → ns' !! i = ns !! i) → linked ns' t lt.
Proof.
  intros (sn & Hs & Ht & Hf & Hl & Hnd & Hch) Hsame.
  exists sn. split; [rewrite Hsame; [done|left]|].
  repeat split; try done.
  intros l1 i l2 ->. destruct (Hch l1 i l2 eq_refl) as (n & Hn & Hrest).
  exists n. split; [|done]. rewrite Hsame; [done|].
  right. rewrite elem_of_app, elem_of_cons. auto.
Qed.

Lemma linked_empty ns s sn :
  ns !! s = Some sn → type sn = NODE_SEQUENCE → seq_first sn = NULL → seq_last sn = NULL →
  linked ns s [].
Proof.
  intros Hs Ht Hf Hl. exists sn. repeat split; try done.
  - apply NoDup_singleton.
  - intros l1 i l2 H. by destruct l1.
Qed.

Lemma after_remove_other s a l1 l2 i n :
  i ∉ s :: l1 ++ a :: l2 → after_remove s a (last l1) (head l2) i n = n.
Proof.
  rewrite elem_of_cons, elem_of_app, elem_of_cons. intros Hi.
  unfold after_remove.
  rewrite (decide_False (P := (i = a))) by naive_solver.
  rewrite (decide_False (P := (last l1 = Some i))).
  2:{ intros H%last_Some_elem_of. naive_solver. }
  rewrite (decide_False (P := (head l2 = Some i))).
  2:{ intros H%head_Some_elem_of. naive_solver. }
  rewrite (decide_False (P := (i = s))) by naive_solver. done.
Qed.

Lemma after_insert_other s x l1 l2 i n :
  i ∉ x :: s :: l1 ++ l2 → after_insert s x (last l1) (head l2) i n = n.
Proof.
  rewrite !elem_of_cons, elem_of_app. intros Hi.
  unfold after_insert.
  rewrite (decide_False (P := (i = x))) by naive_solver.
  rewrite (decide_False (P := (last l1 = Some i))).
  2:{ intros H%last_Some_elem_of. naive_solver. }
  rewrite (decide_False (P := (head l2 = Some i))).
  2:{ intros H%head_Some_elem_of. naive_solver. }
  rewrite (decide_False (P := (i = s))) by naive_solver. done.
Qed.

Lemma after_remove_kind s a pv nx i n :
  type (after_remove s a pv nx i n) = type n ∧
  (i ≠ s → data (after_remove s a pv nx i n) = data n).
Proof. unfold after_remove. repeat case_decide; done. Qed.

Lemma after_insert_kind s x pv nx i n :
  type (after_insert s x pv nx i n) = type n ∧
  (i ≠ s → data (after_insert s x pv nx i n) = data n).
Proof. unfold after_insert. repeat case_decide; done. Qed.

Lemma wp_remove_linked e s l1 a l2 :
  linked (nodes e) s (l1 ++ a :: l2) →
  wp (seq_remove (Some a))
     (λ _ e', e' = with_nodes (nodes e') e ∧
              rewritten (after_remove s a (last l1) (head l2)) (nodes e) (nodes e') ∧
              linked (nodes e') s (l1 ++ l2)) e.
Proof.
  intros Hl. pose proof Hl as (sn & Hs & Ht & Hf & Hla & Hnd & Hch).
  destruct (Hch l1 a l2 eq_refl) as (an & Ha & Hlive & Hpar & Hpv & Hnx).
  apply NoDup_cons in Hnd as [Hsl Hnd].
  pose proof Hnd as Hnd'. apply NoDup_app in Hnd' as (Hnd1 & Hdisj & Hnd2).
  apply NoDup_cons in Hnd2 as [Hal2 Hnd2].
  assert (∀ i, i ∈ l1 ++ a :: l2 → is_Some (nodes e !! i)) as Hval.
  { intros i Hi. destruct (linked_elem_node _ _ _ _ Hl Hi) as (n & -> & _). eauto. }
  eapply wp_mono.
  - eapply (wp_seq_remove e s a an sn); try done.
    + rewrite Hpv. destruct (last l1) as [p|] eqn:E; [|done]. cbn.
      apply Hval. apply last_Some_elem_of in E. rewrite elem_of_app. auto.
    + rewrite Hnx. destruct (head l2) as [x|] eqn:E; [|done]. cbn.
      apply Hval. apply head_Some_elem_of in E. rewrite elem_of_app, elem_of_cons. auto.
    + intros ->. apply Hsl. rewrite elem_of_app, elem_of_cons. auto.
    + rewrite Hpv. intros H%last_Some_elem_of. apply (Hdisj _ H). left.
    + rewrite Hnx. intros H%head_Some_elem_of. done.
    + rewrite Hpv. intros H%last_Some_elem_of. apply Hsl. rewrite elem_of_app. auto.
    + rewrite Hnx. intros H%head_Some_elem_of. apply Hsl.
      rewrite elem_of_app, elem_of_cons. auto.
    + rewrite Hpv, Hnx. intros H. destruct (last l1) as [p|] eqn:E; [|done].
      symmetry in H. apply last_Some_elem_of in E. apply head_Some_elem_of in H.
      destruct (Hdisj _ E). by right.
  - cbn beta. intros _ e' [He' Hrw]. rewrite Hpv, Hnx in Hrw.
    split; [done|]. split; [done|]. by eapply linked_after_remove.
Qed.

Lemma wp_insert_linked e s l1 l2 x xn :
  linked (nodes e) s (l1 ++ l2) →
  x ∉ s :: l1 ++ l2 → nodes e !! x = Some xn → type xn ≠ NODE_EMPTY →
  wp (seq_insert_after (Some s) (last l1) (Some x))
     (λ _ e', e' = with_nodes (nodes e') e ∧
              rewritten (after_insert s x (last l1) (head l2)) (nodes e) (nodes e') ∧
              linked (nodes e') s (l1 ++ x :: l2)) e.
Proof.
  intros Hl Hx Hxn Hxlive. pose proof Hl as (sn & Hs & Ht & Hf & Hla & Hnd & Hch).
  apply NoDup_cons in Hnd as [Hsl Hnd].
  pose proof Hnd as Hnd'. apply NoDup_app in Hnd' as (Hnd1 & Hdisj & Hnd2).
  assert (∀ i, i ∈ l1 ++ l2 → is_Some (nodes e !! i)) as Hval.
  { intros i Hi. destruct (linked_elem_node _ _ _ _ Hl Hi) as (n & -> & _). eauto. }
  assert ((x ≠ s) ∧ (x ∉ l1) ∧ (x ∉ l2)) as (Hxs & Hx1 & Hx2).
  { rewrite elem_of_cons, elem_of_app in Hx. naive_solver. }
  eapply wp_mono.
  - eapply (wp_seq_insert_after e s x (last l1) (head l2) sn xn); try done.
    + destruct (last l1) as [p|] eqn:E.
      * apply last_Some in E as [l1' ->].
        destruct (Hch l1' p l2) as (pn & Hp & _ & _ & _ & Hnx); [by rewrite <- app_assoc|].
        eauto.
      * apply last_None in E as ->. done.
    + destruct (head l2) as [y|] eqn:E; [|done]. cbn.
      apply Hval. apply head_Some_elem_of in E. rewrite elem_of_app. auto.
    + intros H%last_Some_elem_of. done.
    + intros H%head_Some_elem_of. done.
    + intros H%last_Some_elem_of. apply Hsl. rewrite elem_of_app. auto.
    + intros H%head_Some_elem_of. apply Hsl. rewrite elem_of_app. auto.
    + intros H. destruct (last l1) as [p|] eqn:E; [|done].
      symmetry in H. apply last_Some_elem_of in E. apply head_Some_elem_of in H.
      destruct (Hdisj _ E). done.
    + rewrite Hla. split.
      * intros ->%head_None. by rewrite app_nil_r.
      * intros H. destruct l2 as [|y l2]; [done|].
        rewrite last_app_cons in H.
        destruct (last (y :: l2)) as [z|] eqn:E; [|by apply last_None in E].
        apply last_Some_elem_of in E. symmetry in H. apply last_Some_elem_of in H.
        destruct (Hdisj _ H E).
  - cbn beta. intros _ e' [He' Hrw].
    split; [done|]. split; [done|]. by eapply linked_after_insert.
Qed.

(** ** Insertions that find room

    The allocation lemmas in the form the insertions use them: the state
    has [grown] from the one the insertion started in, there is still a
    free slot, and the continuation gets the slot and what the pool holds
    afterwards. *)

Lemma grown_length e0 j e : grown e0 j e → length (nodes e) = length (nodes e0).
Proof. by intros [(_ & _ & _ & _ & _ & H & _) _]. Qed.

Lemma grown_after_alloc e0 j e t idx :
  t ≠ NODE_EMPTY → grown e0 j e → slot_empty (nodes e) idx →
  grown e0 (S j)
    (with_next_free ((idx + 1) mod MAX_NODES)
       (with_nodes (<[idx := fresh_node t]> (nodes e)) e)).
Proof.
  intros Ht Hg (n0 & Hn0 & He0).
  destruct Hg as [(Hc & Hr & Hl & Hs & Ha & Hlen & Hlive) Hfree].
  split; [repeat split; try done|]; cbn [nodes with_next_free with_nodes].
  - by rewrite length_insert.
  - intros k n Hk Hne. rewrite list_lookup_insert_ne; [by apply Hlive|].
    intros ->. specialize (Hlive _ _ Hk Hne). congruence.
  - pose proof (free_slots_insert (nodes e) idx n0 (fresh_node t) Hn0 He0 Ht). lia.
Qed.

Lemma wp_alloc_room t Q e0 j e :
  t ≠ NODE_EMPTY → grown e0 j e → j < free_slots (nodes e0) →
  length (nodes e0) ≤ MAX_NODES →
  (∀ x e1, grown e0 (S j) e1 → slot_empty (nodes e0) x → slot_empty (nodes e) x →
           nodes e1 = alter (λ _, fresh_node t) x (nodes e) → Q (Some x) e1) →
  wp (math2_alloc_node t) Q e.
Proof.
  intros Ht Hg Hj Hlen HQ.
  destruct (alloc_outcome t e)
    as [(i & idx & _ & _ & Hemp & _ & _ & Hrun)|[Hnone _]].
  - eapply wp_run; [exact Hrun|]. apply HQ; try done.
    + by apply grown_after_alloc.
    + by eapply grown_empty.
    + cbn [nodes with_next_free with_nodes]. apply list_insert_alter.
  - exfalso. pose proof (grown_length _ _ _ Hg) as Hlen'. destruct Hg as [_ Hfree].
    rewrite free_slots_none in Hfree; [lia|].
    intros i Hi. apply (Hnone i); [|done]. destruct Hi as (n & Hn & _).
    apply lookup_lt_Some in Hn. lia.
Qed.

Lemma wp_store_room f x Q e0 j e :
  (∀ n, type (f n) = type n) → grown e0 j e → slot_empty (nodes e0) x →
  (∀ e1, grown e0 j e1 → nodes e1 = alter f x (nodes e) → Q () e1) →
  wp (store x f) Q e.
Proof.
  intros Hf Hg Hx HQ.
  pose proof Hg as [(Hc & Hr & Hl & Hs & Ha & Hlen & Hlive) Hfree].
  destruct Hx as (n0 & Hn0 & He0).
  assert (x < length (nodes e)) as Hxl.
  { rewrite Hlen. by eapply lookup_lt_Some. }
  apply lookup_lt_is_Some in Hxl as [n Hn].
  eapply wp_store; [exact Hn|]. apply HQ; [|done].
  split; [repeat split; try done|]; cbn [nodes with_nodes].
  - by rewrite length_alter.
  - intros k m Hk Hne. rewrite list_lookup_alter_ne; [by apply Hlive|].
    intros ->. congruence.
  - by rewrite free_slots_alter.
Qed.

Lemma wp_new_sequence_room Q e0 j e :
  grown e0 j e → j < free_slots (nodes e0) → length (nodes e0) ≤ MAX_NODES →
  (∀ x e1, grown e0 (S j) e1 → slot_empty (nodes e0) x → slot_empty (nodes e) x →
           nodes e1 = alter (λ _, fresh_node NODE_SEQUENCE) x (nodes e) →
           Q (Some x) e1) →
  wp math2_new_sequence Q e.
Proof.
  intros Hg Hj Hlen HQ. unfold math2_new_sequence.
  apply wp_bind. eapply wp_alloc_room; [done|exact Hg|done|done|].
  intros x e1 Hg1 Hx0 Hx Hn1. apply wp_bind. cbn [when_ptr]. apply wp_bind.
  eapply wp_store_room; [done|exact Hg1|exact Hx0|]. intros e2 Hg2 Hn2.
  eapply wp_store_room; [done|exact Hg2|exact Hx0|]. intros e3 Hg3 Hn3.
  apply wp_ret. apply HQ; try done.
  rewrite Hn3, Hn2, Hn1. apply list_eq. intros i.
  rewrite !list_lookup_alter. repeat case_decide; try done. subst i.
  by destruct (nodes e !! x).
Qed.


Lemma rewritten_lookup f ns ns' i n :
  rewritten f ns ns' → ns !! i = Some n → ns' !! i = Some (f i n).
Proof. intros H Hn. by rewrite H, Hn. Qed.

(** The end of [math2_insert_exponent]: the new node goes into the
    sequence at the cursor, and the cursor into its power slot. *)
Lemma exponent_tail em s x b p kept l2 base Xn Pn :
  cursor em = mk_cursor (Some s) (last kept) →
  linked (nodes em) s (kept ++ l2) →
  linked (nodes em) b base →
  linked (nodes em) p [] →
  nodes em !! x = Some Xn → type Xn = NODE_EXPONENT →
  exp_base Xn = Some b → exp_power Xn = Some p →
  (∃ bn, nodes em !! b = Some bn ∧ parent bn = Some x) →
  nodes em !! p = Some Pn → parent Pn = Some x →
  x ∉ s :: kept ++ l2 →
  (∀ i, i ∈ b :: p :: base → i ∉ x :: s :: kept ++ l2) →
  wp (c0 ← gets cursor;
      seq_insert_after (sequence c0) (after c0) (Some x);;
      xn ← load x;
      modify (with_cursor_sequence (exp_power xn));;
      modify (with_cursor_after NULL);;
      math2_clear_modes)
     (λ _ e',
        ∃ xn bn pn,
          nodes e' !! x = Some xn ∧ type xn = NODE_EXPONENT ∧
          exp_base xn = Some b ∧ exp_power xn = Some p ∧
          nodes e' !! b = Some bn ∧ parent bn = Some x ∧
          nodes e' !! p = Some pn ∧ parent pn = Some x ∧
          linked (nodes e') s (kept ++ x :: l2) ∧
          linked (nodes e') b base ∧
          linked (nodes e') p [] ∧
          cursor e' = mk_cursor (Some p) NULL ∧
          shift_mode e' = false ∧ alpha_mode e' = false ∧ root e' = root em ∧
          (∀ i n, nodes em !! i = Some n →
             ∃ n', nodes e' !! i = Some n' ∧ type n' = type n ∧
                   (i ≠ s → data n' = data n))) em.
Proof.
  intros Hcur Hls Hlb Hlp Hx HXt HXb HXp (bn & Hb & Hbp) Hp HPp Hxl Hout.
  apply wp_bind, wp_gets. rewrite Hcur. cbn [sequence after].
  apply wp_bind. eapply wp_mono.
  { eapply wp_insert_linked; [exact Hls|exact Hxl|exact Hx|]. by rewrite HXt. }
  cbn beta. intros _ e8 (He8 & Hrw & Hls8).
  assert (∀ i n, i ∈ b :: p :: base → nodes em !! i = Some n →
                 after_insert s x (last kept) (head l2) i n = n) as Hfr.
  { intros i n Hi _. apply after_insert_other. by apply Hout. }
  pose proof (rewritten_lookup _ _ _ _ _ Hrw Hx) as Hx8.
  destruct (after_insert_kind s x (last kept) (head l2) x Xn) as [Hk1 Hk2].
  assert (x ≠ s) as Hxs.
  { intros ->. apply Hxl. left. }
  specialize (Hk2 Hxs).
  apply wp_bind. eapply wp_load; [exact Hx8|]. cbn beta.
  assert (exp_power (after_insert s x (last kept) (head l2) x Xn) = Some p
          ∧ exp_base (after_insert s x (last kept) (head l2) x Xn) = Some b) as [HXp8 HXb8].
  { unfold exp_power, exp_base in *. by rewrite Hk2. }
  rewrite HXp8.
  apply wp_bind, wp_modify. apply wp_bind, wp_modify.
  unfold math2_clear_modes. apply wp_bind, wp_modify. apply wp_modify.
  rewrite He8. cbn.
  exists (after_insert s x (last kept) (head l2) x Xn), bn, Pn.
  split; [done|]. split; [by rewrite Hk1|]. split; [done|]. split; [done|].
  split.
  { rewrite (rewritten_lookup _ _ _ _ _ Hrw Hb). f_equal. apply Hfr; [left|done]. }
  split; [done|].
  split.
  { rewrite (rewritten_lookup _ _ _ _ _ Hrw Hp). f_equal.
    apply Hfr; [right; left|done]. }
  split; [done|]. split; [done|].
  split.
  { eapply rewritten_frame; [exact Hlb|exact Hrw|].
    intros i n Hi. apply Hfr. set_solver. }
  split.
  { eapply rewritten_frame; [exact Hlp|exact Hrw|].
    intros i n Hi. apply Hfr. set_solver. }
  repeat split; try done.
  intros i n Hi. exists (after_insert s x (last kept) (head l2) i n).
  split; [by apply (rewritten_lookup _ _ _ _ _ Hrw)|]. apply after_insert_kind.
Qed.


Lemma exponent_base_split ns l1 :
  take (length l1 - length (exponent_base ns l1)) l1 ++ exponent_base ns l1 = l1.
Proof.
  unfold exponent_base. destruct (last l1) as [a|] eqn:El.
  - apply last_Some in El as [l1' ->].
    assert (take (length (l1' ++ [a]) - 1) (l1' ++ [a]) = l1') as Ht.
    { rewrite length_app. cbn. rewrite Nat.add_sub. by rewrite take_app_length. }
    assert (take (length (l1' ++ [a]) - 0) (l1' ++ [a]) = l1' ++ [a]) as Ht0.
    { rewrite Nat.sub_0_r. by rewrite firstn_all. }
    destruct (ns !! a) as [an|]; [destruct (exponent_collects (type an))|];
      cbn [length]; rewrite ?Ht, ?Ht0, ?app_nil_r; done.
  - apply last_None in El as ->. done.
Qed.

(** The middle of [math2_insert_exponent]: the sibling before the cursor
    moves into the base slot when its kind is one the function collects. *)
Lemma exponent_middle e7 s x b p l1 l2 Xn Bn Pn :
  cursor e7 = mk_cursor (Some s) (last l1) →
  linked (nodes e7) s (l1 ++ l2) →
  linked (nodes e7) b [] →
  linked (nodes e7) p [] →
  nodes e7 !! x = Some Xn → exp_base Xn = Some b →
  nodes e7 !! b = Some Bn → nodes e7 !! p = Some Pn →
  x ∉ s :: l1 ++ l2 → b ∉ s :: l1 ++ l2 → p ∉ s :: l1 ++ l2 →
  x ≠ b → p ≠ x → p ≠ b →
  wp (match last l1 with
      | Some a =>
          an ← load a;
          if exponent_collects (type an) then
            xn ← load x; collect_previous a (exp_base xn)
          else mret ()
      | None => mret ()
      end)
     (λ _ em,
        let base := exponent_base (nodes e7) l1 in
        let kept := take (length l1 - length base) l1 in
        cursor em = mk_cursor (Some s) (last kept) ∧ root em = root e7 ∧
        linked (nodes em) s (kept ++ l2) ∧
        linked (nodes em) b base ∧
        linked (nodes em) p [] ∧
        nodes em !! x = Some Xn ∧
        (∃ bn, nodes em !! b = Some bn ∧ parent bn = parent Bn) ∧
        nodes em !! p = Some Pn ∧
        (∀ i n, nodes e7 !! i = Some n →
           ∃ n', nodes em !! i = Some n' ∧ type n' = type n ∧
                 (i ≠ s → i ≠ b → data n' = data n))) e7.
Proof.
  intros Hcur Hls Hlb Hlp Hx HXb Hb Hp Hxl Hbl Hpl Hxb Hpx Hpb.
  pose proof (exponent_base_split (nodes e7) l1) as Hsplit. revert Hsplit.
  unfold exponent_base.
  assert (∀ kept, kept = l1 →
    cursor e7 = mk_cursor (Some s) (last kept) ∧ root e7 = root e7 ∧
    linked (nodes e7) s (kept ++ l2) ∧ linked (nodes e7) b [] ∧
    linked (nodes e7) p [] ∧ nodes e7 !! x = Some Xn ∧
    (∃ bn, nodes e7 !! b = Some bn ∧ parent bn = parent Bn) ∧
    nodes e7 !! p = Some Pn ∧
    (∀ i n, nodes e7 !! i = Some n →
       ∃ n', nodes e7 !! i = Some n' ∧ type n' = type n ∧
             (i ≠ s → i ≠ b → data n' = data n))) as Hsame.
  { intros kept ->. repeat split; eauto. }
  destruct (last l1) as [a|] eqn:El.
  2:{ intros Hsplit. apply wp_ret. cbn zeta. apply Hsame.
      rewrite app_nil_r in Hsplit. done. }
  pose proof El as El'. apply last_Some in El' as [l1' ->].
  rewrite <- app_assoc in Hls, Hxl, Hbl, Hpl. cbn [app] in Hls, Hxl, Hbl, Hpl.
  destruct (linked_child _ _ _ _ _ Hls) as (an & Ha & Halive & Hapar & Hapv & Hanx).
  rewrite Ha. destruct (exponent_collects (type an)) eqn:Ec; intros Hsplit;
    (apply wp_bind; eapply wp_load; [exact Ha|]); cbn beta; rewrite Ec.
  2:{ apply wp_ret. cbn zeta.
      rewrite app_nil_r in Hsplit. rewrite Hsplit. apply Hsame. done. }
  apply app_inj_tail in Hsplit as [Hkept _]. cbn zeta.
  rewrite Hkept. clear Hkept Hsame.
  apply wp_bind. eapply wp_load; [exact Hx|]. cbn beta. rewrite HXb.
  unfold collect_previous.
  apply wp_bind. eapply wp_load; [exact Ha|]. cbn beta.
  apply wp_bind, wp_modify. rewrite Hapv.
  assert ((a ∉ s :: l1' ++ l2) ∧ a ≠ b ∧ a ≠ x ∧ a ≠ p) as (Hal & Hab & Hax & Hap).
  { destruct Hls as (_ & _ & _ & _ & _ & Hnd & _).
    apply NoDup_cons in Hnd as [Hs Hnd]. apply NoDup_app in Hnd as (_ & Hd & Hnd).
    apply NoDup_cons in Hnd as [Ha2 _].
    rewrite !elem_of_cons, !elem_of_app, !elem_of_cons in *.
    split; [|naive_solver]. intros [->|[H|H]]; [naive_solver| |done].
    apply (Hd _ H). left. }
  apply wp_bind. eapply wp_mono.
  { apply (wp_remove_linked _ s l1' a l2). exact Hls. }
  cbn beta. intros _ e8 (He8 & Hrw8 & Hls8).
  cbn [nodes with_cursor_after with_cursor] in Hrw8.
  assert (∀ i n, i ∉ s :: l1' ++ a :: l2 →
            after_remove s a (last l1') (head l2) i n = n) as Hfr8.
  { intros i n Hi. by apply after_remove_other. }
  assert (linked (nodes e8) b []) as Hlb8.
  { eapply rewritten_frame; [exact Hlb|exact Hrw8|].
    intros i n Hi _. apply Hfr8. set_solver. }
  pose proof (rewritten_lookup _ _ _ _ _ Hrw8 Ha) as Ha8.
  eapply wp_mono.
  { eapply (wp_insert_linked e8 b [] [] a); [exact Hlb8|set_solver|exact Ha8|].
    by rewrite (proj1 (after_remove_kind s a (last l1') (head l2) a an)). }
  cbn beta. intros _ e9 (He9 & Hrw9 & Hlb9). cbn [app last head] in Hrw9, Hlb9.
  assert (∀ i n, i ≠ a → i ≠ b → after_insert b a None None i n = n) as Hfr9.
  { intros i n Hia Hib. apply (after_insert_other b a [] []). set_solver. }
  assert (∀ i n, i ∉ s :: l1' ++ a :: l2 → i ≠ b → nodes e7 !! i = Some n →
             nodes e9 !! i = Some n) as Hkeep.
  { intros i n Hi Hib Hn.
    rewrite (rewritten_lookup _ _ _ _ _ Hrw9
               (rewritten_lookup _ _ _ _ _ Hrw8 Hn)).
    rewrite Hfr8 by done. rewrite Hfr9; [done| |done].
    intros ->. apply Hi. set_solver. }
  split.
  { rewrite He9. cbn. rewrite He8. cbn. by rewrite Hcur. }
  split.
  { rewrite He9. cbn. rewrite He8. done. }
  split.
  { eapply rewritten_frame; [exact Hls8|exact Hrw9|].
    intros i n Hi _. apply Hfr9; intros ->; [by apply Hal|].
    apply Hbl. set_solver. }
  split; [done|].
  split.
  { eapply rewritten_frame; [|exact Hrw9|].
    - eapply rewritten_frame; [exact Hlp|exact Hrw8|].
      intros i n Hi _. apply Hfr8. set_solver.
    - intros i n Hi _. apply Hfr9; set_solver. }
  split; [apply Hkeep; [done|done|done]|].
  split.
  { exists (after_insert b a None None b Bn). split.
    - rewrite (rewritten_lookup _ _ _ _ _ Hrw9
                 (rewritten_lookup _ _ _ _ _ Hrw8 Hb)).
      rewrite Hfr8 by done. done.
    - unfold after_insert. repeat case_decide; try done; congruence. }
  split; [apply Hkeep; [done|done|done]|].
  intros i n Hn. eexists. split.
  { exact (rewritten_lookup _ _ _ _ _ Hrw9
             (rewritten_lookup _ _ _ _ _ Hrw8 Hn)). }
  destruct (after_insert_kind b a None None i
              (after_remove s a (last l1') (head l2) i n)) as [-> Hd9].
  destruct (after_remove_kind s a (last l1') (head l2) i n) as [-> Hd8].
  split; [done|]. intros His Hib. rewrite Hd9, Hd8; done.
Qed.

Lemma exponent_general e s l1 l2 :
  3 ≤ free_slots (nodes e) → length (nodes e) ≤ MAX_NODES →
  cursor e = mk_cursor (Some s) (last l1) →
  linked (nodes e) s (l1 ++ l2) →
  wp math2_insert_exponent
    (λ _ e',
       ∃ x b p xn bn pn,
         slot_empty (nodes e) x ∧ slot_empty (nodes e) b ∧ slot_empty (nodes e) p ∧
         nodes e' !! x = Some xn ∧ type xn = NODE_EXPONENT ∧
         exp_base xn = Some b ∧ exp_power xn = Some p ∧
         nodes e' !! b = Some bn ∧ parent bn = Some x ∧
         nodes e' !! p = Some pn ∧ parent pn = Some x ∧
         linked (nodes e') s
           (take (length l1 - length (exponent_base (nodes e) l1)) l1 ++ x :: l2) ∧
         linked (nodes e') b (exponent_base (nodes e) l1) ∧
         linked (nodes e') p [] ∧
         cursor e' = mk_cursor (Some p) NULL ∧
         shift_mode e' = false ∧ alpha_mode e' = false ∧ root e' = root e ∧
         (∀ i n, nodes e !! i = Some n → type n ≠ NODE_EMPTY →
            ∃ n', nodes e' !! i = Some n' ∧ type n' = type n ∧
                  (i ≠ s → data n' = data n))) e.
Proof.
  intros Hfree Hlen Hcur Hl. pose proof (grown_refl e) as Hg0.
  unfold math2_insert_exponent.
  apply wp_bind. eapply wp_alloc_room; [done|exact Hg0|lia|done|].
  intros x e1 Hg1 Hx0 _ Hn1. cbn beta iota.
  apply wp_bind. eapply wp_new_sequence_room; [exact Hg1|lia|done|].
  intros b e2 Hg2 Hb0 Hb1 Hn2. cbn beta.
  apply wp_bind. eapply wp_store_room; [done|exact Hg2|exact Hx0|].
  intros e3 Hg3 Hn3. cbn beta.
  apply wp_bind. eapply wp_new_sequence_room; [exact Hg3|lia|done|].
  intros p e4 Hg4 Hp0 Hp3 Hn4. cbn beta.
  apply wp_bind. eapply wp_store_room; [done|exact Hg4|exact Hx0|].
  intros e5 Hg5 Hn5. cbn beta iota.
  apply wp_bind. eapply wp_store_room; [done|exact Hg5|exact Hb0|].
  intros e6 Hg6 Hn6. cbn beta.
  apply wp_bind. eapply wp_store_room; [done|exact Hg6|exact Hp0|].
  intros e7 Hg7 Hn7. cbn beta.
  (* the three new nodes *)
  assert (x ≠ b) as Hxb.
  { intros ->. destruct Hb1 as (n & Hn & He). rewrite Hn1 in Hn.
    destruct Hx0 as (n0 & Hn0 & _).
    rewrite list_lookup_alter_eq, Hn0 in Hn. by injection Hn as <-. }
  assert (p ≠ x ∧ p ≠ b) as [Hpx Hpb].
  { destruct Hp3 as (n & Hn & He). rewrite Hn3, Hn2, Hn1 in Hn.
    rewrite !list_lookup_alter in Hn.
    destruct Hx0 as (n0 & Hn0 & _). destruct Hb0 as (n1 & Hn1' & _).
    split; intros ->; repeat case_decide; try done;
      rewrite ?Hn0, ?Hn1' in Hn; cbn in Hn; by injection Hn as <-. }
  assert (∀ i, nodes e7 !! i =
               if decide (i = x) then
                 Some (mk_node NODE_EXPONENT NULL NULL NULL (DExp (Some b) (Some p)))
               else if decide (i = b) then
                 Some (mk_node NODE_SEQUENCE (Some x) NULL NULL (DSeq NULL NULL))
               else if decide (i = p) then
                 Some (mk_node NODE_SEQUENCE (Some x) NULL NULL (DSeq NULL NULL))
               else nodes e !! i) as Hn.
  { intros i. rewrite Hn7, Hn6, Hn5, Hn4, Hn3, Hn2, Hn1.
    rewrite !list_lookup_alter.
    destruct Hx0 as (n0 & Hn0 & _). destruct Hb0 as (n1 & Hn1' & _).
    destruct Hp0 as (n2 & Hn2' & _).
    repeat case_decide; simplify_eq; try done; rewrite ?Hn0, ?Hn1', ?Hn2'; done. }
  clear Hn1 Hn2 Hn3 Hn4 Hn5 Hn6 Hn7 Hg1 Hg2 Hg3 Hg4 Hg5 Hg6 Hb1 Hp3.
  destruct Hg7 as [(Hc7 & Hr7 & _ & _ & _ & _ & Hlive7) _].
  (* the children of [s] are none of them *)
  assert (∀ i n, nodes e !! i = Some n → type n ≠ NODE_EMPTY →
                 i ≠ x ∧ i ≠ b ∧ i ≠ p) as Hlive.
  { intros i n Hi1 Hi2.
    destruct Hx0 as (? & ? & ?), Hb0 as (? & ? & ?), Hp0 as (? & ? & ?).
    repeat split; intros ->; congruence. }
  assert (∀ i, i ∈ s :: l1 ++ l2 → i ≠ x ∧ i ≠ b ∧ i ≠ p) as Hfresh.
  { intros i Hi. apply elem_of_cons in Hi as [->|Hi].
    - destruct Hl as (sn & Hs & Ht & _). apply (Hlive _ _ Hs). by rewrite Ht.
    - destruct (linked_elem_node _ _ _ _ Hl Hi) as (n & ? & ? & _). eauto. }
  assert (∀ i, i ≠ x → i ≠ b → i ≠ p → nodes e7 !! i = nodes e !! i) as Hold.
  { intros i ? ? ?. rewrite Hn. by rewrite !decide_False by done. }
  assert (linked (nodes e7) s (l1 ++ l2)) as Hl7.
  { eapply linked_same; [exact Hl|]. intros i Hi.
    destruct (Hfresh i Hi) as (? & ? & ?). by apply Hold. }
  assert (exponent_base (nodes e7) l1 = exponent_base (nodes e) l1) as Heb.
  { unfold exponent_base. destruct (last l1) as [a|] eqn:El; [|done].
    apply last_Some_elem_of in El.
    destruct (Hfresh a) as (? & ? & ?); [set_solver|]. by rewrite Hold. }
  pose proof (exponent_base_split (nodes e) l1) as Hsplit.
  set (Xn := mk_node NODE_EXPONENT NULL NULL NULL (DExp (Some b) (Some p))) in *.
  set (Sn := mk_node NODE_SEQUENCE (Some x) NULL NULL (DSeq NULL NULL)) in *.
  assert (nodes e7 !! x = Some Xn) as Hx7.
  { rewrite Hn. by rewrite decide_True. }
  assert (nodes e7 !! b = Some Sn) as Hb7.
  { rewrite Hn. by rewrite decide_False, decide_True. }
  assert (nodes e7 !! p = Some Sn) as Hp7.
  { rewrite Hn. repeat case_decide; congruence. }
  apply wp_bind, wp_gets. rewrite Hc7, Hcur. cbn [after].
  apply wp_bind. eapply wp_mono.
  { eapply (exponent_middle e7 s x b p l1 l2 Xn Sn Sn).
    - by rewrite Hc7.
    - exact Hl7.
    - by eapply linked_empty.
    - by eapply linked_empty.
    - exact Hx7.
    - done.
    - exact Hb7.
    - exact Hp7.
    - intros Hi. by destruct (Hfresh _ Hi) as (? & ? & ?).
    - intros Hi. by destruct (Hfresh _ Hi) as (? & ? & ?).
    - intros Hi. by destruct (Hfresh _ Hi) as (? & ? & ?).
    - done.
    - done.
    - done. }
  cbn beta zeta. rewrite Heb. clear Heb.
  remember (exponent_base (nodes e) l1) as base eqn:Eb. clear Eb.
  remember (take (length l1 - length base) l1) as kept eqn:Ek. clear Ek.
  intros _ em (Hcm & Hrm & Hlsm & Hlbm & Hlpm & Hxm & (bn & Hbm & Hbpm) & Hpm & Hfrm).
  eapply wp_mono.
  { eapply (exponent_tail em s x b p kept l2 base Xn Sn); try done.
    - eauto.
    - intros Hi. destruct (Hfresh x) as (? & ? & ?); [|done].
      rewrite <- Hsplit. set_solver.
    - assert (NoDup (s :: (kept ++ base) ++ l2)) as Hnd.
      { rewrite Hsplit. by destruct Hl as (? & _ & _ & _ & _ & Hnd & _). }
      rewrite <- Hsplit in Hfresh. clear -Hnd Hfresh Hxb Hpx Hpb.
      apply NoDup_cons in Hnd as [Hs Hnd].
      apply NoDup_app in Hnd as (Hnd1 & Hd1 & _).
      apply NoDup_app in Hnd1 as (_ & Hd2 & _).
      intros i Hi Hi'.
      assert (i = x ∨ i ∈ s :: (kept ++ base) ++ l2) as [->|Hin] by set_solver.
      + set_solver.
      + destruct (Hfresh _ Hin) as (? & ? & ?).
        assert (i ∈ base) as Hib by set_solver.
        assert (i ≠ s) by (intros ->; set_solver).
        assert (i ∈ kept ∨ i ∈ l2) as [?|?] by set_solver.
        * by apply (Hd2 i).
        * apply (Hd1 i); [set_solver|done]. }
  cbn beta.
  intros _ e' (xn & bn' & pn & H1 & H2 & H3 & H4 & H5 & H6 & H7 & H8 & H9 & H10
               & H11 & H12 & H13 & H14 & H15 & Hfr').
  exists x, b, p, xn, bn', pn.
  repeat (split; [done|]).
  split; [congruence|].
  intros i n Hi Hilive. destruct (Hlive _ _ Hi Hilive) as (? & ? & ?).
  destruct (Hfrm i n (Hlive7 _ _ Hi Hilive)) as (n' & Hn' & Ht' & Hd').
  destruct (Hfr' i n' Hn') as (n'' & Hn'' & Ht'' & Hd'').
  exists n''. split; [done|]. split; [congruence|].
  intros His. rewrite Hd'', Hd'; done.
Qed.

Lemma exponent_collects_kinds (t : node_type_t) :
  exponent_collects t = true ↔ t ∈ exponent_base_kinds.
Proof.
  unfold exponent_base_kinds. rewrite !elem_of_cons, elem_of_nil.
  destruct t; cbn; naive_solver.
Qed.

Lemma exponent_base_spec ns l1 a :
  a ∈ exponent_base ns l1 ↔
  last l1 = Some a ∧ ∃ an, ns !! a = Some an ∧ type an ∈ exponent_base_kinds.
Proof.
  unfold exponent_base. destruct (last l1) as [a'|]; [|set_solver].
  destruct (ns !! a') as [an|] eqn:Ea.
  - destruct (exponent_collects (type an)) eqn:Ec.
    + rewrite list_elem_of_singleton. split.
      * intros ->. split; [done|]. exists an. split; [done|].
        by apply exponent_collects_kinds.
      * by intros [[= ->] _].
    + split; [set_solver|]. intros [[= ->] (an' & Han & Hk)].
      apply exponent_collects_kinds in Hk. congruence.
  - split; [set_solver|]. intros [[= ->] (an' & Han & _)]. congruence.
Qed.

Lemma exponent_base_short ns l1 : length (exponent_base ns l1) ≤ 1.
Proof.
  unfold exponent_base. repeat case_match; cbn; lia.
Qed.

(** C3. From a state with room for three nodes, whose cursor stands in the
    sequence [s] after the children [l1] and before the children [l2],
    [math2_insert_exponent] returns, and it has split [l1] into [kept] and
    [base]: [base] is at most one slot, and a slot is in it exactly when it
    is the last of [l1] and its kind is Text, Fraction, Paren, Exponent or
    Root. The sequence [s] then holds [kept], the new Exponent node and
    [l2]; the base slot of the new node holds [base], its power slot is
    empty and the cursor is at the start of the power slot. Every node that
    was live keeps its kind, and its contents unless it is [s]. In
    particular, after the digits 1 and 2 are typed into an empty expression
    the insertion gives the expression 1, Exponent(base 2, power empty),
    with the cursor in an empty slot, and [math2_to_latex] then writes
    [1{2}^{}]. *)
Theorem math2_insert_exponent_collects (e : math_expr2_t) (s : nat) (l1 l2 : list nat) :
  (3 ≤ free_slots (nodes e) → length (nodes e) ≤ MAX_NODES →
   cursor e = mk_cursor (Some s) (last l1) →
   linked (nodes e) s (l1 ++ l2) →
   ∃ e' x xn b p kept base,
     exec math2_insert_exponent e = Some e' ∧
     l1 = kept ++ base ∧ length base ≤ 1 ∧
     (∀ a, a ∈ base ↔
           last l1 = Some a ∧
           ∃ an, nodes e !! a = Some an ∧ type an ∈ exponent_base_kinds) ∧
     nodes e' !! x = Some xn ∧ type xn = NODE_EXPONENT ∧
     exp_base xn = Some b ∧ exp_power xn = Some p ∧
     linked (nodes e') s (kept ++ x :: l2) ∧
     linked (nodes e') b base ∧
     linked (nodes e') p [] ∧
     cursor e' = mk_cursor (Some p) NULL ∧
     (∀ i n, nodes e !! i = Some n → type n ≠ NODE_EMPTY →
        ∃ n', nodes e' !! i = Some n' ∧ type n' = type n ∧
              (i ≠ s → data n' = data n))) ∧
  (∃ e2 e3 e4,
     exec (session [digit "1"; digit "2"]) math2_init = Some e2 ∧
     expression e2 = Some [TText TEXT_NUMBER "1"; TText TEXT_NUMBER "2"] ∧
     exec math2_insert_exponent e2 = Some e3 ∧
     expression e3 =
       Some [TText TEXT_NUMBER "1"; TExponent [TText TEXT_NUMBER "2"] []] ∧
     cursor_slot e3 = Some [] ∧
     exec math2_to_latex e3 = Some e4 ∧
     latex e4 = "1{2}^{}"%string).
Proof.
  split.
  - intros Hfree Hlen Hcur Hl.
    destruct (exponent_general e s l1 l2 Hfree Hlen Hcur Hl)
      as ([] & e' & Hrun & x & b & p & xn & bn & pn & _ & _ & _ & H).
    destruct H as (Hx & Hxt & Hxb & Hxp & _ & _ & _ & _ & Hls & Hlb & Hlp & Hc
                   & _ & _ & _ & Hfr).
    exists e', x, xn, b, p,
      (take (length l1 - length (exponent_base (nodes e) l1)) l1),
      (exponent_base (nodes e) l1).
    split; [unfold exec; by rewrite Hrun|].
    split; [by rewrite exponent_base_split|].
    split; [apply exponent_base_short|].
    split; [apply exponent_base_spec|].
    done.
  - eexists _, _, _. vm_conj.
Qed.

Lemma children_ok_sound ns s pv l :
  children_ok ns s pv l = true →
  ∀ l1 i l2, l = l1 ++ i :: l2 →
    ∃ n, ns !! i = Some n ∧ type n ≠ NODE_EMPTY ∧ parent n = Some s ∧
         prev n = match last l1 with Some z => Some z | None => pv end ∧
         next n = head l2.
Proof.
  revert pv. induction l as [|j r IH]; intros pv Hok l1 i l2 Heq.
  - by destruct l1.
  - cbn in Hok. destruct (ns !! j) as [n|] eqn:Ej; [|done].
    rewrite !andb_true_iff, !bool_decide_eq_true in Hok.
    destruct Hok as ((((Ht & Hp) & Hpv) & Hnx) & Hr).
    destruct l1 as [|k l1]; cbn in Heq; injection Heq as <- ->.
    + exists n. done.
    + destruct (IH _ Hr l1 i l2 eq_refl) as (m & Hm & Hmt & Hmp & Hmpv & Hmnx).
      exists m. repeat split; try done.
      rewrite Hmpv. destruct l1 as [|k' l1]; [done|].
      rewrite last_cons_cons. by destruct (last (k' :: l1)) eqn:E;
        [|apply last_None in E].
Qed.

Lemma linkedb_sound ns s l : linkedb ns s l = true → linked ns s l.
Proof.
  unfold linkedb. destruct (ns !! s) as [sn|] eqn:Es; [|done].
  rewrite !andb_true_iff, !bool_decide_eq_true.
  intros ((((Ht & Hf) & Hl) & Hnd) & Hc).
  exists sn. repeat split; try done.
  intros l1 i l2 Heq.
  destruct (children_ok_sound _ _ _ _ Hc l1 i l2 Heq) as (n & Hn & ? & ? & Hpv & ?).
  exists n. repeat split; try done. rewrite Hpv. by destruct (last l1).
Qed.

Lemma math2_insert_exponent_collects_witness :
  ∃ e' x xn b p kept,
    exec math2_insert_exponent typed_12 = Some e' ∧
    [1; 2] = kept ++ [2] ∧
    nodes e' !! x = Some xn ∧ type xn = NODE_EXPONENT ∧
    exp_base xn = Some b ∧ exp_power xn = Some p ∧
    linked (nodes e') 0 (kept ++ [x]) ∧
    linked (nodes e') b [2] ∧
    cursor e' = mk_cursor (Some p) NULL.
Proof.
  destruct (proj1 (math2_insert_exponent_collects typed_12 0 [1; 2] []))
    as (e' & x & xn & b & p & kept & base & H1 & H2 & H3 & H4 & H5 & H6 & H7 & H8
        & H9 & H10 & H11 & H12 & _).
  - vm_compute. lia.
  - vm_compute. lia.
  - reflexivity.
  - apply linkedb_sound. vm_compute. reflexivity.
  - assert (base = [2]) as ->.
    { assert (2 ∈ base) as Hin.
      { apply H4. split; [done|]. eexists. split; [reflexivity|].
        unfold exponent_base_kinds. cbn. left. }
      clear -Hin H3.
      destruct base as [|z [|? ?]];
        [by apply elem_of_nil in Hin| |cbn [length] in H3; lia].
      apply list_elem_of_singleton in Hin as ->. done. }
    exists e', x, xn, b, p, kept.
    exact (conj H1 (conj H2 (conj H5 (conj H6 (conj H7 (conj H8
             (conj H9 (conj H10 H12)))))))).
Defined.

(** ** Sequences, the cursor and the keys *)

Lemma wp_exec {A} (m : M A) (Q : A → math_expr2_t → Prop) e :
  wp m Q e → ∃ a e', exec m e = Some e' ∧ m e = Some (a, e') ∧ Q a e'.
Proof.
  intros (a & e' & Hm & HQ). exists a, e'. unfold exec. by rewrite Hm.
Qed.

Lemma with_nodes_same e : with_nodes (nodes e) e = e.
Proof. by destruct e. Qed.

(** [seq_insert_after] puts a live node that is not in a well-linked sequence
    right behind the given child of it (at its front for [NULL]): the
    children read [l1 ++ x :: l2] afterwards, only the node, the sequence and
    the two neighbours are written, and no slot changes its type nor, the
    sequence apart, its payload. *)
Theorem seq_insert_after_places_node (e : math_expr2_t) (s x : nat)
    (l1 l2 : list nat) (xn : expr_node) :
  linked (nodes e) s (l1 ++ l2) →
  x ∉ s :: l1 ++ l2 → nodes e !! x = Some xn → type xn ≠ NODE_EMPTY →
  ∃ e',
    exec (seq_insert_after (Some s) (last l1) (Some x)) e = Some e' ∧
    e' = with_nodes (nodes e') e ∧
    linked (nodes e') s (l1 ++ x :: l2) ∧
    (∀ i, i ≠ x → i ≠ s → last l1 ≠ Some i → head l2 ≠ Some i →
          nodes e' !! i = nodes e !! i) ∧
    (∀ i n, nodes e !! i = Some n →
       ∃ n', nodes e' !! i = Some n' ∧ type n' = type n ∧
             (i ≠ s → data n' = data n)).
Proof.
  intros Hl Hx Hxn Hlive.
  destruct (wp_exec _ _ _ (wp_insert_linked e s l1 l2 x xn Hl Hx Hxn Hlive))
    as ([] & e' & Hrun & _ & He' & Hrw & Hl').
  exists e'. repeat split; try done.
  - intros i ? ? ? ?. rewrite Hrw. unfold after_insert.
    destruct (nodes e !! i) as [n|]; [|done]. cbn.
    by rewrite !decide_False by done.
  - intros i n Hn. exists (after_insert s x (last l1) (head l2) i n).
    split; [by apply (rewritten_lookup _ _ _ _ _ Hrw)|]. apply after_insert_kind.
Qed.

(** [seq_remove] takes a child out of its well-linked sequence: the other
    children stay in their order, the node is left with no parent and no
    sibling, only the node, the sequence and the two neighbours are written,
    and no slot changes its type. *)
Theorem seq_remove_unlinks_node (e : math_expr2_t) (s a : nat) (l1 l2 : list nat) :
  linked (nodes e) s (l1 ++ a :: l2) →
  ∃ e' an,
    exec (seq_remove (Some a)) e = Some e' ∧
    e' = with_nodes (nodes e') e ∧
    linked (nodes e') s (l1 ++ l2) ∧
    nodes e' !! a = Some an ∧
    parent an = NULL ∧ prev an = NULL ∧ next an = NULL ∧
    (∀ i, i ≠ a → i ≠ s → last l1 ≠ Some i → head l2 ≠ Some i →
          nodes e' !! i = nodes e !! i) ∧
    (∀ i n, nodes e !! i = Some n →
       ∃ n', nodes e' !! i = Some n' ∧ type n' = type n ∧
             (i ≠ s → data n' = data n)).
Proof.
  intros Hl.
  destruct (wp_exec _ _ _ (wp_remove_linked e s l1 a l2 Hl))
    as ([] & e' & Hrun & _ & He' & Hrw & Hl').
  destruct (linked_child _ _ _ _ _ Hl) as (an & Ha & _).
  exists e', (after_remove s a (last l1) (head l2) a an).
  split; [done|]. split; [done|]. split; [done|].
  split; [by apply (rewritten_lookup _ _ _ _ _ Hrw)|].
  unfold after_remove at 1 2 3. rewrite !decide_True by done.
  repeat split; try done.
  - intros i ? ? ? ?. rewrite Hrw. unfold after_remove.
    destruct (nodes e !! i) as [n|]; [|done]. cbn.
    by rewrite !decide_False by done.
  - intros i n Hn. exists (after_remove s a (last l1) (head l2) i n).
    split; [by apply (rewritten_lookup _ _ _ _ _ Hrw)|]. apply after_remove_kind.
Qed.

Lemma insert_remove_cancel ns s x l1 l2 i n :
  linked ns s (l1 ++ l2) → x ∉ s :: l1 ++ l2 → ns !! i = Some n →
  (i = x → parent n = NULL ∧ prev n = NULL ∧ next n = NULL) →
  (i = s → data n = DSeq (seq_first n) (seq_last n)) →
  after_remove s x (last l1) (head l2) i
    (after_insert s x (last l1) (head l2) i n) = n.
Proof.
  intros Hl Hx Hn Hdet Hdata.
  assert (x ≠ s ∧ (x ∉ l1) ∧ (x ∉ l2)) as (Hxs & Hx1 & Hx2).
  { rewrite elem_of_cons, elem_of_app in Hx. naive_solver. }
  pose proof Hl as (sn & Hs & Ht & Hf & Hla & Hnd & Hch).
  assert (last l1 = Some i → next n = head l2) as F1.
  { intros Hpv. apply last_Some in Hpv as [l1' ->].
    rewrite <- app_assoc in Hl. cbn in Hl.
    destruct (linked_child _ _ _ _ _ Hl) as (n' & Hn' & _ & _ & _ & Hnx).
    rewrite Hn in Hn'. by injection Hn' as <-. }
  assert (head l2 = Some i → prev n = last l1) as F2.
  { intros Hnx. destruct l2 as [|j l2]; [done|]. injection Hnx as ->.
    destruct (linked_child _ _ _ _ _ Hl) as (n' & Hn' & _ & _ & Hp & _).
    rewrite Hn in Hn'. by injection Hn' as <-. }
  assert (i = s → (head l2 = NULL → seq_last n = last l1) ∧
                  (last l1 = NULL → seq_first n = head l2)) as F3.
  { intros ->. rewrite Hs in Hn. injection Hn as <-. split.
    - intros ->%head_None. by rewrite app_nil_r in Hla.
    - intros ->%last_None. done. }
  unfold after_remove, after_insert.
  destruct (decide (i = x)) as [->|Hix].
  { destruct (Hdet eq_refl) as (Hp & Hpv & Hnx).
    destruct n as [t pa nx pv d]. cbn in *. by subst. }
  clear Hdet Hl Hch Hs Hn Hf Hla Hnd Ht.
  repeat case_decide; try done;
    repeat match goal with
           | H : ?P → _, H' : ?P |- _ => specialize (H H')
           end;
    try match goal with H : _ ∧ _ |- _ => destruct H as [F3' F4'] end;
    repeat match goal with
           | H : ?P → _, H' : ?P |- _ => specialize (H H')
           end;
    destruct n as [t pa nx pv d]; unfold set_seq_last, set_seq_first, seq_first,
      seq_last, set_data, set_next, set_prev, id in *; cbn in *; subst; try done;
    try congruence.
Qed.

(** Inserting a detached node into a sequence with [seq_insert_after] and
    taking it out again with [seq_remove] gives back the very state it
    started from. *)
Theorem seq_insert_then_remove (e : math_expr2_t) (s x : nat) (l1 l2 : list nat)
    (sn xn : expr_node) :
  linked (nodes e) s (l1 ++ l2) →
  nodes e !! s = Some sn → data sn = DSeq (seq_first sn) (seq_last sn) →
  x ∉ s :: l1 ++ l2 → nodes e !! x = Some xn → type xn ≠ NODE_EMPTY →
  parent xn = NULL → prev xn = NULL → next xn = NULL →
  exec (seq_insert_after (Some s) (last l1) (Some x);; seq_remove (Some x)) e
    = Some e.
Proof.
  intros Hl Hs Hdata Hx Hxn Hlive Hp Hpv Hnx.
  assert (wp (seq_insert_after (Some s) (last l1) (Some x);; seq_remove (Some x))
             (λ _ e', e' = e) e) as (u & e' & Hrun & ->).
  { apply wp_bind. eapply wp_mono; [by eapply wp_insert_linked|].
    cbn beta. intros _ e1 (He1 & Hrw1 & Hl1).
    eapply wp_mono; [apply (wp_remove_linked e1 s l1 x l2 Hl1)|].
    cbn beta. intros _ e2 (He2 & Hrw2 & Hl2).
    rewrite He2, He1. cbn.
    assert (nodes e2 = nodes e) as ->; [|by destruct e].
    apply list_eq. intros i. rewrite Hrw2, Hrw1.
    destruct (nodes e !! i) as [n|] eqn:Hn; [|done]. cbn. f_equal.
    apply (insert_remove_cancel (nodes e) s x l1 l2 i n Hl Hx Hn).
    - intros ->. rewrite Hxn in Hn. by injection Hn as <-.
    - intros ->. rewrite Hs in Hn. by injection Hn as <-. }
  unfold exec. by rewrite Hrun.
Qed.

(** [seq_is_empty] answers true exactly when the well-linked sequence has no
    child, and changes nothing. *)
Theorem seq_is_empty_linked (e : math_expr2_t) (s : nat) (l : list nat) :
  linked (nodes e) s l →
  seq_is_empty (Some s) e = Some (bool_decide (l = []), e).
Proof.
  intros (sn & Hs & Ht & Hf & _). unfold seq_is_empty.
  cbn. unfold mbind, M_bind, load. rewrite Hs. cbn. unfold mret, M_ret.
  do 2 f_equal. rewrite Hf, (bool_decide_true _ Ht). cbn.
  destruct l; done.
Qed.

Lemma load_eq e i n : nodes e !! i = Some n → load i e = Some (n, e).
Proof. intros H. unfold load. by rewrite H. Qed.

Lemma bind_eq {A B} (m : M A) (f : A → M B) e a e1 :
  m e = Some (a, e1) → (m ≫= f) e = f a e1.
Proof. intros H. unfold mbind, M_bind. by rewrite H. Qed.

Lemma node_ahead_linked e s l1 l2 :
  linked (nodes e) s (l1 ++ l2) → cursor e = mk_cursor (Some s) (last l1) →
  node_ahead e = Some (head l2, e).
Proof.
  intros Hl Hc. unfold node_ahead.
  rewrite (bind_eq _ _ e (cursor e) e) by done. rewrite Hc. cbn [after sequence].
  destruct (last l1) as [p|] eqn:El.
  - apply last_Some in El as [l1' ->]. rewrite <- app_assoc in Hl. cbn in Hl.
    destruct (linked_child _ _ _ _ _ Hl) as (pn & Hp & _ & _ & _ & Hnx).
    rewrite (bind_eq _ _ e pn e) by by apply load_eq. by rewrite Hnx.
  - apply last_None in El as ->. destruct Hl as (sn & Hs & _ & Hf & _).
    cbn [deref]. rewrite (bind_eq _ _ e sn e) by by apply load_eq. by rewrite Hf.
Qed.

(** One step of the cursor to the right and one to the left, over a child
    of a sequence. *)
Lemma cursor_step_inverse (e : math_expr2_t) (s a : nat) (l1 l2 : list nat) :
  linked (nodes e) s (l1 ++ a :: l2) →
  cursor_right (with_cursor (mk_cursor (Some s) (last l1)) e)
    = Some (true, with_cursor (mk_cursor (Some s) (Some a)) e) ∧
  cursor_left (with_cursor (mk_cursor (Some s) (Some a)) e)
    = Some (true, with_cursor (mk_cursor (Some s) (last l1)) e).
Proof.
  intros Hl. split.
  - unfold cursor_right.
    erewrite bind_eq; [|by apply (node_ahead_linked _ s l1 (a :: l2))]. done.
  - unfold cursor_left.
    destruct (linked_child _ _ _ _ _ Hl) as (an & Ha & _ & _ & Hpv & _).
    erewrite bind_eq; [|reflexivity]. cbn [cursor with_cursor after].
    erewrite bind_eq; [|by apply load_eq]. rewrite Hpv. done.
Qed.

(** In a well-linked sequence [cursor_right] steps over the child ahead and
    [cursor_left] steps back over it: each succeeds and undoes the other. *)
Theorem cursor_right_left_inverse (e : math_expr2_t) (s a : nat) (l1 l2 : list nat) :
  linked (nodes e) s (l1 ++ a :: l2) →
  cursor_right (with_cursor (mk_cursor (Some s) (last l1)) e)
    = Some (true, with_cursor (mk_cursor (Some s) (Some a)) e) ∧
  cursor_left (with_cursor (mk_cursor (Some s) (Some a)) e)
    = Some (true, with_cursor (mk_cursor (Some s) (last l1)) e).
Proof. apply cursor_step_inverse. Qed.

Lemma enter_slot_sequence e q qn (at_end : bool) :
  nodes e !! q = Some qn → type qn = NODE_SEQUENCE →
  enter_slot (Some q) at_end e
    = Some (true, with_cursor (mk_cursor (Some q) (if at_end then seq_last qn else NULL)) e).
Proof.
  intros Hq Ht. unfold enter_slot.
  erewrite bind_eq; [|by apply load_eq]. by rewrite decide_True.
Qed.

Lemma exit_container_parent e q qn t tn s sn (to_left : bool) :
  sequence (cursor e) = Some q →
  nodes e !! q = Some qn → parent qn = Some t →
  nodes e !! t = Some tn → parent tn = Some s →
  nodes e !! s = Some sn → type sn = NODE_SEQUENCE →
  exit_container to_left e
    = Some (true, with_cursor (mk_cursor (Some s) (if to_left then prev tn else Some t)) e).
Proof.
  intros Hc Hq Hqp Ht Htp Hs Hst. unfold exit_container.
  erewrite bind_eq; [|reflexivity]. rewrite Hc. cbn [deref].
  erewrite bind_eq; [|by apply load_eq]. rewrite Hqp.
  erewrite bind_eq; [|by apply load_eq]. rewrite Htp.
  erewrite bind_eq; [|by apply load_eq]. by rewrite decide_True.
Qed.

(** The key right followed by the key left brings the cursor back: over a
    node with no slot the cursor steps right and back, and before a
    container it enters the first slot and leaves it again to the left. *)
Theorem key_right_then_key_left (e : math_expr2_t) (s t : nat) (l1 l2 : list nat)
    (tn : expr_node) :
  linked (nodes e) s (l1 ++ t :: l2) →
  nodes e !! t = Some tn →
  (get_first_slot tn = NULL ∧ get_last_slot tn = NULL) ∨
  (∃ fs fsn, get_first_slot tn = Some fs ∧ nodes e !! fs = Some fsn ∧
             type fsn = NODE_SEQUENCE ∧ parent fsn = Some t) →
  cursor e = mk_cursor (Some s) (last l1) →
  exec (key_right;; key_left) e = Some e.
Proof.
  intros Hl Ht Hkind Hc.
  assert (e = with_cursor (mk_cursor (Some s) (last l1)) e) as He.
  { rewrite <- Hc. by destruct e. }
  destruct (cursor_step_inverse e s t l1 l2 Hl) as [Hr Hlf].
  rewrite <- He in Hr, Hlf.
  pose proof (node_ahead_linked e s l1 (t :: l2) Hl Hc) as Hah. cbn [head] in Hah.
  destruct (linked_child _ _ _ _ _ Hl) as (tn' & Ht' & _ & Htp & Hpv & _).
  rewrite Ht in Ht'. injection Ht' as <-.
  pose proof Hl as (sn & Hs & Hst & _).
  set (behind := with_cursor (mk_cursor (Some s) (Some t)) e) in *.
  destruct Hkind as [[Hf Hla]|(fs & fsn & Hf & Hfs & Hft & Hfp)].
  - (* a node without slots: the cursor steps over it and back *)
    assert (cursor_enter_right e = Some (false, e)) as Her.
    { unfold cursor_enter_right. erewrite bind_eq by exact Hah. cbn beta iota.
      erewrite bind_eq by (by apply load_eq). by rewrite Hf. }
    assert (cursor_enter_left e = Some (false, e)) as Hel.
    { unfold cursor_enter_left. erewrite bind_eq by exact Hah. cbn beta iota.
      erewrite bind_eq by (by apply load_eq). by rewrite Hla. }
    assert (key_right e = Some ((), behind)) as Hkr.
    { unfold key_right. erewrite bind_eq by exact Her. cbn beta iota.
      by erewrite bind_eq by exact Hr. }
    assert (key_left behind = Some ((), e)) as Hkl.
    { unfold key_left. erewrite bind_eq by exact Hlf. cbn beta iota.
      unfold ignore. by erewrite bind_eq by exact Hel. }
    unfold exec. erewrite bind_eq by exact Hkr. by rewrite Hkl.
  - (* a container: the cursor enters its first slot and leaves it again *)
    set (inside := with_cursor (mk_cursor (Some fs) NULL) e).
    assert (key_right e = Some ((), inside)) as Hkr.
    { assert (cursor_enter_right e = Some (true, inside)) as Her.
      { unfold cursor_enter_right. erewrite bind_eq by exact Hah. cbn beta iota.
        erewrite bind_eq by (by apply load_eq). rewrite Hf.
        by rewrite (enter_slot_sequence e fs fsn false Hfs Hft). }
      unfold key_right. by erewrite bind_eq by exact Her. }
    assert (key_left inside = Some ((), e)) as Hkl.
    { assert (cursor_left inside = Some (false, inside)) as Hcl by done.
      unfold key_left. erewrite bind_eq by exact Hcl.
      cbn beta iota. unfold ignore, cursor_exit_left.
      rewrite (bind_eq _ _ _ _ _
                 (exit_container_parent inside fs fsn t tn s sn true
                    eq_refl Hfs Hfp Ht Htp Hs Hst)).
      cbn. rewrite Hpv. unfold mret, M_ret. do 2 f_equal.
      rewrite <- Hc. by destruct e. }
    unfold exec. erewrite bind_eq by exact Hkr. by rewrite Hkl.
Qed.

(** The key left followed by the key right brings the cursor back: over a
    node with no slot the cursor steps left and back, and behind a container
    it enters the last slot at its end and leaves it again to the right. *)
Theorem key_left_then_key_right (e : math_expr2_t) (s t : nat) (l1 l2 : list nat)
    (tn : expr_node) :
  linked (nodes e) s (l1 ++ t :: l2) →
  nodes e !! t = Some tn →
  (get_first_slot tn = NULL ∧ get_last_slot tn = NULL) ∨
  (∃ ls lsn content, get_last_slot tn = Some ls ∧ nodes e !! ls = Some lsn ∧
                     parent lsn = Some t ∧ linked (nodes e) ls content) →
  cursor e = mk_cursor (Some s) (Some t) →
  exec (key_left;; key_right) e = Some e.
Proof.
  intros Hl Ht Hkind Hc.
  assert (e = with_cursor (mk_cursor (Some s) (Some t)) e) as He.
  { rewrite <- Hc. by destruct e. }
  destruct (cursor_step_inverse e s t l1 l2 Hl) as [Hr Hlf].
  rewrite <- He in Hr, Hlf.
  set (before := with_cursor (mk_cursor (Some s) (last l1)) e) in *.
  assert (node_ahead before = Some (Some t, before)) as Hah.
  { by apply (node_ahead_linked before s l1 (t :: l2)). }
  destruct (linked_child _ _ _ _ _ Hl) as (tn' & Ht' & _ & Htp & Hpv & _).
  rewrite Ht in Ht'. injection Ht' as <-.
  pose proof Hl as (sn & Hs & Hst & _).
  destruct Hkind as [[Hf Hla]|(ls & lsn & content & Hla & Hls & Hlp & Hll)].
  - assert (cursor_enter_right before = Some (false, before)) as Her.
    { unfold cursor_enter_right. erewrite bind_eq by exact Hah. cbn beta iota.
      erewrite (bind_eq (load t)) by (by apply load_eq). by rewrite Hf. }
    assert (cursor_enter_left before = Some (false, before)) as Hel.
    { unfold cursor_enter_left. erewrite bind_eq by exact Hah. cbn beta iota.
      erewrite (bind_eq (load t)) by (by apply load_eq). by rewrite Hla. }
    assert (key_left e = Some ((), before)) as Hkl.
    { unfold key_left. erewrite bind_eq by exact Hlf. cbn beta iota.
      unfold ignore. by erewrite bind_eq by exact Hel. }
    assert (key_right before = Some ((), e)) as Hkr.
    { unfold key_right. erewrite bind_eq by exact Her. cbn beta iota.
      by erewrite bind_eq by exact Hr. }
    unfold exec. erewrite bind_eq by exact Hkl. by rewrite Hkr.
  - (* a container: the cursor goes to the end of its last slot, and from
       there back behind the container *)
    pose proof Hll as (lsn' & Hls' & Hlt & _ & Hlast & _).
    rewrite Hls in Hls'. injection Hls' as <-.
    set (inside := with_cursor (mk_cursor (Some ls) (last content)) e).
    assert (key_left e = Some ((), inside)) as Hkl.
    { assert (cursor_enter_left before = Some (true, inside)) as Hel.
      { unfold cursor_enter_left. erewrite bind_eq by exact Hah. cbn beta iota.
        erewrite (bind_eq (load t)) by (by apply load_eq). rewrite Hla.
        rewrite (enter_slot_sequence before ls lsn true Hls Hlt).
        by rewrite Hlast. }
      unfold key_left. erewrite bind_eq by exact Hlf. cbn beta iota.
      unfold ignore. by erewrite bind_eq by exact Hel. }
    assert (node_ahead inside = Some (NULL, inside)) as Hend.
    { apply (node_ahead_linked inside ls content []); [|done].
      by rewrite app_nil_r. }
    assert (key_right inside = Some ((), e)) as Hkr.
    { assert (cursor_enter_right inside = Some (false, inside)) as Her.
      { unfold cursor_enter_right. by erewrite bind_eq by exact Hend. }
      assert (cursor_right inside = Some (false, inside)) as Hcr.
      { unfold cursor_right. by erewrite bind_eq by exact Hend. }
      unfold key_right. erewrite bind_eq by exact Her. cbn beta iota.
      erewrite bind_eq by exact Hcr. cbn beta iota.
      unfold ignore, cursor_exit_right.
      rewrite (bind_eq _ _ _ _ _
                 (exit_container_parent inside ls lsn t tn s sn false
                    eq_refl Hls Hlp Ht Htp Hs Hst)).
      cbn. unfold mret, M_ret. do 2 f_equal. rewrite <- Hc. by destruct e. }
    unfold exec. erewrite bind_eq by exact Hkl. by rewrite Hkr.
Qed.

Lemma rewritten_imap f ns ns' : rewritten f ns ns' → ns' = imap f ns.
Proof. intros H. apply list_eq. intros i. by rewrite list_lookup_imap. Qed.

Lemma free_slots_imap f ns :
  (∀ i n, type (f i n) = type n) → free_slots (imap f ns) = free_slots ns.
Proof.
  unfold free_slots. revert f. induction ns as [|n ns IH]; intros f Hf; [done|].
  cbn -[filter]. rewrite !filter_cons, Hf.
  destruct (decide _); cbn -[filter]; rewrite IH; try done;
    intros i m; apply Hf.
Qed.

Lemma free_slots_rewritten f ns ns' :
  rewritten f ns ns' → (∀ i n, type (f i n) = type n) →
  free_slots ns' = free_slots ns.
Proof. intros ->%rewritten_imap Hf. by apply free_slots_imap. Qed.

Lemma free_slots_release ns i n :
  ns !! i = Some n → type n ≠ NODE_EMPTY →
  free_slots (alter (set_type NODE_EMPTY) i ns) = S (free_slots ns).
Proof.
  unfold free_slots. revert i. induction ns as [|m ns IH]; intros i Hn Hne; [done|].
  destruct i as [|i]; cbn -[filter] in *.
  - simplify_eq. rewrite filter_cons_True by done.
    by rewrite (filter_cons_False _ n) by done.
  - rewrite !filter_cons. destruct (decide _); cbn -[filter]; by rewrite (IH i).
Qed.

(** [math2_insert_text] with room in the pool, step by step: the slot [x] it
    takes, the pool before the node is linked and the pool after. *)
Lemma insert_text_steps subtype text e s l1 l2 :
  1 ≤ free_slots (nodes e) → length (nodes e) ≤ MAX_NODES →
  cursor e = mk_cursor (Some s) (last l1) →
  linked (nodes e) s (l1 ++ l2) →
  wp (math2_insert_text subtype text)
    (λ _ e', ∃ x ns,
       slot_empty (nodes e) x ∧ x ∉ s :: l1 ++ l2 ∧
       ns = <[x := mk_node NODE_TEXT NULL NULL NULL
                     (DText subtype (strncpy 15 text))]> (nodes e) ∧
       rewritten (after_insert s x (last l1) (head l2)) ns (nodes e') ∧
       linked ns s (l1 ++ l2) ∧
       linked (nodes e') s (l1 ++ x :: l2) ∧
       cursor e' = mk_cursor (Some s) (Some x) ∧
       shift_mode e' = false ∧ alpha_mode e' = false ∧ root e' = root e ∧
       latex e' = latex e) e.
Proof.
  intros Hfree Hlen Hcur Hl. pose proof (grown_refl e) as Hg0.
  unfold math2_insert_text.
  apply wp_bind. eapply wp_alloc_room; [done|exact Hg0|lia|done|].
  intros x e1 Hg1 Hx0 _ Hn1. cbn beta iota.
  apply wp_bind. eapply wp_store_room; [done|exact Hg1|exact Hx0|].
  intros e2 Hg2 Hn2. cbn beta.
  apply wp_bind. eapply wp_store_room; [done|exact Hg2|exact Hx0|].
  intros e3 Hg3 Hn3. cbn beta.
  set (Xn := mk_node NODE_TEXT NULL NULL NULL (DText subtype (strncpy 15 text))).
  assert (nodes e3 = <[x := Xn]> (nodes e)) as Hn.
  { rewrite Hn3, Hn2, Hn1, list_insert_alter. apply list_eq. intros i.
    rewrite !list_lookup_alter. case_decide as Hxi; [subst i|done].
    rewrite !decide_True by done. destruct (nodes e !! x); [|done]. reflexivity. }
  destruct Hg3 as [(Hc3 & Hr3 & Hlx3 & _ & _ & _ & Hlive3) _].
  assert (x ∉ s :: l1 ++ l2) as Hxl.
  { intros Hi. destruct Hx0 as (n0 & Hn0 & He0).
    apply elem_of_cons in Hi as [->|Hi].
    - destruct Hl as (sn & Hs & Ht & _). congruence.
    - destruct (linked_elem_node _ _ _ _ Hl Hi) as (n & ? & ? & _). congruence. }
  assert (linked (nodes e3) s (l1 ++ l2)) as Hl3.
  { eapply linked_same; [exact Hl|]. intros i Hi. rewrite Hn.
    apply list_lookup_insert_ne. by intros ->. }
  assert (nodes e3 !! x = Some Xn) as Hx3.
  { rewrite Hn. apply list_lookup_insert_eq. destruct Hx0 as (n0 & Hn0 & _).
    by eapply lookup_lt_Some. }
  apply wp_bind, wp_gets. rewrite Hc3, Hcur. cbn [sequence after].
  apply wp_bind. eapply wp_mono.
  { by eapply (wp_insert_linked e3 s l1 l2 x Xn). }
  cbn beta. intros _ e4 (He4 & Hrw & Hl4).
  apply wp_bind, wp_modify. unfold math2_clear_modes.
  apply wp_bind, wp_modify. apply wp_modify.
  exists x, (nodes e3). rewrite He4. cbn.
  rewrite Hc3, Hcur, Hr3, Hlx3, <- Hn. done.
Qed.

(** With a free slot, [math2_insert_text] makes a text node of the given
    subtype with the text cut to 15 characters, links it at the cursor,
    leaves the cursor behind it, clears both modes and takes one slot; the
    live nodes keep their types and, the sequence apart, their payloads. *)
Theorem math2_insert_text_at_cursor (subtype : text_type_t) (text : string)
    (e : math_expr2_t) (s : nat) (l1 l2 : list nat) :
  1 ≤ free_slots (nodes e) → length (nodes e) ≤ MAX_NODES →
  cursor e = mk_cursor (Some s) (last l1) →
  linked (nodes e) s (l1 ++ l2) →
  ∃ e' x xn,
    exec (math2_insert_text subtype text) e = Some e' ∧
    slot_empty (nodes e) x ∧
    nodes e' !! x = Some xn ∧ type xn = NODE_TEXT ∧
    text_subtype xn = subtype ∧ text_text xn = substring 0 15 text ∧
    linked (nodes e') s (l1 ++ x :: l2) ∧
    cursor e' = mk_cursor (Some s) (Some x) ∧
    shift_mode e' = false ∧ alpha_mode e' = false ∧ root e' = root e ∧
    free_slots (nodes e') + 1 = free_slots (nodes e) ∧
    (∀ i n, nodes e !! i = Some n → type n ≠ NODE_EMPTY →
       ∃ n', nodes e' !! i = Some n' ∧ type n' = type n ∧
             (i ≠ s → data n' = data n)).
Proof.
  intros Hfree Hlen Hcur Hl.
  destruct (wp_exec _ _ _ (insert_text_steps subtype text e s l1 l2 Hfree Hlen Hcur Hl))
    as ([] & e' & Hrun & _ & x & ns & Hx0 & Hxl & Hns & Hrw & Hl3 & Hl4 & Hc & Hsm
        & Ham & Hr & _).
  set (Xn := mk_node NODE_TEXT NULL NULL NULL (DText subtype (strncpy 15 text))) in *.
  pose proof Hx0 as (n0 & Hn0 & He0).
  assert (ns !! x = Some Xn) as Hx.
  { rewrite Hns. apply list_lookup_insert_eq. by eapply lookup_lt_Some. }
  assert (x ≠ s) as Hxs by (intros ->; apply Hxl; left).
  destruct (after_insert_kind s x (last l1) (head l2) x Xn) as [Hk1 Hk2].
  specialize (Hk2 Hxs).
  exists e', x, (after_insert s x (last l1) (head l2) x Xn).
  split; [done|]. split; [done|].
  split; [by apply (rewritten_lookup _ _ _ _ _ Hrw)|].
  split; [by rewrite Hk1|].
  split; [unfold text_subtype; by rewrite Hk2|].
  split; [unfold text_text; by rewrite Hk2|].
  repeat (split; [done|]).
  split.
  - rewrite (free_slots_rewritten _ _ _ Hrw) by (intros; apply after_insert_kind).
    rewrite Hns. pose proof (free_slots_insert (nodes e) x n0 Xn Hn0 He0 ltac:(done)). lia.
  - intros i n Hi Hlive.
    assert (i ≠ x) as Hix by (intros ->; congruence).
    assert (ns !! i = Some n) as Hi'.
    { rewrite Hns. by rewrite list_lookup_insert_ne. }
    exists (after_insert s x (last l1) (head l2) i n).
    split; [by apply (rewritten_lookup _ _ _ _ _ Hrw)|]. apply after_insert_kind.
Qed.

(** [math2_delete] with a text node before the cursor, step by step. *)
Lemma delete_text_steps e s a l1 l2 an :
  cursor e = mk_cursor (Some s) (Some a) →
  linked (nodes e) s (l1 ++ a :: l2) →
  nodes e !! a = Some an → type an = NODE_TEXT →
  wp math2_delete
    (λ _ e', ∃ ns,
       rewritten (after_remove s a (last l1) (head l2)) (nodes e) ns ∧
       linked ns s (l1 ++ l2) ∧
       nodes e' = alter (set_type NODE_EMPTY) a ns ∧
       e' = with_cursor (mk_cursor (Some s) (last l1)) (with_nodes (nodes e') e)) e.
Proof.
  intros Hc Hl Ha Hat.
  destruct (linked_child _ _ _ _ _ Hl) as (an' & Ha' & _ & _ & Hpv & _).
  rewrite Ha in Ha'. injection Ha' as <-.
  unfold math2_delete. apply wp_bind, wp_gets. rewrite Hc. cbn [after].
  apply wp_bind. eapply wp_load; [exact Ha|]. cbn beta.
  apply wp_bind, wp_modify. rewrite Hpv.
  apply wp_bind. eapply wp_mono.
  { apply (wp_remove_linked _ s l1 a l2). exact Hl. }
  cbn beta. intros _ e5 (He5 & Hrw & Hl5).
  cbn [nodes with_cursor_after with_cursor] in Hrw.
  pose proof (rewritten_lookup _ _ _ _ _ Hrw Ha) as Ha5.
  assert (type (after_remove s a (last l1) (head l2) a an) = NODE_TEXT) as Ht5.
  { by rewrite (proj1 (after_remove_kind s a (last l1) (head l2) a an)). }
  assert (free_fuel = S (2 * MAX_NODES + 1)) as -> by reflexivity.
  generalize (2 * MAX_NODES + 1). intros k. cbn [math2_free_node].
  apply wp_bind. eapply wp_load; [exact Ha5|]. cbn beta.
  rewrite decide_False by (by rewrite Ht5). rewrite Ht5.
  apply wp_bind, wp_ret. eapply wp_store; [exact Ha5|].
  exists (nodes e5). split; [done|]. split; [done|]. split; [done|].
  rewrite He5. unfold with_nodes, with_cursor_after, with_cursor. cbn. by rewrite Hc.
Qed.

Lemma free_slots_types ns ns' :
  (∀ i, type <$> ns' !! i = type <$> ns !! i) → free_slots ns' = free_slots ns.
Proof.
  unfold free_slots. revert ns'. induction ns as [|n ns IH]; intros ns' H.
  - destruct ns' as [|n' ns']; [done|]. by specialize (H 0).
  - destruct ns' as [|n' ns']; [by specialize (H 0)|].
    pose proof (H 0) as H0. cbn in H0. injection H0 as H0.
    rewrite !filter_cons, H0. specialize (IH ns' (λ i, H (S i))).
    destruct (decide _); cbn -[filter]; by rewrite IH.
Qed.

Lemma same_live_expression e e' :
  root e' = root e →
  (∀ i n, nodes e !! i = Some n → type n ≠ NODE_EMPTY → nodes e' !! i = Some n) →
  (∀ i n, nodes e' !! i = Some n → type n ≠ NODE_EMPTY → nodes e !! i = Some n) →
  expression e' = expression e.
Proof.
  intros Hr H1 H2. unfold expression. rewrite Hr.
  destruct (slot_of render_fuel (nodes e) (root e)) as [t|] eqn:E1.
  - by apply (view_kept _ _ H1).
  - destruct (slot_of render_fuel (nodes e') (root e)) as [t|] eqn:E2; [|done].
    apply (view_kept _ _ H2) in E2. congruence.
Qed.

(** [math2_delete] undoes [math2_insert_text]: after the two the pool is as
    before but for the released slot, which is empty before and after, the
    cursor and the expression are the same and no slot is lost. *)
Theorem math2_insert_text_then_delete (subtype : text_type_t) (text : string)
    (e : math_expr2_t) (s : nat) (sn : expr_node) (l1 l2 : list nat) :
  1 ≤ free_slots (nodes e) → length (nodes e) ≤ MAX_NODES →
  cursor e = mk_cursor (Some s) (last l1) →
  linked (nodes e) s (l1 ++ l2) →
  nodes e !! s = Some sn → seq_member sn →
  ∃ e' x,
    exec (math2_insert_text subtype text;; math2_delete) e = Some e' ∧
    slot_empty (nodes e) x ∧ slot_empty (nodes e') x ∧
    (∀ i, i ≠ x → nodes e' !! i = nodes e !! i) ∧
    cursor e' = cursor e ∧ root e' = root e ∧ latex e' = latex e ∧
    shift_mode e' = false ∧ alpha_mode e' = false ∧
    free_slots (nodes e') = free_slots (nodes e) ∧
    expression e' = expression e.
Proof.
  intros Hfree Hlen Hcur Hl Hs Hmem.
  assert (wp (math2_insert_text subtype text;; math2_delete)
            (λ _ e', ∃ x,
               slot_empty (nodes e) x ∧ slot_empty (nodes e') x ∧
               (∀ i, i ≠ x → nodes e' !! i = nodes e !! i) ∧
               cursor e' = cursor e ∧ root e' = root e ∧ latex e' = latex e ∧
               shift_mode e' = false ∧ alpha_mode e' = false) e) as Hwp.
  { apply wp_bind. eapply wp_mono; [by apply insert_text_steps|].
    cbn beta. intros _ e4 (x & ns & Hx0 & Hxl & Hns & Hrw4 & Hl3 & Hl4 & Hc4 & Hsm
                           & Ham & Hr4 & Hlx4).
    set (Xn := mk_node NODE_TEXT NULL NULL NULL (DText subtype (strncpy 15 text))) in *.
    pose proof Hx0 as (n0 & Hn0 & He0).
    assert (ns !! x = Some Xn) as Hx.
    { rewrite Hns. apply list_lookup_insert_eq. by eapply lookup_lt_Some. }
    pose proof (rewritten_lookup _ _ _ _ _ Hrw4 Hx) as Hx4.
    eapply wp_mono.
    { eapply (delete_text_steps e4 s x l1 l2); [done|done|exact Hx4|].
      by rewrite (proj1 (after_insert_kind s x (last l1) (head l2) x Xn)). }
    cbn beta. intros _ e' (ns5 & Hrw5 & Hl5 & Hn' & He').
    exists x. split; [done|].
    pose proof (rewritten_lookup _ _ _ _ _ Hrw5 Hx4) as Hx5.
    split.
    { eexists. split; [rewrite Hn', list_lookup_alter_eq, Hx5; reflexivity|done]. }
    split.
    { intros i Hix. rewrite Hn', list_lookup_alter_ne by done.
      rewrite Hrw5, Hrw4.
      assert (ns !! i = nodes e !! i) as Hi.
      { rewrite Hns. by apply list_lookup_insert_ne. }
      rewrite Hi. destruct (nodes e !! i) as [n|] eqn:Hn; [|done]. cbn. f_equal.
      apply (insert_remove_cancel ns s x l1 l2 i n Hl3 Hxl); [by rewrite Hi|done|].
      intros ->. rewrite Hs in Hn. by injection Hn as <-. }
    rewrite He'. cbn. by rewrite Hcur. }
  destruct (wp_exec _ _ _ Hwp)
    as ([] & e' & Hrun & _ & x & Hx0 & Hx' & Hsame & Hc & Hr & Hlx & Hsm & Ham).
  exists e', x. repeat (split; [done|]).
  pose proof Hx0 as (n0 & Hn0 & He0). pose proof Hx' as (n1 & Hn1 & He1).
  split.
  - apply free_slots_types. intros i. destruct (decide (i = x)) as [->|Hix].
    + rewrite Hn0, Hn1. cbn. congruence.
    + by rewrite Hsame.
  - apply same_live_expression; [done| |].
    + intros i n Hi Hlive. rewrite Hsame; [done|]. intros ->. congruence.
    + intros i n Hi Hlive. rewrite <- Hsame; [done|]. intros ->. congruence.
Qed.

(** With nothing before the cursor [math2_delete] deletes nothing: it only
    moves the cursor; at the root the state is unchanged, and inside a
    container the cursor comes to stand behind the container. *)
Theorem math2_delete_at_start (e : math_expr2_t) :
  after (cursor e) = NULL →
  (pointers_in_pool e = true →
     ∃ c, exec math2_delete e = Some (with_cursor c e)) ∧
  (at_root e → exec math2_delete e = Some e) ∧
  (∀ q qn t tn s sn,
     sequence (cursor e) = Some q →
     nodes e !! q = Some qn → parent qn = Some t →
     nodes e !! t = Some tn → parent tn = Some s →
     nodes e !! s = Some sn → type sn = NODE_SEQUENCE →
     exec math2_delete e = Some (with_cursor (mk_cursor (Some s) (Some t)) e)).
Proof.
  intros Ha. unfold exec, math2_delete.
  rewrite (bind_eq _ _ e (cursor e) e) by done. rewrite Ha.
  unfold NULL. cbn beta iota. repeat split.
  - intros Hp. destruct (cursor_op_defined CursorExit e Hp) as (b & e' & Hrun & c & ->).
    exists c. cbn [run_cursor_op] in Hrun. by erewrite bind_eq by exact Hrun.
  - intros (r & rn & Hs & _ & Hr & Hpar).
    assert (cursor_exit e = Some (false, e)) as Hrun.
    { unfold cursor_exit, exit_container.
      rewrite (bind_eq _ _ e (cursor e) e) by done. rewrite Hs. cbn [deref].
      erewrite bind_eq by (by apply load_eq). by rewrite Hpar. }
    by erewrite bind_eq by exact Hrun.
  - intros q qn t tn s sn Hq Hqn Hqp Ht Htp Hs Hst.
    erewrite bind_eq
      by exact (exit_container_parent e q qn t tn s sn false Hq Hqn Hqp Ht Htp Hs Hst).
    done.
Qed.

(** A node taken with [math2_alloc_node] and given back with
    [math2_free_node] leaves every other slot as it was and the number of
    free slots unchanged; only the round-robin index has moved on. *)
Theorem math2_alloc_then_free (t : node_type_t) (fuel : nat) (e : math_expr2_t) :
  0 < free_slots (nodes e) → length (nodes e) ≤ MAX_NODES →
  ∃ x e1 e2,
    math2_alloc_node t e = Some (Some x, e1) ∧
    math2_free_node (S (S fuel)) (Some x) e1 = Some ((), e2) ∧
    slot_empty (nodes e) x ∧ slot_empty (nodes e2) x ∧
    (∀ i, i ≠ x → nodes e2 !! i = nodes e !! i) ∧
    free_slots (nodes e2) = free_slots (nodes e) ∧
    e2 = with_next_free ((x + 1) mod MAX_NODES) (with_nodes (nodes e2) e).
Proof.
  intros Hfree Hlen.
  destruct (alloc_outcome t e)
    as [(i & x & _ & _ & Hemp & _ & _ & Hrun)|[Hnone _]].
  2:{ exfalso. rewrite free_slots_none in Hfree; [lia|].
      intros i Hi. apply (Hnone i); [|done]. destruct Hi as (n & Hn & _).
      apply lookup_lt_Some in Hn. lia. }
  pose proof Hemp as (n0 & Hn0 & He0).
  set (e1 := with_next_free ((x + 1) mod MAX_NODES)
               (with_nodes (<[x := fresh_node t]> (nodes e)) e)) in *.
  assert (nodes e1 !! x = Some (fresh_node t)) as Hx1.
  { cbn. apply list_lookup_insert_eq. by eapply lookup_lt_Some. }
  assert (∃ e2, math2_free_node (S (S fuel)) (Some x) e1 = Some ((), e2) ∧
                slot_empty (nodes e2) x ∧
                (∀ i, i ≠ x → nodes e2 !! i = nodes e !! i) ∧
                e2 = with_next_free ((x + 1) mod MAX_NODES) (with_nodes (nodes e2) e))
    as (e2 & Hfr & Hx2 & Hsame & He2).
  { destruct (decide (t = NODE_EMPTY)) as [->|Hne].
    - exists e1. split; [apply math2_free_node_released; by eexists|].
      split; [by eexists|]. split; [|done].
      intros j Hj. cbn. by apply list_lookup_insert_ne.
    - exists (with_nodes (alter (set_type NODE_EMPTY) x (nodes e1)) e1).
      split.
      + cbn [math2_free_node free_children]. rewrite (bind_eq _ _ _ _ _ (load_eq _ _ _ Hx1)).
        rewrite decide_False by done.
        destruct t; try done; cbn [type fresh_node];
          unfold mbind, M_bind, mret, M_ret, load, store; cbn -[e1]; rewrite ?Hx1;
          cbn -[e1]; rewrite ?Hx1; cbn -[e1]; rewrite ?Hx1; cbn -[e1];
          reflexivity.
      + split; [|split; [|done]].
        * eexists. split; [cbn [nodes with_nodes]; rewrite list_lookup_alter_eq, Hx1;
                           reflexivity|done].
        * intros j Hj. cbn [nodes with_nodes]. rewrite list_lookup_alter_ne by done.
          cbn. by apply list_lookup_insert_ne. }
  exists x, e1, e2. repeat (split; [done|]). split; [|done].
  destruct Hx2 as (n2 & Hn2 & Hne2).
  apply free_slots_types. intros j. destruct (decide (j = x)) as [->|Hjx].
  - rewrite Hn0, Hn2. cbn. congruence.
  - by rewrite Hsame.
Qed.

(** [math2_new_sequence] with a free slot gives a sequence with no parent and
    no child, for which [seq_is_empty] holds, and writes no other slot;
    with no free slot it returns [NULL] and changes nothing. *)
Theorem math2_new_sequence_empty (e : math_expr2_t) :
  (0 < free_slots (nodes e) → length (nodes e) ≤ MAX_NODES →
   ∃ x e',
     math2_new_sequence e = Some (Some x, e') ∧
     slot_empty (nodes e) x ∧
     nodes e' !! x = Some (mk_node NODE_SEQUENCE NULL NULL NULL (DSeq NULL NULL)) ∧
     linked (nodes e') x [] ∧
     seq_is_empty (Some x) e' = Some (true, e') ∧
     (∀ i, i ≠ x → nodes e' !! i = nodes e !! i) ∧
     free_slots (nodes e') + 1 = free_slots (nodes e)) ∧
  (free_slots (nodes e) = 0 → math2_new_sequence e = Some (NULL, e)).
Proof.
  split.
  - intros Hfree Hlen.
    assert (wp math2_new_sequence
              (λ r e', ∃ x, r = Some x ∧ slot_empty (nodes e) x ∧
                 nodes e' = <[x := fresh_node NODE_SEQUENCE]> (nodes e) ∧
                 free_slots (nodes e') + 1 = free_slots (nodes e)) e)
      as (r & e' & Hrun & x & -> & Hx & Hn & Hf).
    { eapply wp_new_sequence_room; [apply grown_refl|lia|done|].
      intros x e1 [_ Hg] Hx _ Hn. exists x. rewrite list_insert_alter. done. }
    pose proof Hx as (n0 & Hn0 & _).
    assert (nodes e' !! x = Some (fresh_node NODE_SEQUENCE)) as Hx'.
    { rewrite Hn. apply list_lookup_insert_eq. by eapply lookup_lt_Some. }
    exists x, e'. split; [done|]. split; [done|]. split; [done|].
    assert (linked (nodes e') x []) as Hl by (by eapply linked_empty).
    split; [done|]. split.
    { unfold seq_is_empty. by rewrite (bind_eq _ _ _ _ _ (load_eq _ _ _ Hx')). }
    split; [|done]. intros i Hi. rewrite Hn. by apply list_lookup_insert_ne.
  - intros Hfull. unfold math2_new_sequence.
    destruct (alloc_outcome NODE_SEQUENCE e)
      as [(i & x & _ & _ & Hemp & _)|[_ Hrun]].
    + apply free_slots_positive in Hemp. lia.
    + by rewrite (bind_eq _ _ _ _ _ Hrun).
Qed.

(** [math2_toggle_shift] flips the shift mode and clears the alpha mode,
    [math2_toggle_alpha] flips the alpha mode and clears the shift mode; so
    the two modes are never both set by a toggle, and toggling one mode twice
    restores a state in which the other is off. *)
Theorem mode_toggles (e : math_expr2_t) :
  (∃ e', exec math2_toggle_shift e = Some e' ∧
         shift_mode e' = negb (shift_mode e) ∧ alpha_mode e' = false ∧
         e' = with_alpha_mode false (with_shift_mode (shift_mode e') e)) ∧
  (∃ e', exec math2_toggle_alpha e = Some e' ∧
         alpha_mode e' = negb (alpha_mode e) ∧ shift_mode e' = false ∧
         e' = with_shift_mode false (with_alpha_mode (alpha_mode e') e)) ∧
  (alpha_mode e = false → exec (math2_toggle_shift;; math2_toggle_shift) e = Some e) ∧
  (shift_mode e = false → exec (math2_toggle_alpha;; math2_toggle_alpha) e = Some e) ∧
  (∃ e', exec (math2_toggle_shift;; math2_toggle_alpha) e = Some e' ∧
         alpha_mode e' = true ∧ shift_mode e' = false) ∧
  (∃ e', exec (math2_toggle_alpha;; math2_toggle_shift) e = Some e' ∧
         shift_mode e' = true ∧ alpha_mode e' = false).
Proof.
  destruct e as [ns nf r c lx sm am]. repeat split.
  - eexists. repeat split; reflexivity.
  - eexists. repeat split; reflexivity.
  - cbn. intros ->. by destruct sm.
  - cbn. intros ->. by destruct am.
  - eexists. repeat split; reflexivity.
  - eexists. repeat split; reflexivity.
Qed.

(** The end every container insertion shares: the node is linked at the
    cursor, and the cursor goes to the start of the slot [slot] names. *)
Lemma insert_tail (slot : expr_node → ptr) e em s x l1 l2 Xn cs :
  (∀ n n', data n' = data n → slot n' = slot n) →
  built e x Xn cs em →
  cursor e = mk_cursor (Some s) (last l1) →
  linked (nodes e) s (l1 ++ l2) →
  wp (c ← gets cursor;
      seq_insert_after (sequence c) (after c) (Some x);;
      xn ← load x;
      modify (with_cursor_sequence (slot xn));;
      modify (with_cursor_after NULL);;
      math2_clear_modes)
     (λ _ e',
        ∃ xn,
          nodes e' !! x = Some xn ∧ type xn = type Xn ∧ data xn = data Xn ∧
          linked (nodes e') s (l1 ++ x :: l2) ∧
          (∀ c, c ∈ cs →
                linked (nodes e') c [] ∧
                ∃ cn, nodes e' !! c = Some cn ∧ parent cn = Some x) ∧
          cursor e' = mk_cursor (slot Xn) NULL ∧
          shift_mode e' = false ∧ alpha_mode e' = false ∧ root e' = root e ∧
          free_slots (nodes e') + S (length cs) = free_slots (nodes e) ∧
          (∀ i n, nodes e !! i = Some n → type n ≠ NODE_EMPTY →
             ∃ n', nodes e' !! i = Some n' ∧ type n' = type n ∧
                   (i ≠ s → data n' = data n))) em.
Proof.
  intros Hslot (Hc & Hr & Hnd & Hemp & Hx & Hxt & Hcs & Hold & Hfree) Hcur Hl.
  assert (∀ i, i ∈ s :: l1 ++ l2 → i ∉ x :: cs) as Hfresh.
  { intros i Hi Hin. destruct (Hemp i Hin) as (n0 & Hn0 & He0).
    apply elem_of_cons in Hi as [->|Hi].
    - destruct Hl as (sn & Hs & Ht & _). congruence.
    - destruct (linked_elem_node _ _ _ _ Hl Hi) as (n & ? & ? & _). congruence. }
  assert (linked (nodes em) s (l1 ++ l2)) as Hlm.
  { eapply linked_same; [exact Hl|]. intros i Hi. apply Hold. by apply Hfresh. }
  assert (x ∉ s :: l1 ++ l2) as Hxl.
  { intros Hi. apply (Hfresh x Hi). left. }
  assert (x ≠ s) as Hxs by (intros ->; apply Hxl; left).
  apply wp_bind, wp_gets. rewrite Hc, Hcur. cbn [sequence after].
  apply wp_bind. eapply wp_mono.
  { by eapply (wp_insert_linked em s l1 l2 x Xn). }
  cbn beta. intros _ e4 (He4 & Hrw & Hl4).
  pose proof (rewritten_lookup _ _ _ _ _ Hrw Hx) as Hx4.
  destruct (after_insert_kind s x (last l1) (head l2) x Xn) as [Hk1 Hk2].
  specialize (Hk2 Hxs).
  apply wp_bind. eapply wp_load; [exact Hx4|]. cbn beta.
  rewrite (Hslot _ _ Hk2).
  apply wp_bind, wp_modify. apply wp_bind, wp_modify.
  unfold math2_clear_modes. apply wp_bind, wp_modify. apply wp_modify.
  exists (after_insert s x (last l1) (head l2) x Xn). rewrite He4. cbn.
  split; [done|]. split; [done|]. split; [done|]. split; [done|].
  assert (∀ c, c ∈ cs → c ∉ x :: s :: l1 ++ l2) as Hcl.
  { intros c Hc' Hin. apply elem_of_cons in Hin as [->|Hin].
    - apply NoDup_cons in Hnd as [Hxc _]. done.
    - apply (Hfresh c Hin). by right. }
  split.
  { intros c Hc'.
    assert (nodes e4 !! c =
            Some (mk_node NODE_SEQUENCE (Some x) NULL NULL (DSeq NULL NULL))) as Hc4.
    { rewrite (rewritten_lookup _ _ _ _ _ Hrw (Hcs c Hc')). f_equal.
      apply after_insert_other. by apply Hcl. }
    split; [by eapply linked_empty|]. eauto. }
  split; [done|]. split; [done|]. split; [done|]. split; [done|].
  split.
  { fold (free_slots (nodes e4)).
    rewrite (free_slots_rewritten _ _ _ Hrw) by (intros; apply after_insert_kind).
    done. }
  intros i n Hi Hlive.
  assert (i ∉ x :: cs) as Hix.
  { intros Hin. destruct (Hemp i Hin) as (n0 & Hn0 & He0). congruence. }
  exists (after_insert s x (last l1) (head l2) i n).
  split; [|apply after_insert_kind].
  apply (rewritten_lookup _ _ _ _ _ Hrw). by rewrite Hold.
Qed.

(** Reading a slot of the pool an insertion has written to, through the
    writes made so far. *)
Ltac read_alters :=
  repeat first [ rewrite list_lookup_alter_eq
               | rewrite list_lookup_alter_ne by done ].

Ltac read_alters_in H :=
  repeat first [ rewrite list_lookup_alter_eq in H
               | rewrite list_lookup_alter_ne in H by done ].

Ltac through_writes :=
  repeat match goal with
         | E : nodes ?ek = alter _ _ _ |- context [nodes ?ek] => rewrite E
         end;
  read_alters.

Ltac through_writes_in H :=
  repeat match goal with
         | E : nodes ?ek = alter _ _ _ |- _ => rewrite E in H
         end;
  read_alters_in H.

(** A slot found free after earlier allocations is none of the slots they
    took. *)
Lemma taken_differs ns c x n :
  slot_empty ns c → ns !! x = Some n → type n ≠ NODE_EMPTY → c ≠ x.
Proof. intros (m & Hm & He) Hx Hne ->. congruence. Qed.

Ltac alloc_node x e1 Hg Hx0 Hx Hn :=
  apply wp_bind; eapply wp_alloc_room; [done|eassumption|lia|done|];
  intros x e1 Hg Hx0 Hx Hn; cbn beta iota.

Ltac alloc_sequence x e1 Hg Hx0 Hx Hn :=
  apply wp_bind; eapply wp_new_sequence_room; [eassumption|lia|done|];
  intros x e1 Hg Hx0 Hx Hn; cbn beta iota.

Ltac store_field Hx0 e1 Hg Hn :=
  apply wp_bind; eapply wp_store_room; [done|eassumption|exact Hx0|];
  intros e1 Hg Hn; cbn beta iota.

(** The slot [c], found free by the allocation that left [Hc], is not a
    slot written before. *)
Ltac differs Hc :=
  let Hm := fresh "Hm" in
  let He := fresh "He" in
  let m := fresh "m" in
  intros ->; destruct Hc as (m & Hm & He); through_writes_in Hm;
  repeat match goal with
         | Hk : ?ns !! ?y = Some _ |- _ => rewrite Hk in Hm
         end;
  cbn in Hm; injection Hm as <-; done.

Ltac read_pool :=
  through_writes;
  repeat match goal with
         | Hk : ?ns !! ?y = Some _ |- _ => rewrite Hk
         end;
  try reflexivity.

Lemma built_of_grown e k em x Xn cs :
  grown e k em → k = S (length cs) →
  NoDup (x :: cs) → (∀ i, i ∈ x :: cs → slot_empty (nodes e) i) →
  nodes em !! x = Some Xn → type Xn ≠ NODE_EMPTY →
  (∀ c, c ∈ cs →
        nodes em !! c = Some (mk_node NODE_SEQUENCE (Some x) NULL NULL (DSeq NULL NULL))) →
  (∀ i, i ∉ x :: cs → nodes em !! i = nodes e !! i) →
  built e x Xn cs em.
Proof.
  intros [(Hc & Hr & _) Hf] -> Hnd Hemp Hx Ht Hcs Hold.
  repeat split; try done.
Qed.

Lemma insert_finish op (slot : expr_node → ptr) e em s x l1 l2 Xn cs :
  (∀ n n', data n' = data n → slot n' = slot n) →
  built e x Xn cs em →
  cursor e = mk_cursor (Some s) (last l1) →
  linked (nodes e) s (l1 ++ l2) →
  type Xn = node_kind op → data_ptrs (data Xn) = map Some cs →
  S (length cs) = allocations op →
  (∀ xn, type xn = type Xn → data xn = data Xn →
         get_first_slot xn = slot Xn ∧ slot Xn = head cs ∧
         insertion_detail op xn) →
  wp (c ← gets cursor;
      seq_insert_after (sequence c) (after c) (Some x);;
      xn ← load x;
      modify (with_cursor_sequence (slot xn));;
      modify (with_cursor_after NULL);;
      math2_clear_modes)
     (λ _ e', inserted op e s l1 l2 e') em.
Proof.
  intros Hslot Hb Hcur Hl Hkind Hptrs Hlen Hdet.
  eapply wp_mono; [by eapply (insert_tail slot e em s x l1 l2 Xn cs)|].
  cbn beta. intros _ e' (xn & Hx & Ht & Hd & Hls & Hcs & Hc & Hsm & Ham & Hr & Hf & Hfr).
  destruct Hb as (_ & _ & Hnd & Hemp & _).
  destruct (Hdet xn Ht Hd) as (Hfs & Hhead & Hdetail).
  exists x, xn, cs.
  split; [apply Hemp; left|]. split; [done|]. split; [congruence|].
  split; [done|]. split; [by rewrite Hd|]. split; [done|]. split; [done|].
  split.
  { intros c Hc'. split; [apply Hemp; by right|]. by apply Hcs. }
  split; [done|]. split; [congruence|]. split; [congruence|].
  repeat (split; [done|]). split; [|done]. by rewrite <- Hlen.
Qed.

Ltac finish_insert op slot Hb :=
  eapply (insert_finish op slot); [|exact Hb|done|done|done|done|done|];
  [ by (intros ? ? Hd; unfold slot; rewrite Hd)
  | by (intros [] ? Hd; cbn in *; subst;
        unfold get_first_slot, slot, insertion_detail, root_index, func_name; cbn) ].

Ltac prove_built Hg :=
  eapply built_of_grown; [exact Hg|done| | | |done| |];
  [ repeat constructor; set_solver
  | intros ? Hi; rewrite !elem_of_cons, elem_of_nil in Hi; naive_solver
  | read_pool
  | intros ? Hi; rewrite !elem_of_cons, elem_of_nil in Hi;
    destruct_or!; simplify_eq; read_pool
  | intros ? Hi; rewrite !not_elem_of_cons in Hi; destruct_and!; read_pool ].

Lemma insert_paren_room e s l1 l2 :
  2 ≤ free_slots (nodes e) → length (nodes e) ≤ MAX_NODES →
  cursor e = mk_cursor (Some s) (last l1) →
  linked (nodes e) s (l1 ++ l2) →
  wp math2_insert_paren (λ _ e', inserted InsertParen e s l1 l2 e') e.
Proof.
  intros Hfree Hlen Hcur Hl. pose proof (grown_refl e) as Hg0.
  unfold math2_insert_paren.
  alloc_node x e1 Hg1 Hx0 Hx1 Hn1.
  alloc_sequence c e2 Hg2 Hc0 Hc1 Hn2.
  store_field Hx0 e3 Hg3 Hn3.
  store_field Hc0 e4 Hg4 Hn4.
  pose proof Hx0 as (nx & Hnx & _). pose proof Hc0 as (nc & Hnc & _).
  assert (c ≠ x) as Hcx by differs Hc1.
  assert (built e x (mk_node NODE_PAREN NULL NULL NULL (DParen (Some c))) [c] e4)
    as Hb by prove_built Hg4.
  finish_insert InsertParen paren_content Hb.
Qed.

Lemma insert_abs_room e s l1 l2 :
  2 ≤ free_slots (nodes e) → length (nodes e) ≤ MAX_NODES →
  cursor e = mk_cursor (Some s) (last l1) →
  linked (nodes e) s (l1 ++ l2) →
  wp math2_insert_abs (λ _ e', inserted InsertAbs e s l1 l2 e') e.
Proof.
  intros Hfree Hlen Hcur Hl. pose proof (grown_refl e) as Hg0.
  unfold math2_insert_abs.
  alloc_node x e1 Hg1 Hx0 Hx1 Hn1.
  alloc_sequence c e2 Hg2 Hc0 Hc1 Hn2.
  store_field Hx0 e3 Hg3 Hn3.
  store_field Hc0 e4 Hg4 Hn4.
  pose proof Hx0 as (nx & Hnx & _). pose proof Hc0 as (nc & Hnc & _).
  assert (c ≠ x) as Hcx by differs Hc1.
  assert (built e x (mk_node NODE_ABS NULL NULL NULL (DAbs (Some c))) [c] e4)
    as Hb by prove_built Hg4.
  finish_insert InsertAbs abs_content Hb.
Qed.

Lemma insert_nthroot_room op n e s l1 l2 :
  op = InsertNthroot n ∨ (op = InsertSqrt ∧ n = 2%Z) →
  2 ≤ free_slots (nodes e) → length (nodes e) ≤ MAX_NODES →
  cursor e = mk_cursor (Some s) (last l1) →
  linked (nodes e) s (l1 ++ l2) →
  wp (math2_insert_nthroot n) (λ _ e', inserted op e s l1 l2 e') e.
Proof.
  intros Hop Hfree Hlen Hcur Hl. pose proof (grown_refl e) as Hg0.
  unfold math2_insert_nthroot.
  alloc_node x e1 Hg1 Hx0 Hx1 Hn1.
  store_field Hx0 e2 Hg2 Hn2.
  alloc_sequence c e3 Hg3 Hc0 Hc1 Hn3.
  store_field Hx0 e4 Hg4 Hn4.
  store_field Hc0 e5 Hg5 Hn5.
  pose proof Hx0 as (nx & Hnx & _). pose proof Hc0 as (nc & Hnc & _).
  assert (c ≠ x) as Hcx by differs Hc1.
  assert (built e x (mk_node NODE_ROOT NULL NULL NULL (DRoot n (Some c))) [c] e5)
    as Hb by prove_built Hg5.
  destruct Hop as [->|[-> ->]].
  - finish_insert (InsertNthroot n) root_content Hb.
  - finish_insert InsertSqrt root_content Hb.
Qed.

Lemma insert_function_room name e s l1 l2 :
  2 ≤ free_slots (nodes e) → length (nodes e) ≤ MAX_NODES →
  cursor e = mk_cursor (Some s) (last l1) →
  linked (nodes e) s (l1 ++ l2) →
  wp (math2_insert_function name)
     (λ _ e', inserted (InsertFunction name) e s l1 l2 e') e.
Proof.
  intros Hfree Hlen Hcur Hl. pose proof (grown_refl e) as Hg0.
  unfold math2_insert_function.
  alloc_node x e1 Hg1 Hx0 Hx1 Hn1.
  store_field Hx0 e2 Hg2 Hn2.
  alloc_sequence c e3 Hg3 Hc0 Hc1 Hn3.
  store_field Hx0 e4 Hg4 Hn4.
  store_field Hc0 e5 Hg5 Hn5.
  pose proof Hx0 as (nx & Hnx & _). pose proof Hc0 as (nc & Hnc & _).
  assert (c ≠ x) as Hcx by differs Hc1.
  assert (built e x (mk_node NODE_FUNCTION NULL NULL NULL
                       (DFunc (strncpy 7 name) (Some c))) [c] e5)
    as Hb by prove_built Hg5.
  finish_insert (InsertFunction name) func_arg Hb.
Qed.

Lemma insert_xthroot_room e s l1 l2 :
  3 ≤ free_slots (nodes e) → length (nodes e) ≤ MAX_NODES →
  cursor e = mk_cursor (Some s) (last l1) →
  linked (nodes e) s (l1 ++ l2) →
  wp math2_insert_xthroot (λ _ e', inserted InsertXthroot e s l1 l2 e') e.
Proof.
  intros Hfree Hlen Hcur Hl. pose proof (grown_refl e) as Hg0.
  unfold math2_insert_xthroot.
  alloc_node x e1 Hg1 Hx0 Hx1 Hn1.
  alloc_sequence ix e2 Hg2 Hi0 Hi1 Hn2.
  store_field Hx0 e3 Hg3 Hn3.
  alloc_sequence ct e4 Hg4 Hc0 Hc1 Hn4.
  store_field Hx0 e5 Hg5 Hn5.
  store_field Hi0 e6 Hg6 Hn6.
  store_field Hc0 e7 Hg7 Hn7.
  pose proof Hx0 as (nx & Hnx & _). pose proof Hi0 as (ni & Hni & _).
  pose proof Hc0 as (nc & Hnc & _).
  assert (ix ≠ x) as Hix by differs Hi1.
  assert (ct ≠ x) as Hcx by differs Hc1.
  assert (ct ≠ ix) as Hci by differs Hc1.
  assert (built e x (mk_node NODE_NTHROOT NULL NULL NULL
                       (DNthroot (Some ix) (Some ct))) [ix; ct] e7)
    as Hb by prove_built Hg7.
  finish_insert InsertXthroot nthroot_index Hb.
Qed.

Lemma insert_mixed_frac_room e s l1 l2 :
  4 ≤ free_slots (nodes e) → length (nodes e) ≤ MAX_NODES →
  cursor e = mk_cursor (Some s) (last l1) →
  linked (nodes e) s (l1 ++ l2) →
  wp math2_insert_mixed_frac (λ _ e', inserted InsertMixedFrac e s l1 l2 e') e.
Proof.
  intros Hfree Hlen Hcur Hl. pose proof (grown_refl e) as Hg0.
  unfold math2_insert_mixed_frac.
  alloc_node x e1 Hg1 Hx0 Hx1 Hn1.
  alloc_sequence w e2 Hg2 Hw0 Hw1 Hn2.
  store_field Hx0 e3 Hg3 Hn3.
  alloc_sequence nu e4 Hg4 Hu0 Hu1 Hn4.
  store_field Hx0 e5 Hg5 Hn5.
  alloc_sequence de e6 Hg6 Hd0 Hd1 Hn6.
  store_field Hx0 e7 Hg7 Hn7.
  store_field Hw0 e8 Hg8 Hn8.
  store_field Hu0 e9 Hg9 Hn9.
  store_field Hd0 e10 Hg10 Hn10.
  pose proof Hx0 as (nx & Hnx & _). pose proof Hw0 as (nw & Hnw & _).
  pose proof Hu0 as (nnu & Hnnu & _). pose proof Hd0 as (nd & Hnd & _).
  assert (w ≠ x) as Hwx by differs Hw1.
  assert (nu ≠ x) as Hux by differs Hu1.
  assert (nu ≠ w) as Huw by differs Hu1.
  assert (de ≠ x) as Hdx by differs Hd1.
  assert (de ≠ w) as Hdw by differs Hd1.
  assert (de ≠ nu) as Hdu by differs Hd1.
  assert (built e x (mk_node NODE_MIXED_FRAC NULL NULL NULL
                       (DMixed (Some w) (Some nu) (Some de))) [w; nu; de] e10)
    as Hb by prove_built Hg10.
  finish_insert InsertMixedFrac mixed_whole Hb.
Qed.

(** With room for all its nodes, the insertion of a square root, an indexed
    root, an n-th root, a mixed fraction, an absolute value, a parenthesis
    or a function links one new node of that kind at the cursor, with fresh
    empty sequences in its slots, puts the cursor into the first slot,
    clears both modes and takes exactly the slots it needs. *)
Theorem container_insertion_with_room (op : insert_op) (e : math_expr2_t)
    (s : nat) (l1 l2 : list nat) :
  plain_container op = true →
  allocations op ≤ free_slots (nodes e) → length (nodes e) ≤ MAX_NODES →
  cursor e = mk_cursor (Some s) (last l1) →
  linked (nodes e) s (l1 ++ l2) →
  ∃ e', exec (run_insert op) e = Some e' ∧ inserted op e s l1 l2 e'.
Proof.
  intros Hop Hfree Hlen Hcur Hl.
  assert (wp (run_insert op) (λ _ e', inserted op e s l1 l2 e') e) as Hwp.
  { destruct op; try done; cbn [run_insert allocations] in *.
    - by apply (insert_nthroot_room InsertSqrt 2); [right|..].
    - by apply (insert_nthroot_room (InsertNthroot n) n); [left|..].
    - by apply insert_xthroot_room.
    - by apply insert_mixed_frac_room.
    - by apply insert_abs_room.
    - by apply insert_paren_room.
    - by apply insert_function_room. }
  destruct (wp_exec _ _ _ Hwp) as ([] & e' & Hrun & _ & H). eauto.
Qed.

(** ** The keys up and down, entering and leaving *)

Lemma get_prev_of_next tn q q' :
  NoDup (data_ptrs (data tn)) →
  get_next_slot tn (Some q) = Some q' → get_prev_slot tn (Some q') = Some q.
Proof.
  intros Hnd H. destruct tn as [ty pa nx pv d].
  unfold get_next_slot, get_prev_slot in *. cbn [type data] in *.
  destruct ty; try done; destruct d; cbn in *;
    repeat case_decide; simplify_eq; try done;
    repeat match goal with
           | H : NoDup (_ :: _) |- _ => apply NoDup_cons in H as [? ?]
           end; set_solver.
Qed.

Lemma next_slot_steps e q qn t tn q' qn' :
  sequence (cursor e) = Some q →
  nodes e !! q = Some qn → parent qn = Some t → nodes e !! t = Some tn →
  get_next_slot tn (Some q) = Some q' →
  nodes e !! q' = Some qn' → type qn' = NODE_SEQUENCE →
  cursor_next_slot e = Some (true, with_cursor (mk_cursor (Some q') NULL) e).
Proof.
  intros Hc Hq Hp Ht Hn Hq' Ht'. unfold cursor_next_slot.
  erewrite bind_eq by reflexivity. rewrite Hc. cbn [deref].
  erewrite bind_eq by (by apply load_eq). rewrite Hp.
  erewrite bind_eq by (by apply load_eq). rewrite Hn.
  by rewrite (enter_slot_sequence e q' qn' false Hq' Ht').
Qed.

Lemma prev_slot_steps e q qn t tn q' qn' :
  sequence (cursor e) = Some q' →
  nodes e !! q' = Some qn' → parent qn' = Some t → nodes e !! t = Some tn →
  get_prev_slot tn (Some q') = Some q →
  nodes e !! q = Some qn → type qn = NODE_SEQUENCE →
  cursor_prev_slot e
    = Some (true, with_cursor (mk_cursor (Some q) (seq_last qn)) e).
Proof.
  intros Hc Hq' Hp Ht Hn Hq Hqt. unfold cursor_prev_slot.
  erewrite bind_eq by reflexivity. rewrite Hc. cbn [deref].
  erewrite bind_eq by (by apply load_eq). rewrite Hp.
  erewrite bind_eq by (by apply load_eq). rewrite Hn.
  by rewrite (enter_slot_sequence e q qn true Hq Hqt).
Qed.

(** In a container whose slots are distinct sequences, the key down goes from
    a slot to the start of the next one and the key up from a slot to the end
    of the one before; [get_prev_slot] undoes [get_next_slot], so each key
    brings the cursor back into the slot the other one left. *)
Theorem key_down_then_key_up (e : math_expr2_t) (t q q' : nat)
    (tn qn qn' : expr_node) :
  nodes e !! t = Some tn → NoDup (data_ptrs (data tn)) →
  nodes e !! q = Some qn → type qn = NODE_SEQUENCE → parent qn = Some t →
  nodes e !! q' = Some qn' → type qn' = NODE_SEQUENCE → parent qn' = Some t →
  get_next_slot tn (Some q) = Some q' →
  get_prev_slot tn (Some q') = Some q ∧
  (sequence (cursor e) = Some q →
     exec key_down e = Some (with_cursor (mk_cursor (Some q') NULL) e) ∧
     exec (key_down;; key_up) e
       = Some (with_cursor (mk_cursor (Some q) (seq_last qn)) e)) ∧
  (sequence (cursor e) = Some q' →
     exec key_up e = Some (with_cursor (mk_cursor (Some q) (seq_last qn)) e) ∧
     exec (key_up;; key_down) e
       = Some (with_cursor (mk_cursor (Some q') NULL) e)).
Proof.
  intros Ht Hnd Hq Hqt Hqp Hq' Hqt' Hqp' Hnext.
  pose proof (get_prev_of_next tn q q' Hnd Hnext) as Hprev.
  split; [done|].
  set (below := with_cursor (mk_cursor (Some q') NULL) e).
  set (above := with_cursor (mk_cursor (Some q) (seq_last qn)) e).
  assert (∀ e0, nodes e0 = nodes e → sequence (cursor e0) = Some q →
                key_down e0 = Some ((), with_cursor (mk_cursor (Some q') NULL) e0))
    as Hdown.
  { intros e0 Hn Hc. unfold key_down, ignore.
    erewrite bind_eq; [done|].
    eapply (next_slot_steps e0 q qn t tn q' qn'); by rewrite ?Hn. }
  assert (∀ e0, nodes e0 = nodes e → sequence (cursor e0) = Some q' →
                key_up e0
                  = Some ((), with_cursor (mk_cursor (Some q) (seq_last qn)) e0))
    as Hup.
  { intros e0 Hn Hc. unfold key_up, ignore.
    erewrite bind_eq; [done|].
    eapply (prev_slot_steps e0 q qn t tn q' qn'); by rewrite ?Hn. }
  subst below above. split; intros Hc.
  - split; [unfold exec; by rewrite (Hdown e eq_refl Hc)|].
    unfold exec. erewrite bind_eq by exact (Hdown e eq_refl Hc). cbn beta.
    by rewrite (Hup (with_cursor (mk_cursor (Some q') NULL) e) eq_refl eq_refl).
  - split; [unfold exec; by rewrite (Hup e eq_refl Hc)|].
    unfold exec. erewrite bind_eq by exact (Hup e eq_refl Hc). cbn beta.
    by rewrite (Hdown (with_cursor (mk_cursor (Some q) (seq_last qn)) e) eq_refl eq_refl).
Qed.

(** With a container before the cursor, [cursor_enter] goes to the end of its
    first slot, and [cursor_exit] then brings the cursor back behind the
    container: the two together change nothing. *)
Theorem cursor_enter_then_exit (e : math_expr2_t) (s t fs : nat)
    (l1 l2 : list nat) (tn fsn : expr_node) :
  cursor e = mk_cursor (Some s) (Some t) →
  linked (nodes e) s (l1 ++ t :: l2) →
  nodes e !! t = Some tn → get_first_slot tn = Some fs →
  nodes e !! fs = Some fsn → type fsn = NODE_SEQUENCE → parent fsn = Some t →
  cursor_enter e
    = Some (true, with_cursor (mk_cursor (Some fs) (seq_last fsn)) e) ∧
  exec (cursor_enter;; cursor_exit) e = Some e.
Proof.
  intros Hc Hl Ht Hf Hfs Hft Hfp.
  destruct (linked_child _ _ _ _ _ Hl) as (tn' & Ht' & _ & Htp & _).
  rewrite Ht in Ht'. injection Ht' as <-.
  pose proof Hl as (sn & Hs & Hst & _).
  set (inside := with_cursor (mk_cursor (Some fs) (seq_last fsn)) e).
  assert (cursor_enter e = Some (true, inside)) as Hen.
  { unfold cursor_enter. erewrite bind_eq by reflexivity. rewrite Hc.
    cbn [after]. erewrite bind_eq by reflexivity. cbn beta iota.
    erewrite bind_eq by (by apply load_eq). rewrite Hf.
    by rewrite (enter_slot_sequence e fs fsn true Hfs Hft). }
  split; [done|].
  unfold exec. erewrite bind_eq by exact Hen. unfold cursor_exit.
  rewrite (exit_container_parent inside fs fsn t tn s sn false
             eq_refl Hfs Hfp Ht Htp Hs Hst).
  cbn. do 2 f_equal. rewrite <- Hc. by destruct e.
Qed.

(** ** Insertions that collect the node before the cursor *)

(** The end of an insertion: the new node is linked at the cursor and the
    cursor enters one of its slots. *)
Lemma link_and_enter (slot : expr_node → ptr) em s x l1 l2 Xn :
  (∀ n n', data n' = data n → slot n' = slot n) →
  cursor em = mk_cursor (Some s) (last l1) →
  linked (nodes em) s (l1 ++ l2) →
  nodes em !! x = Some Xn → type Xn ≠ NODE_EMPTY → x ∉ s :: l1 ++ l2 →
  wp (c ← gets cursor;
      seq_insert_after (sequence c) (after c) (Some x);;
      xn ← load x;
      modify (with_cursor_sequence (slot xn));;
      modify (with_cursor_after NULL);;
      math2_clear_modes)
     (λ _ e',
        rewritten (after_insert s x (last l1) (head l2)) (nodes em) (nodes e') ∧
        linked (nodes e') s (l1 ++ x :: l2) ∧
        cursor e' = mk_cursor (slot Xn) NULL ∧
        shift_mode e' = false ∧ alpha_mode e' = false ∧ root e' = root em) em.
Proof.
  intros Hslot Hcur Hl Hx Hxt Hxl.
  assert (x ≠ s) as Hxs by (intros ->; apply Hxl; left).
  apply wp_bind, wp_gets. rewrite Hcur. cbn [sequence after].
  apply wp_bind. eapply wp_mono.
  { by eapply (wp_insert_linked em s l1 l2 x Xn). }
  cbn beta. intros _ e4 (He4 & Hrw & Hl4).
  pose proof (rewritten_lookup _ _ _ _ _ Hrw Hx) as Hx4.
  destruct (after_insert_kind s x (last l1) (head l2) x Xn) as [Hk1 Hk2].
  specialize (Hk2 Hxs).
  apply wp_bind. eapply wp_load; [exact Hx4|]. cbn beta.
  rewrite (Hslot _ _ Hk2).
  apply wp_bind, wp_modify. apply wp_bind, wp_modify.
  unfold math2_clear_modes. apply wp_bind, wp_modify. apply wp_modify.
  rewrite He4. cbn. done.
Qed.

Lemma after_insert_parent s x pv nx i n :
  i ≠ x → parent (after_insert s x pv nx i n) = parent n.
Proof. intros Hi. unfold after_insert. by repeat case_decide. Qed.

Lemma after_remove_parent s a pv nx i n :
  i ≠ a → parent (after_remove s a pv nx i n) = parent n.
Proof. intros Hi. unfold after_remove. by repeat case_decide. Qed.

(** [collect_previous]: the child before the cursor moves into an empty
    slot, and the cursor steps back over it. *)
Lemma collect_previous_linked e s b a l1 l2 :
  cursor e = mk_cursor (Some s) (Some a) →
  linked (nodes e) s (l1 ++ a :: l2) → linked (nodes e) b [] →
  b ∉ s :: l1 ++ a :: l2 →
  wp (collect_previous a (Some b))
     (λ _ e',
        cursor e' = mk_cursor (Some s) (last l1) ∧ root e' = root e ∧
        linked (nodes e') s (l1 ++ l2) ∧ linked (nodes e') b [a] ∧
        free_slots (nodes e') = free_slots (nodes e) ∧
        (∀ i, i ∉ b :: s :: l1 ++ a :: l2 → nodes e' !! i = nodes e !! i) ∧
        (∀ i n, nodes e !! i = Some n →
           ∃ n', nodes e' !! i = Some n' ∧ type n' = type n ∧
                 (i ≠ s → i ≠ b → data n' = data n) ∧
                 (i ≠ a → parent n' = parent n))) e.
Proof.
  intros Hcur Hls Hlb Hbl.
  destruct (linked_child _ _ _ _ _ Hls) as (an & Ha & Halive & Hapar & Hapv & Hanx).
  unfold collect_previous.
  apply wp_bind. eapply wp_load; [exact Ha|]. cbn beta.
  apply wp_bind, wp_modify. rewrite Hapv.
  assert (a ∉ s :: l1 ++ l2 ∧ a ≠ b) as (Hal & Hab).
  { destruct Hls as (_ & _ & _ & _ & _ & Hnd & _).
    apply NoDup_cons in Hnd as [Hs Hnd]. apply NoDup_app in Hnd as (_ & Hd & Hnd).
    apply NoDup_cons in Hnd as [Ha2 _].
    rewrite !elem_of_cons, !elem_of_app, !elem_of_cons in *.
    split; [|naive_solver]. intros [->|[H|H]]; [naive_solver| |done].
    apply (Hd _ H). left. }
  apply wp_bind. eapply wp_mono.
  { apply (wp_remove_linked _ s l1 a l2). exact Hls. }
  cbn beta. intros _ e8 (He8 & Hrw8 & Hls8).
  cbn [nodes with_cursor_after with_cursor] in Hrw8.
  assert (∀ i n, i ∉ s :: l1 ++ a :: l2 →
            after_remove s a (last l1) (head l2) i n = n) as Hfr8.
  { intros i n Hi. by apply after_remove_other. }
  assert (linked (nodes e8) b []) as Hlb8.
  { eapply rewritten_frame; [exact Hlb|exact Hrw8|].
    intros i n Hi _. apply Hfr8. set_solver. }
  pose proof (rewritten_lookup _ _ _ _ _ Hrw8 Ha) as Ha8.
  eapply wp_mono.
  { eapply (wp_insert_linked e8 b [] [] a); [exact Hlb8|set_solver|exact Ha8|].
    by rewrite (proj1 (after_remove_kind s a (last l1) (head l2) a an)). }
  cbn beta. intros _ e9 (He9 & Hrw9 & Hlb9). cbn [app last head] in Hrw9, Hlb9.
  assert (∀ i n, i ≠ a → i ≠ b → after_insert b a None None i n = n) as Hfr9.
  { intros i n Hia Hib. apply (after_insert_other b a [] []). set_solver. }
  split.
  { rewrite He9. cbn. rewrite He8. cbn. by rewrite Hcur. }
  split.
  { rewrite He9. cbn. rewrite He8. done. }
  split.
  { eapply rewritten_frame; [exact Hls8|exact Hrw9|].
    intros i n Hi _. apply Hfr9; intros ->; [by apply Hal|].
    apply Hbl. set_solver. }
  split; [done|].
  split.
  { rewrite (free_slots_rewritten _ _ _ Hrw9) by (intros; apply after_insert_kind).
    by rewrite (free_slots_rewritten _ _ _ Hrw8) by (intros; apply after_remove_kind). }
  split.
  { intros i Hi. rewrite (Hrw9 i), (Hrw8 i).
    destruct (nodes e !! i) as [n|]; [|done]. cbn.
    rewrite Hfr8 by set_solver. rewrite Hfr9; [done|set_solver|set_solver]. }
  intros i n Hn. eexists. split.
  { exact (rewritten_lookup _ _ _ _ _ Hrw9
             (rewritten_lookup _ _ _ _ _ Hrw8 Hn)). }
  destruct (after_insert_kind b a None None i
              (after_remove s a (last l1) (head l2) i n)) as [-> Hd9].
  destruct (after_remove_kind s a (last l1) (head l2) i n) as [-> Hd8].
  split; [done|]. split.
  - intros His Hib. rewrite Hd9, Hd8; done.
  - intros Hia. by rewrite after_insert_parent, after_remove_parent.
Qed.

(** [math2_insert_subscript] with room: the text node before the cursor,
    when there is one, becomes the base. *)
Lemma subscript_general e s l1 l2 :
  3 ≤ free_slots (nodes e) → length (nodes e) ≤ MAX_NODES →
  cursor e = mk_cursor (Some s) (last l1) →
  linked (nodes e) s (l1 ++ l2) →
  wp math2_insert_subscript
    (λ _ e',
       ∃ x b p xn kept base,
         l1 = kept ++ base ∧ length base ≤ 1 ∧
         (∀ a, a ∈ base ↔
               last l1 = Some a ∧
               ∃ an, nodes e !! a = Some an ∧ type an = NODE_TEXT) ∧
         NoDup [x; b; p] ∧ (∀ i, i ∈ [x; b; p] → slot_empty (nodes e) i) ∧
         nodes e' !! x = Some xn ∧ type xn = NODE_SUBSCRIPT ∧
         subscript_base xn = Some b ∧ subscript_sub xn = Some p ∧
         linked (nodes e') s (kept ++ x :: l2) ∧
         linked (nodes e') b base ∧ linked (nodes e') p [] ∧
         (∀ c, c ∈ [b; p] → ∃ cn, nodes e' !! c = Some cn ∧ parent cn = Some x) ∧
         cursor e' = mk_cursor (Some p) NULL ∧
         shift_mode e' = false ∧ alpha_mode e' = false ∧ root e' = root e ∧
         free_slots (nodes e') + 3 = free_slots (nodes e) ∧
         (∀ i n, nodes e !! i = Some n → type n ≠ NODE_EMPTY →
            ∃ n', nodes e' !! i = Some n' ∧ type n' = type n ∧
                  (i ≠ s → data n' = data n))) e.
Proof.
  intros Hfree Hlen Hcur Hl. pose proof (grown_refl e) as Hg0.
  unfold math2_insert_subscript.
  alloc_node x e1 Hg1 Hx0 Hx1 Hn1.
  alloc_sequence b e2 Hg2 Hb0 Hb1 Hn2.
  store_field Hx0 e3 Hg3 Hn3.
  alloc_sequence p e4 Hg4 Hp0 Hp1 Hn4.
  store_field Hx0 e5 Hg5 Hn5.
  store_field Hb0 e6 Hg6 Hn6.
  store_field Hp0 e7 Hg7 Hn7.
  pose proof Hx0 as (nx & Hnx & _). pose proof Hb0 as (nb & Hnb & _).
  pose proof Hp0 as (np & Hnp & _).
  assert (b ≠ x) as Hbx by differs Hb1.
  assert (p ≠ x) as Hpx by differs Hp1.
  assert (p ≠ b) as Hpb by differs Hp1.
  set (Xn := mk_node NODE_SUBSCRIPT NULL NULL NULL (DSubscript (Some b) (Some p))).
  set (Sn := mk_node NODE_SEQUENCE (Some x) NULL NULL (DSeq NULL NULL)).
  assert (built e x Xn [b; p] e7) as Hb by prove_built Hg7.
  clear Hn1 Hn2 Hn3 Hn4 Hn5 Hn6 Hn7 Hg1 Hg2 Hg3 Hg4 Hg5 Hg6 Hg7 Hx1 Hb1 Hp1
        Hnx Hnb Hnp.
  match goal with |- wp _ ?Q _ => set (POST := Q) end.
  pose proof Hb as (Hc7 & Hr7 & Hnd & Hemp & Hx7 & Hxt & Hcs & Hold & Hfree7).
  assert (∀ i, i ∈ s :: l1 ++ l2 → i ∉ [x; b; p]) as Hfresh.
  { intros i Hi Hin. destruct (Hemp i Hin) as (n0 & Hn0 & He0).
    apply elem_of_cons in Hi as [->|Hi].
    - destruct Hl as (sn & Hs & Ht & _). congruence.
    - destruct (linked_elem_node _ _ _ _ Hl Hi) as (n & ? & ? & _). congruence. }
  assert (∀ i n, nodes e !! i = Some n → type n ≠ NODE_EMPTY → i ∉ [x; b; p])
    as Hlive.
  { intros i n Hi Hne Hin. destruct (Hemp i Hin) as (n0 & Hn0 & He0). congruence. }
  (* nothing is collected *)
  assert ((∀ a, ¬ (last l1 = Some a ∧
                   ∃ an, nodes e !! a = Some an ∧ type an = NODE_TEXT)) →
          wp (c ← gets cursor;
              seq_insert_after (sequence c) (after c) (Some x);;
              xn ← load x;
              modify (with_cursor_sequence (subscript_sub xn));;
              modify (with_cursor_after NULL);;
              math2_clear_modes) POST e7) as Hplain.
  { intros Hno. eapply wp_mono.
    { eapply (insert_tail subscript_sub e e7 s x l1 l2 Xn [b; p]);
        [|exact Hb|exact Hcur|exact Hl].
      intros ? ? Hd. unfold subscript_sub. by rewrite Hd. }
    cbn beta. intros [] e' (xn & H1 & H2 & H3 & H4 & H5 & H6 & H7 & H8 & H9 & H10 & H11).
    unfold POST. exists x, b, p, xn, l1, [].
    split; [by rewrite app_nil_r|]. split; [cbn; lia|].
    split; [intros a; split; [by intros ?%elem_of_nil|intros H; by destruct (Hno a)]|].
    split; [done|]. split; [done|]. split; [done|].
    split; [by rewrite H2|].
    split; [unfold subscript_base; by rewrite H3|].
    split; [unfold subscript_sub; by rewrite H3|].
    split; [done|].
    split; [apply H5; set_solver|]. split; [apply H5; set_solver|].
    split; [intros c Hc; by apply H5|].
    done. }
  apply wp_bind, wp_gets. rewrite Hc7, Hcur. cbn [after].
  destruct (last l1) as [a|] eqn:El.
  2:{ apply wp_bind, wp_ret. apply Hplain. intros a [? _]. done. }
  pose proof El as El'. apply last_Some in El' as [l1' ->].
  rewrite <- app_assoc in Hl, Hfresh. cbn [app] in Hl, Hfresh.
  destruct (linked_child _ _ _ _ _ Hl) as (an & Ha & Halive & _).
  assert (nodes e7 !! a = Some an) as Ha7.
  { rewrite Hold; [done|]. apply Hfresh. set_solver. }
  apply wp_bind. apply wp_bind. eapply wp_load; [exact Ha7|]. cbn beta.
  destruct (decide (type an = NODE_TEXT)) as [Hat|Hat].
  2:{ apply wp_ret. apply Hplain. intros a' [[= <-] (an' & Han' & Ht')].
      congruence. }
  clear Hplain.
  apply wp_bind. eapply wp_load; [exact Hx7|]. cbn beta.
  change (subscript_base Xn) with (Some b).
  assert (linked (nodes e7) s (l1' ++ a :: l2)) as Hl7.
  { eapply linked_same; [exact Hl|]. intros i Hi. apply Hold. by apply Hfresh. }
  assert (nodes e7 !! b = Some Sn ∧ nodes e7 !! p = Some Sn) as [Hb7 Hp7].
  { split; apply Hcs; set_solver. }
  eapply wp_mono.
  { eapply (collect_previous_linked e7 s b a l1' l2).
    - by rewrite Hc7, Hcur.
    - exact Hl7.
    - by eapply linked_empty.
    - intros Hi. apply (Hfresh b Hi). set_solver. }
  cbn beta.
  intros _ e9 (Hc9 & Hr9 & Hls9 & Hlb9 & Hfree9 & Hsame9 & Hfr9).
  assert (a ∉ x :: s :: l1' ++ l2) as Hal.
  { pose proof Hl as (_ & _ & _ & _ & _ & Hnd' & _).
    apply NoDup_cons in Hnd' as [Hs Hnd']. apply NoDup_app in Hnd' as (_ & Hd & Hnd').
    apply NoDup_cons in Hnd' as [Ha2 _].
    assert (a ≠ x) by (intros ->; apply (Hfresh x); set_solver).
    rewrite !elem_of_cons, !elem_of_app, !elem_of_cons in *.
    intros [->|[->|[H'|H']]]; [done|naive_solver| |done].
    apply (Hd _ H'). left. }
  assert (∀ i, i ∈ [x; b; p] → i ∉ s :: l1' ++ a :: l2) as Hout.
  { intros i Hi Hin. by apply (Hfresh i Hin). }
  assert (nodes e9 !! x = Some Xn) as Hx9.
  { rewrite Hsame9; [done|]. apply not_elem_of_cons. split; [done|].
    apply Hout. set_solver. }
  assert (nodes e9 !! p = Some Sn) as Hp9.
  { rewrite Hsame9; [done|]. apply not_elem_of_cons. split; [done|].
    apply Hout. set_solver. }
  eapply wp_mono.
  { eapply (link_and_enter subscript_sub e9 s x l1' l2 Xn);
      [|exact Hc9|exact Hls9|exact Hx9|done|].
    - intros ? ? Hd. unfold subscript_sub. by rewrite Hd.
    - intros Hi. apply (Hout x); [set_solver|]. set_solver. }
  cbn beta. intros [] e' (Hrw & Hls' & Hc' & Hsm & Ham & Hr'). unfold POST.
  assert (∀ i n, i ∈ [b; p; a] → after_insert s x (last l1') (head l2) i n = n)
    as Hfr.
  { intros i n Hi. apply after_insert_other.
    rewrite !elem_of_cons, elem_of_nil in Hi. destruct Hi as [->|[->|[->|[]]]].
    - apply not_elem_of_cons. split; [done|].
      intros Hi. apply (Hout b); set_solver.
    - apply not_elem_of_cons. split; [done|].
      intros Hi. apply (Hout p); set_solver.
    - done. }
  assert (x ≠ s) as Hxs.
  { intros ->. apply (Hout s); set_solver. }
  destruct (after_insert_kind s x (last l1') (head l2) x Xn) as [Hk1 Hk2].
  specialize (Hk2 Hxs).
  destruct (Hfr9 b Sn Hb7) as (bn & Hbn & _ & _ & Hbpar).
  exists x, b, p, (after_insert s x (last l1') (head l2) x Xn), l1', [a].
  split; [done|]. split; [cbn; lia|].
  split.
  { intros a'. rewrite list_elem_of_singleton. split.
    - intros ->. split; [done|]. eauto.
    - by intros [[= ->] _]. }
  split; [done|]. split; [done|].
  split; [by apply (rewritten_lookup _ _ _ _ _ Hrw)|].
  split; [by rewrite Hk1|].
  split; [unfold subscript_base; by rewrite Hk2|].
  split; [unfold subscript_sub; by rewrite Hk2|].
  split; [done|].
  split.
  { eapply rewritten_frame; [exact Hlb9|exact Hrw|].
    intros i n Hi _. apply Hfr. set_solver. }
  assert (nodes e' !! p = Some Sn) as Hp'.
  { rewrite (rewritten_lookup _ _ _ _ _ Hrw Hp9). f_equal. apply Hfr. set_solver. }
  split; [by eapply linked_empty|].
  split.
  { intros c Hc. rewrite !elem_of_cons, elem_of_nil in Hc.
    destruct Hc as [->|[->|[]]]; [|eauto].
    exists bn. split.
    - rewrite (rewritten_lookup _ _ _ _ _ Hrw Hbn). f_equal. apply Hfr. set_solver.
    - rewrite Hbpar; [done|]. intros ->. apply (Hout a); set_solver. }
  split; [done|]. split; [done|]. split; [done|].
  split; [congruence|].
  split.
  { rewrite (free_slots_rewritten _ _ _ Hrw) by (intros; apply after_insert_kind).
    rewrite Hfree9. exact Hfree7. }
  intros i n Hi Hne.
  assert (nodes e7 !! i = Some n) as Hi7.
  { rewrite Hold; [done|]. by eapply Hlive. }
  destruct (Hfr9 i n Hi7) as (n' & Hn' & Ht' & Hd' & _).
  exists (after_insert s x (last l1') (head l2) i n').
  split; [by apply (rewritten_lookup _ _ _ _ _ Hrw)|].
  destruct (after_insert_kind s x (last l1') (head l2) i n') as [-> Hd''].
  split; [done|]. intros His. rewrite Hd'' by done. apply Hd'; [done|].
  intros ->. apply (Hlive b n Hi Hne). set_solver.
Qed.

(** From a state with room for three nodes, [math2_insert_subscript] returns
    and has split the children [l1] before the cursor into [kept] and [base]:
    [base] is the last of [l1] when that is a text node, and empty otherwise.
    The sequence then holds [kept], the new Subscript node and [l2]; the base
    slot holds [base], the other slot is empty and has the cursor at its
    start; both modes are cleared, three slots are taken, and every node
    that was live keeps its kind, and its contents unless it is [s]. *)
Theorem math2_insert_subscript_collects (e : math_expr2_t) (s : nat)
    (l1 l2 : list nat) :
  3 ≤ free_slots (nodes e) → length (nodes e) ≤ MAX_NODES →
  cursor e = mk_cursor (Some s) (last l1) →
  linked (nodes e) s (l1 ++ l2) →
  ∃ e' x b p xn kept base,
    exec math2_insert_subscript e = Some e' ∧
    l1 = kept ++ base ∧ length base ≤ 1 ∧
    (∀ a, a ∈ base ↔
          last l1 = Some a ∧
          ∃ an, nodes e !! a = Some an ∧ type an = NODE_TEXT) ∧
    NoDup [x; b; p] ∧ (∀ i, i ∈ [x; b; p] → slot_empty (nodes e) i) ∧
    nodes e' !! x = Some xn ∧ type xn = NODE_SUBSCRIPT ∧
    subscript_base xn = Some b ∧ subscript_sub xn = Some p ∧
    linked (nodes e') s (kept ++ x :: l2) ∧
    linked (nodes e') b base ∧ linked (nodes e') p [] ∧
    (∀ c, c ∈ [b; p] → ∃ cn, nodes e' !! c = Some cn ∧ parent cn = Some x) ∧
    cursor e' = mk_cursor (Some p) NULL ∧
    shift_mode e' = false ∧ alpha_mode e' = false ∧ root e' = root e ∧
    free_slots (nodes e') + 3 = free_slots (nodes e) ∧
    (∀ i n, nodes e !! i = Some n → type n ≠ NODE_EMPTY →
       ∃ n', nodes e' !! i = Some n' ∧ type n' = type n ∧
             (i ≠ s → data n' = data n)).
Proof.
  intros Hfree Hlen Hcur Hl.
  destruct (wp_exec _ _ _ (subscript_general e s l1 l2 Hfree Hlen Hcur Hl))
    as ([] & e' & Hrun & _ & x & b & p & xn & kept & base & H).
  by exists e', x, b, p, xn, kept, base.
Qed.

(** The end of [math2_insert_fraction] when the numerator is empty: the
    cursor goes to the numerator, as at the end of the other insertions. *)
Lemma fraction_tail_plain em s x nu Xn l1 l2 :
  cursor em = mk_cursor (Some s) (last l1) →
  linked (nodes em) s (l1 ++ l2) →
  nodes em !! x = Some Xn → type Xn ≠ NODE_EMPTY → x ∉ s :: l1 ++ l2 →
  frac_numer Xn = Some nu → linked (nodes em) nu [] → nu ∉ x :: s :: l1 ++ l2 →
  (c ← gets cursor;
   seq_insert_after (sequence c) (after c) (Some x);;
   fn ← load x;
   no_numer ← seq_is_empty (frac_numer fn);
   (if no_numer : bool then modify (with_cursor_sequence (frac_numer fn))
    else modify (with_cursor_sequence (frac_denom fn)));;
   modify (with_cursor_after NULL);;
   math2_clear_modes) em
  = (c ← gets cursor;
     seq_insert_after (sequence c) (after c) (Some x);;
     xn ← load x;
     modify (with_cursor_sequence (frac_numer xn));;
     modify (with_cursor_after NULL);;
     math2_clear_modes) em.
Proof.
  intros Hcur Hl Hx Hxt Hxl Hnu Hln Hnl.
  destruct (wp_insert_linked em s l1 l2 x Xn Hl Hxl Hx Hxt)
    as ([] & e4 & Hrun & He4 & Hrw & Hl4).
  assert (x ≠ s) as Hxs by (intros ->; apply Hxl; left).
  destruct (after_insert_kind s x (last l1) (head l2) x Xn) as [_ Hk].
  specialize (Hk Hxs).
  pose proof (rewritten_lookup _ _ _ _ _ Hrw Hx) as Hx4.
  destruct Hln as (nun & Hnun & Hnt & Hnf & _).
  assert (nodes e4 !! nu = Some nun) as Hnu4.
  { rewrite (rewritten_lookup _ _ _ _ _ Hrw Hnun). f_equal.
    by apply after_insert_other. }
  erewrite !(bind_eq (gets cursor)) by reflexivity. rewrite Hcur.
  cbn [sequence after].
  erewrite !(bind_eq (seq_insert_after _ _ _)) by exact Hrun.
  erewrite !(bind_eq (load x)) by (by apply load_eq).
  assert (frac_numer (after_insert s x (last l1) (head l2) x Xn) = Some nu) as ->.
  { unfold frac_numer in *. by rewrite Hk. }
  assert (seq_is_empty (Some nu) e4 = Some (true, e4)) as Hemp.
  { unfold seq_is_empty. erewrite bind_eq by (by apply load_eq).
    rewrite Hnt, Hnf. done. }
  by erewrite bind_eq by exact Hemp.
Qed.

(** [math2_insert_fraction] where its walk finds nothing: at the start of
    a sequence, and at its end behind an operator. *)
Lemma insert_fraction_nothing e s l1 l2 :
  3 ≤ free_slots (nodes e) → length (nodes e) ≤ MAX_NODES →
  cursor e = mk_cursor (Some s) (last l1) →
  linked (nodes e) s (l1 ++ l2) →
  l1 = [] ∨
  (l2 = [] ∧ ∃ a an, last l1 = Some a ∧ nodes e !! a = Some an ∧
                     IS_OPERATOR an = true) →
  wp math2_insert_fraction (λ _ e', inserted InsertFraction e s l1 l2 e') e.
Proof.
  intros Hfree Hlen Hcur Hl Hcase. pose proof (grown_refl e) as Hg0.
  unfold math2_insert_fraction.
  alloc_node x e1 Hg1 Hx0 Hx1 Hn1.
  alloc_sequence nu e2 Hg2 Hi0 Hi1 Hn2.
  store_field Hx0 e3 Hg3 Hn3.
  alloc_sequence de e4 Hg4 Hc0 Hc1 Hn4.
  store_field Hx0 e5 Hg5 Hn5.
  store_field Hi0 e6 Hg6 Hn6.
  store_field Hc0 e7 Hg7 Hn7.
  pose proof Hx0 as (nx & Hnx & _). pose proof Hi0 as (ni & Hni & _).
  pose proof Hc0 as (nc & Hnc & _).
  assert (nu ≠ x) as Hix by differs Hi1.
  assert (de ≠ x) as Hcx by differs Hc1.
  assert (de ≠ nu) as Hci by differs Hc1.
  set (Xn := mk_node NODE_FRACTION NULL NULL NULL (DFrac (Some nu) (Some de))).
  assert (built e x Xn [nu; de] e7) as Hb by prove_built Hg7.
  clear Hn1 Hn2 Hn3 Hn4 Hn5 Hn6 Hn7 Hg1 Hg2 Hg3 Hg4 Hg5 Hg6 Hg7 Hx1 Hi1 Hc1
        Hnx Hni Hnc.
  pose proof Hb as (Hc7 & Hr7 & Hnd & Hemp & Hx7 & Hxt & Hcs & Hold & Hfree7).
  assert (∀ i, i ∈ s :: l1 ++ l2 → i ∉ [x; nu; de]) as Hfresh.
  { intros i Hi Hin. destruct (Hemp i Hin) as (n0 & Hn0 & He0).
    apply elem_of_cons in Hi as [->|Hi].
    - destruct Hl as (sn & Hs & Ht & _). congruence.
    - destruct (linked_elem_node _ _ _ _ Hl Hi) as (n & ? & ? & _). congruence. }
  (* the end of the insertion *)
  assert (wp (c ← gets cursor;
              seq_insert_after (sequence c) (after c) (Some x);;
              fn ← load x;
              no_numer ← seq_is_empty (frac_numer fn);
              (if no_numer : bool then modify (with_cursor_sequence (frac_numer fn))
               else modify (with_cursor_sequence (frac_denom fn)));;
              modify (with_cursor_after NULL);;
              math2_clear_modes)
             (λ _ e', inserted InsertFraction e s l1 l2 e') e7) as Htail.
  { assert (wp (c ← gets cursor;
                seq_insert_after (sequence c) (after c) (Some x);;
                xn ← load x;
                modify (with_cursor_sequence (frac_numer xn));;
                modify (with_cursor_after NULL);;
                math2_clear_modes)
               (λ _ e', inserted InsertFraction e s l1 l2 e') e7)
      as (u & e' & Hrun & Hins).
    { finish_insert InsertFraction frac_numer Hb. }
    exists u, e'. split; [|done]. rewrite <- Hrun.
    apply (fraction_tail_plain e7 s x nu Xn l1 l2).
    - by rewrite Hc7, Hcur.
    - eapply linked_same; [exact Hl|]. intros i Hi. apply Hold. by apply Hfresh.
    - done.
    - done.
    - intros Hi. apply (Hfresh x Hi). set_solver.
    - done.
    - eapply linked_empty; [apply Hcs; set_solver|done..].
    - apply not_elem_of_cons. split; [done|].
      intros Hi. apply (Hfresh nu Hi). set_solver. }
  (* the walk finds nothing to collect *)
  apply wp_bind, wp_gets. rewrite Hc7, Hcur. cbn [after].
  unfold loop_fuel. cbn [collect_walk].
  destruct Hcase as [->|(-> & a & an & Hla & Ha & Hop)].
  - cbn [last]. apply wp_bind, wp_ret. cbn beta iota. by apply wp_bind, wp_ret.
  - rewrite Hla. apply last_Some in Hla as [l1' ->].
    rewrite app_nil_r in Hl, Hfresh.
    destruct (linked_child _ _ _ _ _ Hl) as (an' & Ha' & _ & _ & _ & Hnx).
    rewrite Ha in Ha'. injection Ha' as <-.
    assert (nodes e7 !! a = Some an) as Ha7.
    { rewrite Hold; [done|]. apply Hfresh. set_solver. }
    apply wp_bind. apply wp_bind. eapply wp_load; [exact Ha7|]. cbn beta.
    rewrite Hop, Hnx. apply wp_ret. cbn [head]. cbn beta iota.
    by apply wp_bind, wp_ret.
Qed.

(** At the start of a sequence, and at its end right behind an operator,
    [math2_insert_fraction] with room for three nodes collects nothing: it
    links a fraction with two empty slots at the cursor and puts the cursor
    into the numerator. *)
Theorem math2_insert_fraction_collects_nothing (e : math_expr2_t) (s : nat)
    (l1 l2 : list nat) :
  3 ≤ free_slots (nodes e) → length (nodes e) ≤ MAX_NODES →
  cursor e = mk_cursor (Some s) (last l1) →
  linked (nodes e) s (l1 ++ l2) →
  l1 = [] ∨
  (l2 = [] ∧ ∃ a an, last l1 = Some a ∧ nodes e !! a = Some an ∧
                     type an = NODE_TEXT ∧ text_subtype an = TEXT_OPERATOR) →
  ∃ e', exec math2_insert_fraction e = Some e' ∧
        inserted InsertFraction e s l1 l2 e'.
Proof.
  intros Hfree Hlen Hcur Hl Hcase.
  assert (l1 = [] ∨
          (l2 = [] ∧ ∃ a an, last l1 = Some a ∧ nodes e !! a = Some an ∧
                             IS_OPERATOR an = true)) as Hcase'.
  { destruct Hcase as [?|(? & a & an & ? & ? & Ht & Hs)]; [by left|right].
    split; [done|]. exists a, an. split; [done|]. split; [done|].
    unfold IS_OPERATOR. rewrite Ht, Hs. done. }
  destruct (wp_exec _ _ _ (insert_fraction_nothing e s l1 l2 Hfree Hlen Hcur Hl Hcase'))
    as ([] & e' & Hrun & _ & H).
  eauto.
Qed.

(** ** The LaTeX text, by the shape of the expression *)

Local Open Scope string_scope.

Lemma append_assoc (s1 s2 s3 : string) : (s1 ++ s2) ++ s3 = s1 ++ (s2 ++ s3).
Proof.
  induction s1 as [|a s1 IH]; [done|].
  change (String a (s1 ++ s2) ++ s3 = String a (s1 ++ (s2 ++ s3))).
  change (String a ((s1 ++ s2) ++ s3) = String a (s1 ++ (s2 ++ s3))).
  by rewrite IH.
Qed.

Lemma append_empty_r (s : string) : s ++ "" = s.
Proof.
  induction s as [|a s IH]; [done|].
  change (String a (s ++ "") = String a s). by rewrite IH.
Qed.

Lemma latex_trees_inner ts :
  (fix go (ts : list tree) : string :=
     match ts with
     | [] => EmptyString
     | t :: rest => latex_tree t ++ go rest
     end) ts = latex_trees ts.
Proof.
  induction ts as [|t ts IH]; [done|]. unfold latex_trees. cbn [foldr].
  fold (latex_trees ts). by rewrite <- IH.
Qed.

(** The length of two strings put together. *)
Lemma length_append (s1 s2 : string) :
  String.length (s1 ++ s2) = (String.length s1 + String.length s2)%nat.
Proof. induction s1 as [|c s1 IH]; [done|]. simpl. by rewrite IH. Qed.

(** A string that fits the array [latex] with its terminating zero. *)
Lemma strcat_fits buf s b : strcat buf s = Some b → (bytes_stored b ≤ MAX_LATEX)%nat.
Proof. unfold strcat. case_decide; [|done]. by intros [= <-]. Qed.

Lemma strcat_empty buf : (bytes_stored buf ≤ MAX_LATEX)%nat → strcat buf "" = Some buf.
Proof. intros H. unfold strcat. rewrite append_empty_r. by rewrite decide_True. Qed.

(** Calls of [strcat] one after the other append the texts one after the
    other, and have a result when the last of them has one. *)
Lemma strcat_then buf s (F : string → option string) t :
  (∀ b, (bytes_stored b ≤ MAX_LATEX)%nat → F b = strcat b t) →
  strcat buf s ≫= F = strcat buf (s ++ t).
Proof.
  intros HF. unfold strcat at 1. case_decide as Hfit; cbn.
  - rewrite HF by done. unfold strcat. by rewrite append_assoc.
  - unfold strcat. rewrite decide_False; [done|].
    unfold bytes_stored in *. rewrite !length_append in *. lia.
Qed.

Lemma latex_then (L : string → option string) txt (F : string → option string) t b :
  (∀ b, (bytes_stored b ≤ MAX_LATEX)%nat → L b = strcat b txt) →
  (∀ b, (bytes_stored b ≤ MAX_LATEX)%nat → F b = strcat b t) →
  (bytes_stored b ≤ MAX_LATEX)%nat →
  L b ≫= F = strcat b (txt ++ t).
Proof. intros HL HF Hb. rewrite HL by done. by apply strcat_then. Qed.

(** The calls of one case of [latex_node], from the first to the last. *)
Ltac latex_steps IHs :=
  repeat first
    [ apply strcat_then; intros ? ?
    | eapply (latex_then (latex_sequence _ _ _));
        [by (intros; apply IHs)| |assumption]; intros ? ? ];
  try reflexivity.

(** The serializer on a pool that holds a tree: every call appends the
    text of the tree it is given. *)
Lemma latex_of_view fuel ns :
  (∀ i t buf, tree_of fuel ns i = Some t → (bytes_stored buf ≤ MAX_LATEX)%nat →
              latex_node fuel ns (Some i) buf = strcat buf (latex_tree t)) ∧
  (∀ p ts buf, slot_of fuel ns p = Some ts → (bytes_stored buf ≤ MAX_LATEX)%nat →
               latex_sequence fuel ns p buf = strcat buf (latex_trees ts)) ∧
  (∀ c ts buf, chain_of fuel ns c = Some ts → (bytes_stored buf ≤ MAX_LATEX)%nat →
               latex_children fuel ns c buf = strcat buf (latex_trees ts)).
Proof.
  induction fuel as [|fuel (IHt & IHs & IHc)]; [done|].
  repeat split.
  - intros i t buf H Hbuf. cbn [tree_of latex_node] in *.
    destruct (ns !! i) as [n|]; [|done]. cbn [mbind option_bind] in *.
    destruct (type n); try done;
      repeat match goal with
      | H : (slot_of fuel ns ?p ≫= _) = Some _ |- _ =>
          let E := fresh "E" in
          let a := fresh "a" in
          destruct (slot_of fuel ns p) as [a|] eqn:E; [|done];
          cbn [mbind option_bind] in H
      end;
      injection H as <-; cbn [latex_tree]; rewrite ?latex_trees_inner.
    + (* text *)
      by repeat case_match.
    + latex_steps IHs.
    + latex_steps IHs.
    + latex_steps IHs.
    + case_decide; latex_steps IHs.
    + latex_steps IHs.
    + latex_steps IHs.
    + latex_steps IHs.
    + latex_steps IHs.
    + latex_steps IHs.
  - intros p ts buf H Hbuf. cbn [slot_of latex_sequence] in *.
    destruct p as [s|]; [|done]. cbn [mbind option_bind] in *.
    destruct (ns !! s) as [sn|]; [|done]. cbn [mbind option_bind] in *.
    destruct (decide (type sn = NODE_SEQUENCE)); [|done]. by apply IHc.
  - intros c ts buf H Hbuf. cbn [chain_of latex_children] in *.
    destruct c as [c|].
    { destruct (tree_of fuel ns c) as [t|] eqn:Et; [|done].
      cbn [mbind option_bind] in H.
      destruct (ns !! c) as [cn|]; [|done]. cbn [mbind option_bind] in H.
      destruct (chain_of fuel ns (next cn)) as [ts'|] eqn:Ec; [|done].
      injection H as <-. rewrite (IHt c t buf Et Hbuf).
      change (latex_trees (t :: ts')) with (latex_tree t ++ latex_trees ts').
      apply strcat_then. intros b Hb. cbn [mbind option_bind]. by apply IHc. }
    injection H as <-. by rewrite strcat_empty.
Qed.

(** On an expression that has a tree view the serializer writes the text
    determined by that tree alone. When the text and its terminating zero
    fit the [MAX_LATEX] bytes of [latex], [math2_to_latex] stores it in place
    of what the buffer held and changes nothing else; when they do not fit,
    the calls of [strcat] go past the end of the array and the call has no
    defined result. Nothing is cut and nothing is reported. *)
Theorem math2_to_latex_of_expression (e : math_expr2_t) (ts : list tree) :
  expression e = Some ts →
  ((bytes_stored (latex_trees ts) ≤ MAX_LATEX)%nat →
   math2_to_latex e = Some ((), with_latex (latex_trees ts) e)) ∧
  ((MAX_LATEX < bytes_stored (latex_trees ts))%nat → math2_to_latex e = None).
Proof.
  unfold expression, math2_to_latex. generalize render_fuel. intros k H.
  destruct (latex_of_view k (nodes e)) as (_ & Hs & _).
  rewrite (Hs _ _ EmptyString H) by (unfold bytes_stored, MAX_LATEX; cbn; lia).
  unfold strcat. change (EmptyString ++ latex_trees ts) with (latex_trees ts).
  split; intros Hlen; [by rewrite decide_True|].
  rewrite decide_False; [done|]. intros Hle. lia.
Qed.

Local Close Scope string_scope.

(** ** The size of an expression *)

Local Open Scope Z_scope.

Lemma half_bounds h : 0 ≤ h → 0 ≤ h ÷ 2 ≤ h.
Proof.
  intros H. rewrite Z.quot_div_nonneg by lia. split.
  - apply Z.div_pos; lia.
  - apply Z.div_le_upper_bound; lia.
Qed.

Lemma scale_nonneg v p : 0 ≤ v → 0 ≤ p → 0 ≤ scale v p.
Proof. intros. unfold scale. apply Z.quot_pos; nia. Qed.

Lemma text_height_nonneg fs : 0 ≤ fs → 0 ≤ text_height fs.
Proof. intros. by apply scale_nonneg. Qed.

Lemma text_width_nonneg s fs : 0 ≤ fs → 0 ≤ text_width s fs.
Proof. intros. apply scale_nonneg; [unfold CHAR_W, strlen; lia|done]. Qed.

Lemma box_min_size w h m : 0 ≤ w → box m → box (min_size w h m) ∧
  w ≤ width (min_size w h m) ∧ h ≤ height (min_size w h m) ∧
  baseline (min_size w h m) = baseline m ∧ height m ≤ height (min_size w h m).
Proof.
  intros Hw (H1 & H2 & H3). unfold box, min_size, at_least. cbn.
  repeat case_decide; lia.
Qed.

Ltac name_min_sizes :=
  repeat match goal with
         | |- context [min_size ?w ?h ?r] =>
             let F := fresh "F" in
             let q := fresh "q" in
             assert (0 ≤ w) as F by lia;
             apply (box_min_size w h r) in F; [|assumption];
             revert F; generalize (min_size w h r); intros q F;
             destruct F as ((? & ? & ?) & ? & ? & ? & ?)
         end.

Ltac name_halves :=
  repeat match goal with
         | |- context [?h ÷ 2] =>
             let F := fresh "F" in
             assert (0 ≤ h ÷ 2 ≤ h) as F by (apply half_bounds; lia);
             revert F; generalize (h ÷ 2); intros ? F
         end.

Lemma measure_box fuel ns :
  (∀ node fs m, 0 ≤ fs → math2_measure fuel ns node fs = Some m → box m) ∧
  (∀ seq fs m, 0 ≤ fs → measure_sequence fuel ns seq fs = Some m → box m) ∧
  (∀ child fs w a b w' a' b',
     0 ≤ fs → 0 ≤ w → 0 ≤ a → 0 ≤ b →
     measure_children fuel ns child fs (w, a, b) = Some (w', a', b') →
     0 ≤ w' ∧ 0 ≤ a' ∧ 0 ≤ b').
Proof.
  induction fuel as [|fuel (IHn & IHs & IHc)]; [done|].
  assert (∀ fs, 0 ≤ fs → 0 ≤ at_least 60 (scale fs EXP_SCALE)) as Hexp.
  { intros fs Hfs. unfold at_least. case_decide; [lia|].
    apply scale_nonneg; [done|unfold EXP_SCALE; lia]. }
  split; [|split].
  - intros node fs m Hfs H. cbn [math2_measure] in H.
    destruct node as [i|]; [|injection H as <-; unfold box; cbn; lia].
    destruct (ns !! i) as [n|]; [|done]. cbn in H.
    pose proof (text_height_nonneg fs Hfs) as Hth.
    destruct (type n); try (injection H as <-; unfold box; cbn; lia);
      try (by eapply (IHs _ _ _ Hfs));
    repeat match goal with
      | H : (math2_measure fuel ns ?p ?s ≫= _) = Some _ |- _ =>
          let E := fresh "E" in
          let r := fresh "r" in
          destruct (math2_measure fuel ns p s) as [r|] eqn:E; [|done];
          cbn [mbind option_bind] in H;
          apply IHn in E;
          [|first [ done | by apply Hexp
                  | by apply scale_nonneg; [|unfold EXP_SCALE; lia] ]]
      end;
    try case_decide; injection H as <-;
    name_min_sizes; unfold box, larger, FRAC_PAD, FRAC_BAR_H in *;
    cbn [width height baseline];
    repeat match goal with
           | |- context [text_width ?s fs] =>
               let F := fresh "F" in
               pose proof (text_width_nonneg s fs Hfs) as F;
               revert F; generalize (text_width s fs); intros ? F
           | |- context [scale 10 fs] =>
               let F := fresh "F" in
               assert (0 ≤ scale 10 fs) as F by (apply scale_nonneg; lia);
               revert F; generalize (scale 10 fs); intros ? F
           end;
    unfold at_least in *; repeat case_decide; name_halves; lia.
  - intros seq fs m Hfs H. cbn [measure_sequence] in H.
    destruct seq as [s|]; [|injection H as <-; unfold box; cbn; lia].
    destruct (ns !! s) as [sn|]; [|done]. cbn in H.
    destruct (decide (type sn = NODE_SEQUENCE)); [|injection H as <-; unfold box; cbn; lia].
    destruct (measure_children fuel ns (seq_first sn) fs (0, 0, 0))
      as [[[w a] b]|] eqn:E; [|done].
    apply IHc in E; [|lia..]. cbn in H.
    pose proof (text_height_nonneg fs Hfs) as Hth.
    repeat case_decide; injection H as <-; unfold box; cbn [width height baseline];
      name_halves; lia.
  - intros child fs w a b w' a' b' Hfs Hw Ha Hb H. cbn [measure_children] in H.
    destruct child as [c|]; [|injection H as <- <- <-; lia].
    destruct (math2_measure fuel ns (Some c) fs) as [cm|] eqn:E; [|done].
    apply IHn in E; [|done]. destruct E as (? & ? & ?). cbn in H.
    destruct (ns !! c) as [cn|]; [|done]. cbn in H.
    apply IHc in H; [done|done|lia|unfold larger; case_decide; lia..].
Qed.

Lemma measure_children_inner ts fs acc :
  (fix go (ts : list tree) (fs : Z) (acc : Z * Z * Z) : Z * Z * Z :=
     match ts with
     | [] => acc
     | t :: rest => go rest fs (add_child (measure_tree t fs) acc)
     end) ts fs acc = measure_children_of ts fs acc.
Proof. revert acc. induction ts as [|t ts IH]; intros acc; [done|]. apply IH. Qed.

Lemma measure_of_view k ns :
  (∀ i t fs f, tree_of k ns i = Some t → (2 * k ≤ f)%nat →
               math2_measure f ns (Some i) fs = Some (measure_tree t fs)) ∧
  (∀ p ts fs f, slot_of k ns p = Some ts → (2 * k + 1 ≤ f)%nat →
                math2_measure f ns p fs = Some (measure_slot ts fs)) ∧
  (∀ c ts fs acc f, chain_of k ns c = Some ts → (2 * k ≤ f)%nat →
                    measure_children f ns c fs acc
                      = Some (measure_children_of ts fs acc)).
Proof.
  induction k as [|k (IHt & IHs & IHc)]; [done|].
  split; [|split].
  - intros i t fs f H Hf. destruct f as [|f]; [lia|].
    cbn [tree_of math2_measure] in *.
    destruct (ns !! i) as [n|]; [|done]. cbn in *.
    destruct (type n); try done;
      repeat match goal with
      | H : (slot_of k ns ?p ≫= _) = Some _ |- _ =>
          let E := fresh "E" in
          let a := fresh "a" in
          destruct (slot_of k ns p) as [a|] eqn:E; [|done]; cbn in H
      end;
      injection H as <-;
      repeat match goal with
      | E : slot_of k ns ?p = Some ?a |- context [math2_measure f ns ?p ?s] =>
          rewrite (IHs p a s f E) by lia; cbn [mbind option_bind]
      end;
      cbn [measure_tree]; rewrite ?measure_children_inner; try done.
    by case_decide.
  - intros p ts fs f H Hf. destruct f as [|[|f]]; [lia..|].
    cbn [slot_of math2_measure measure_sequence] in *.
    destruct p as [s|]; [|done]. cbn in *.
    destruct (ns !! s) as [sn|]; [|done]. cbn in *.
    destruct (decide (type sn = NODE_SEQUENCE)) as [Ht|]; [|done].
    rewrite Ht. cbn.
    rewrite (IHc _ _ fs (0, 0, 0) f H) by lia. cbn.
    unfold measure_slot, sequence_metrics.
    destruct (measure_children_of ts fs (0, 0, 0)) as [[w a] b]. cbn.
    by case_decide.
  - intros c ts fs acc f H Hf. destruct f as [|f]; [lia|].
    cbn [chain_of measure_children] in *.
    destruct c as [c|]; [|by injection H as <-].
    destruct (tree_of k ns c) as [t|] eqn:Et; [|done]. cbn in H.
    destruct (ns !! c) as [cn|]; [|done]. cbn in H.
    destruct (chain_of k ns (next cn)) as [ts'|] eqn:Ec; [|done].
    injection H as <-. destruct acc as [[w a] b].
    rewrite (IHt c t fs f Et) by lia. cbn.
    rewrite (IHc _ _ fs _ f Ec) by lia. done.
Qed.

(** [math2_measure], [math2_get_width] and [math2_get_height] succeed on an
    expression that has a tree view, and their values depend on the tree
    alone, not on where its nodes lie in the pool. *)
Theorem math2_measure_of_expression (e : math_expr2_t) (k : nat) (ts : list tree) :
  slot_of k (nodes e) (root e) = Some ts → (2 * k + 1 ≤ render_fuel)%nat →
  math2_measure render_fuel (nodes e) (root e) 100 = Some (measure_slot ts 100) ∧
  math2_get_width e = Some (width (measure_slot ts 100)) ∧
  math2_get_height e = Some (height (measure_slot ts 100)) ∧
  0 ≤ width (measure_slot ts 100) ∧
  0 ≤ baseline (measure_slot ts 100) ≤ height (measure_slot ts 100).
Proof.
  unfold math2_get_width, math2_get_height. generalize render_fuel.
  intros f H Hf.
  destruct (measure_of_view k (nodes e)) as (_ & Hs & _).
  pose proof (Hs _ _ 100 f H Hf) as Hm. rewrite Hm. cbn.
  split; [done|]. split; [done|]. split; [done|].
  by apply (measure_box f (nodes e)) in Hm.
Qed.

(** The sizes and the metrics of a node, from those of its slots. *)
Lemma tree_nodes_slots t :
  tree_nodes t =
  match t with
  | TText _ _ => 1
  | TFraction a b | TExponent a b | TSubscript a b | TNthroot a b =>
      3 + trees_nodes a + trees_nodes b
  | TRoot _ a | TAbs a | TParen a | TFunction _ a => 2 + trees_nodes a
  | TMixed w a b => 4 + trees_nodes w + trees_nodes a + trees_nodes b
  end.
Proof.
  assert (∀ ts, (fix go (ts : list tree) : Z :=
                   match ts with
                   | [] => 0
                   | t :: rest => tree_nodes t + go rest
                   end) ts = trees_nodes ts) as Hin.
  { induction ts as [|t' ts IH]; [done|]. cbn [foldr trees_nodes]. by rewrite IH. }
  destruct t; cbn [tree_nodes]; by rewrite ?Hin.
Qed.

Lemma tree_bytes_slots t :
  tree_bytes t =
  match t with
  | TText _ text => strlen text
  | TFraction a b | TExponent a b | TSubscript a b | TNthroot a b =>
      trees_bytes a + trees_bytes b
  | TRoot _ a | TAbs a | TParen a => trees_bytes a
  | TFunction name a => strlen name + trees_bytes a
  | TMixed w a b => trees_bytes w + trees_bytes a + trees_bytes b
  end.
Proof.
  assert (∀ ts, (fix go (ts : list tree) : Z :=
                   match ts with
                   | [] => 0
                   | t :: rest => tree_bytes t + go rest
                   end) ts = trees_bytes ts) as Hin.
  { induction ts as [|t' ts IH]; [done|]. cbn [foldr trees_bytes]. by rewrite IH. }
  destruct t; cbn [tree_bytes]; by rewrite ?Hin.
Qed.

Lemma measure_tree_slots t fs :
  measure_tree t fs =
  match t with
  | TText subtype text =>
      let h := text_height fs in
      if decide (subtype = TEXT_PI) then mk_metrics 10 h (h ÷ 2)
      else mk_metrics (text_width text fs) h (h ÷ 2)
  | TFraction a b =>
      let num := min_size 12 10 (measure_slot a fs) in
      let den := min_size 12 10 (measure_slot b fs) in
      mk_metrics (larger (width num) (width den) + 4)
                 (height num + FRAC_PAD + FRAC_BAR_H + FRAC_PAD + height den)
                 (height num + FRAC_PAD)
  | TExponent a b =>
      let base := measure_slot a fs in
      let power := min_size 8 10 (measure_slot b (at_least 60 (scale fs EXP_SCALE))) in
      mk_metrics (width base + width power + 4)
                 (height base + height power - 4)
                 (baseline base + height power - 4)
  | TSubscript a b =>
      let base := measure_slot a fs in
      let sub := min_size 8 8 (measure_slot b (scale fs EXP_SCALE)) in
      mk_metrics (width base + width sub) (height base + height sub ÷ 2)
                 (baseline base)
  | TRoot i a =>
      let content := min_size 12 10 (measure_slot a fs) in
      let root_w := scale 10 fs in
      let index_w := if decide (i ≠ 2) then 8 else 0 in
      let index_h := if decide (i ≠ 2) then 8 else 0 in
      mk_metrics (index_w + root_w + width content + 2)
                 (height content + 4 + index_h ÷ 2)
                 (baseline content + 2 + index_h ÷ 2)
  | TNthroot a b =>
      let idx := min_size 8 8 (measure_slot a (scale fs 60)) in
      let content := min_size 12 10 (measure_slot b fs) in
      let root_w := scale 10 fs in
      mk_metrics (width idx + root_w + width content + 2)
                 (height content + 4 + height idx ÷ 2)
                 (baseline content + 2 + height idx ÷ 2)
  | TAbs a =>
      let content := min_size 8 10 (measure_slot a fs) in
      mk_metrics (width content + 8) (height content + 4) (baseline content + 2)
  | TParen a =>
      let content := min_size 8 10 (measure_slot a fs) in
      let paren_w := 6 + (if decide (height content > 20) then 2 else 0) in
      mk_metrics (width content + paren_w * 2 + 4) (height content + 4)
                 (baseline content + 2)
  | TFunction name a =>
      let name_w := text_width name fs in
      let arg := min_size 8 10 (measure_slot a fs) in
      let h := larger (height arg) (text_height fs) in
      mk_metrics (name_w + 6 + width arg + 6) h (h ÷ 2)
  | TMixed w a b =>
      let whole := min_size 8 10 (measure_slot w fs) in
      let num := min_size 10 8 (measure_slot a fs) in
      let den := min_size 10 8 (measure_slot b fs) in
      let frac_w := larger (width num) (width den) + 4 in
      let frac_h := height num + FRAC_PAD + FRAC_BAR_H + FRAC_PAD + height den in
      mk_metrics (width whole + 4 + frac_w) (larger frac_h (height whole))
                 (height num + FRAC_PAD)
  end.
Proof.
  destruct t; cbn [measure_tree]; rewrite ?measure_children_inner; reflexivity.
Qed.

(** At a scale of at most 100 per cent nothing grows. *)
Lemma scale_bounds v p : 0 ≤ v → 0 ≤ p ≤ 100 → 0 ≤ scale v p ≤ v.
Proof.
  intros Hv Hp. unfold scale. rewrite Z.quot_div_nonneg by nia. split.
  - apply Z.div_pos; nia.
  - apply Z.div_le_upper_bound; nia.
Qed.

Lemma text_width_bounds s fs :
  0 ≤ fs ≤ 100 → 0 ≤ strlen s ∧ 0 ≤ text_width s fs ≤ CHAR_W * strlen s.
Proof.
  intros Hfs. assert (0 ≤ strlen s) by (unfold strlen; lia). split; [done|].
  apply scale_bounds; [unfold CHAR_W; lia|done].
Qed.

Lemma text_height_bounds fs : 0 ≤ fs ≤ 100 → 0 ≤ text_height fs ≤ 14.
Proof. intros Hfs. by apply (scale_bounds CHAR_H fs). Qed.

(** The font scales [math2_measure] passes down stay between 0 and 100. *)
Ltac font_scale_range :=
  first
    [ assumption
    | unfold at_least, EXP_SCALE; try case_decide;
      try match goal with
          | |- context [scale ?v ?p] =>
              let F := fresh "F" in
              assert (0 ≤ scale v p ≤ v) as F by (apply scale_bounds; lia)
          end;
      lia ].

Ltac name_scales fs Hfs :=
  repeat match goal with
         | |- context [text_width ?s fs] =>
             let F := fresh "F" in
             pose proof (text_width_bounds s fs Hfs) as F;
             revert F; generalize (text_width s fs); generalize (strlen s);
             intros ? ? [? ?]
         | |- context [text_height fs] =>
             let F := fresh "F" in
             pose proof (text_height_bounds fs Hfs) as F;
             revert F; generalize (text_height fs); intros ? F
         | |- context [scale 10 fs] =>
             let F := fresh "F" in
             assert (0 ≤ scale 10 fs ≤ 10) as F by (apply scale_bounds; lia);
             revert F; generalize (scale 10 fs); intros ? F
         end.

(** The metrics of a tree stay within what its size allows. *)
Lemma measure_bounds_view k ns :
  (∀ i t fs, tree_of k ns i = Some t → 0 ≤ fs ≤ 100 →
             bounded_box (measure_tree t fs) (tree_bytes t) (tree_nodes t)) ∧
  (∀ p ts fs, slot_of k ns p = Some ts → 0 ≤ fs ≤ 100 →
              bounded_box (measure_slot ts fs) (trees_bytes ts) (1 + trees_nodes ts)) ∧
  (∀ c ts fs w a b W V,
     chain_of k ns c = Some ts → 0 ≤ fs ≤ 100 →
     0 ≤ w ≤ W → 0 ≤ a → 0 ≤ b → a + b ≤ V →
     ∃ w' a' b',
       measure_children_of ts fs (w, a, b) = (w', a', b') ∧
       0 ≤ trees_bytes ts ∧ 0 ≤ trees_nodes ts ∧
       0 ≤ w' ≤ W + CHAR_W * trees_bytes ts + 40 * trees_nodes ts ∧
       0 ≤ a' ∧ 0 ≤ b' ∧ a' + b' ≤ V + 40 * trees_nodes ts).
Proof.
  induction k as [|k (IHt & IHs & IHc)]; [done|].
  split; [|split].
  - intros i t fs H Hfs. cbn [tree_of] in H.
    destruct (ns !! i) as [n|]; [|done]. cbn in H.
    destruct (type n); try done;
      repeat match goal with
      | H : (slot_of k ns ?p ≫= _) = Some _ |- _ =>
          let E := fresh "E" in
          let a := fresh "a" in
          destruct (slot_of k ns p) as [a|] eqn:E; [|done]; cbn in H
      end;
      injection H as <-;
      rewrite measure_tree_slots, tree_nodes_slots, tree_bytes_slots;
      cbn beta iota zeta;
      repeat match goal with
      | E : slot_of k ns ?p = Some ?a |- context [measure_slot ?a ?f] =>
          let F := fresh "F" in
          assert (bounded_box (measure_slot a f) (trees_bytes a) (1 + trees_nodes a))
            as F by (apply (IHs p a f E); font_scale_range);
          revert F; generalize (measure_slot a f); intros ? F;
          destruct F as (? & ? & ? & ? & ?)
      end;
      unfold bounded_box, min_size, at_least, larger, FRAC_PAD, FRAC_BAR_H, CHAR_W in *;
      cbn [width height baseline];
      name_scales fs Hfs; unfold CHAR_W in *;
      repeat case_decide; cbn [width height baseline]; name_halves; lia.
  - intros p ts fs H Hfs. cbn [slot_of] in H.
    destruct p as [s|]; [|done]. cbn in H.
    destruct (ns !! s) as [sn|]; [|done]. cbn in H.
    destruct (decide (type sn = NODE_SEQUENCE)) as [Ht|]; [|done].
    destruct (IHc _ _ fs 0 0 0 0 0 H Hfs) as (w' & a' & b' & Hm & ? & ? & ? & ? & ? & ?);
      [lia..|].
    unfold measure_slot, sequence_metrics. rewrite Hm.
    unfold bounded_box, CHAR_W in *. name_scales fs Hfs. unfold CHAR_W in *.
    repeat case_decide; cbn [width height baseline]; name_halves; lia.
  - intros c ts fs w a b W V H Hfs Hw Ha Hb Hab. cbn [chain_of] in H.
    destruct c as [c|].
    2:{ injection H as <-. exists w, a, b. cbn. unfold CHAR_W. split; [done|]. lia. }
    destruct (tree_of k ns c) as [t|] eqn:Et; [|done]. cbn in H.
    destruct (ns !! c) as [cn|]; [|done]. cbn in H.
    destruct (chain_of k ns (next cn)) as [ts'|] eqn:Ec; [|done].
    injection H as <-.
    destruct (IHt c t fs Et Hfs) as (? & ? & ? & ? & ?).
    destruct (IHc _ _ fs (w + width (measure_tree t fs))
                (larger (baseline (measure_tree t fs)) a)
                (larger (height (measure_tree t fs) - baseline (measure_tree t fs)) b)
                (W + CHAR_W * tree_bytes t + 40 * tree_nodes t)
                (V + 40 * tree_nodes t) Ec Hfs)
      as (w' & a' & b' & Hm & ? & ? & ? & ? & ? & ?);
      [unfold larger; repeat case_decide; lia..|].
    exists w', a', b'. split; [exact Hm|].
    cbn [trees_bytes trees_nodes foldr].
    fold (trees_bytes ts'). fold (trees_nodes ts'). lia.
Qed.

(** On a slot of a tree-shaped expression, and at a font scale from 0 to 100
    (the 100 of the editor and the smaller scales [math2_measure] derives
    from it for exponents, subscripts and root indices), [math2_measure]
    returns a box: its width is not negative and at most 9 for every byte of
    text plus 40 for every node and slot of the expression, its baseline
    lies between 0 and its height, and its height is at most 40 for every
    node and slot. *)
Theorem math2_measure_box (k fuel : nat) (ns : list expr_node) (node : ptr)
    (ts : list tree) (font_scale : Z) :
  slot_of k ns node = Some ts → (2 * k + 1 ≤ fuel)%nat → 0 ≤ font_scale ≤ 100 →
  ∃ m,
    math2_measure fuel ns node font_scale = Some m ∧
    0 ≤ width m ≤ CHAR_W * trees_bytes ts + 40 * (1 + trees_nodes ts) ∧
    0 ≤ baseline m ≤ height m ∧ height m ≤ 40 * (1 + trees_nodes ts).
Proof.
  intros H Hf Hfs. exists (measure_slot ts font_scale).
  destruct (measure_of_view k ns) as (_ & Hs & _).
  split; [by apply Hs|].
  destruct (measure_bounds_view k ns) as (_ & Hb & _).
  by destruct (Hb _ _ _ H Hfs) as (_ & _ & ? & ? & ?).
Qed.

Local Close Scope Z_scope.

(** ** Freeing a subtree *)

Lemma release_lookup fp ns j :
  release fp ns !! j =
  (λ n, if bool_decide (j ∈ fp) then set_type NODE_EMPTY n else n) <$> ns !! j.
Proof. unfold release. by rewrite list_lookup_imap. Qed.

Lemma release_lookup_out fp ns j : j ∉ fp → release fp ns !! j = ns !! j.
Proof.
  intros H. rewrite release_lookup, bool_decide_false by done.
  by destruct (ns !! j).
Qed.

Lemma release_app a b ns : release b (release a ns) = release (a ++ b) ns.
Proof.
  apply list_eq. intros j. rewrite !release_lookup.
  destruct (ns !! j) as [n|]; [|done]. cbn. f_equal.
  destruct (decide (j ∈ a)), (decide (j ∈ b));
    rewrite ?(bool_decide_true (j ∈ a)), ?(bool_decide_false (j ∈ a)),
            ?(bool_decide_true (j ∈ b)), ?(bool_decide_false (j ∈ b)) by done;
    [rewrite bool_decide_true by set_solver
    |rewrite bool_decide_true by set_solver
    |rewrite bool_decide_true by set_solver
    |rewrite bool_decide_false by set_solver]; done.
Qed.

Lemma release_cons i fp ns :
  alter (set_type NODE_EMPTY) i (release fp ns) = release (fp ++ [i]) ns.
Proof.
  apply list_eq. intros j. destruct (decide (i = j)) as [->|Hij].
  - rewrite list_lookup_alter_eq, !release_lookup.
    destruct (ns !! j) as [n|]; [|done]. cbn. f_equal.
    rewrite (bool_decide_true (j ∈ fp ++ [j])) by set_solver.
    by case_bool_decide.
  - rewrite list_lookup_alter_ne, !release_lookup by done.
    destruct (ns !! j) as [n|]; [|done]. cbn. f_equal.
    destruct (decide (j ∈ fp)).
    + by rewrite !bool_decide_true by set_solver.
    + by rewrite !bool_decide_false by set_solver.
Qed.

Lemma release_perm fp fp' ns : fp ≡ₚ fp' → release fp ns = release fp' ns.
Proof.
  intros H. apply list_eq. intros j. rewrite !release_lookup.
  destruct (ns !! j) as [n|]; [|done]. cbn. f_equal.
  destruct (decide (j ∈ fp)) as [Hj|Hj].
  - rewrite !bool_decide_true; [done| |done]. by rewrite <- H.
  - rewrite !bool_decide_false; [done| |done]. by rewrite <- H.
Qed.

Ltac split_binds f :=
  repeat match goal with
         | H : (f ?k ?ns ?p ≫= _) = Some _ |- _ =>
             let E := fresh "E" in
             let a := fresh "a" in
             destruct (f k ns p) as [a|] eqn:E; [|done];
             cbn [mbind option_bind] in H
         end.

Lemma footprint_head k ns :
  (∀ i fp, footprint_of k ns i = Some fp → ∃ r, fp = i :: r) ∧
  (∀ p fp, slot_footprint k ns p = Some fp → ∃ s r, p = Some s ∧ fp = s :: r).
Proof.
  destruct k as [|k]; [done|]. split.
  - intros i fp H. cbn [footprint_of] in H.
    destruct (ns !! i) as [n|]; [|done]. cbn in H.
    destruct (type n); try done; split_binds slot_footprint;
      injection H as <-; eauto.
  - intros p fp H. cbn [slot_footprint] in H.
    destruct p as [s|]; [|done]. cbn in H.
    destruct (ns !! s) as [sn|]; [|done]. cbn in H.
    destruct (decide _); [|done].
    destruct (chain_footprint k ns (seq_first sn)); [|done].
    injection H as <-. eauto.
Qed.

(** The footprint is read from the slots it names, and from no other. *)
Lemma footprint_frame k ns ns' :
  (∀ i fp, footprint_of k ns i = Some fp →
           (∀ j, j ∈ fp → ns' !! j = ns !! j) → footprint_of k ns' i = Some fp) ∧
  (∀ p fp, slot_footprint k ns p = Some fp →
           (∀ j, j ∈ fp → ns' !! j = ns !! j) → slot_footprint k ns' p = Some fp) ∧
  (∀ c fp, chain_footprint k ns c = Some fp →
           (∀ j, j ∈ fp → ns' !! j = ns !! j) → chain_footprint k ns' c = Some fp).
Proof.
  induction k as [|k (IHt & IHs & IHc)]; [done|].
  split; [|split].
  - intros i fp H Hsame. cbn [footprint_of] in *.
    destruct (ns !! i) as [n|] eqn:Hn; [|done]. cbn in H.
    assert (ns' !! i = Some n) as ->.
    { rewrite <- Hn. apply Hsame.
      destruct (type n); try done; split_binds slot_footprint;
        injection H as <-; left. }
    cbn. destruct (type n); try done; split_binds slot_footprint;
      injection H as <-;
      repeat match goal with
             | E : slot_footprint k ns ?p = Some ?a |- _ =>
                 apply IHs in E; [rewrite E; clear E|];
                 [|intros; apply Hsame; set_solver]
             end; done.
  - intros p fp H Hsame. cbn [slot_footprint] in *.
    destruct p as [s|]; [|done]. cbn in *.
    destruct (ns !! s) as [sn|] eqn:Hn; [|done]. cbn in H.
    destruct (decide (type sn = NODE_SEQUENCE)) as [Ht|]; [|done].
    destruct (chain_footprint k ns (seq_first sn)) as [cs|] eqn:E; [|done].
    injection H as <-.
    rewrite (Hsame s) by left. rewrite Hn. cbn. rewrite decide_True by done.
    apply IHc in E; [by rewrite E|]. intros; apply Hsame; by right.
  - intros c fp H Hsame. cbn [chain_footprint] in *.
    destruct c as [c|]; [|done].
    destruct (footprint_of k ns c) as [a|] eqn:Ea; [|done]. cbn in H.
    destruct (ns !! c) as [cn|] eqn:Hn; [|done]. cbn in H.
    destruct (chain_footprint k ns (next cn)) as [r|] eqn:Er; [|done].
    injection H as <-.
    destruct (proj1 (footprint_head k ns) _ _ Ea) as (r' & ->).
    rewrite (IHt _ _ Ea) by (intros; apply Hsame; set_solver). cbn.
    rewrite (Hsame c) by left. rewrite Hn. cbn.
    rewrite (IHc _ _ Er) by (intros; apply Hsame; set_solver). done.
Qed.

Section FreeSteps.
Context (f' k' : nat).
Hypothesis IHS : ∀ p fp e,
slot_footprint k' (nodes e) p = Some fp → NoDup fp →
math2_free_node f' p e = Some ((), with_nodes (release fp (nodes e)) e).

Lemma with_nodes_twice ns ns' e : with_nodes ns (with_nodes ns' e) = with_nodes ns e.
Proof. done. Qed.

Lemma free_slot_next e p fp p' fp' :
  slot_footprint k' (nodes e) p = Some fp →
  slot_footprint k' (nodes e) p' = Some fp' →
  NoDup (fp ++ fp') →
  math2_free_node f' p e = Some ((), with_nodes (release fp (nodes e)) e) ∧
  slot_footprint k' (release fp (nodes e)) p' = Some fp'.
Proof.
  intros H H' Hnd. apply NoDup_app in Hnd as (Hnd & Hdisj & Hnd').
  split; [by apply IHS|].
  eapply (footprint_frame k' (nodes e)); [exact H'|].
  intros j Hj. apply release_lookup_out. intros Hin. by apply (Hdisj j).
Qed.

Lemma free_store e i n fp :
  nodes e !! i = Some n → i ∉ fp →
  store i (set_type NODE_EMPTY) (with_nodes (release fp (nodes e)) e)
    = Some ((), with_nodes (release (i :: fp) (nodes e)) e).
Proof.
  intros Hn Hi. unfold store. cbn [nodes with_nodes].
  rewrite release_lookup_out, Hn by done. rewrite with_nodes_twice.
  rewrite release_cons. do 2 f_equal. unfold with_nodes. f_equal.
  apply release_perm. by rewrite Permutation_app_comm.
Qed.

Lemma free_one (g : expr_node → ptr) e i n a :
  nodes e !! i = Some n →
  slot_footprint k' (nodes e) (g n) = Some a → NoDup (i :: a) →
  (math2_free_node f' (g n);; store i (set_type NODE_EMPTY)) e
    = Some ((), with_nodes (release (i :: a) (nodes e)) e).
Proof.
  intros Hn Ha Hnd. apply NoDup_cons in Hnd as [Hi Hnd].
  rewrite (bind_eq _ _ _ _ _ (IHS _ _ _ Ha Hnd)). by apply (free_store e i n).
Qed.

Lemma free_two (g1 g2 : expr_node → ptr) e i n a b :
  nodes e !! i = Some n →
  slot_footprint k' (nodes e) (g1 n) = Some a →
  slot_footprint k' (nodes e) (g2 n) = Some b →
  NoDup (i :: a ++ b) →
  ((math2_free_node f' (g1 n);; n' ← load i; math2_free_node f' (g2 n'));;
   store i (set_type NODE_EMPTY)) e
    = Some ((), with_nodes (release (i :: a ++ b) (nodes e)) e).
Proof.
  intros Hn Ha Hb Hnd. apply NoDup_cons in Hnd as [Hi Hnd].
  destruct (free_slot_next e _ _ _ _ Ha Hb Hnd) as [H1 Hb1].
  pose proof Hnd as (Hnda & _ & Hndb)%NoDup_app.
  set (e1 := with_nodes (release a (nodes e)) e) in *.
  assert (load i e1 = Some (n, e1)) as Hl.
  { apply load_eq. cbn. rewrite release_lookup_out; [done|]. set_solver. }
  assert (((math2_free_node f' (g1 n);; n' ← load i; math2_free_node f' (g2 n')) e)
          = Some ((), with_nodes (release (a ++ b) (nodes e)) e)) as H2.
  { rewrite (bind_eq _ _ _ _ _ H1). rewrite (bind_eq _ _ _ _ _ Hl).
    rewrite (IHS _ _ e1 Hb1 Hndb). unfold e1. cbn [nodes with_nodes].
    by rewrite release_app. }
  rewrite (bind_eq _ _ _ _ _ H2). by apply (free_store e i n).
Qed.

Lemma free_three (g1 g2 g3 : expr_node → ptr) e i n a b c :
  nodes e !! i = Some n →
  slot_footprint k' (nodes e) (g1 n) = Some a →
  slot_footprint k' (nodes e) (g2 n) = Some b →
  slot_footprint k' (nodes e) (g3 n) = Some c →
  NoDup (i :: a ++ b ++ c) →
  ((math2_free_node f' (g1 n);; n' ← load i; math2_free_node f' (g2 n');;
    n'' ← load i; math2_free_node f' (g3 n''));;
   store i (set_type NODE_EMPTY)) e
    = Some ((), with_nodes (release (i :: a ++ b ++ c) (nodes e)) e).
Proof.
  intros Hn Ha Hb Hc Hnd. apply NoDup_cons in Hnd as [Hi Hnd].
  pose proof Hnd as (Hnda & Hdisj & Hndbc)%NoDup_app.
  pose proof Hndbc as (Hndb & Hdisj' & Hndc)%NoDup_app.
  assert (NoDup (a ++ b)) as Hab.
  { apply NoDup_app. repeat split; try done. intros j Hj Hjb.
    apply (Hdisj j Hj). set_solver. }
  destruct (free_slot_next e _ _ _ _ Ha Hb Hab) as [H1 Hb1].
  set (e1 := with_nodes (release a (nodes e)) e) in *.
  assert (load i e1 = Some (n, e1)) as Hl1.
  { apply load_eq. cbn. rewrite release_lookup_out; [done|]. set_solver. }
  set (e2 := with_nodes (release (a ++ b) (nodes e)) e).
  assert (math2_free_node f' (g2 n) e1 = Some ((), e2)) as H2.
  { rewrite (IHS _ _ e1 Hb1 Hndb). unfold e1, e2. cbn [nodes with_nodes].
    by rewrite release_app. }
  assert (load i e2 = Some (n, e2)) as Hl2.
  { apply load_eq. cbn. rewrite release_lookup_out; [done|]. set_solver. }
  assert (slot_footprint k' (nodes e2) (g3 n) = Some c) as Hc2.
  { eapply (footprint_frame k' (nodes e)); [exact Hc|].
    intros j Hj. apply release_lookup_out. intros Hin.
    apply elem_of_app in Hin as [Hin|Hin].
    - apply (Hdisj j Hin). set_solver.
    - by apply (Hdisj' j Hin). }
  assert (math2_free_node f' (g3 n) e2
          = Some ((), with_nodes (release (a ++ b ++ c) (nodes e)) e)) as H3.
  { rewrite (IHS _ _ e2 Hc2 Hndc). unfold e2. cbn [nodes with_nodes].
    by rewrite release_app, <- app_assoc. }
  assert (((math2_free_node f' (g1 n);; n' ← load i; math2_free_node f' (g2 n');;
            n'' ← load i; math2_free_node f' (g3 n'')) e)
          = Some ((), with_nodes (release (a ++ b ++ c) (nodes e)) e)) as H4.
  { rewrite (bind_eq _ _ _ _ _ H1). rewrite (bind_eq _ _ _ _ _ Hl1).
    rewrite (bind_eq _ _ _ _ _ H2). rewrite (bind_eq _ _ _ _ _ Hl2). done. }
  rewrite (bind_eq _ _ _ _ _ H4). by apply (free_store e i n).
Qed.
End FreeSteps.

Lemma free_releases k :
  (∀ i fp e f, footprint_of k (nodes e) i = Some fp → NoDup fp → k ≤ f →
     math2_free_node f (Some i) e = Some ((), with_nodes (release fp (nodes e)) e)) ∧
  (∀ p fp e f, slot_footprint k (nodes e) p = Some fp → NoDup fp → k ≤ f →
     math2_free_node f p e = Some ((), with_nodes (release fp (nodes e)) e)) ∧
  (∀ c fp e f, chain_footprint k (nodes e) c = Some fp → NoDup fp → k ≤ f →
     free_children f c e = Some ((), with_nodes (release fp (nodes e)) e)).
Proof.
  induction k as [|k (IHt & IHs & IHc)]; [done|].
  split; [|split].
  - intros i fp e f H Hnd Hf. destruct f as [|f]; [lia|].
    assert (∀ p fp e, slot_footprint k (nodes e) p = Some fp → NoDup fp →
              math2_free_node f p e = Some ((), with_nodes (release fp (nodes e)) e))
      as IHS by (intros; apply IHs; [done|done|lia]).
    cbn [footprint_of math2_free_node] in *.
    destruct (nodes e !! i) as [n|] eqn:Hn; [|done]. cbn in H.
    rewrite (bind_eq _ _ _ _ _ (load_eq _ _ _ Hn)).
    destruct (decide (type n = NODE_EMPTY)) as [He|_]; [by rewrite He in H|].
    destruct (type n); try done; split_binds slot_footprint; injection H as <-.
    + (* text *)
      rewrite (bind_eq _ _ e () e) by done.
      rewrite <- (free_store e i n []) by (done || set_solver).
      f_equal. unfold release. rewrite <- (with_nodes_same e) at 1. f_equal.
      unfold with_nodes. f_equal. symmetry. apply list_eq. intros j.
      rewrite list_lookup_imap. destruct (nodes e !! j); [|done]. cbn.
      by rewrite bool_decide_false by set_solver.
    + by apply (free_two f k IHS frac_numer frac_denom).
    + by apply (free_two f k IHS exp_base exp_power).
    + by apply (free_two f k IHS subscript_base subscript_sub).
    + by apply (free_one f k IHS root_content).
    + by apply (free_two f k IHS nthroot_index nthroot_content).
    + by apply (free_one f k IHS abs_content).
    + by apply (free_one f k IHS paren_content).
    + by apply (free_one f k IHS func_arg).
    + by apply (free_three f k IHS mixed_whole mixed_numer mixed_denom).
  - intros p fp e f H Hnd Hf. destruct f as [|f]; [lia|].
    cbn [slot_footprint math2_free_node] in *.
    destruct p as [s|]; [|done]. cbn in H.
    destruct (nodes e !! s) as [sn|] eqn:Hn; [|done]. cbn in H.
    destruct (decide (type sn = NODE_SEQUENCE)) as [Ht|]; [|done].
    destruct (chain_footprint k (nodes e) (seq_first sn)) as [cs|] eqn:E; [|done].
    injection H as <-. apply NoDup_cons in Hnd as [Hs Hnd].
    rewrite (bind_eq _ _ _ _ _ (load_eq _ _ _ Hn)).
    rewrite decide_False by (by rewrite Ht). rewrite Ht.
    rewrite (bind_eq _ _ _ _ _ (IHc _ _ e f E Hnd ltac:(lia))).
    by apply (free_store e s sn).
  - intros c fp e f H Hnd Hf. destruct f as [|f]; [lia|].
    cbn [chain_footprint free_children] in *.
    destruct c as [c|].
    2:{ injection H as <-. unfold mret, M_ret. do 2 f_equal.
        rewrite <- (with_nodes_same e) at 1. unfold with_nodes. f_equal.
        symmetry. apply list_eq. intros j. unfold release.
        rewrite list_lookup_imap. destruct (nodes e !! j); [|done]. cbn.
        by rewrite bool_decide_false by set_solver. }
    destruct (footprint_of k (nodes e) c) as [a|] eqn:Ea; [|done]. cbn in H.
    destruct (nodes e !! c) as [cn|] eqn:Hn; [|done]. cbn in H.
    destruct (chain_footprint k (nodes e) (next cn)) as [r|] eqn:Er; [|done].
    injection H as <-. apply NoDup_app in Hnd as (Hnda & Hdisj & Hndr).
    rewrite (bind_eq _ _ _ _ _ (load_eq _ _ _ Hn)).
    rewrite (bind_eq _ _ _ _ _ (IHt _ _ e f Ea Hnda ltac:(lia))).
    assert (chain_footprint k (release a (nodes e)) (next cn) = Some r) as Er'.
    { eapply (footprint_frame k (nodes e)); [exact Er|].
      intros j Hj. apply release_lookup_out. intros Hin. by apply (Hdisj j). }
    rewrite (IHc _ _ (with_nodes (release a (nodes e)) e) f Er' Hndr ltac:(lia)).
    cbn [nodes with_nodes]. by rewrite release_app.
Qed.

Lemma footprint_live k ns :
  (∀ i fp, footprint_of k ns i = Some fp →
           ∀ j, j ∈ fp → ∃ n, ns !! j = Some n ∧ type n ≠ NODE_EMPTY) ∧
  (∀ p fp, slot_footprint k ns p = Some fp →
           ∀ j, j ∈ fp → ∃ n, ns !! j = Some n ∧ type n ≠ NODE_EMPTY) ∧
  (∀ c fp, chain_footprint k ns c = Some fp →
           ∀ j, j ∈ fp → ∃ n, ns !! j = Some n ∧ type n ≠ NODE_EMPTY).
Proof.
  induction k as [|k (IHt & IHs & IHc)]; [done|].
  split; [|split].
  - intros i fp H j Hj. cbn [footprint_of] in H.
    destruct (ns !! i) as [n|] eqn:Hn; [|done]. cbn in H.
    destruct (type n) eqn:Ht; try done; split_binds slot_footprint;
      injection H as <-;
      rewrite ?elem_of_cons, ?elem_of_app, ?elem_of_nil in Hj;
      destruct_or!; simplify_eq;
      first [ by (exists n; split; [done|congruence])
            | match goal with
              | E : slot_footprint k ns _ = Some ?a, H : _ ∈ ?a |- _ =>
                  exact (IHs _ _ E _ H)
              end ].
  - intros p fp H j Hj. cbn [slot_footprint] in H.
    destruct p as [s|]; [|done]. cbn in H.
    destruct (ns !! s) as [sn|] eqn:Hn; [|done]. cbn in H.
    destruct (decide (type sn = NODE_SEQUENCE)) as [Ht|]; [|done].
    destruct (chain_footprint k ns (seq_first sn)) as [cs|] eqn:E; [|done].
    injection H as <-. apply elem_of_cons in Hj as [->|Hj].
    + exists sn. split; [done|congruence].
    + by eapply IHc.
  - intros c fp H j Hj. cbn [chain_footprint] in H.
    destruct c as [c|]; [|by injection H as <-; set_solver].
    destruct (footprint_of k ns c) as [a|] eqn:Ea; [|done]. cbn in H.
    destruct (ns !! c) as [cn|] eqn:Hn; [|done]. cbn in H.
    destruct (chain_footprint k ns (next cn)) as [r|] eqn:Er; [|done].
    injection H as <-. apply elem_of_app in Hj as [Hj|Hj].
    + by eapply IHt.
    + by eapply IHc.
Qed.

Lemma free_slots_released fp ns :
  NoDup fp → (∀ j, j ∈ fp → ∃ n, ns !! j = Some n ∧ type n ≠ NODE_EMPTY) →
  free_slots (release fp ns) = length fp + free_slots ns.
Proof.
  induction fp as [|i fp IH] using rev_ind; intros Hnd Hlive.
  - cbn [length]. replace (release [] ns) with ns; [done|].
    apply list_eq. intros j. rewrite release_lookup.
    destruct (ns !! j); [|done]. cbn. by rewrite bool_decide_false by set_solver.
  - apply NoDup_app in Hnd as (Hnd & Hdisj & _).
    rewrite <- release_cons. destruct (Hlive i) as (n & Hn & Hne); [set_solver|].
    rewrite (free_slots_release _ i n).
    + rewrite IH; [|done|intros; apply Hlive; set_solver].
      rewrite length_app. cbn. lia.
    + rewrite release_lookup_out; [done|]. intros Hi. apply (Hdisj i Hi). left.
    + done.
Qed.

(** [math2_free_node] on a node releases the slots of its whole subtree, each
    of them once, and nothing else: the other slots are untouched, the
    released ones keep their links and payload, and the count of free slots
    grows by the size of the subtree. *)
Theorem math2_free_node_releases_subtree (fuel k : nat) (e : math_expr2_t)
    (i : nat) (fp : list nat) :
  footprint_of k (nodes e) i = Some fp → NoDup fp → k ≤ fuel →
  ∃ e',
    math2_free_node fuel (Some i) e = Some ((), e') ∧
    e' = with_nodes (nodes e') e ∧
    (∀ j, j ∈ fp → slot_empty (nodes e') j) ∧
    (∀ j, j ∉ fp → nodes e' !! j = nodes e !! j) ∧
    (∀ j n, nodes e !! j = Some n →
            ∃ n', nodes e' !! j = Some n' ∧ parent n' = parent n ∧
                  next n' = next n ∧ prev n' = prev n ∧ data n' = data n) ∧
    free_slots (nodes e') = length fp + free_slots (nodes e).
Proof.
  intros H Hnd Hf.
  exists (with_nodes (release fp (nodes e)) e).
  split; [by apply (proj1 (free_releases k))|]. split; [done|].
  cbn [nodes with_nodes]. split; [|split; [|split]].
  - intros j Hj.
    destruct (proj1 (footprint_live k (nodes e)) _ _ H j Hj) as (n & Hn & _).
    exists (set_type NODE_EMPTY n). split; [|done].
    by rewrite release_lookup, Hn, bool_decide_true.
  - intros j Hj. by apply release_lookup_out.
  - intros j n Hn. rewrite release_lookup, Hn. cbn.
    eexists. split; [done|]. by case_bool_decide.
  - apply free_slots_released; [done|].
    apply (proj1 (footprint_live k (nodes e)) _ _ H).
Qed.

(** The footprint of a node does not depend on the links of the node
    itself. *)
Lemma footprint_root_frame k ns ns' i fp n n' :
  footprint_of k ns i = Some fp → NoDup fp →
  ns !! i = Some n → ns' !! i = Some n' →
  type n' = type n → data n' = data n →
  (∀ j, j ∈ fp → j ≠ i → ns' !! j = ns !! j) →
  footprint_of k ns' i = Some fp.
Proof.
  intros H Hnd Hn Hn' Ht Hd Hsame. destruct k as [|k]; [done|].
  cbn [footprint_of] in *. rewrite Hn in H. rewrite Hn'. cbn in *.
  rewrite Ht.
  unfold frac_numer, frac_denom, exp_base, exp_power, subscript_base,
    subscript_sub, root_content, nthroot_index, nthroot_content, abs_content,
    paren_content, func_arg, mixed_whole, mixed_numer, mixed_denom in *.
  rewrite Hd.
  destruct (type n); try done; split_binds slot_footprint; injection H as <-;
    apply NoDup_cons in Hnd as [Hi Hnd];
    repeat match goal with
           | E : slot_footprint k ns ?p = Some ?a |- _ =>
               apply (proj1 (proj2 (footprint_frame k ns ns'))) in E;
               [rewrite E; clear E|];
               [|intros j Hj; apply Hsame; [set_solver|];
                 intros ->; apply Hi; set_solver]
           end; done.
Qed.

(** [math2_delete] with a node before the cursor unlinks it, releases all the
    slots of its subtree and moves the cursor one child back; the other
    children keep their order and no other node changes its type. *)
Theorem math2_delete_subtree (k : nat) (e : math_expr2_t) (s a : nat)
    (l1 l2 fp : list nat) :
  cursor e = mk_cursor (Some s) (Some a) →
  linked (nodes e) s (l1 ++ a :: l2) →
  footprint_of k (nodes e) a = Some fp → NoDup fp → k ≤ free_fuel →
  (∀ j, j ∈ s :: l1 ++ l2 → j ∉ fp) →
  ∃ e',
    exec math2_delete e = Some e' ∧
    e' = with_cursor (cursor e') (with_nodes (nodes e') e) ∧
    cursor e' = mk_cursor (Some s) (last l1) ∧
    linked (nodes e') s (l1 ++ l2) ∧
    (∀ j, j ∈ fp → slot_empty (nodes e') j) ∧
    free_slots (nodes e') = length fp + free_slots (nodes e) ∧
    (∀ j, j ∉ fp → j ≠ s → last l1 ≠ Some j → head l2 ≠ Some j →
          nodes e' !! j = nodes e !! j) ∧
    (∀ j n, nodes e !! j = Some n → j ∉ fp →
       ∃ n', nodes e' !! j = Some n' ∧ type n' = type n ∧
             (j ≠ s → data n' = data n)).
Proof.
  intros Hc Hl Hfp Hnd Hk Hout.
  destruct (linked_child _ _ _ _ _ Hl) as (an & Ha & _ & _ & Hpv & _).
  destruct (proj1 (footprint_head k (nodes e)) _ _ Hfp) as (r & ->).
  assert (wp math2_delete
            (λ _ e', ∃ ns,
               rewritten (after_remove s a (last l1) (head l2)) (nodes e) ns ∧
               linked ns s (l1 ++ l2) ∧
               nodes e' = release (a :: r) ns ∧
               e' = with_cursor (mk_cursor (Some s) (last l1))
                      (with_nodes (nodes e') e)) e) as Hwp.
  { unfold math2_delete. apply wp_bind, wp_gets. rewrite Hc. cbn [after].
    apply wp_bind. eapply wp_load; [exact Ha|]. cbn beta.
    apply wp_bind, wp_modify. rewrite Hpv.
    apply wp_bind. eapply wp_mono.
    { apply (wp_remove_linked _ s l1 a l2). exact Hl. }
    cbn beta. intros _ e5 (He5 & Hrw & Hl5).
    cbn [nodes with_cursor_after with_cursor] in Hrw.
    pose proof (rewritten_lookup _ _ _ _ _ Hrw Ha) as Ha5.
    destruct (after_remove_kind s a (last l1) (head l2) a an) as [Hk1 Hk2].
    assert (a ≠ s) as Has.
    { intros ->. apply (Hout s); left. }
    assert (footprint_of k (nodes e5) a = Some (a :: r)) as Hfp5.
    { eapply (footprint_root_frame k (nodes e)); try done; [by apply Hk2|].
      intros j Hj Hja. rewrite Hrw.
      destruct (nodes e !! j) as [n|]; [|done]. cbn. f_equal.
      apply after_remove_other. intros Hin.
      rewrite elem_of_cons, elem_of_app, elem_of_cons in Hin.
      destruct Hin as [->|[Hin|[->|Hin]]]; [| |done|].
      - apply (Hout s); [left|done].
      - apply (Hout j); [|done]. set_solver.
      - apply (Hout j); [|done]. set_solver. }
    eapply wp_run.
    { apply (proj1 (free_releases k) _ _ e5 free_fuel Hfp5 Hnd Hk). }
    exists (nodes e5). split; [done|]. split; [done|]. split; [done|].
    rewrite He5. unfold with_nodes, with_cursor_after, with_cursor. cbn.
    by rewrite Hc. }
  destruct (wp_exec _ _ _ Hwp) as ([] & e' & Hrun & _ & ns & Hrw & Hl5 & Hn & He').
  exists e'. split; [done|].
  split. { rewrite He' at 1. f_equal. by rewrite He'. }
  split; [by rewrite He'|].
  assert (∀ j, j ∈ a :: r → ∃ n, ns !! j = Some n ∧ type n ≠ NODE_EMPTY) as Hlive.
  { intros j Hj.
    destruct (proj1 (footprint_live k (nodes e)) _ _ Hfp j Hj) as (n & Hjn & Hne).
    exists (after_remove s a (last l1) (head l2) j n).
    split; [by apply (rewritten_lookup _ _ _ _ _ Hrw)|].
    by rewrite (proj1 (after_remove_kind s a (last l1) (head l2) j n)). }
  split.
  { eapply linked_same; [exact Hl5|]. intros j Hj. rewrite Hn.
    apply release_lookup_out. by apply Hout. }
  split.
  { intros j Hj. destruct (Hlive j Hj) as (n & Hjn & _).
    exists (set_type NODE_EMPTY n). split; [|done].
    by rewrite Hn, release_lookup, Hjn, bool_decide_true. }
  split.
  { rewrite Hn, free_slots_released by done. f_equal.
    apply (free_slots_rewritten _ _ _ Hrw). intros. apply after_remove_kind. }
  split.
  { intros j Hj Hjs Hj1 Hj2. rewrite Hn, release_lookup_out by done.
    rewrite Hrw. destruct (nodes e !! j) as [n|]; [|done]. cbn. f_equal.
    unfold after_remove. rewrite !decide_False; try done.
    intros ->. apply Hj. left. }
  intros j n Hjn Hj. exists (after_remove s a (last l1) (head l2) j n).
  split; [|apply after_remove_kind].
  rewrite Hn, release_lookup_out by done.
  by apply (rewritten_lookup _ _ _ _ _ Hrw).
Qed.

(** [math2_clear] releases every slot under the root, keeps the root as an
    empty sequence with the cursor in it, clears both modes and leaves the
    LaTeX buffer and the round-robin index as they are. *)
Theorem math2_clear_empties (k : nat) (e : math_expr2_t) (r : nat) (fp : list nat) :
  root e = Some r →
  slot_footprint k (nodes e) (Some r) = Some (r :: fp) → NoDup (r :: fp) →
  k ≤ free_fuel →
  ∃ e',
    exec math2_clear e = Some e' ∧
    expression e' = Some [] ∧
    linked (nodes e') r [] ∧
    cursor e' = mk_cursor (Some r) NULL ∧
    shift_mode e' = false ∧ alpha_mode e' = false ∧
    root e' = root e ∧ next_free e' = next_free e ∧ latex e' = latex e ∧
    (∀ j, j ∈ fp → slot_empty (nodes e') j) ∧
    (∀ j, j ∉ r :: fp → nodes e' !! j = nodes e !! j) ∧
    free_slots (nodes e') = length fp + free_slots (nodes e).
Proof.
  intros Hr Hfp Hnd Hk. destruct k as [|k]; [done|].
  cbn [slot_footprint] in Hfp. cbn in Hfp.
  destruct (nodes e !! r) as [rn|] eqn:Hrn; [|done]. cbn in Hfp.
  destruct (decide (type rn = NODE_SEQUENCE)) as [Ht|]; [|done].
  destruct (chain_footprint k (nodes e) (seq_first rn)) as [cs|] eqn:E; [|done].
  injection Hfp as <-. apply NoDup_cons in Hnd as [Hrfp Hnd].
  set (ns1 := release cs (nodes e)).
  set (rn' := set_seq_last NULL (set_seq_first NULL rn)).
  set (ns2 := alter (set_seq_last NULL) r (alter (set_seq_first NULL) r ns1)).
  assert (ns1 !! r = Some rn) as Hr1.
  { unfold ns1. by rewrite release_lookup_out. }
  assert (ns2 !! r = Some rn') as Hr2.
  { unfold ns2. by rewrite !list_lookup_alter_eq, Hr1. }
  assert (wp math2_clear
            (λ _ e', e' = with_alpha_mode false (with_shift_mode false
                            (with_cursor (mk_cursor (Some r) NULL)
                               (with_nodes ns2 e)))) e)
    as (u & e' & Hrun & ->).
  { unfold math2_clear. apply wp_bind, wp_gets. rewrite Hr.
    apply wp_bind. eapply wp_deref; [exact Hrn|].
    apply wp_bind. eapply wp_run.
    { apply (proj2 (proj2 (free_releases k)) _ _ e free_fuel E Hnd). lia. }
    apply wp_bind. cbn [when_ptr]. apply wp_bind.
    eapply wp_store; [exact Hr1|].
    eapply wp_store;
      [cbn [nodes with_nodes]; fold ns1; by rewrite list_lookup_alter_eq, Hr1|].
    apply wp_bind, wp_gets. cbn [root with_nodes]. rewrite Hr.
    apply wp_bind, wp_modify. apply wp_bind, wp_modify.
    unfold math2_clear_modes. apply wp_bind, wp_modify. apply wp_modify.
    done. }
  exists (with_alpha_mode false (with_shift_mode false
            (with_cursor (mk_cursor (Some r) NULL) (with_nodes ns2 e)))).
  split; [unfold exec; by rewrite Hrun|].
  cbn [nodes cursor shift_mode alpha_mode root next_free latex with_alpha_mode
       with_shift_mode with_cursor with_nodes].
  assert (linked ns2 r []) as Hl.
  { eapply linked_empty; [exact Hr2|done..]. }
  split.
  { unfold expression.
    cbn [nodes root with_alpha_mode with_shift_mode with_cursor with_nodes].
    rewrite Hr.
    assert (render_fuel = S (S (render_fuel - 2))) as -> by reflexivity.
    generalize (render_fuel - 2). intros f.
    cbn [slot_of chain_of mbind option_bind].
    rewrite Hr2. cbn [mbind option_bind]. rewrite decide_True by done.
    done. }
  repeat (split; [done|]).
  split.
  { intros j Hj.
    destruct (proj2 (proj2 (footprint_live k (nodes e))) _ _ E j Hj) as (n & Hn & _).
    exists (set_type NODE_EMPTY n). split; [|done].
    assert (j ≠ r) as Hjr by (intros ->; done).
    unfold ns2, ns1. rewrite !list_lookup_alter_ne by done.
    by rewrite release_lookup, Hn, bool_decide_true. }
  split.
  { intros j Hj. apply not_elem_of_cons in Hj as [Hjr Hj].
    unfold ns2, ns1. rewrite !list_lookup_alter_ne by done.
    by apply release_lookup_out. }
  unfold ns2. rewrite !free_slots_alter by done.
  apply free_slots_released; [done|].
  apply (proj2 (proj2 (footprint_live k (nodes e))) _ _ E).
Qed.

(** ** The draw pass and the display *)

Section DrawFrame.
Context (e : math_expr2_t) (s : draw_settings).

Lemma dblind_ret {A} (x : A) : display_blind (mret x : D A).
Proof. by intros d b disp. Qed.

Lemma dblind_lift {A} (o : option A) : display_blind (lift o).
Proof. intros d b disp. by destruct o. Qed.

Lemma dblind_call c : display_blind (call c).
Proof. intros d b disp. unfold call. cbn. by rewrite app_assoc. Qed.

Lemma dblind_calls cs : display_blind (calls cs).
Proof. intros d b disp. unfold calls. cbn. by rewrite app_assoc. Qed.

Lemma dblind_get : display_blind get_paren_depth.
Proof. by intros d b disp. Qed.

Lemma dblind_set d' : display_blind (set_paren_depth d').
Proof. by intros d b disp. Qed.

Lemma dblind_bind {A B} (m : D A) (f : A → D B) :
  display_blind m → (∀ x, display_blind (f x)) → display_blind (m ≫= f).
Proof.
  intros Hm Hf d b disp. unfold mbind, D_bind.
  rewrite (Hm d b disp).
  destruct (m (mk_draw_state d disp)) as [[x [d' disp']]|]; [|done].
  cbn. apply Hf.
Qed.

Create HintDb dblind discriminated.
Hint Resolve dblind_ret dblind_lift dblind_call dblind_calls dblind_get dblind_set
  : dblind.

Ltac dblind_tac :=
  repeat first
    [ progress eauto with dblind
    | apply dblind_bind; [|intros ?]
    | match goal with
      | |- display_blind (match ?x with _ => _ end) => destruct x
      | |- display_blind (let _ := _ in _) => cbv zeta
      end ].

Lemma dblind_draw_placeholder x y w h b : display_blind (draw_placeholder s x y w h b).
Proof. unfold draw_placeholder. dblind_tac. Qed.

Lemma dblind_draw_cursor_line x y h : display_blind (draw_cursor_line s x y h).
Proof. unfold draw_cursor_line. dblind_tac. Qed.

Lemma dblind_slot_is_empty p : display_blind (slot_is_empty e p).
Proof. unfold slot_is_empty. dblind_tac. Qed.

Lemma dblind_draw_text n x y : display_blind (draw_text n x y).
Proof. unfold draw_text. dblind_tac. Qed.

Lemma dblind_draw_root_symbol x yb rx ry rh rw mw :
  display_blind (draw_root_symbol x yb rx ry rh rw mw).
Proof. unfold draw_root_symbol. dblind_tac. Qed.

Lemma dblind_draw_parens m x y w c : display_blind (draw_parens m x y w c).
Proof. unfold draw_parens. dblind_tac. Qed.

Lemma dblind_measure p fs : display_blind (measure e p fs).
Proof. unfold measure. dblind_tac. Qed.

Lemma dblind_paren_color_at d : display_blind (paren_color_at s d).
Proof. unfold paren_color_at. dblind_tac. Qed.

Lemma dblind_cursor_mark b cx yb fs : display_blind (cursor_mark s b cx yb fs).
Proof.
  unfold cursor_mark. cbv zeta. destruct b; dblind_tac.
  apply dblind_draw_cursor_line.
Qed.

Hint Resolve dblind_draw_placeholder dblind_draw_cursor_line dblind_slot_is_empty
  dblind_draw_text dblind_draw_root_symbol dblind_draw_parens dblind_measure
  dblind_paren_color_at dblind_cursor_mark : dblind.

Lemma dblind_draw_slot ds slot px py pw ph sx sy sc :
  (∀ p x y f, display_blind (ds p x y f)) →
  display_blind (draw_slot e s ds slot px py pw ph sx sy sc).
Proof. intros H. unfold draw_slot. dblind_tac. Qed.

Hint Resolve dblind_draw_slot : dblind.

Lemma dblind_draw_container ds n m x yb fs :
  (∀ p x y f, display_blind (ds p x y f)) →
  display_blind (draw_container e s ds n m x yb fs).
Proof. intros H. unfold draw_container. cbv zeta. destruct (type n); dblind_tac. Qed.

Lemma dblind_draw_paren_body ds n m c pc x yb fs :
  (∀ p x y f, display_blind (ds p x y f)) →
  display_blind (draw_paren_body e s ds n m c pc x yb fs).
Proof. intros H. unfold draw_paren_body. cbv zeta. dblind_tac. Qed.

Hint Resolve dblind_draw_container dblind_draw_paren_body : dblind.

Lemma dblind_draw fuel :
  (∀ node x y fs, display_blind (math2_draw_node e s fuel node x y fs)) ∧
  (∀ seq x y fs, display_blind (draw_sequence e s fuel seq x y fs)) ∧
  (∀ child here cx y fs, display_blind (draw_children e s fuel child here cx y fs)).
Proof.
  induction fuel as [|fuel (IHn & IHs & IHc)].
  - repeat split; intros; cbn; dblind_tac.
  - repeat split; intros; simpl.
    + destruct node; [|dblind_tac]. dblind_tac.
    + destruct seq; [|dblind_tac]. dblind_tac.
    + destruct child; [|dblind_tac]. dblind_tac.
Qed.

(** [math2_draw] only adds calls at the end of the display: what it adds does
    not depend on what was drawn before, and it leaves the depth of the
    parentheses as it found it. *)
Theorem math2_draw_frame (x y : Z) (d : Z) (before : list draw_call) :
  math2_draw e s x y (mk_draw_state d before)
    = onto before (math2_draw e s x y (mk_draw_state d [])) ∧
  (∀ st', math2_draw e s x y (mk_draw_state d before) = Some ((), st') →
          g_paren_depth st' = d ∧ ∃ new, display st' = before ++ new).
Proof.
  assert (display_blind (math2_draw e s x y)) as Hb.
  { unfold math2_draw. dblind_tac. apply dblind_draw. }
  assert (math2_draw e s x y (mk_draw_state d before)
          = onto before (math2_draw e s x y (mk_draw_state d []))) as Heq.
  { rewrite <- (Hb d before []). by rewrite app_nil_r. }
  split; [done|]. intros st' H. split.
  - assert (same_at d (math2_draw e s x y)
              (m ← measure e (root e) 100;
               draw_sequence_nested e s render_fuel d (root e) x (y + baseline m) 100))
      as Hsame.
    { unfold math2_draw.
      apply same_at_bind; [apply same_at_refl|apply blind_measure|intros m].
      apply draw_follows_nesting. }
    rewrite (Hsame before) in H. eapply blind_depth in H; [done|].
    apply blind_bind; [apply blind_measure|intros m]. apply blind_nested.
  - rewrite Heq in H.
    destruct (math2_draw e s x y (mk_draw_state d [])) as [[u [d' new]]|]; [|done].
    cbn in H. injection H as _ <-. by exists new.
Qed.

End DrawFrame.

(** ** The properties at work on concrete states *)

Lemma seq_insert_after_places_node_witness :
  ∃ e', exec (seq_insert_after (Some 0) (Some 2) (Some 3)) typed_12_spare = Some e' ∧
        linked (nodes e') 0 [1; 2; 3].
Proof.
  destruct (seq_insert_after_places_node typed_12_spare 0 3 [1; 2] []
              (mk_node NODE_TEXT NULL NULL NULL (DText TEXT_NUMBER EmptyString)))
    as (e' & H1 & _ & H2 & _).
  - apply linkedb_sound. vm_compute. reflexivity.
  - apply (bool_decide_unpack _). vm_compute. exact I.
  - vm_compute. reflexivity.
  - vm_compute. discriminate.
  - exists e'. exact (conj H1 H2).
Defined.

Lemma seq_remove_unlinks_node_witness :
  ∃ e', exec (seq_remove (Some 1)) typed_12 = Some e' ∧ linked (nodes e') 0 [2].
Proof.
  destruct (seq_remove_unlinks_node typed_12 0 1 [] [2]) as (e' & an & H1 & _ & H2 & _).
  - apply linkedb_sound. vm_compute. reflexivity.
  - exists e'. exact (conj H1 H2).
Defined.

Lemma seq_insert_then_remove_witness :
  exec (seq_insert_after (Some 0) (Some 2) (Some 3);; seq_remove (Some 3))
       typed_12_spare = Some typed_12_spare.
Proof.
  apply (seq_insert_then_remove typed_12_spare 0 3 [1; 2] []
           (mk_node NODE_SEQUENCE NULL NULL NULL (DSeq (Some 1) (Some 2)))
           (mk_node NODE_TEXT NULL NULL NULL (DText TEXT_NUMBER EmptyString))).
  - apply linkedb_sound. vm_compute. reflexivity.
  - vm_compute. reflexivity.
  - reflexivity.
  - apply (bool_decide_unpack _). vm_compute. exact I.
  - vm_compute. reflexivity.
  - vm_compute. discriminate.
  - reflexivity.
  - reflexivity.
  - reflexivity.
Defined.

Lemma seq_is_empty_linked_witness :
  seq_is_empty (Some 0) typed_12 = Some (bool_decide ([1; 2] = []), typed_12).
Proof.
  apply (seq_is_empty_linked typed_12 0 [1; 2]).
  apply linkedb_sound. vm_compute. reflexivity.
Defined.

Lemma cursor_right_left_inverse_witness :
  cursor_left typed_12
    = Some (true, with_cursor (mk_cursor (Some 0) (Some 1)) typed_12).
Proof.
  destruct (cursor_right_left_inverse typed_12 0 2 [1] []) as [_ H].
  - apply linkedb_sound. vm_compute. reflexivity.
  - exact H.
Defined.

Lemma key_right_then_key_left_witness :
  exec (key_right;; key_left) before_paren = Some before_paren.
Proof.
  apply (key_right_then_key_left before_paren 0 2 [1] []
           (mk_node NODE_PAREN (Some 0) NULL (Some 1) (DParen (Some 3)))).
  - apply linkedb_sound. vm_compute. reflexivity.
  - vm_compute. reflexivity.
  - right. exists 3, (mk_node NODE_SEQUENCE (Some 2) NULL NULL (DSeq (Some 4) (Some 4))).
    vm_compute. repeat split; reflexivity.
  - reflexivity.
Defined.

Lemma key_left_then_key_right_witness :
  exec (key_left;; key_right) typed_paren = Some typed_paren.
Proof.
  apply (key_left_then_key_right typed_paren 0 2 [1] []
           (mk_node NODE_PAREN (Some 0) NULL (Some 1) (DParen (Some 3)))).
  - apply linkedb_sound. vm_compute. reflexivity.
  - vm_compute. reflexivity.
  - right.
    exists 3, (mk_node NODE_SEQUENCE (Some 2) NULL NULL (DSeq (Some 4) (Some 4))), [4].
    split; [reflexivity|]. split; [vm_compute; reflexivity|].
    split; [reflexivity|]. apply linkedb_sound. vm_compute. reflexivity.
  - reflexivity.
Defined.

Lemma math2_insert_text_at_cursor_witness :
  ∃ e' x, exec (math2_insert_text TEXT_NUMBER "3") typed_12 = Some e' ∧
          linked (nodes e') 0 [1; 2; x] ∧ cursor e' = mk_cursor (Some 0) (Some x).
Proof.
  destruct (math2_insert_text_at_cursor TEXT_NUMBER "3" typed_12 0 [1; 2] [])
    as (e' & x & xn & H1 & _ & _ & _ & _ & _ & H2 & H3 & _).
  - vm_compute. lia.
  - vm_compute. lia.
  - reflexivity.
  - apply linkedb_sound. vm_compute. reflexivity.
  - exists e', x. exact (conj H1 (conj H2 H3)).
Defined.

Lemma math2_insert_text_then_delete_witness :
  ∃ e', exec (math2_insert_text TEXT_NUMBER "3";; math2_delete) typed_12 = Some e' ∧
        cursor e' = cursor typed_12 ∧ expression e' = expression typed_12.
Proof.
  destruct (math2_insert_text_then_delete TEXT_NUMBER "3" typed_12 0
              (mk_node NODE_SEQUENCE NULL NULL NULL (DSeq (Some 1) (Some 2)))
              [1; 2] [])
    as (e' & x & H1 & _ & _ & _ & H2 & _ & _ & _ & _ & _ & H3).
  - vm_compute. lia.
  - vm_compute. lia.
  - reflexivity.
  - apply linkedb_sound. vm_compute. reflexivity.
  - vm_compute. reflexivity.
  - reflexivity.
  - exists e'. exact (conj H1 (conj H2 H3)).
Defined.

Lemma math2_delete_at_start_witness :
  exec math2_delete math2_init = Some math2_init.
Proof.
  destruct (math2_delete_at_start math2_init) as (_ & H & _).
  - reflexivity.
  - apply H. exists 0, (mk_node NODE_SEQUENCE NULL NULL NULL (DSeq NULL NULL)).
    vm_compute. repeat split; reflexivity.
Defined.

Lemma math2_alloc_then_free_witness :
  ∃ x e1 e2,
    math2_alloc_node NODE_PAREN typed_12 = Some (Some x, e1) ∧
    math2_free_node 2 (Some x) e1 = Some ((), e2) ∧
    free_slots (nodes e2) = free_slots (nodes typed_12).
Proof.
  destruct (math2_alloc_then_free NODE_PAREN 0 typed_12)
    as (x & e1 & e2 & H1 & H2 & _ & _ & _ & H3 & _).
  - vm_compute. lia.
  - vm_compute. lia.
  - exists x, e1, e2. exact (conj H1 (conj H2 H3)).
Defined.

Lemma container_insertion_with_room_witness :
  ∃ e', exec (run_insert InsertMixedFrac) typed_12 = Some e' ∧
        inserted InsertMixedFrac typed_12 0 [1; 2] [] e'.
Proof.
  apply (container_insertion_with_room InsertMixedFrac typed_12 0 [1; 2] []).
  - reflexivity.
  - vm_compute. lia.
  - vm_compute. lia.
  - reflexivity.
  - apply linkedb_sound. vm_compute. reflexivity.
Defined.

Lemma math2_to_latex_of_expression_witness :
  math2_to_latex typed_paren
    = Some ((), with_latex (latex_trees [TText TEXT_NUMBER "1";
                                         TParen [TText TEXT_NUMBER "2"]])
                           typed_paren).
Proof.
  destruct (math2_to_latex_of_expression typed_paren
              [TText TEXT_NUMBER "1"; TParen [TText TEXT_NUMBER "2"]]) as [H _].
  - vm_compute. reflexivity.
  - apply H. vm_compute. lia.
Defined.

Lemma math2_measure_box_witness :
  ∃ m, math2_measure render_fuel (nodes typed_paren) (root typed_paren) 70 = Some m ∧
       (0 ≤ width m)%Z ∧ (0 ≤ baseline m ≤ height m)%Z.
Proof.
  destruct (math2_measure_box 10 render_fuel (nodes typed_paren) (root typed_paren)
              [TText TEXT_NUMBER "1"; TParen [TText TEXT_NUMBER "2"]] 70)
    as (m & H1 & [H2 _] & H3 & _).
  - vm_compute. reflexivity.
  - vm_compute. lia.
  - lia.
  - exists m. exact (conj H1 (conj H2 H3)).
Defined.

Lemma math2_measure_of_expression_witness :
  math2_get_width typed_paren
    = Some (width (measure_slot [TText TEXT_NUMBER "1";
                                 TParen [TText TEXT_NUMBER "2"]] 100)).
Proof.
  destruct (math2_measure_of_expression typed_paren 10
              [TText TEXT_NUMBER "1"; TParen [TText TEXT_NUMBER "2"]])
    as (_ & H & _).
  - vm_compute. reflexivity.
  - vm_compute. lia.
  - exact H.
Defined.

Lemma math2_free_node_releases_subtree_witness :
  ∃ e', math2_free_node free_fuel (Some 2) typed_paren = Some ((), e') ∧
        free_slots (nodes e') = 3 + free_slots (nodes typed_paren).
Proof.
  destruct (math2_free_node_releases_subtree free_fuel 4 typed_paren 2 [2; 3; 4])
    as (e' & H1 & _ & _ & _ & _ & H2).
  - vm_compute. reflexivity.
  - apply (bool_decide_unpack _). vm_compute. exact I.
  - vm_compute. lia.
  - exists e'. exact (conj H1 H2).
Defined.

Lemma math2_delete_subtree_witness :
  ∃ e', exec math2_delete typed_paren = Some e' ∧
        cursor e' = mk_cursor (Some 0) (Some 1) ∧ linked (nodes e') 0 [1] ∧
        free_slots (nodes e') = 3 + free_slots (nodes typed_paren).
Proof.
  destruct (math2_delete_subtree 4 typed_paren 0 2 [1] [] [2; 3; 4])
    as (e' & H1 & _ & H2 & H3 & _ & H4 & _).
  - reflexivity.
  - apply linkedb_sound. vm_compute. reflexivity.
  - vm_compute. reflexivity.
  - apply (bool_decide_unpack _). vm_compute. exact I.
  - vm_compute. lia.
  - intros j Hj Hfp. simpl in Hj.
    rewrite !elem_of_cons, elem_of_nil in Hj.
    rewrite !elem_of_cons, elem_of_nil in Hfp. lia.
  - exists e'. exact (conj H1 (conj H2 (conj H3 H4))).
Defined.

Lemma math2_clear_empties_witness :
  ∃ e', exec math2_clear typed_paren = Some e' ∧ expression e' = Some [] ∧
        free_slots (nodes e') = 4 + free_slots (nodes typed_paren).
Proof.
  destruct (math2_clear_empties 10 typed_paren 0 [1; 2; 3; 4])
    as (e' & H1 & H2 & _ & _ & _ & _ & _ & _ & _ & _ & _ & H3).
  - reflexivity.
  - vm_compute. reflexivity.
  - apply (bool_decide_unpack _). vm_compute. exact I.
  - vm_compute. lia.
  - exists e'. exact (conj H1 (conj H2 H3)).
Defined.

Lemma key_down_then_key_up_witness :
  exec key_up typed_frac
    = Some (with_cursor (mk_cursor (Some 3) (Some 1)) typed_frac) ∧
  exec (key_up;; key_down) typed_frac
    = Some (with_cursor (mk_cursor (Some 4) NULL) typed_frac).
Proof.
  destruct (key_down_then_key_up typed_frac 2 3 4
              (mk_node NODE_FRACTION (Some 0) NULL NULL (DFrac (Some 3) (Some 4)))
              (mk_node NODE_SEQUENCE (Some 2) NULL NULL (DSeq (Some 1) (Some 1)))
              (mk_node NODE_SEQUENCE (Some 2) NULL NULL (DSeq (Some 5) (Some 5))))
    as (_ & _ & H).
  - vm_compute. reflexivity.
  - apply (bool_decide_unpack _). vm_compute. exact I.
  - vm_compute. reflexivity.
  - reflexivity.
  - reflexivity.
  - vm_compute. reflexivity.
  - reflexivity.
  - reflexivity.
  - vm_compute. reflexivity.
  - apply H. reflexivity.
Defined.

Lemma cursor_enter_then_exit_witness :
  exec (cursor_enter;; cursor_exit) typed_paren = Some typed_paren.
Proof.
  destruct (cursor_enter_then_exit typed_paren 0 2 3 [1] []
              (mk_node NODE_PAREN (Some 0) NULL (Some 1) (DParen (Some 3)))
              (mk_node NODE_SEQUENCE (Some 2) NULL NULL (DSeq (Some 4) (Some 4))))
    as [_ H].
  - reflexivity.
  - apply linkedb_sound. vm_compute. reflexivity.
  - vm_compute. reflexivity.
  - reflexivity.
  - vm_compute. reflexivity.
  - reflexivity.
  - reflexivity.
  - exact H.
Defined.

Lemma math2_insert_subscript_collects_witness :
  ∃ e' x b p,
    exec math2_insert_subscript typed_12 = Some e' ∧
    linked (nodes e') 0 [1; x] ∧ linked (nodes e') b [2] ∧
    cursor e' = mk_cursor (Some p) NULL.
Proof.
  destruct (math2_insert_subscript_collects typed_12 0 [1; 2] [])
    as (e' & x & b & p & xn & kept & base & H1 & H2 & H3 & H4 & _ & _ & _ & _ & _
        & _ & H5 & H6 & _ & _ & H7 & _).
  - vm_compute. lia.
  - vm_compute. lia.
  - reflexivity.
  - apply linkedb_sound. vm_compute. reflexivity.
  - assert (base = [2]) as ->.
    { assert (2 ∈ base) as Hin.
      { apply H4. split; [reflexivity|]. eexists. split; reflexivity. }
      clear -Hin H3.
      destruct base as [|z [|? ?]];
        [by apply elem_of_nil in Hin| |cbn [length] in H3; lia].
      apply list_elem_of_singleton in Hin as ->. reflexivity. }
    assert (kept = [1]) as ->.
    { clear -H2. destruct kept as [|k [|? ?]]; [discriminate| |].
      - by injection H2 as <-.
      - injection H2 as _ H2. destruct l; discriminate. }
    exists e', x, b, p. exact (conj H1 (conj H5 (conj H6 H7))).
Defined.

Lemma math2_insert_fraction_collects_nothing_witness :
  ∃ e', exec math2_insert_fraction typed_1_plus = Some e' ∧
        inserted InsertFraction typed_1_plus 0 [1; 2] [] e'.
Proof.
  apply (math2_insert_fraction_collects_nothing typed_1_plus 0 [1; 2] []).
  - vm_compute. lia.
  - vm_compute. lia.
  - reflexivity.
  - apply linkedb_sound. vm_compute. reflexivity.
  - right. split; [reflexivity|].
    exists 2, (mk_node NODE_TEXT (Some 0) NULL (Some 1) (DText TEXT_OPERATOR "+")).
    split; [reflexivity|]. split; [vm_compute; reflexivity|].
    split; reflexivity.
Defined.
